(** * mini-typescript: lexer, parser, checker and emitter, embedded in Rocq

    The development follows the repository file by file:
    - [types.ts]    tokens, syntax tree, type values, diagnostics;
    - [lexer.ts]    [Lexer.tokenize];
    - [parser.ts]   the statement and expression productions used below;
    - [checker.ts]  [Checker.check] with its environments and [isAssignable];
    - [emitter.ts]  [Emitter.emit].

    JavaScript strings are modelled by [string] (one [ascii] per code
    unit), source positions by [nat].  JavaScript numbers (IEEE doubles)
    are kept abstract: the class [Numbers] holds their type and the
    class [JSRuntime] the few operations the compiler applies to them. *)

From Stdlib Require Import String Ascii List Bool Arith PArith NArith ZArith Lia
  DecimalString.
Import ListNotations.
Local Open Scope list_scope.
Local Open Scope string_scope.

Set Implicit Arguments.

(** Nested induction principles for the syntax tree and the type values
    go through these containers. *)
Scheme All for list.
Scheme All for option.
Scheme All for prod.
Scheme All for sum.

(** ** The JavaScript runtime the compiler relies on *)

(** The type of numbers; the syntax tree and the type values hold
    numbers and depend on nothing else of the runtime. *)
Class Numbers : Type := {
  number : Type
}.

Class JSRuntime {numbers : Numbers} : Type := {
  (** the number [0] *)
  num_zero : number;
  (** [x + 1] (also [x++]) on numbers *)
  num_add1 : number -> number;
  (** [String(x)], also used by template interpolation of a number *)
  num_toString : number -> string;
  (** the global [parseFloat] *)
  parseFloat : string -> number;
  (** [String.fromCodePoint] on a valid code point (at most 0x10FFFF) *)
  String_fromCodePoint : N -> string
}.

(** ** Strings *)

Definition newline : string := String (ascii_of_nat 10) "".
Definition quote : string := String (ascii_of_nat 34) "".

(** [Array.prototype.join] *)
Fixpoint join (sep : string) (l : list string) : string :=
  match l with
  | [] => ""
  | [x] => x
  | x :: r => x ++ sep ++ join sep r
  end.

(** [String.prototype.startsWith] *)
Definition startsWith (s p : string) : bool := String.prefix p s.

(** [String.prototype.repeat] *)
Fixpoint repeat_string (s : string) (n : nat) : string :=
  match n with
  | O => ""
  | S n => s ++ repeat_string s n
  end.

(** White space and line terminators, below code unit 256. *)
Definition js_isWhiteSpace (c : ascii) : bool :=
  let n := nat_of_ascii c in
  (9 <=? n)%nat && (n <=? 13)%nat || (n =? 32)%nat || (n =? 160)%nat.

Fixpoint dropWhile (p : ascii -> bool) (l : list ascii) : list ascii :=
  match l with
  | c :: r => if p c then dropWhile p r else l
  | [] => []
  end.

(** Truthiness of an optional string: [undefined] and [""] are falsy. *)
Definition truthy_string (o : option string) : bool :=
  match o with
  | Some s => negb (s =? "")
  | None => false
  end.

(** ** [Map<string, V>]: insertion-ordered, [set] on a present key
    replaces the value in place.

    A map is represented by the list of its entries in insertion order.
    An entry whose key already occurs earlier in the list is not part of
    the map: [map_get] and [map_set] never reach it, [map_set] never
    creates one, and iteration ([map_entries]) skips it.  So every list
    denotes a map, and a map's keys are distinct. *)

Definition JsMap (V : Type) : Type := list (string * V).

Fixpoint entries_from {V} (seen : list string) (m : JsMap V)
    : list (string * V) :=
  match m with
  | [] => []
  | (k, v) :: r =>
      if existsb (String.eqb k) seen then entries_from seen r
      else (k, v) :: entries_from (k :: seen) r
  end.

(** The entries, in iteration order ([for (const [k, v] of m)]). *)
Definition map_entries {V} (m : JsMap V) : list (string * V) :=
  entries_from [] m.

Fixpoint map_get {V} (m : JsMap V) (k : string) : option V :=
  match m with
  | [] => None
  | (k', v) :: r => if k' =? k then Some v else map_get r k
  end.

Fixpoint map_set {V} (m : JsMap V) (k : string) (v : V) : JsMap V :=
  match m with
  | [] => [(k, v)]
  | (k', v') :: r =>
      if k' =? k then (k, v) :: r else (k', v') :: map_set r k v
  end.

Definition map_has {V} (m : JsMap V) (k : string) : bool :=
  match map_get m k with
  | Some _ => true
  | None => false
  end.

(** * types.ts *)

Module Types.

(** ** Tokens *)

Module TokenType.
(** The members of the [TokenType] enumeration; [Type], [Set] and
    [Declare] are written [Type_], [Set_] and [Declare_]. *)
Inductive t :=
| Let | Const | Var | Function | Interface | Type_ | Return | If | Else
| While | For | Do | Break | Continue | Switch | Case | Default | Throw
| Try | Catch | Finally | New | This | Class | Extends | Implements
| Public | Private | Protected | Static | Readonly | Abstract | Get | Set_
| Constructor | Super | Import | Export | From | As | Async | Await | Yield
| Enum | Namespace | Module | Declare_ | Typeof | Keyof | Infer | In | Of
| Instanceof | Delete | NumberType | StringType | BooleanType | Void | Null
| Undefined | Any | Unknown | Never | Object | Symbol | Bigint
| Identifier | NumberLiteral | StringLiteral | TemplateLiteral
| TemplateHead | TemplateMiddle | TemplateTail | RegexLiteral | True | False
| Plus | Minus | Star | Slash | Percent | StarStar | PlusPlus | MinusMinus
| Equals | PlusEquals | MinusEquals | StarEquals | SlashEquals
| PercentEquals | EqualsEquals | EqualsEqualsEquals | BangEquals
| BangEqualsEquals | LessThan | GreaterThan | LessThanEquals
| GreaterThanEquals | Bang | Ampersand | AmpersandAmpersand | Pipe
| PipePipe | Caret | Tilde | LessThanLessThan | GreaterThanGreaterThan
| GreaterThanGreaterThanGreaterThan | Question | QuestionDot
| QuestionQuestion | Arrow | Spread | LeftParen | RightParen | LeftBrace
| RightBrace | LeftBracket | RightBracket | Colon | Semicolon | Comma | Dot
| At | EOF
(** a value that is no member: see [Lexer.keywordOrIdentifier] *)
| NotAMember.

(** Each member's position in the enumeration, for comparing members. *)
Definition tag (a : t) : positive :=
  match a with
  | Let => 1 | Const => 2 | Var => 3 | Function => 4 | Interface => 5
  | Type_ => 6 | Return => 7 | If => 8 | Else => 9 | While => 10
  | For => 11 | Do => 12 | Break => 13 | Continue => 14 | Switch => 15
  | Case => 16 | Default => 17 | Throw => 18 | Try => 19 | Catch => 20
  | Finally => 21 | New => 22 | This => 23 | Class => 24 | Extends => 25
  | Implements => 26 | Public => 27 | Private => 28 | Protected => 29
  | Static => 30 | Readonly => 31 | Abstract => 32 | Get => 33 | Set_ => 34
  | Constructor => 35 | Super => 36 | Import => 37 | Export => 38
  | From => 39 | As => 40 | Async => 41 | Await => 42 | Yield => 43
  | Enum => 44 | Namespace => 45 | Module => 46 | Declare_ => 47
  | Typeof => 48 | Keyof => 49 | Infer => 50 | In => 51 | Of => 52
  | Instanceof => 53 | Delete => 54 | NumberType => 55 | StringType => 56
  | BooleanType => 57 | Void => 58 | Null => 59 | Undefined => 60
  | Any => 61 | Unknown => 62 | Never => 63 | Object => 64 | Symbol => 65
  | Bigint => 66 | Identifier => 67 | NumberLiteral => 68
  | StringLiteral => 69 | TemplateLiteral => 70 | TemplateHead => 71
  | TemplateMiddle => 72 | TemplateTail => 73 | RegexLiteral => 74
  | True => 75 | False => 76 | Plus => 77 | Minus => 78 | Star => 79
  | Slash => 80 | Percent => 81 | StarStar => 82 | PlusPlus => 83
  | MinusMinus => 84 | Equals => 85 | PlusEquals => 86 | MinusEquals => 87
  | StarEquals => 88 | SlashEquals => 89 | PercentEquals => 90
  | EqualsEquals => 91 | EqualsEqualsEquals => 92 | BangEquals => 93
  | BangEqualsEquals => 94 | LessThan => 95 | GreaterThan => 96
  | LessThanEquals => 97 | GreaterThanEquals => 98 | Bang => 99
  | Ampersand => 100 | AmpersandAmpersand => 101 | Pipe => 102
  | PipePipe => 103 | Caret => 104 | Tilde => 105 | LessThanLessThan => 106
  | GreaterThanGreaterThan => 107
  | GreaterThanGreaterThanGreaterThan => 108 | Question => 109
  | QuestionDot => 110 | QuestionQuestion => 111 | Arrow => 112
  | Spread => 113 | LeftParen => 114 | RightParen => 115 | LeftBrace => 116
  | RightBrace => 117 | LeftBracket => 118 | RightBracket => 119
  | Colon => 120 | Semicolon => 121 | Comma => 122 | Dot => 123 | At => 124
  | EOF => 125 | NotAMember => 126
  end%positive.

Definition eqb (a b : t) : bool := Pos.eqb (tag a) (tag b).
End TokenType.

Record Token : Type := {
  tok_type : TokenType.t;
  tok_value : string;
  tok_line : nat;
  tok_column : nat
}.

(** ** Type values *)

Inductive PrimitiveKind :=
| Pnumber | Pstring | Pboolean | Pvoid | Pnull | Pundefined | Psymbol | Pbigint.

(** Parameter of a [FunctionType]; an absent [optional] reads as [false]
    at its only use ([!p.optional]). *)
Record ParamInfo (T : Type) : Type := {
  param_name : string;
  param_type : T;
  param_optional : bool
}.

(** Entry of [InterfaceType.members]. *)
Record MemberInfo (T : Type) : Type := {
  member_type : T;
  member_optional : bool;
  member_readonly : bool
}.

(** Entry of [ClassType.members]. *)
Record ClassMemberInfo (T : Type) : Type := {
  cmember_type : T;
  cmember_accessibility : option string;
  cmember_static : bool
}.

Scheme All for ParamInfo.
Scheme All for MemberInfo.
Scheme All for ClassMemberInfo.

Section TypeValues.
Context {numbers : Numbers}.

(** The carried scalar of a literal type; [null] reaches it through the
    cast in [resolveTypeNode]. *)
Inductive LiteralValue :=
| LitString (s : string)
| LitNumber (n : number)
| LitBoolean (b : bool)
| LitNull.

(** ** Syntax tree

    A node keeps the fields that the checker, the emitter or the parser
    productions embedded below read or write.  A boolean flag that may be
    absent ([optional?: boolean]) is [false] when absent: every use is a
    truth test. *)

Inductive VarKind := VarLet | VarConst | VarVar.

Definition varKind_toString (k : VarKind) : string :=
  match k with
  | VarLet => "let"
  | VarConst => "const"
  | VarVar => "var"
  end.

(** [Parameter] inside a [FunctionTypeNode]. *)
Record TypeParameterNode (T : Type) : Type := {
  tpn_name : string;
  tpn_typeAnnotation : option T;
  tpn_optional : bool
}.

Record TypeMember (T : Type) : Type := {
  tm_name : option string;
  tm_typeAnnotation : T;
  tm_optional : bool
}.

Scheme All for TypeParameterNode.
Scheme All for TypeMember.

(** [TypeNode]; the forms that [resolveTypeNode] maps to [any] without
    looking inside carry no fields. *)
Inductive TypeNode :=
| TypeReference (typeName : string) (line : nat)
| ArrayType (elementType : TypeNode)
| TupleType (elementTypes : list TypeNode)
| UnionType (types : list TypeNode)
| IntersectionType (types : list TypeNode)
| FunctionTypeNode (parameters : list (TypeParameterNode TypeNode))
                   (returnType : TypeNode)
| ObjectTypeNode (members : list (TypeMember TypeNode))
| LiteralType (value : LiteralValue)
| ConditionalType
| IndexedAccessType
| MappedType
| TypeQuery
| ParenthesizedType (type : TypeNode)
| OptionalType
| RestType
| InferType.

Scheme TypeNode_nested_ind := Induction for TypeNode Sort Prop.

(** [Parameter] *)
Record Parameter_ (E : Type) : Type := {
  p_name : string;
  p_typeAnnotation : option TypeNode;
  p_optional : bool;
  p_defaultValue : option E;
  p_rest : bool
}.

Record VariableDecl (E : Type) : Type := {
  vd_name : string;
  vd_varKind : VarKind;
  vd_typeAnnotation : option TypeNode;
  vd_initializer : option E;
  vd_line : nat
}.

Record InterfaceMember : Type := {
  im_name : string;
  im_typeAnnotation : TypeNode;
  im_optional : bool;
  im_readonly : bool
}.

Record EnumMember (E : Type) : Type := {
  em_name : string;
  em_initializer : option E
}.

Record ObjectProperty (E : Type) : Type := {
  op_key : string + E;
  op_value : E;
  op_computed : bool;
  op_shorthand : bool;
  op_method : bool
}.

Record SwitchCase (E S : Type) : Type := {
  sc_test : option E;
  sc_consequent : list S
}.

Record CatchClause (E S : Type) : Type := {
  cc_param : option (Parameter_ E);
  cc_body : list S
}.

Inductive ClassMember (E S : Type) : Type :=
| PropertyDeclaration (name : string) (typeAnnotation : option TypeNode)
    (initializer : option E) (accessibility : option string) (isStatic : bool)
| MethodDeclaration (name : string) (parameters : list (Parameter_ E))
    (returnType : option TypeNode) (body : option (list S))
    (accessibility : option string) (isStatic isAsync : bool)
| ConstructorDeclaration (parameters : list (Parameter_ E)) (body : list S)
| GetterDeclaration (name : string) (body : list S) (isStatic : bool)
| SetterDeclaration (name : string) (parameter : Parameter_ E) (body : list S)
    (isStatic : bool).

Arguments PropertyDeclaration {E S}.
Arguments MethodDeclaration {E S}.
Arguments ConstructorDeclaration {E S}.
Arguments GetterDeclaration {E S}.
Arguments SetterDeclaration {E S}.

Inductive ImportSpecifier :=
| ImportDefaultSpecifier (local : string)
| ImportNamespaceSpecifier (local : string)
| ImportNamedSpecifier (imported local : string).

Record ExportSpecifier : Type := {
  es_local : string;
  es_exported : string
}.

Scheme All for Parameter_.
Scheme All for VariableDecl.
Scheme All for EnumMember.
Scheme All for ObjectProperty.
Scheme All for SwitchCase.
Scheme All for CatchClause.
Scheme All for ClassMember.

(** A [BlockStatement] held in a field ([body], [block], [finalizer]) is
    kept as its [statements]. *)
Inductive Expression :=
| BinaryExpression (operator : string) (left right : Expression) (line : nat)
| UnaryExpression (operator : string) (operand : Expression) (prefix : bool)
    (line : nat)
| UpdateExpression (operator : string) (argument : Expression) (prefix : bool)
    (line : nat)
| CallExpression (callee : Expression) (arguments : list Expression)
    (optional : bool) (line : nat)
| MemberExpression (object : Expression) (property : string) (optional : bool)
    (line : nat)
| ComputedMemberExpression (object property : Expression) (optional : bool)
    (line : nat)
| Identifier (name : string) (line : nat)
| NumericLiteral (value : number) (line : nat)
| StringLiteral (value : string) (line : nat)
| BooleanLiteral (value : bool) (line : nat)
| NullLiteral (line : nat)
| UndefinedLiteral (line : nat)
| ObjectLiteral (properties : list (ObjectProperty Expression)) (line : nat)
| ArrayLiteral (elements : list (option Expression)) (line : nat)
| ArrowFunction (parameters : list (Parameter_ Expression))
    (returnType : option TypeNode) (body : Expression + list Statement)
    (isAsync : bool) (line : nat)
| FunctionExpression (name : option string)
    (parameters : list (Parameter_ Expression)) (returnType : option TypeNode)
    (body : list Statement) (isAsync isGenerator : bool) (line : nat)
| ConditionalExpression (condition consequent alternate : Expression)
    (line : nat)
| AssignmentExpression (operator : string) (left right : Expression)
    (line : nat)
| LogicalExpression (operator : string) (left right : Expression) (line : nat)
| NewExpression (callee : Expression) (arguments : list Expression)
    (line : nat)
| ThisExpression (line : nat)
| SuperExpression (line : nat)
| SpreadElement (argument : Expression) (line : nat)
| AwaitExpression (argument : Expression) (line : nat)
| YieldExpression (argument : option Expression) (delegate : bool)
    (line : nat)
| TemplateLiteralExpr (quasis : list string) (expressions : list Expression)
    (line : nat)
| TaggedTemplateExpression (tag quasi : Expression) (line : nat)
| TypeAssertion (typeAnnotation : TypeNode) (expression : Expression)
    (line : nat)
| AsExpression (expression : Expression) (typeAnnotation : TypeNode)
    (line : nat)
| NonNullExpression (expression : Expression) (line : nat)
| ClassExpression (name : option string) (superClass : option Expression)
    (line : nat)
| ParenthesizedExpression (expression : Expression) (line : nat)

with Statement :=
| VariableDeclaration (decl : VariableDecl Expression)
| FunctionDeclaration (name : string)
    (parameters : list (Parameter_ Expression)) (returnType : option TypeNode)
    (body : list Statement) (isAsync isGenerator : bool) (line : nat)
| InterfaceDeclaration (name : string) (members : list InterfaceMember)
    (line : nat)
| TypeAliasDeclaration (name : string) (type : TypeNode) (line : nat)
| ClassDeclaration (name : string) (superClass : option Expression)
    (members : list (ClassMember Expression Statement)) (isAbstract : bool)
    (line : nat)
| EnumDeclaration (name : string) (members : list (EnumMember Expression))
    (isConst : bool) (line : nat)
| ReturnStatement (argument : option Expression) (line : nat)
| IfStatement (condition : Expression) (consequent : Statement)
    (alternate : option Statement) (line : nat)
| WhileStatement (condition : Expression) (body : Statement) (line : nat)
| ForStatement (init : option (VariableDecl Expression + Expression))
    (condition update : option Expression) (body : Statement) (line : nat)
| ForOfStatement (variable : VariableDecl Expression + string)
    (iterable : Expression) (body : Statement) (isAwait : bool) (line : nat)
| ForInStatement (variable : VariableDecl Expression + string)
    (object : Expression) (body : Statement) (line : nat)
| DoWhileStatement (body : Statement) (condition : Expression) (line : nat)
| SwitchStatement (discriminant : Expression)
    (cases : list (SwitchCase Expression Statement)) (line : nat)
| BreakStatement (label : option string) (line : nat)
| ContinueStatement (label : option string) (line : nat)
| ThrowStatement (argument : Expression) (line : nat)
| TryStatement (block : list Statement)
    (handler : option (CatchClause Expression Statement))
    (finalizer : option (list Statement)) (line : nat)
| ExpressionStatement (expression : Expression) (line : nat)
| BlockStatement (statements : list Statement) (line : nat)
| ImportDeclaration (specifiers : list ImportSpecifier) (source : string)
    (line : nat)
| ExportDeclaration (declaration : option Statement)
    (specifiers : option (list ExportSpecifier)) (source : option string)
    (isDefault : bool) (line : nat)
| EmptyStatement (line : nat).

Scheme Expression_Statement_ind := Induction for Expression Sort Prop
  with Statement_Expression_ind := Induction for Statement Sort Prop.

Combined Scheme syntax_ind
  from Expression_Statement_ind, Statement_Expression_ind.

Record Program : Type := {
  statements : list Statement
}.

(** [expr.line] *)
Definition expression_line (expr : Expression) : nat :=
  match expr with
  | BinaryExpression _ _ _ line => line
  | UnaryExpression _ _ _ line => line
  | UpdateExpression _ _ _ line => line
  | CallExpression _ _ _ line => line
  | MemberExpression _ _ _ line => line
  | ComputedMemberExpression _ _ _ line => line
  | Identifier _ line => line
  | NumericLiteral _ line => line
  | StringLiteral _ line => line
  | BooleanLiteral _ line => line
  | NullLiteral line => line
  | UndefinedLiteral line => line
  | ObjectLiteral _ line => line
  | ArrayLiteral _ line => line
  | ArrowFunction _ _ _ _ line => line
  | FunctionExpression _ _ _ _ _ _ line => line
  | ConditionalExpression _ _ _ line => line
  | AssignmentExpression _ _ _ line => line
  | LogicalExpression _ _ _ line => line
  | NewExpression _ _ line => line
  | ThisExpression line => line
  | SuperExpression line => line
  | SpreadElement _ line => line
  | AwaitExpression _ line => line
  | YieldExpression _ _ line => line
  | TemplateLiteralExpr _ _ line => line
  | TaggedTemplateExpression _ _ line => line
  | TypeAssertion _ _ line => line
  | AsExpression _ _ line => line
  | NonNullExpression _ line => line
  | ClassExpression _ _ line => line
  | ParenthesizedExpression _ line => line
  end.

(** ** Type values *)

(** [Type].  Optional fields that the checker neither writes nor reads
    ([typeParameters], [extends], [superClass], [implements]) are left
    out. *)
Inductive TypeValue :=
| PrimitiveType (kind : PrimitiveKind)
| LiteralTypeValue (value : LiteralValue)
| ArrayTypeValue (elementType : TypeValue)
| TupleTypeValue (elementTypes : list TypeValue)
| UnionTypeValue (types : list TypeValue)
| IntersectionTypeValue (types : list TypeValue)
| FunctionType (params : list (ParamInfo TypeValue)) (returnType : TypeValue)
| InterfaceType (name : string) (members : JsMap (MemberInfo TypeValue))
| ClassType (name : string) (members : JsMap (ClassMemberInfo TypeValue))
            (staticMembers : JsMap TypeValue)
| EnumType (name : string) (members : JsMap (number + string))
| TypeAliasType (name : string) (type : TypeValue)
| GenericType (name : string) (constraint default : option TypeValue)
| ConditionalTypeValue (checkType extendsType trueType falseType : TypeValue)
| IndexedAccessTypeValue (objectType indexType : TypeValue)
| MappedTypeValue (typeParameter : string) (type : TypeValue)
| UnknownType
| NeverType
| AnyType.

(** The [kind] tag. *)
Definition kind (t : TypeValue) : string :=
  match t with
  | PrimitiveType Pnumber => "number"
  | PrimitiveType Pstring => "string"
  | PrimitiveType Pboolean => "boolean"
  | PrimitiveType Pvoid => "void"
  | PrimitiveType Pnull => "null"
  | PrimitiveType Pundefined => "undefined"
  | PrimitiveType Psymbol => "symbol"
  | PrimitiveType Pbigint => "bigint"
  | LiteralTypeValue _ => "literal"
  | ArrayTypeValue _ => "array"
  | TupleTypeValue _ => "tuple"
  | UnionTypeValue _ => "union"
  | IntersectionTypeValue _ => "intersection"
  | FunctionType _ _ => "function"
  | InterfaceType _ _ => "interface"
  | ClassType _ _ _ => "class"
  | EnumType _ _ => "enum"
  | TypeAliasType _ _ => "typeAlias"
  | GenericType _ _ _ => "generic"
  | ConditionalTypeValue _ _ _ _ => "conditional"
  | IndexedAccessTypeValue _ _ => "indexedAccess"
  | MappedTypeValue _ _ => "mapped"
  | UnknownType => "unknown"
  | NeverType => "never"
  | AnyType => "any"
  end.

Definition createNumberType : TypeValue := PrimitiveType Pnumber.
Definition createStringType : TypeValue := PrimitiveType Pstring.
Definition createBooleanType : TypeValue := PrimitiveType Pboolean.
Definition createVoidType : TypeValue := PrimitiveType Pvoid.
Definition createNullType : TypeValue := PrimitiveType Pnull.
Definition createUndefinedType : TypeValue := PrimitiveType Pundefined.
Definition createAnyType : TypeValue := AnyType.
Definition createUnknownType : TypeValue := UnknownType.
Definition createNeverType : TypeValue := NeverType.
Definition createArrayType (elementType : TypeValue) : TypeValue :=
  ArrayTypeValue elementType.
Definition createUnionType (types : list TypeValue) : TypeValue :=
  UnionTypeValue types.
Definition createIntersectionType (types : list TypeValue) : TypeValue :=
  IntersectionTypeValue types.

(** [CompilerError]; the checker fills [message] and [line] only. *)
Record CompilerError : Type := {
  message : string;
  line : nat
}.

End TypeValues.

Arguments PropertyDeclaration {numbers E S}.
Arguments MethodDeclaration {numbers E S}.
Arguments ConstructorDeclaration {numbers E S}.
Arguments GetterDeclaration {numbers E S}.
Arguments SetterDeclaration {numbers E S}.

End Types.

(** * lexer.ts *)

(** A run of a stage that can raise: [Ok], an exception ([Throw]), or
    [Undetermined] when the embedding gives no answer (a loop unrolled
    further than its bound, or a construct this file does not embed). *)
Inductive Outcome (E A : Type) : Type :=
| Ok (a : A)
| Throw (e : E)
| Undetermined.
Arguments Ok {E A} a.
Arguments Throw {E A} e.
Arguments Undetermined {E A}.

Module Lexer.
Import Types.

(** The errors [tokenize] raises. *)
Inductive LexError :=
| UnterminatedString (line : nat)
| UnterminatedTemplateLiteral (line : nat)
| UnexpectedDotDot (line column : nat)
| UnexpectedCharacter (char : ascii) (line column : nat)
(** the [RangeError] of [String.fromCodePoint] *)
| InvalidCodePoint
(** the [TypeError] of reading [type] of an undefined last token *)
| LastTokenUndefined.

(** ** Characters *)

Definition c_nul : ascii := ascii_of_nat 0.
Definition c_tab : ascii := ascii_of_nat 9.
Definition c_newline : ascii := ascii_of_nat 10.
Definition c_return : ascii := ascii_of_nat 13.
Definition c_dquote : ascii := ascii_of_nat 34.
Definition c_squote : ascii := ascii_of_nat 39.
Definition c_backslash : ascii := ascii_of_nat 92.
Definition c_backtick : ascii := ascii_of_nat 96.

Definition in_range (lo hi c : ascii) : bool :=
  (nat_of_ascii lo <=? nat_of_ascii c)%nat
  && (nat_of_ascii c <=? nat_of_ascii hi)%nat.

(** [/[a-zA-Z_$]/] *)
Definition isAlpha (c : ascii) : bool :=
  in_range "a" "z" c || in_range "A" "Z" c
  || Ascii.eqb c "_" || Ascii.eqb c "$".

(** [/[0-9]/] *)
Definition isDigit (c : ascii) : bool := in_range "0" "9" c.

(** [/[0-9a-fA-F]/] *)
Definition isHexDigit (c : ascii) : bool :=
  in_range "0" "9" c || in_range "a" "f" c || in_range "A" "F" c.

(** [/[0-7]/] *)
Definition isOctalDigit (c : ascii) : bool := in_range "0" "7" c.

Definition isAlphaNumeric (c : ascii) : bool := isAlpha c || isDigit c.

(** [toLowerCase] on one character, as far as the lexer compares its
    result with ["x"], ["b"], ["o"] and ["e"]. *)
Definition toLowerCase (c : ascii) : ascii :=
  if in_range "A" "Z" c then ascii_of_nat (nat_of_ascii c + 32) else c.

(** ** [KEYWORDS] *)

Definition KEYWORDS : list (string * TokenType.t) :=
  [ ("let", TokenType.Let); ("const", TokenType.Const); ("var", TokenType.Var);
    ("function", TokenType.Function); ("return", TokenType.Return);
    ("async", TokenType.Async); ("await", TokenType.Await);
    ("yield", TokenType.Yield);
    ("if", TokenType.If); ("else", TokenType.Else);
    ("while", TokenType.While); ("for", TokenType.For); ("do", TokenType.Do);
    ("break", TokenType.Break); ("continue", TokenType.Continue);
    ("switch", TokenType.Switch); ("case", TokenType.Case);
    ("default", TokenType.Default);
    ("throw", TokenType.Throw); ("try", TokenType.Try);
    ("catch", TokenType.Catch); ("finally", TokenType.Finally);
    ("class", TokenType.Class); ("extends", TokenType.Extends);
    ("implements", TokenType.Implements); ("new", TokenType.New);
    ("this", TokenType.This); ("super", TokenType.Super);
    ("constructor", TokenType.Constructor); ("public", TokenType.Public);
    ("private", TokenType.Private); ("protected", TokenType.Protected);
    ("static", TokenType.Static); ("readonly", TokenType.Readonly);
    ("abstract", TokenType.Abstract); ("get", TokenType.Get);
    ("set", TokenType.Set_);
    ("interface", TokenType.Interface); ("type", TokenType.Type_);
    ("enum", TokenType.Enum); ("namespace", TokenType.Namespace);
    ("module", TokenType.Module); ("declare", TokenType.Declare_);
    ("number", TokenType.NumberType); ("string", TokenType.StringType);
    ("boolean", TokenType.BooleanType); ("void", TokenType.Void);
    ("null", TokenType.Null); ("undefined", TokenType.Undefined);
    ("any", TokenType.Any); ("unknown", TokenType.Unknown);
    ("never", TokenType.Never); ("object", TokenType.Object);
    ("symbol", TokenType.Symbol); ("bigint", TokenType.Bigint);
    ("true", TokenType.True); ("false", TokenType.False);
    ("typeof", TokenType.Typeof); ("keyof", TokenType.Keyof);
    ("infer", TokenType.Infer); ("in", TokenType.In); ("of", TokenType.Of);
    ("instanceof", TokenType.Instanceof); ("delete", TokenType.Delete);
    ("as", TokenType.As);
    ("import", TokenType.Import); ("export", TokenType.Export);
    ("from", TokenType.From) ].

(** [KEYWORDS] is a plain object, so [KEYWORDS[value]] also finds what
    it inherits from [Object.prototype]; such a value is not nullish and
    becomes the token's [type]. *)
Definition objectPrototypeProperties : list string :=
  [ "hasOwnProperty"; "isPrototypeOf"; "propertyIsEnumerable";
    "toLocaleString"; "toString"; "valueOf"; "__proto__";
    "__defineGetter__"; "__defineSetter__";
    "__lookupGetter__"; "__lookupSetter__" ].

(** [KEYWORDS[value] ?? TokenType.Identifier] *)
Definition keywordOrIdentifier (value : string) : TokenType.t :=
  match map_get KEYWORDS value with
  | Some type => type
  | None =>
      if existsb (String.eqb value) objectPrototypeProperties
      then TokenType.NotAMember
      else TokenType.Identifier
  end.

(** ** The lexer's fields; [source] and [pos] are kept as the characters
    from [pos] on. *)
Record LexerState : Type := {
  lx_rest : list ascii;
  lx_line : nat;
  lx_column : nat;
  lx_tokens : list Token
}.

Definition isAtEnd (st : LexerState) : bool :=
  match lx_rest st with [] => true | _ => false end.

Definition peek (st : LexerState) : ascii :=
  match lx_rest st with c :: _ => c | [] => c_nul end.

Definition peekNext (st : LexerState) : ascii :=
  match lx_rest st with _ :: c :: _ => c | _ => c_nul end.

(** [advance]: [None] is the [undefined] read past the end. *)
Definition advance (st : LexerState) : option ascii * LexerState :=
  match lx_rest st with
  | c :: r =>
      (Some c, {| lx_rest := r; lx_line := lx_line st;
                  lx_column := S (lx_column st); lx_tokens := lx_tokens st |})
  | [] =>
      (None, {| lx_rest := []; lx_line := lx_line st;
                lx_column := S (lx_column st); lx_tokens := lx_tokens st |})
  end.

(** [match] *)
Definition match_ (expected : ascii) (st : LexerState) : bool * LexerState :=
  if isAtEnd st || negb (Ascii.eqb (peek st) expected) then (false, st)
  else (true, snd (advance st)).

Definition setLineColumn (line column : nat) (st : LexerState) : LexerState :=
  {| lx_rest := lx_rest st; lx_line := line; lx_column := column;
     lx_tokens := lx_tokens st |}.

(** [this.tokens.push({ type, value, line: this.line, column })] *)
Definition pushToken (type : TokenType.t) (value : string) (column : nat)
    (st : LexerState) : LexerState :=
  {| lx_rest := lx_rest st; lx_line := lx_line st; lx_column := lx_column st;
     lx_tokens := (lx_tokens st ++
       [{| tok_type := type; tok_value := value;
           tok_line := lx_line st; tok_column := column |}])%list |}.

(** [this.tokens.pop()] *)
Definition popToken (st : LexerState) : LexerState :=
  {| lx_rest := lx_rest st; lx_line := lx_line st; lx_column := lx_column st;
     lx_tokens := removelast (lx_tokens st) |}.

(** [value += c] where [c] comes from [advance]. *)
Definition appendChar (value : string) (c : option ascii) : string :=
  match c with
  | Some c => value ++ String c ""
  | None => value ++ "undefined"
  end.

(** [while (!this.isAtEnd() && p(this.peek())) value += this.advance()] *)
Fixpoint advanceWhile_rest (p : ascii -> bool) (l : list ascii)
    : list ascii * list ascii :=
  match l with
  | c :: r =>
      if p c then let (taken, rest) := advanceWhile_rest p r in (c :: taken, rest)
      else ([], l)
  | [] => ([], [])
  end.

Definition advanceWhile (p : ascii -> bool) (value : string) (st : LexerState)
    : string * LexerState :=
  let (taken, rest) := advanceWhile_rest p (lx_rest st) in
  (value ++ string_of_list_ascii taken,
   {| lx_rest := rest; lx_line := lx_line st;
      lx_column := lx_column st + length taken; lx_tokens := lx_tokens st |}).

Definition scanIdentifier (st : LexerState) : LexerState :=
  let startColumn := lx_column st in
  let (value, st) := advanceWhile isAlphaNumeric "" st in
  pushToken (keywordOrIdentifier value) value startColumn st.

Definition addNumberToken (value : string) (startColumn : nat)
    (st : LexerState) : LexerState :=
  pushToken TokenType.NumberLiteral value startColumn st.

Definition scanNumber (st : LexerState) : LexerState :=
  let startColumn := lx_column st in
  let value := "" in
  let next := toLowerCase (peekNext st) in
  let prefixed (digit : ascii -> bool) :=
    let (c0, st) := advance st in
    let value := appendChar value c0 in
    let (c1, st) := advance st in
    let value := appendChar value c1 in
    let (value, st) := advanceWhile digit value st in
    addNumberToken value startColumn st in
  if Ascii.eqb (peek st) "0" && negb (isAtEnd st) && Ascii.eqb next "x" then
    prefixed isHexDigit
  else if Ascii.eqb (peek st) "0" && negb (isAtEnd st) && Ascii.eqb next "b" then
    prefixed (fun c => Ascii.eqb c "0" || Ascii.eqb c "1")
  else if Ascii.eqb (peek st) "0" && negb (isAtEnd st) && Ascii.eqb next "o" then
    prefixed isOctalDigit
  else
    let (value, st) := advanceWhile isDigit value st in
    (* decimal part *)
    let (value, st) :=
      if Ascii.eqb (peek st) "." && isDigit (peekNext st) then
        let (c, st) := advance st in
        advanceWhile isDigit (appendChar value c) st
      else (value, st) in
    (* scientific notation *)
    let (value, st) :=
      if Ascii.eqb (toLowerCase (peek st)) "e" then
        let (c, st) := advance st in
        let value := appendChar value c in
        let (value, st) :=
          if Ascii.eqb (peek st) "+" || Ascii.eqb (peek st) "-" then
            let (c, st) := advance st in (appendChar value c, st)
          else (value, st) in
        advanceWhile isDigit value st
      else (value, st) in
    (* bigint *)
    let (value, st) :=
      if Ascii.eqb (peek st) "n" then
        let (c, st) := advance st in (appendChar value c, st)
      else (value, st) in
    addNumberToken value startColumn st.

(** ** Escapes *)

Definition hexDigitValue (c : ascii) : Z :=
  let n := Z.of_nat (nat_of_ascii c) in
  if in_range "0" "9" c then n - 48
  else if in_range "a" "f" c then n - 87
  else n - 55.


(** [parseInt(s, 16)]; [None] is [NaN]. *)
Definition parseInt16 (s : string) : option Z :=
  let l := dropWhile js_isWhiteSpace (list_ascii_of_string s) in
  let (sign, l) :=
    match l with
    | c :: r =>
        if Ascii.eqb c "-" then ((-1)%Z, r)
        else if Ascii.eqb c "+" then (1%Z, r) else (1%Z, l)
    | [] => (1%Z, l)
    end in
  let l :=
    match l with
    | c0 :: c1 :: r =>
        if Ascii.eqb c0 "0" && (Ascii.eqb c1 "x" || Ascii.eqb c1 "X") then r
        else l
    | _ => l
    end in
  let (digits, _) := advanceWhile_rest isHexDigit l in
  match digits with
  | [] => None
  | _ =>
      Some (sign * fold_left (fun acc c => acc * 16 + hexDigitValue c) digits 0)%Z
  end.

Section Scanner.
Context {numbers : Numbers} {JS : JSRuntime}.

Local Abbreviation M := (Outcome LexError).

Definition bind {A B} (m : M A) (k : A -> M B) : M B :=
  match m with
  | Ok a => k a
  | Throw e => Throw e
  | Undetermined => Undetermined
  end.

Local Notation "x <- m ;; k" := (bind m (fun x => k))
  (at level 61, m at next level, right associativity).
Local Notation "' pat <- m ;; k" :=
  (bind m (fun x => match x with pat => k end))
  (at level 61, pat pattern, m at next level, right associativity).

(** [String.fromCodePoint(parseInt(unicode, 16))] *)
Definition fromCodePoint (unicode : string) : M string :=
  match parseInt16 unicode with
  | None => Throw InvalidCodePoint
  | Some cp =>
      if (cp <? 0)%Z || (1114111 <? cp)%Z then Throw InvalidCodePoint
      else if (cp <? 256)%Z then Ok (String (ascii_of_N (Z.to_N cp)) "")
      else Ok (String_fromCodePoint (Z.to_N cp))
  end.

(** The [switch (escaped)] of [scanString]. *)
Definition scanStringEscape (escaped : option ascii) (value : string)
    (st : LexerState) : M (string * LexerState) :=
  let isChar c := match escaped with Some e => Ascii.eqb e c | None => false end in
  if isChar "n"%char then Ok (value ++ String c_newline "", st)
  else if isChar "t"%char then Ok (value ++ String c_tab "", st)
  else if isChar "r"%char then Ok (value ++ String c_return "", st)
  else if isChar c_backslash then Ok (value ++ String c_backslash "", st)
  else if isChar c_dquote then Ok (value ++ String c_dquote "", st)
  else if isChar c_squote then Ok (value ++ String c_squote "", st)
  else if isChar "0"%char then Ok (value ++ String c_nul "", st)
  else if isChar "u"%char then
    let (unicode, st) :=
      if Ascii.eqb (peek st) "{" then
        let (_, st) := advance st in
        let (unicode, st) :=
          advanceWhile (fun c => negb (Ascii.eqb c "}")) "" st in
        let (_, st) := advance st in
        (unicode, st)
      else
        let (c0, st) := advance st in
        let (c1, st) := advance st in
        let (c2, st) := advance st in
        let (c3, st) := advance st in
        (appendChar (appendChar (appendChar (appendChar "" c0) c1) c2) c3, st)
    in
    s <- fromCodePoint unicode ;;
    Ok (value ++ s, st)
  else Ok (appendChar value escaped, st).

(** The [while] loop of [scanString]; every iteration consumes a
    character, so [fuel] above the number of characters left is never
    used up. *)
Fixpoint scanString_loop (fuel : nat) (quote : ascii) (value : string)
    (st : LexerState) : M (string * LexerState) :=
  match fuel with
  | O => Undetermined
  | S fuel =>
      if negb (isAtEnd st) && negb (Ascii.eqb (peek st) quote) then
        if Ascii.eqb (peek st) c_backslash then
          let (_, st) := advance st in
          let (escaped, st) := advance st in
          '(value, st) <- scanStringEscape escaped value st ;;
          scanString_loop fuel quote value st
        else if Ascii.eqb (peek st) c_newline then
          Throw (UnterminatedString (lx_line st))
        else
          let (c, st) := advance st in
          scanString_loop fuel quote (appendChar value c) st
      else Ok (value, st)
  end.

Definition scanString (quote : ascii) (st : LexerState) : M LexerState :=
  let startColumn := lx_column st in
  let (_, st) := advance st in
  '(value, st) <- scanString_loop (S (length (lx_rest st))) quote "" st ;;
  if isAtEnd st then Throw (UnterminatedString (lx_line st))
  else
    let (_, st) := advance st in
    Ok (pushToken TokenType.StringLiteral value startColumn st).

Definition scanOperatorOrPunctuation (st : LexerState) : M LexerState :=
  let startColumn := lx_column st in
  let (c, st) := advance st in
  let char := match c with Some c => c | None => c_nul end in
  let isChar x := Ascii.eqb char x in
  let emit type value st := Ok (pushToken type value startColumn st) in
  let single type := emit type (String char "") st in
  if isChar "+"%char then
    let (m, st1) := match_ "+" st in
    if m then emit TokenType.PlusPlus "++" st1
    else let (m, st2) := match_ "=" st1 in
      if m then emit TokenType.PlusEquals "+=" st2
      else emit TokenType.Plus "+" st2
  else if isChar "-"%char then
    let (m, st1) := match_ "-" st in
    if m then emit TokenType.MinusMinus "--" st1
    else let (m, st2) := match_ "=" st1 in
      if m then emit TokenType.MinusEquals "-=" st2
      else emit TokenType.Minus "-" st2
  else if isChar "*"%char then
    let (m, st1) := match_ "*" st in
    if m then emit TokenType.StarStar "**" st1
    else let (m, st2) := match_ "=" st1 in
      if m then emit TokenType.StarEquals "*=" st2
      else emit TokenType.Star "*" st2
  else if isChar "/"%char then
    let (m, st1) := match_ "=" st in
    if m then emit TokenType.SlashEquals "/=" st1
    else emit TokenType.Slash "/" st1
  else if isChar "%"%char then
    let (m, st1) := match_ "=" st in
    if m then emit TokenType.PercentEquals "%=" st1
    else emit TokenType.Percent "%" st1
  else if isChar "("%char then single TokenType.LeftParen
  else if isChar ")"%char then single TokenType.RightParen
  else if isChar "{"%char then single TokenType.LeftBrace
  else if isChar "}"%char then single TokenType.RightBrace
  else if isChar "["%char then single TokenType.LeftBracket
  else if isChar "]"%char then single TokenType.RightBracket
  else if isChar ":"%char then single TokenType.Colon
  else if isChar ";"%char then single TokenType.Semicolon
  else if isChar ","%char then single TokenType.Comma
  else if isChar "@"%char then single TokenType.At
  else if isChar "."%char then
    let (m, st1) := match_ "." st in
    if m then
      let (m, st2) := match_ "." st1 in
      if m then emit TokenType.Spread "..." st2
      else Throw (UnexpectedDotDot (lx_line st2) startColumn)
    else emit TokenType.Dot "." st1
  else if isChar "="%char then
    let (m, st1) := match_ "=" st in
    if m then
      let (m, st2) := match_ "=" st1 in
      if m then emit TokenType.EqualsEqualsEquals "===" st2
      else emit TokenType.EqualsEquals "==" st2
    else let (m, st2) := match_ ">" st1 in
      if m then emit TokenType.Arrow "=>" st2
      else emit TokenType.Equals "=" st2
  else if isChar "!"%char then
    let (m, st1) := match_ "=" st in
    if m then
      let (m, st2) := match_ "=" st1 in
      if m then emit TokenType.BangEqualsEquals "!==" st2
      else emit TokenType.BangEquals "!=" st2
    else emit TokenType.Bang "!" st1
  else if isChar "<"%char then
    let (m, st1) := match_ "=" st in
    if m then emit TokenType.LessThanEquals "<=" st1
    else let (m, st2) := match_ "<" st1 in
      if m then emit TokenType.LessThanLessThan "<<" st2
      else emit TokenType.LessThan "<" st2
  else if isChar ">"%char then
    let (m, st1) := match_ "=" st in
    if m then emit TokenType.GreaterThanEquals ">=" st1
    else let (m, st2) := match_ ">" st1 in
      if m then
        let (m, st3) := match_ ">" st2 in
        if m then emit TokenType.GreaterThanGreaterThanGreaterThan ">>>" st3
        else emit TokenType.GreaterThanGreaterThan ">>" st3
      else emit TokenType.GreaterThan ">" st2
  else if isChar "&"%char then
    let (m, st1) := match_ "&" st in
    if m then emit TokenType.AmpersandAmpersand "&&" st1
    else emit TokenType.Ampersand "&" st1
  else if isChar "|"%char then
    let (m, st1) := match_ "|" st in
    if m then emit TokenType.PipePipe "||" st1
    else emit TokenType.Pipe "|" st1
  else if isChar "^"%char then single TokenType.Caret
  else if isChar "~"%char then single TokenType.Tilde
  else if isChar "?"%char then
    let (m, st1) := match_ "." st in
    if m then emit TokenType.QuestionDot "?." st1
    else let (m, st2) := match_ "?" st1 in
      if m then emit TokenType.QuestionQuestion "??" st2
      else emit TokenType.Question "?" st2
  else Throw (UnexpectedCharacter char (lx_line st) startColumn).

(** The body of a block comment, after its opener:
    [while (!isAtEnd() && !(peek() === "*" && peekNext() === "/"))]. *)
Fixpoint skipBlockComment (rest : list ascii) (line column : nat)
    : list ascii * nat * nat :=
  match rest with
  | [] => ([], line, column)
  | c :: r =>
      if Ascii.eqb c "*"
         && Ascii.eqb (match r with c' :: _ => c' | [] => c_nul end) "/"
      then (rest, line, column)
      else
        if Ascii.eqb c c_newline then skipBlockComment r (S line) 1
        else skipBlockComment r line (S column)
  end.

(** [skipWhitespaceAndComments]; every iteration that does not leave the
    loop consumes a character. *)
Fixpoint skipWhitespaceAndComments_loop (fuel : nat) (st : LexerState)
    : M LexerState :=
  match fuel with
  | O => Undetermined
  | S fuel =>
      if isAtEnd st then Ok st
      else
        let char := peek st in
        if Ascii.eqb char " " || Ascii.eqb char c_tab
           || Ascii.eqb char c_return then
          skipWhitespaceAndComments_loop fuel (snd (advance st))
        else if Ascii.eqb char c_newline then
          let st := snd (advance st) in
          skipWhitespaceAndComments_loop fuel
            (setLineColumn (S (lx_line st)) 1 st)
        else if Ascii.eqb char "/" && Ascii.eqb (peekNext st) "/" then
          (* single-line comment *)
          let (_, st) :=
            advanceWhile (fun c => negb (Ascii.eqb c c_newline)) "" st in
          skipWhitespaceAndComments_loop fuel st
        else if Ascii.eqb char "/" && Ascii.eqb (peekNext st) "*" then
          (* multi-line comment *)
          let st := snd (advance st) in
          let st := snd (advance st) in
          let '(rest, line, column) :=
            skipBlockComment (lx_rest st) (lx_line st) (lx_column st) in
          let st :=
            {| lx_rest := rest; lx_line := line; lx_column := column;
               lx_tokens := lx_tokens st |} in
          let st :=
            if negb (isAtEnd st) then snd (advance (snd (advance st)))
            else st in
          skipWhitespaceAndComments_loop fuel st
        else Ok st
  end.

Definition skipWhitespaceAndComments (st : LexerState) : M LexerState :=
  skipWhitespaceAndComments_loop (S (length (lx_rest st))) st.

End Scanner.

Section Tokenizer.
Context {numbers : Numbers} {JS : JSRuntime}.

Local Abbreviation M := (Outcome LexError).
Local Notation "x <- m ;; k" := (bind m (fun x => k))
  (at level 61, m at next level, right associativity).

(** The escape [switch] of [scanTemplateLiteral]. *)
Definition templateEscape (escaped : option ascii) (value : string) : string :=
  let isChar c := match escaped with Some e => Ascii.eqb e c | None => false end in
  if isChar "n"%char then value ++ String c_newline ""
  else if isChar "t"%char then value ++ String c_tab ""
  else if isChar c_backtick then value ++ String c_backtick ""
  else if isChar "$"%char then value ++ "$"
  else if isChar c_backslash then value ++ String c_backslash ""
  else appendChar value escaped.

Definition lastToken (st : LexerState) : option Token :=
  last (map Some (lx_tokens st)) None.

(** [scanToken] and the template scanners call each other; [fuel] bounds
    the depth of these calls.  Each of the four functions below is one
    function or one loop of the lexer:
    - [scanToken];
    - [scanTemplateLiteral_loop]: the [while] of [scanTemplateLiteral];
    - [scanTemplateExpression_loop]: the [while] of
      [scanTemplateExpression], with its [braceCount];
    - [scanTemplateMiddleOrTail_loop]: the [while] of
      [scanTemplateMiddleOrTail]. *)
Fixpoint scanToken (fuel : nat) (st : LexerState) : M LexerState :=
  match fuel with
  | O => Undetermined
  | S fuel =>
      st <- skipWhitespaceAndComments st ;;
      if isAtEnd st then Ok st
      else
        let char := peek st in
        (* Identifiers and keywords *)
        if isAlpha char then Ok (scanIdentifier st)
        (* Numbers *)
        else if isDigit char then Ok (scanNumber st)
        (* Strings *)
        else if Ascii.eqb char c_dquote || Ascii.eqb char c_squote then
          scanString char st
        (* Template literals: scanTemplateLiteral *)
        else if Ascii.eqb char c_backtick then
          let startColumn := lx_column st in
          let st := snd (advance st) in
          scanTemplateLiteral_loop fuel startColumn "" st
        (* Operators and punctuation *)
        else scanOperatorOrPunctuation st
  end

with scanTemplateLiteral_loop (fuel : nat) (startColumn : nat)
    (value : string) (st : LexerState) : M LexerState :=
  match fuel with
  | O => Undetermined
  | S fuel =>
      if negb (isAtEnd st) then
        if Ascii.eqb (peek st) c_backtick then
          let st := snd (advance st) in
          Ok (pushToken TokenType.TemplateLiteral value startColumn st)
        else if Ascii.eqb (peek st) "$" && Ascii.eqb (peekNext st) "{" then
          let st := pushToken TokenType.TemplateHead value startColumn st in
          let st := snd (advance st) in
          let st := snd (advance st) in
          (* scanTemplateExpression *)
          scanTemplateExpression_loop fuel 1 st
        else if Ascii.eqb (peek st) c_backslash then
          let st := snd (advance st) in
          let (escaped, st) := advance st in
          scanTemplateLiteral_loop fuel startColumn
            (templateEscape escaped value) st
        else if Ascii.eqb (peek st) c_newline then
          let (c, st) := advance st in
          scanTemplateLiteral_loop fuel startColumn (appendChar value c)
            (setLineColumn (S (lx_line st)) 1 st)
        else
          let (c, st) := advance st in
          scanTemplateLiteral_loop fuel startColumn (appendChar value c) st
      else Throw (UnterminatedTemplateLiteral (lx_line st))
  end

with scanTemplateExpression_loop (fuel : nat) (braceCount : nat)
    (st : LexerState) : M LexerState :=
  match fuel with
  | O => Undetermined
  | S fuel =>
      if negb (isAtEnd st) && (0 <? braceCount)%nat then
        st <- scanToken fuel st ;;
        match lastToken st with
        | None => Throw LastTokenUndefined
        | Some lastToken =>
            if TokenType.eqb (tok_type lastToken) TokenType.LeftBrace then
              scanTemplateExpression_loop fuel (S braceCount) st
            else if TokenType.eqb (tok_type lastToken) TokenType.RightBrace then
              let braceCount := pred braceCount in
              if (braceCount =? 0)%nat then
                (* Remove the RightBrace token we just added *)
                let st := popToken st in
                (* scanTemplateMiddleOrTail *)
                scanTemplateMiddleOrTail_loop fuel (lx_column st) "" st
              else scanTemplateExpression_loop fuel braceCount st
            else scanTemplateExpression_loop fuel braceCount st
        end
      else Ok st
  end

with scanTemplateMiddleOrTail_loop (fuel : nat) (startColumn : nat)
    (value : string) (st : LexerState) : M LexerState :=
  match fuel with
  | O => Undetermined
  | S fuel =>
      if negb (isAtEnd st) then
        if Ascii.eqb (peek st) c_backtick then
          let st := snd (advance st) in
          Ok (pushToken TokenType.TemplateTail value startColumn st)
        else if Ascii.eqb (peek st) "$" && Ascii.eqb (peekNext st) "{" then
          let st := pushToken TokenType.TemplateMiddle value startColumn st in
          let st := snd (advance st) in
          let st := snd (advance st) in
          (* scanTemplateExpression *)
          scanTemplateExpression_loop fuel 1 st
        else if Ascii.eqb (peek st) c_backslash then
          let st := snd (advance st) in
          let (c, st) := advance st in
          scanTemplateMiddleOrTail_loop fuel startColumn (appendChar value c) st
        else if Ascii.eqb (peek st) c_newline then
          let (c, st) := advance st in
          scanTemplateMiddleOrTail_loop fuel startColumn (appendChar value c)
            (setLineColumn (S (lx_line st)) 1 st)
        else
          let (c, st) := advance st in
          scanTemplateMiddleOrTail_loop fuel startColumn (appendChar value c) st
      else Throw (UnterminatedTemplateLiteral (lx_line st))
  end.

(** [while (!this.isAtEnd()) this.scanToken()]: a call of [scanToken]
    away from the end of input consumes a character or raises. *)
Fixpoint tokenize_loop (n : nat) (fuel : nat) (st : LexerState)
    : M LexerState :=
  match n with
  | O => Undetermined
  | S n =>
      if negb (isAtEnd st) then
        st <- scanToken fuel st ;;
        tokenize_loop n fuel st
      else Ok st
  end.

Definition initialState (source : string) : LexerState :=
  {| lx_rest := list_ascii_of_string source;
     lx_line := 1; lx_column := 1; lx_tokens := [] |}.

(** Nesting depth granted to [scanToken]: between two characters the
    scanners call each other at most four times. *)
Definition scanFuel (st : LexerState) : nat := 4 * length (lx_rest st) + 4.

(** The rest of [Lexer.tokenize] from a state [st] of the lexer. *)
Definition tokenize_from (st : LexerState) : M (list Token) :=
  st <- tokenize_loop (S (length (lx_rest st))) (scanFuel st) st ;;
  Ok (lx_tokens (pushToken TokenType.EOF "" (lx_column st) st)).

Definition tokenize (source : string) : M (list Token) :=
  tokenize_from (initialState source).

End Tokenizer.

(** ** Block comments that are never closed *)

(** [closes body]: the two characters [*/] occur in [body]. *)
Fixpoint closes (body : list ascii) : bool :=
  match body with
  | [] => false
  | c :: r =>
      Ascii.eqb c "*"
      && Ascii.eqb (match r with c' :: _ => c' | [] => c_nul end) "/"
      || closes r
  end.

End Lexer.

(** * parser.ts

    The productions embedded here are the statement dispatch, enum
    declarations, expression statements and the expression ladder down
    to literals, identifiers, member accesses, calls, [new] and template
    literals.  Where the parser enters a production that is not embedded
    (a type, a parenthesis, an object or array literal, a function, a
    class, the other statements), the result is [Undetermined]. *)

Module Parser.
Import Types.

(** The errors [parse] raises. *)
Inductive ParseError :=
(** [expect]: [`${message} at line ${line}, got '${value}'`] *)
| Expected (message : string) (line : nat) (got : string)
(** [parsePrimary]: [`Unexpected token '${value}' at line ${line}`] *)
| UnexpectedToken (value : string) (line : nat)
| ExpectedTemplateContinuation (line : nat)
(** the [TypeError] of reading a property of [this.tokens[i]] where the
    array has no element *)
| UndefinedToken.

Section Productions.
Context {numbers : Numbers} {JS : JSRuntime}.

(** [this.tokens]; the parser's other field, [pos], is the state. *)
Variable tokens : list Token.

Definition P (A : Type) : Type := nat -> Outcome ParseError (A * nat).

Definition ret {A} (a : A) : P A := fun pos => Ok (a, pos).

Definition bind {A B} (m : P A) (k : A -> P B) : P B :=
  fun pos =>
    match m pos with
    | Ok (a, pos') => k a pos'
    | Throw e => Throw e
    | Undetermined => Undetermined
    end.

Definition throw {A} (e : ParseError) : P A := fun _ => Throw e.

(** A production that is not embedded. *)
Definition notEmbedded {A} : P A := fun _ => Undetermined.

Local Notation "x <- m ;; k" := (bind m (fun x => k))
  (at level 61, m at next level, right associativity).
Local Notation "m1 ;;; m2" := (bind m1 (fun _ => m2))
  (at level 61, right associativity).

(** ** Helper methods *)

Definition peek : P Token :=
  fun pos =>
    match nth_error tokens pos with
    | Some t => Ok (t, pos)
    | None => Throw UndefinedToken
    end.

Definition peekNext : P (option Token) :=
  fun pos => Ok (nth_error tokens (S pos), pos).

Definition isAtEnd : P bool :=
  t <- peek ;; ret (TokenType.eqb (tok_type t) TokenType.EOF).

(** [advance] returns [this.tokens[this.pos - 1]], which is [undefined]
    at position 0. *)
Definition advance : P (option Token) :=
  atEnd <- isAtEnd ;;
  fun pos =>
    let pos := if atEnd then pos else S pos in
    Ok (match pos with O => None | S p => nth_error tokens p end, pos).

(** [this.advance()] followed by a property read. *)
Definition advanceToken : P Token :=
  t <- advance ;;
  match t with
  | Some t => ret t
  | None => throw UndefinedToken
  end.

Definition check (type : TokenType.t) : P bool :=
  atEnd <- isAtEnd ;;
  if atEnd then ret false
  else t <- peek ;; ret (TokenType.eqb (tok_type t) type).

(** [match] *)
Definition match_ (type : TokenType.t) : P bool :=
  c <- check type ;;
  if c then advance ;;; ret true else ret false.

Definition expect (type : TokenType.t) (message : string) : P Token :=
  c <- check type ;;
  if c then advanceToken
  else
    token <- peek ;;
    throw (Expected message (tok_line token) (tok_value token)).

(** [this.check(t1) || this.check(t2) || ...] *)
Fixpoint checkAny (types : list TokenType.t) : P bool :=
  match types with
  | [] => ret false
  | type :: rest => c <- check type ;; if c then ret true else checkAny rest
  end.

(** ** Expressions *)

(** The functions of the expression ladder call [parseAssignment] at
    the top of the ladder again; they are written over that call.
    [bound] bounds the iterations of their loops and the depth of their
    calls to themselves, each of which consumes a token. *)
Section Ladder.
Variable bound : nat.
Variable parseAssignment : P Expression.

Definition parseExpression : P Expression := parseAssignment.

(** [do { args.push(this.parseAssignment()) } while (this.match(Comma))],
    with or without the spread form of [parseCallMemberExpression]. *)
Fixpoint parseArguments_loop (n : nat) (allowSpread : bool)
    (args : list Expression) : P (list Expression) :=
  match n with
  | O => notEmbedded
  | S n =>
      spread <- (if allowSpread then check TokenType.Spread else ret false) ;;
      arg <- (if spread then
                advance ;;;
                argument <- parseAssignment ;;
                t <- peek ;;
                ret (SpreadElement argument (tok_line t))
              else parseAssignment) ;;
      let args := (args ++ [arg])%list in
      more <- match_ TokenType.Comma ;;
      if more then parseArguments_loop n allowSpread args else ret args
  end.

(** The argument list after an opening parenthesis, up to and with the
    closing one. *)
Definition parseArguments (allowSpread : bool) : P (list Expression) :=
  close <- check TokenType.RightParen ;;
  args <- (if negb close then parseArguments_loop bound allowSpread []
           else ret []) ;;
  expect TokenType.RightParen "Expected ')'" ;;;
  ret args.

(** The loop of [parseTemplateLiteral] after a [TemplateHead]. *)
Fixpoint parseTemplateLiteral_loop (n : nat) (quasis : list string)
    (expressions : list Expression) : P (list string * list Expression) :=
  match n with
  | O => notEmbedded
  | S n =>
      atEnd <- isAtEnd ;;
      if negb atEnd then
        e <- parseExpression ;;
        let expressions := (expressions ++ [e])%list in
        tail <- check TokenType.TemplateTail ;;
        if tail then
          t <- advanceToken ;;
          ret ((quasis ++ [tok_value t])%list, expressions)
        else
          middle <- check TokenType.TemplateMiddle ;;
          if middle then
            t <- advanceToken ;;
            parseTemplateLiteral_loop n (quasis ++ [tok_value t])%list expressions
          else
            t <- peek ;;
            throw (ExpectedTemplateContinuation (tok_line t))
      else ret (quasis, expressions)
  end.

Definition parseTemplateLiteral : P Expression :=
  startToken <- peek ;;
  whole <- check TokenType.TemplateLiteral ;;
  if whole then
    t <- advanceToken ;;
    ret (TemplateLiteralExpr [tok_value t] [] (tok_line startToken))
  else
    head <- check TokenType.TemplateHead ;;
    if head then
      t <- advanceToken ;;
      r <- parseTemplateLiteral_loop bound [tok_value t] [] ;;
      ret (TemplateLiteralExpr (fst r) (snd r) (tok_line startToken))
    else ret (TemplateLiteralExpr [] [] (tok_line startToken)).

Definition parsePrimary : P Expression :=
  token <- peek ;;
  let type := tok_type token in
  let isType t := TokenType.eqb type t in
  if isType TokenType.NumberLiteral then
    advance ;;;
    ret (NumericLiteral (parseFloat (tok_value token)) (tok_line token))
  else if isType TokenType.StringLiteral then
    advance ;;; ret (StringLiteral (tok_value token) (tok_line token))
  else if isType TokenType.True then
    advance ;;; ret (BooleanLiteral true (tok_line token))
  else if isType TokenType.False then
    advance ;;; ret (BooleanLiteral false (tok_line token))
  else if isType TokenType.Null then
    advance ;;; ret (NullLiteral (tok_line token))
  else if isType TokenType.Undefined then
    advance ;;; ret (UndefinedLiteral (tok_line token))
  else if isType TokenType.This then
    advance ;;; ret (ThisExpression (tok_line token))
  else if isType TokenType.Super then
    advance ;;; ret (SuperExpression (tok_line token))
  else if isType TokenType.Identifier then
    advance ;;; ret (Identifier (tok_value token) (tok_line token))
  else if isType TokenType.LeftParen then notEmbedded
  else if isType TokenType.LeftBrace then notEmbedded
  else if isType TokenType.LeftBracket then notEmbedded
  else if isType TokenType.Function then notEmbedded
  else if isType TokenType.Async then
    next <- peekNext ;;
    match next with
    | Some next =>
        if TokenType.eqb (tok_type next) TokenType.Function
           || TokenType.eqb (tok_type next) TokenType.LeftParen
        then notEmbedded
        else advance ;;; ret (Identifier "async" (tok_line token))
    | None => advance ;;; ret (Identifier "async" (tok_line token))
    end
  else if isType TokenType.Class then notEmbedded
  else if isType TokenType.TemplateLiteral then parseTemplateLiteral
  else if isType TokenType.TemplateHead then parseTemplateLiteral
  else throw (UnexpectedToken (tok_value token) (tok_line token)).

Definition parseNewExpression : P Expression :=
  startToken <- advanceToken ;;
  callee <- parsePrimary ;;
  typeArgs <- check TokenType.LessThan ;;
  if typeArgs then notEmbedded
  else
    paren <- match_ TokenType.LeftParen ;;
    args <- (if paren then parseArguments false else ret []) ;;
    ret (NewExpression callee args (tok_line startToken)).

(** The [while (true)] of [parseCallMemberExpression]. *)
Fixpoint parseCallMemberExpression_loop (n : nat) (expr : Expression)
    : P Expression :=
  match n with
  | O => notEmbedded
  | S n =>
      paren <- check TokenType.LeftParen ;;
      if paren then
        advance ;;;
        args <- parseArguments true ;;
        parseCallMemberExpression_loop n
          (CallExpression expr args false (expression_line expr))
      else
      dot <- check TokenType.Dot ;;
      if dot then
        advance ;;;
        property <- expect TokenType.Identifier "Expected property name" ;;
        parseCallMemberExpression_loop n
          (MemberExpression expr (tok_value property) false
             (expression_line expr))
      else
      questionDot <- check TokenType.QuestionDot ;;
      if questionDot then
        advance ;;;
        paren <- check TokenType.LeftParen ;;
        if paren then
          (* Optional call *)
          advance ;;;
          args <- parseArguments false ;;
          parseCallMemberExpression_loop n
            (CallExpression expr args true (expression_line expr))
        else
        bracket <- check TokenType.LeftBracket ;;
        if bracket then
          (* Optional computed member *)
          advance ;;;
          property <- parseExpression ;;
          expect TokenType.RightBracket "Expected ']'" ;;;
          parseCallMemberExpression_loop n
            (ComputedMemberExpression expr property true
               (expression_line expr))
        else
          (* Optional member access *)
          property <- expect TokenType.Identifier "Expected property name" ;;
          parseCallMemberExpression_loop n
            (MemberExpression expr (tok_value property) true
               (expression_line expr))
      else
      bracket <- check TokenType.LeftBracket ;;
      if bracket then
        advance ;;;
        property <- parseExpression ;;
        expect TokenType.RightBracket "Expected ']'" ;;;
        parseCallMemberExpression_loop n
          (ComputedMemberExpression expr property false
             (expression_line expr))
      else
      lessThan <- check TokenType.LessThan ;;
      if lessThan then
        (* Could be type arguments for function call *)
        notEmbedded
      else ret expr
  end.

Definition parseCallMemberExpression (expr : Expression) : P Expression :=
  parseCallMemberExpression_loop bound expr.

Definition parseLeftHandSide : P Expression :=
  isNew <- check TokenType.New ;;
  expr <- (if isNew then parseNewExpression else parsePrimary) ;;
  parseCallMemberExpression expr.

Definition parsePostfix : P Expression :=
  expr <- parseLeftHandSide ;;
  update <- checkAny [TokenType.PlusPlus; TokenType.MinusMinus] ;;
  if update then
    operator <- advanceToken ;;
    ret (UpdateExpression (tok_value operator) expr false
           (expression_line expr))
  else
  (* Non-null assertion *)
  bang <- match_ TokenType.Bang ;;
  if bang then ret (NonNullExpression expr (expression_line expr))
  else
  (* Type assertion with 'as' *)
  as_ <- match_ TokenType.As ;;
  if as_ then notEmbedded
  else ret expr.

Fixpoint parseUnary_depth (n : nat) : P Expression :=
  match n with
  | O => notEmbedded
  | S n =>
      unary <- checkAny [TokenType.Bang; TokenType.Minus; TokenType.Plus;
                         TokenType.Tilde; TokenType.Typeof; TokenType.Delete] ;;
      if unary then
        operator <- advanceToken ;;
        operand <- parseUnary_depth n ;;
        ret (UnaryExpression (tok_value operator) operand true
               (expression_line operand))
      else
      update <- checkAny [TokenType.PlusPlus; TokenType.MinusMinus] ;;
      if update then
        operator <- advanceToken ;;
        argument <- parseUnary_depth n ;;
        ret (UpdateExpression (tok_value operator) argument true
               (expression_line argument))
      else
      await <- check TokenType.Await ;;
      if await then
        advance ;;;
        argument <- parseUnary_depth n ;;
        ret (AwaitExpression argument (expression_line argument))
      else parsePostfix
  end.

Definition parseUnary : P Expression := parseUnary_depth bound.

Fixpoint parseExponentiation_depth (n : nat) : P Expression :=
  match n with
  | O => notEmbedded
  | S n =>
      left_ <- parseUnary ;;
      power <- match_ TokenType.StarStar ;;
      if power then
        (* Right associative *)
        right_ <- parseExponentiation_depth n ;;
        ret (BinaryExpression "**" left_ right_ (expression_line left_))
      else ret left_
  end.

Definition parseExponentiation : P Expression :=
  parseExponentiation_depth bound.

(** The shape shared by the left-associative levels:
    [let left = next(); while (check(operators)) { operator =
    advance().value; right = next(); left = node }]. *)
Fixpoint leftAssociative_loop (n : nat) (operators : list TokenType.t)
    (next : P Expression)
    (node : string -> Expression -> Expression -> nat -> Expression)
    (left_ : Expression) : P Expression :=
  match n with
  | O => notEmbedded
  | S n =>
      more <- checkAny operators ;;
      if more then
        operator <- advanceToken ;;
        right_ <- next ;;
        leftAssociative_loop n operators next node
          (node (tok_value operator) left_ right_ (expression_line left_))
      else ret left_
  end.

Definition leftAssociative (operators : list TokenType.t)
    (next : P Expression)
    (node : string -> Expression -> Expression -> nat -> Expression)
    : P Expression :=
  left_ <- next ;;
  leftAssociative_loop bound operators next node left_.

Definition parseMultiplicative : P Expression :=
  leftAssociative [TokenType.Star; TokenType.Slash; TokenType.Percent]
    parseExponentiation BinaryExpression.

Definition parseAdditive : P Expression :=
  leftAssociative [TokenType.Plus; TokenType.Minus]
    parseMultiplicative BinaryExpression.

Definition parseShift : P Expression :=
  leftAssociative
    [TokenType.LessThanLessThan; TokenType.GreaterThanGreaterThan;
     TokenType.GreaterThanGreaterThanGreaterThan]
    parseAdditive BinaryExpression.

Definition parseRelational : P Expression :=
  leftAssociative
    [TokenType.LessThan; TokenType.GreaterThan; TokenType.LessThanEquals;
     TokenType.GreaterThanEquals; TokenType.Instanceof; TokenType.In]
    parseShift BinaryExpression.

Definition parseEquality : P Expression :=
  leftAssociative
    [TokenType.EqualsEquals; TokenType.EqualsEqualsEquals;
     TokenType.BangEquals; TokenType.BangEqualsEquals]
    parseRelational BinaryExpression.

(** These three write the operator as a constant. *)
Definition parseBitwiseAnd : P Expression :=
  leftAssociative [TokenType.Ampersand] parseEquality
    (fun _ => BinaryExpression "&").

Definition parseBitwiseXor : P Expression :=
  leftAssociative [TokenType.Caret] parseBitwiseAnd
    (fun _ => BinaryExpression "^").

Definition parseBitwiseOr : P Expression :=
  leftAssociative [TokenType.Pipe] parseBitwiseXor
    (fun _ => BinaryExpression "|").

Definition parseLogicalAnd : P Expression :=
  leftAssociative [TokenType.AmpersandAmpersand] parseBitwiseOr
    (fun _ => LogicalExpression "&&").

Definition parseLogicalOr : P Expression :=
  leftAssociative [TokenType.PipePipe; TokenType.QuestionQuestion]
    parseLogicalAnd LogicalExpression.

Definition parseConditional : P Expression :=
  condition <- parseLogicalOr ;;
  question <- match_ TokenType.Question ;;
  if question then
    consequent <- parseAssignment ;;
    expect TokenType.Colon "Expected ':'" ;;;
    alternate <- parseAssignment ;;
    ret (ConditionalExpression condition consequent alternate
           (expression_line condition))
  else ret condition.

Definition parseAssignment_body : P Expression :=
  left_ <- parseConditional ;;
  assign <- checkAny [TokenType.Equals; TokenType.PlusEquals;
                      TokenType.MinusEquals; TokenType.StarEquals;
                      TokenType.SlashEquals; TokenType.PercentEquals] ;;
  if assign then
    operator <- advanceToken ;;
    right_ <- parseAssignment ;;
    ret (AssignmentExpression (tok_value operator) left_ right_
           (expression_line left_))
  else ret left_.

End Ladder.

(** [parseAssignment], unrolled [fuel] deep. *)
Fixpoint parseAssignment (bound : nat) (fuel : nat) : P Expression :=
  match fuel with
  | O => notEmbedded
  | S fuel => parseAssignment_body bound (parseAssignment bound fuel)
  end.

(** ** Statements *)

Section Statements.
(** Every loop iteration and every nested expression consumes a token. *)
Let bound : nat := S (length tokens).
Let parseExpression : P Expression := parseAssignment bound bound.

Definition parseExpressionStatement : P Statement :=
  expr <- parseExpression ;;
  expect TokenType.Semicolon "Expected ';' after expression" ;;;
  ret (ExpressionStatement expr (expression_line expr)).

(** The [while] of [parseEnumDeclaration]. *)
Fixpoint parseEnumMembers_loop (n : nat)
    (members : list (EnumMember Expression))
    : P (list (EnumMember Expression)) :=
  match n with
  | O => notEmbedded
  | S n =>
      close <- check TokenType.RightBrace ;;
      atEnd <- isAtEnd ;;
      if negb close && negb atEnd then
        memberName <- expect TokenType.Identifier "Expected enum member name" ;;
        hasInitializer <- match_ TokenType.Equals ;;
        initializer <- (if hasInitializer
                        then e <- parseExpression ;; ret (Some e)
                        else ret None) ;;
        let members :=
          (members ++ [{| em_name := tok_value memberName;
                          em_initializer := initializer |}])%list in
        match_ TokenType.Comma ;;;
        parseEnumMembers_loop n members
      else ret members
  end.

Definition parseEnumDeclaration : P Statement :=
  startToken <- peek ;;
  isConst <- match_ TokenType.Const ;;
  expect TokenType.Enum "Expected 'enum'" ;;;
  name <- expect TokenType.Identifier "Expected enum name" ;;
  expect TokenType.LeftBrace "Expected '{'" ;;;
  members <- parseEnumMembers_loop bound [] ;;
  expect TokenType.RightBrace "Expected '}'" ;;;
  ret (EnumDeclaration (tok_value name) members isConst (tok_line startToken)).

(** [parseStatement]; [None] is the [null] returned at the end-of-file
    token. *)
Definition parseStatement : P (option Statement) :=
  decorator <- check TokenType.At ;;
  if decorator then notEmbedded
  else
    token <- peek ;;
    let type := tok_type token in
    let isType t := TokenType.eqb type t in
    let isAny := existsb (TokenType.eqb type) in
    if isAny [TokenType.Let; TokenType.Const; TokenType.Var] then notEmbedded
    else if isType TokenType.Async then
      next <- peekNext ;;
      match next with
      | Some next =>
          if TokenType.eqb (tok_type next) TokenType.Function then notEmbedded
          else s <- parseExpressionStatement ;; ret (Some s)
      | None => s <- parseExpressionStatement ;; ret (Some s)
      end
    else if isAny [TokenType.Function; TokenType.Interface; TokenType.Type_;
                   TokenType.Class] then notEmbedded
    else if isType TokenType.Abstract then
      next <- peekNext ;;
      match next with
      | Some next =>
          if TokenType.eqb (tok_type next) TokenType.Class then notEmbedded
          else s <- parseExpressionStatement ;; ret (Some s)
      | None => s <- parseExpressionStatement ;; ret (Some s)
      end
    else if isType TokenType.Enum then
      s <- parseEnumDeclaration ;; ret (Some s)
    else if isAny [TokenType.Return; TokenType.If; TokenType.While;
                   TokenType.For; TokenType.Do; TokenType.Switch;
                   TokenType.Break; TokenType.Continue; TokenType.Throw;
                   TokenType.Try; TokenType.LeftBrace; TokenType.Import;
                   TokenType.Export] then notEmbedded
    else if isType TokenType.Semicolon then
      advance ;;; ret (Some (EmptyStatement (tok_line token)))
    else if isType TokenType.EOF then ret None
    else s <- parseExpressionStatement ;; ret (Some s).

(** The [while (!this.isAtEnd())] of [parse]. *)
Fixpoint parse_loop (n : nat) (stmts : list Statement) : P (list Statement) :=
  match n with
  | O => notEmbedded
  | S n =>
      atEnd <- isAtEnd ;;
      if negb atEnd then
        stmt <- parseStatement ;;
        parse_loop n
          match stmt with
          | Some stmt => (stmts ++ [stmt])%list
          | None => stmts
          end
      else ret stmts
  end.

End Statements.
End Productions.

(** [Parser.parse] and the exported [parse]. *)
Definition parse {numbers : Numbers} {JS : JSRuntime}
    (tokens : list Token)
    : Outcome ParseError Program :=
  match parse_loop tokens (S (length tokens)) [] 0 with
  | Ok (stmts, _) => Ok {| statements := stmts |}
  | Throw e => Throw e
  | Undetermined => Undetermined
  end.

End Parser.

(** * emitter.ts *)

Module Emitter.
Import Types.

(** ** [JSON.stringify] of a string *)

Definition hexDigit (n : nat) : ascii :=
  if (n <? 10)%nat then ascii_of_nat (48 + n) else ascii_of_nat (87 + n).

Definition jsonEscapeChar (c : ascii) : string :=
  let n := nat_of_ascii c in
  if (n =? 8)%nat then "\b"
  else if (n =? 9)%nat then "\t"
  else if (n =? 10)%nat then "\n"
  else if (n =? 12)%nat then "\f"
  else if (n =? 13)%nat then "\r"
  else if (n =? 34)%nat then "\" ++ quote
  else if (n =? 92)%nat then "\\"
  else if (n <? 32)%nat then
    "\u00" ++ String (hexDigit (n / 16)) (String (hexDigit (n mod 16)) "")
  else String c "".

Fixpoint jsonEscape (s : string) : string :=
  match s with
  | EmptyString => ""
  | String c r => jsonEscapeChar c ++ jsonEscape r
  end.

Definition JSON_stringify (s : string) : string :=
  quote ++ jsonEscape s ++ quote.

(** [String(b)] for a boolean *)
Definition bool_toString (b : bool) : string :=
  if b then "true" else "false".

(** [String.prototype.trimEnd] *)
Definition trimEnd (s : string) : string :=
  string_of_list_ascii
    (rev (dropWhile js_isWhiteSpace (rev (list_ascii_of_string s)))).

(** ** Exceptions

    The emitter raises in one place: [emitExpression(undefined)].  A
    result [None] is that [TypeError]. *)

Definition bindO {A B} (m : option A) (k : A -> option B) : option B :=
  match m with
  | Some a => k a
  | None => None
  end.

Notation "x <- m ;; k" := (bindO m (fun x => k))
  (at level 61, m at next level, right associativity).
Notation "' pat <- m ;; k" :=
  (bindO m (fun x => match x with pat => k end))
  (at level 61, pat pattern, m at next level, right associativity).

Definition mapM {A B} (f : A -> option B) : list A -> option (list B) :=
  fix go (l : list A) : option (list B) :=
    match l with
    | [] => Some []
    | x :: r => y <- f x ;; ys <- go r ;; Some (y :: ys)
    end.

Section Expressions.
Context {numbers : Numbers} {JS : JSRuntime}.

(** The three printers of expressions and inline statements call each
    other; their bodies are written over the functions they call. *)
Section Bodies.
Variable emitExpression : Expression -> option string.
Variable emitStatementInline : Statement -> option string.
Variable emitIfStatementInline : Statement -> option string.

(** The callback of [parameters.map(...)] shared by every printer of a
    parameter list. *)
Definition emitParameter (p : Parameter_ Expression) : option string :=
  let param := "" in
  let param := if p_rest p then param ++ "..." else param in
  let param := param ++ p_name p in
  match p_defaultValue p with
  | Some d => t <- emitExpression d ;; Some (param ++ " = " ++ t)
  | None => Some param
  end.

Definition emitParameters (ps : list (Parameter_ Expression)) : option string :=
  l <- mapM emitParameter ps ;; Some (join ", " l).

(** [statements.map((s) => this.emitStatementInline(s)).join(" ")] *)
Definition emitInlineStatements (stmts : list Statement) : option string :=
  l <- mapM emitStatementInline stmts ;; Some (join " " l).

(** A key that is an expression node, interpolated into a template
    string. *)
Definition objectObject : string := "[object Object]".

(** The callback of [expr.properties.map(...)]. *)
Definition emitObjectProperty (p : ObjectProperty Expression) : option string :=
  match op_value p with
  | SpreadElement argument _ =>
      t <- emitExpression argument ;; Some ("..." ++ t)
  | _ =>
      if op_shorthand p then
        match op_key p with
        | inl key => Some key
        | inr key => emitExpression key
        end
      else if op_computed p then
        (* a string key has no [kind]: [emitExpression] falls to its
           default and returns the empty string *)
        k <- match op_key p with
             | inl _ => Some ""
             | inr key => emitExpression key
             end ;;
        v <- emitExpression (op_value p) ;;
        Some ("[" ++ k ++ "]: " ++ v)
      else if op_method p then
        params <- match op_value p with
                  | ArrowFunction parameters _ _ _ _
                  | FunctionExpression _ parameters _ _ _ _ _ =>
                      Some (join ", " (map (fun param => p_name param) parameters))
                  | _ => Some ""
                  end ;;
        body <- match op_value p with
                | ArrowFunction _ _ (inr stmts) _ _
                | FunctionExpression _ _ _ stmts _ _ _ =>
                    emitInlineStatements stmts
                | _ => Some ""
                end ;;
        let key := match op_key p with inl key => key | inr _ => objectObject end in
        Some (key ++ "(" ++ params ++ ") { " ++ body ++ " }")
      else
        k <- match op_key p with
             | inl key => Some key
             | inr key => emitExpression key
             end ;;
        v <- emitExpression (op_value p) ;;
        Some (k ++ ": " ++ v)
  end.

(** The loop of the [TemplateLiteralExpr] case, from index [i] on. *)
Definition emitTemplateParts : list Expression -> list string -> option string :=
  fix go (expressions : list Expression) (quasis : list string) : option string :=
    match quasis with
    | [] => Some ""
    | q :: quasis' =>
        match expressions with
        | e :: expressions' =>
            t <- emitExpression e ;;
            r <- go expressions' quasis' ;;
            Some (q ++ "${" ++ t ++ "}" ++ r)
        | [] => Some (q ++ String.concat "" quasis')
        end
    end.

Definition emitExpression_body (expr : Expression) : option string :=
  match expr with
  | NumericLiteral value _ => Some (num_toString value)
  | StringLiteral value _ => Some (JSON_stringify value)
  | BooleanLiteral value _ => Some (bool_toString value)
  | NullLiteral _ => Some "null"
  | UndefinedLiteral _ => Some "undefined"
  | Identifier name _ => Some name
  | ThisExpression _ => Some "this"
  | SuperExpression _ => Some "super"
  | BinaryExpression operator left_ right_ _ =>
      l <- emitExpression left_ ;;
      r <- emitExpression right_ ;;
      Some (l ++ " " ++ operator ++ " " ++ r)
  | UnaryExpression operator operand prefix _ =>
      if prefix then
        let space :=
          if (operator =? "typeof") || (operator =? "delete") then " " else "" in
        t <- emitExpression operand ;;
        Some (operator ++ space ++ t)
      else
        t <- emitExpression operand ;;
        Some (t ++ operator)
  | UpdateExpression operator argument prefix _ =>
      t <- emitExpression argument ;;
      if prefix then Some (operator ++ t) else Some (t ++ operator)
  | CallExpression callee arguments optional _ =>
      c <- emitExpression callee ;;
      args <- mapM emitExpression arguments ;;
      let optionalChain := if optional then "?." else "" in
      Some (c ++ optionalChain ++ "(" ++ join ", " args ++ ")")
  | MemberExpression object property optional _ =>
      obj <- emitExpression object ;;
      let optionalChain := if optional then "?." else "." in
      Some (obj ++ optionalChain ++ property)
  | ComputedMemberExpression object property optional _ =>
      obj <- emitExpression object ;;
      prop <- emitExpression property ;;
      let optionalChain := if optional then "?." else "" in
      Some (obj ++ optionalChain ++ "[" ++ prop ++ "]")
  | ObjectLiteral properties _ =>
      match properties with
      | [] => Some "{}"
      | _ =>
          props <- mapM emitObjectProperty properties ;;
          Some ("{ " ++ join ", " props ++ " }")
      end
  | ArrayLiteral elements _ =>
      els <- mapM (fun el =>
               match el with
               | None => Some ""
               | Some (SpreadElement argument _) =>
                   t <- emitExpression argument ;; Some ("..." ++ t)
               | Some el => emitExpression el
               end) elements ;;
      Some ("[" ++ join ", " els ++ "]")
  | ArrowFunction parameters _ body isAsync _ =>
      let prefix := if isAsync then "async " else "" in
      params <- emitParameters parameters ;;
      body <- match body with
              | inr stmts =>
                  stmts <- emitInlineStatements stmts ;;
                  Some ("{ " ++ stmts ++ " }")
              | inl e => emitExpression e
              end ;;
      match parameters with
      | [p] =>
          match p_typeAnnotation p, p_defaultValue p with
          | None, None => Some (prefix ++ params ++ " => " ++ body)
          | _, _ => Some (prefix ++ "(" ++ params ++ ") => " ++ body)
          end
      | _ => Some (prefix ++ "(" ++ params ++ ") => " ++ body)
      end
  | FunctionExpression name parameters _ body isAsync isGenerator _ =>
      let prefix := if isAsync then "async " else "" in
      let prefix := prefix ++ "function" in
      let prefix := if isGenerator then prefix ++ "*" else prefix in
      let prefix :=
        if truthy_string name
        then prefix ++ " " ++ match name with Some n => n | None => "" end
        else prefix in
      params <- emitParameters parameters ;;
      stmts <- emitInlineStatements body ;;
      Some (prefix ++ "(" ++ params ++ ") { " ++ stmts ++ " }")
  | ConditionalExpression condition consequent alternate _ =>
      c <- emitExpression condition ;;
      a <- emitExpression consequent ;;
      b <- emitExpression alternate ;;
      Some (c ++ " ? " ++ a ++ " : " ++ b)
  | AssignmentExpression operator left_ right_ _ =>
      l <- emitExpression left_ ;;
      r <- emitExpression right_ ;;
      Some (l ++ " " ++ operator ++ " " ++ r)
  | LogicalExpression operator left_ right_ _ =>
      l <- emitExpression left_ ;;
      r <- emitExpression right_ ;;
      Some (l ++ " " ++ operator ++ " " ++ r)
  | NewExpression callee arguments _ =>
      c <- emitExpression callee ;;
      args <- mapM emitExpression arguments ;;
      Some ("new " ++ c ++ "(" ++ join ", " args ++ ")")
  | SpreadElement argument _ =>
      t <- emitExpression argument ;; Some ("..." ++ t)
  | AwaitExpression argument _ =>
      t <- emitExpression argument ;; Some ("await " ++ t)
  | YieldExpression argument delegate _ =>
      match argument with
      | Some argument =>
          t <- emitExpression argument ;;
          if delegate then Some ("yield* " ++ t) else Some ("yield " ++ t)
      | None => Some "yield"
      end
  | TemplateLiteralExpr quasis expressions _ =>
      parts <- emitTemplateParts expressions quasis ;;
      Some ("`" ++ parts ++ "`")
  | TaggedTemplateExpression tag quasi _ =>
      t <- emitExpression tag ;;
      q <- emitExpression quasi ;;
      Some (t ++ q)
  | TypeAssertion _ expression _ => emitExpression expression
  | AsExpression expression _ _ => emitExpression expression
  | NonNullExpression expression _ => emitExpression expression
  | ClassExpression name superClass _ =>
      let result := "class" in
      let result :=
        if truthy_string name
        then result ++ " " ++ match name with Some n => n | None => "" end
        else result in
      result <- match superClass with
                | Some superClass =>
                    t <- emitExpression superClass ;;
                    Some (result ++ " extends " ++ t)
                | None => Some result
                end ;;
      Some (result ++ " { }")
  | ParenthesizedExpression expression _ =>
      t <- emitExpression expression ;; Some ("(" ++ t ++ ")")
  end.

(** [label ? `break ${label};` : "break;"] *)
Definition emitJump (keyword : string) (label : option string) : string :=
  if truthy_string label
  then keyword ++ " " ++ match label with Some l => l | None => "" end ++ ";"
  else keyword ++ ";".

(** [emitIfStatementInline], on the fields of its argument. *)
Definition emitIfStatementInline_fields (condition : Expression)
    (consequent : Statement) (alternate : option Statement) : option string :=
  condition <- emitExpression condition ;;
  let result := "if (" ++ condition ++ ") " in
  c <- match consequent with
       | BlockStatement stmts _ =>
           stmts <- emitInlineStatements stmts ;;
           Some ("{ " ++ stmts ++ " }")
       | _ => emitStatementInline consequent
       end ;;
  let result := result ++ c in
  match alternate with
  | Some alternate =>
      let result := result ++ " else " in
      a <- match alternate with
           | IfStatement _ _ _ _ => emitIfStatementInline alternate
           | BlockStatement stmts _ =>
               stmts <- emitInlineStatements stmts ;;
               Some ("{ " ++ stmts ++ " }")
           | _ => emitStatementInline alternate
           end ;;
      Some (result ++ a)
  | None => Some result
  end.

Definition emitStatementInline_body (stmt : Statement) : option string :=
  match stmt with
  | ReturnStatement argument _ =>
      match argument with
      | Some argument =>
          t <- emitExpression argument ;; Some ("return " ++ t ++ ";")
      | None => Some "return;"
      end
  | ExpressionStatement expression _ =>
      t <- emitExpression expression ;; Some (t ++ ";")
  | VariableDeclaration decl =>
      let result := varKind_toString (vd_varKind decl) ++ " " ++ vd_name decl in
      match vd_initializer decl with
      | Some init =>
          t <- emitExpression init ;; Some (result ++ " = " ++ t ++ ";")
      | None => Some (result ++ ";")
      end
  | BreakStatement label _ => Some (emitJump "break" label)
  | ContinueStatement label _ => Some (emitJump "continue" label)
  | ThrowStatement argument _ =>
      t <- emitExpression argument ;; Some ("throw " ++ t ++ ";")
  | IfStatement condition consequent alternate _ =>
      (* this.emitIfStatementInline(stmt) *)
      emitIfStatementInline_fields condition consequent alternate
  | BlockStatement stmts _ =>
      stmts <- emitInlineStatements stmts ;;
      Some ("{ " ++ stmts ++ " }")
  | ForOfStatement _ iterable body _ _ =>
      (* [s.variableKind] is undefined and [s.variable] is a node *)
      let variable := "const " ++ objectObject in
      bodyStr <- emitStatementInline body ;;
      it <- emitExpression iterable ;;
      Some ("for (" ++ variable ++ " of " ++ it ++ ") " ++ bodyStr)
  | ForInStatement _ _ body _ =>
      (* a [ForInStatement] has no [iterable]:
         [this.emitExpression(undefined)] raises *)
      bodyStr <- emitStatementInline body ;;
      None
  | _ => Some ""
  end.

(** [emitIfStatementInline(stmt)]; a statement without [condition]
    would make [emitExpression(undefined)] raise. *)
Definition emitIfStatementInline_body (stmt : Statement) : option string :=
  match stmt with
  | IfStatement condition consequent alternate _ =>
      emitIfStatementInline_fields condition consequent alternate
  | _ => None
  end.

End Bodies.

Fixpoint emitExpression (expr : Expression) {struct expr} : option string :=
  emitExpression_body emitExpression emitStatementInline expr
with emitStatementInline (stmt : Statement) {struct stmt} : option string :=
  emitStatementInline_body emitExpression emitStatementInline
    emitIfStatementInline stmt
with emitIfStatementInline (stmt : Statement) {struct stmt} : option string :=
  emitIfStatementInline_body emitExpression emitStatementInline
    emitIfStatementInline stmt.

End Expressions.
(** ** Statements *)

(** The emitter's fields ([indentString] is the constant two spaces). *)
Record EmitterState : Type := {
  output : string;
  indentLevel : nat
}.

Definition indentString : string := "  ".

Definition indent (st : EmitterState) : string :=
  repeat_string indentString (indentLevel st).

Definition emitLine (line : string) (st : EmitterState) : EmitterState :=
  {| output := output st ++ indent st ++ line ++ newline;
     indentLevel := indentLevel st |}.

(** [this.output += text] *)
Definition appendOutput (text : string) (st : EmitterState) : EmitterState :=
  {| output := output st ++ text; indentLevel := indentLevel st |}.

Definition setIndentLevel (n : nat) (st : EmitterState) : EmitterState :=
  {| output := output st; indentLevel := n |}.

(** [this.indentLevel++] and [this.indentLevel--]; every decrement
    follows an increment. *)
Definition indentMore (st : EmitterState) : EmitterState :=
  setIndentLevel (S (indentLevel st)) st.
Definition indentLess (st : EmitterState) : EmitterState :=
  setIndentLevel (pred (indentLevel st)) st.

Definition forEachO {A S} (f : A -> S -> option S) : list A -> S -> option S :=
  fix go (l : list A) (s : S) : option S :=
    match l with
    | [] => Some s
    | x :: r => s <- f x s ;; go r s
    end.

Section Statements.
Context {numbers : Numbers} {JS : JSRuntime}.

(** [emitEnumDeclaration]: the loop over the members, with
    [currentValue]. *)
Definition emitEnumMember (name : string) (member : EnumMember Expression)
    (currentValue : number) (st : EmitterState)
    : option (number * EmitterState) :=
  let twoWay (value : number) :=
    name ++ "[" ++ name ++ "[" ++ quote ++ em_name member ++ quote ++ "] = "
    ++ num_toString value ++ "] = " ++ quote ++ em_name member ++ quote ++ ";" in
  let oneWay (value : string) :=
    name ++ "[" ++ quote ++ em_name member ++ quote ++ "] = " ++ value ++ ";" in
  match em_initializer member with
  | Some (NumericLiteral value _) =>
      Some (num_add1 value, emitLine (twoWay value) st)
  | Some (StringLiteral value _) =>
      Some (currentValue, emitLine (oneWay (quote ++ value ++ quote)) st)
  | Some init =>
      value <- emitExpression init ;;
      Some (currentValue, emitLine (oneWay value) st)
  | None =>
      Some (num_add1 currentValue, emitLine (twoWay currentValue) st)
  end.

Fixpoint emitEnumMembers (name : string)
    (members : list (EnumMember Expression)) (currentValue : number)
    (st : EmitterState) : option EmitterState :=
  match members with
  | [] => Some st
  | member :: rest =>
      '(currentValue, st) <- emitEnumMember name member currentValue st ;;
      emitEnumMembers name rest currentValue st
  end.

Definition emitEnumDeclaration (name : string)
    (members : list (EnumMember Expression)) (isConst : bool)
    (st : EmitterState) : option EmitterState :=
  if isConst then
    Some (emitLine ("// const enum " ++ name ++ " - inlined") st)
  else
    let st := emitLine ("var " ++ name ++ ";") st in
    let st := emitLine ("(function (" ++ name ++ ") {") st in
    let st := indentMore st in
    st <- emitEnumMembers name members num_zero st ;;
    let st := indentLess st in
    Some (emitLine ("})(" ++ name ++ " || (" ++ name ++ " = {}));") st).

(** The text of a variable declaration without its semicolon. *)
Definition emitVariableDeclarationText (decl : VariableDecl Expression)
    : option string :=
  let line := varKind_toString (vd_varKind decl) ++ " " ++ vd_name decl in
  match vd_initializer decl with
  | Some init => t <- emitExpression init ;; Some (line ++ " = " ++ t)
  | None => Some line
  end.

Definition emitVariableDeclaration (decl : VariableDecl Expression)
    (st : EmitterState) : option EmitterState :=
  line <- emitVariableDeclarationText decl ;;
  Some (emitLine (line ++ ";") st).

Definition emitReturnStatement (argument : option Expression)
    (st : EmitterState) : option EmitterState :=
  match argument with
  | Some argument =>
      t <- emitExpression argument ;;
      Some (emitLine ("return " ++ t ++ ";") st)
  | None => Some (emitLine "return;" st)
  end.

Definition emitImportDeclaration (specifiers : list ImportSpecifier)
    (source : string) (st : EmitterState) : EmitterState :=
  match specifiers with
  | [] => emitLine ("import " ++ quote ++ source ++ quote ++ ";") st
  | _ =>
      let parts :=
        flat_map (fun spec =>
          match spec with
          | ImportDefaultSpecifier local => [local]
          | ImportNamespaceSpecifier local => ["* as " ++ local]
          | ImportNamedSpecifier _ _ => []
          end) specifiers in
      let named :=
        flat_map (fun spec =>
          match spec with
          | ImportNamedSpecifier imported local =>
              if imported =? local then [local]
              else [imported ++ " as " ++ local]
          | _ => []
          end) specifiers in
      let parts :=
        match named with
        | [] => parts
        | _ => (parts ++ [("{ " ++ join ", " named ++ " }")%string])%list
        end in
      emitLine ("import " ++ join ", " parts ++ " from "
                ++ quote ++ source ++ quote ++ ";") st
  end.

(** [emitStatement] and the emitters of compound statements call each
    other; their bodies are written over [emitStatement] and
    [emitIfStatement]. *)
Section Bodies.
Variable emitStatement : Statement -> EmitterState -> option EmitterState.
Variable emitIfStatement : Statement -> EmitterState -> option EmitterState.

Definition emitStatements (stmts : list Statement) (st : EmitterState)
    : option EmitterState :=
  forEachO emitStatement stmts st.

(** The statements of a block, or the statement itself. *)
Definition emitBody (body : Statement) (st : EmitterState)
    : option EmitterState :=
  match body with
  | BlockStatement stmts _ => emitStatements stmts st
  | _ => emitStatement body st
  end.

(** [{ ...body }] one level deeper, closed by [closing]. *)
Definition emitBraced (opening : string) (stmts : list Statement)
    (st : EmitterState) : option EmitterState :=
  let st := emitLine opening st in
  let st := indentMore st in
  st <- emitStatements stmts st ;;
  Some (indentLess st).

Definition emitFunctionDeclaration (name : string)
    (parameters : list (Parameter_ Expression)) (body : list Statement)
    (isAsync isGenerator : bool) (st : EmitterState) : option EmitterState :=
  let prefix := "" in
  let prefix := if isAsync then prefix ++ "async " else prefix in
  let prefix := prefix ++ "function" in
  let prefix := if isGenerator then prefix ++ "*" else prefix in
  params <- emitParameters emitExpression parameters ;;
  st <- emitBraced (prefix ++ " " ++ name ++ "(" ++ params ++ ") {") body st ;;
  Some (emitLine "}" st).

Definition emitClassMember (member : ClassMember Expression Statement)
    (st : EmitterState) : option EmitterState :=
  match member with
  | PropertyDeclaration name _ initializer _ isStatic =>
      let line := "" in
      let line := if isStatic then line ++ "static " else line in
      let line := line ++ name in
      line <- match initializer with
              | Some init => t <- emitExpression init ;; Some (line ++ " = " ++ t)
              | None => Some line
              end ;;
      Some (emitLine (line ++ ";") st)
  | MethodDeclaration name parameters _ body _ isStatic isAsync =>
      let prefix := "" in
      let prefix := if isStatic then prefix ++ "static " else prefix in
      let prefix := if isAsync then prefix ++ "async " else prefix in
      params <- emitParameters emitExpression parameters ;;
      match body with
      | Some body =>
          st <- emitBraced (prefix ++ name ++ "(" ++ params ++ ") {") body st ;;
          Some (emitLine "}" st)
      | None =>
          (* Abstract method - skip in output *)
          Some (emitLine ("// abstract " ++ name ++ "(" ++ params ++ ")") st)
      end
  | ConstructorDeclaration parameters body =>
      params <- emitParameters emitExpression parameters ;;
      st <- emitBraced ("constructor(" ++ params ++ ") {") body st ;;
      Some (emitLine "}" st)
  | GetterDeclaration name body isStatic =>
      let prefix := if isStatic then "static " else "" in
      st <- emitBraced (prefix ++ "get " ++ name ++ "() {") body st ;;
      Some (emitLine "}" st)
  | SetterDeclaration name parameter body isStatic =>
      let prefix := if isStatic then "static " else "" in
      let paramName := p_name parameter in
      st <- emitBraced (prefix ++ "set " ++ name ++ "(" ++ paramName ++ ") {")
              body st ;;
      Some (emitLine "}" st)
  end.

Definition emitClassDeclaration (name : string)
    (superClass : option Expression)
    (members : list (ClassMember Expression Statement)) (isAbstract : bool)
    (st : EmitterState) : option EmitterState :=
  let line := "" in
  let line := if isAbstract then line ++ "/* abstract */ " else line in
  let line := line ++ "class " ++ name in
  line <- match superClass with
          | Some superClass =>
              t <- emitExpression superClass ;; Some (line ++ " extends " ++ t)
          | None => Some line
          end ;;
  let line := line ++ " {" in
  let st := emitLine line st in
  let st := indentMore st in
  st <- forEachO emitClassMember members st ;;
  let st := indentLess st in
  Some (emitLine "}" st).

(** [emitIfStatement], on the fields of its argument. *)
Definition emitIfStatement_fields (condition : Expression)
    (consequent : Statement) (alternate : option Statement)
    (st : EmitterState) : option EmitterState :=
  condition <- emitExpression condition ;;
  let st := emitLine ("if (" ++ condition ++ ") {") st in
  let st := indentMore st in
  st <- emitBody consequent st ;;
  let st := indentLess st in
  match alternate with
  | Some alternate =>
      match alternate with
      | IfStatement _ _ _ _ =>
          let st :=
            {| output := trimEnd (output st) ++ "} else ";
               indentLevel := indentLevel st |} in
          emitIfStatement alternate st
      | _ =>
          let st := emitLine "} else {" st in
          let st := indentMore st in
          st <- emitBody alternate st ;;
          let st := indentLess st in
          Some (emitLine "}" st)
      end
  | None => Some (emitLine "}" st)
  end.

(** The loops: a header line, the body one level deeper, a closing
    line. *)
Definition emitLoop (header : string) (body : Statement) (closing : string)
    (st : EmitterState) : option EmitterState :=
  let st := emitLine header st in
  let st := indentMore st in
  st <- emitBody body st ;;
  let st := indentLess st in
  Some (emitLine closing st).

Definition emitForStatement
    (init : option (VariableDecl Expression + Expression))
    (condition update : option Expression) (body : Statement)
    (st : EmitterState) : option EmitterState :=
  init <- match init with
          | Some (inl decl) => emitVariableDeclarationText decl
          | Some (inr e) => emitExpression e
          | None => Some ""
          end ;;
  condition <- match condition with
               | Some c => emitExpression c
               | None => Some ""
               end ;;
  update <- match update with
            | Some u => emitExpression u
            | None => Some ""
            end ;;
  emitLoop ("for (" ++ init ++ "; " ++ condition ++ "; " ++ update ++ ") {")
    body "}" st.

(** [variable] of a for-of or for-in header. *)
Definition emitForBinding (variable : VariableDecl Expression + string)
    : string :=
  match variable with
  | inl decl => varKind_toString (vd_varKind decl) ++ " " ++ vd_name decl
  | inr name => name
  end.

Definition emitSwitchCase (caseClause : SwitchCase Expression Statement)
    (st : EmitterState) : option EmitterState :=
  st <- match sc_test caseClause with
        | Some test =>
            t <- emitExpression test ;;
            Some (emitLine ("case " ++ t ++ ":") st)
        | None => Some (emitLine "default:" st)
        end ;;
  let st := indentMore st in
  st <- emitStatements (sc_consequent caseClause) st ;;
  Some (indentLess st).

Definition emitTryStatement (block : list Statement)
    (handler : option (CatchClause Expression Statement))
    (finalizer : option (list Statement)) (st : EmitterState)
    : option EmitterState :=
  st <- emitBraced "try {" block st ;;
  st <- match handler with
        | Some handler =>
            let param :=
              match cc_param handler with
              | Some param => p_name param
              | None => ""
              end in
            emitBraced ("} catch (" ++ param ++ ") {") (cc_body handler) st
        | None => Some st
        end ;;
  st <- match finalizer with
        | Some finalizer => emitBraced "} finally {" finalizer st
        | None => Some st
        end ;;
  Some (emitLine "}" st).

Definition emitExportSpecifier (s : ExportSpecifier) : string :=
  if es_local s =? es_exported s then es_local s
  else es_local s ++ " as " ++ es_exported s.

Definition emitExportDeclaration (declaration : option Statement)
    (specifiers : option (list ExportSpecifier)) (source : option string)
    (isDefault : bool) (st : EmitterState) : option EmitterState :=
  let exportDeclaration (st : EmitterState) :=
    (* the last part of the function: [if (decl.declaration) ...] *)
    match declaration with
    | Some declaration =>
        let st := appendOutput (indent st ++ "export ") st in
        (* Remove indent from the declaration itself *)
        let savedIndent := indentLevel st in
        let st := setIndentLevel 0 st in
        match declaration with
        | FunctionDeclaration name parameters _ body isAsync isGenerator _ =>
            st <- emitFunctionDeclaration name parameters body isAsync
                    isGenerator st ;;
            Some (setIndentLevel savedIndent st)
        | ClassDeclaration name superClass members isAbstract _ =>
            st <- emitClassDeclaration name superClass members isAbstract st ;;
            Some (setIndentLevel savedIndent st)
        | VariableDeclaration decl =>
            line <- emitVariableDeclarationText decl ;;
            let st := appendOutput (line ++ ";" ++ newline) st in
            Some (setIndentLevel savedIndent st)
        | InterfaceDeclaration name _ _ =>
            let st :=
              appendOutput ("// interface " ++ name ++ " removed" ++ newline) st in
            Some (setIndentLevel savedIndent st)
        | TypeAliasDeclaration name _ _ =>
            let st :=
              appendOutput ("// type " ++ name ++ " removed" ++ newline) st in
            Some (setIndentLevel savedIndent st)
        | EnumDeclaration name members isConst _ =>
            let st := setIndentLevel savedIndent st in
            emitEnumDeclaration name members isConst st
        | _ => Some (setIndentLevel savedIndent st)
        end
    | None => Some st
    end in
  let exportOthers (st : EmitterState) :=
    (* everything after the [if (decl.isDefault)] block *)
    match specifiers with
    | Some ((_ :: _) as specifiers) =>
        let specs := join ", " (map emitExportSpecifier specifiers) in
        if truthy_string source then
          Some (emitLine ("export { " ++ specs ++ " } from " ++ quote
                          ++ match source with Some s => s | None => "" end
                          ++ quote ++ ";") st)
        else Some (emitLine ("export { " ++ specs ++ " };") st)
    | Some [] => exportDeclaration st
    | None =>
        if truthy_string source then
          Some (emitLine ("export * from " ++ quote
                          ++ match source with Some s => s | None => "" end
                          ++ quote ++ ";") st)
        else exportDeclaration st
    end in
  if isDefault then
    match declaration with
    | Some (FunctionDeclaration name parameters _ body isAsync isGenerator _) =>
        let st := appendOutput (indent st ++ "export default ") st in
        emitFunctionDeclaration name parameters body isAsync isGenerator st
    | Some (ClassDeclaration name superClass members isAbstract _) =>
        let st := appendOutput (indent st ++ "export default ") st in
        emitClassDeclaration name superClass members isAbstract st
    | Some (ExpressionStatement expression _) =>
        t <- emitExpression expression ;;
        Some (emitLine ("export default " ++ t ++ ";") st)
    | _ => exportOthers st
    end
  else exportOthers st.

Definition emitStatement_body (stmt : Statement) (st : EmitterState)
    : option EmitterState :=
  match stmt with
  | VariableDeclaration decl => emitVariableDeclaration decl st
  | FunctionDeclaration name parameters _ body isAsync isGenerator _ =>
      emitFunctionDeclaration name parameters body isAsync isGenerator st
  | InterfaceDeclaration name _ _ =>
      Some (emitLine ("// interface " ++ name ++ " removed") st)
  | TypeAliasDeclaration name _ _ =>
      Some (emitLine ("// type " ++ name ++ " removed") st)
  | ClassDeclaration name superClass members isAbstract _ =>
      emitClassDeclaration name superClass members isAbstract st
  | EnumDeclaration name members isConst _ =>
      emitEnumDeclaration name members isConst st
  | ReturnStatement argument _ => emitReturnStatement argument st
  | IfStatement condition consequent alternate _ =>
      (* this.emitIfStatement(stmt) *)
      emitIfStatement_fields condition consequent alternate st
  | WhileStatement condition body _ =>
      c <- emitExpression condition ;;
      emitLoop ("while (" ++ c ++ ") {") body "}" st
  | ForStatement init condition update body _ =>
      emitForStatement init condition update body st
  | ForOfStatement variable iterable body isAwait _ =>
      let keyword := if isAwait then "for await" else "for" in
      it <- emitExpression iterable ;;
      emitLoop (keyword ++ " (" ++ emitForBinding variable ++ " of " ++ it
                ++ ") {") body "}" st
  | ForInStatement variable object body _ =>
      obj <- emitExpression object ;;
      emitLoop ("for (" ++ emitForBinding variable ++ " in " ++ obj ++ ") {")
        body "}" st
  | DoWhileStatement body condition _ =>
      let st := emitLine "do {" st in
      let st := indentMore st in
      st <- emitBody body st ;;
      let st := indentLess st in
      c <- emitExpression condition ;;
      Some (emitLine ("} while (" ++ c ++ ");") st)
  | SwitchStatement discriminant cases _ =>
      d <- emitExpression discriminant ;;
      let st := emitLine ("switch (" ++ d ++ ") {") st in
      let st := indentMore st in
      st <- forEachO emitSwitchCase cases st ;;
      let st := indentLess st in
      Some (emitLine "}" st)
  | BreakStatement label _ => Some (emitLine (emitJump "break" label) st)
  | ContinueStatement label _ => Some (emitLine (emitJump "continue" label) st)
  | ThrowStatement argument _ =>
      t <- emitExpression argument ;;
      Some (emitLine ("throw " ++ t ++ ";") st)
  | TryStatement block handler finalizer _ =>
      emitTryStatement block handler finalizer st
  | ExpressionStatement expression _ =>
      t <- emitExpression expression ;;
      Some (emitLine (t ++ ";") st)
  | BlockStatement stmts _ =>
      st <- emitBraced "{" stmts st ;;
      Some (emitLine "}" st)
  | ImportDeclaration specifiers source _ =>
      Some (emitImportDeclaration specifiers source st)
  | ExportDeclaration declaration specifiers source isDefault _ =>
      emitExportDeclaration declaration specifiers source isDefault st
  | EmptyStatement _ => Some (emitLine ";" st)
  end.

(** [emitIfStatement(stmt)]; a statement without [condition] would make
    [emitExpression(undefined)] raise. *)
Definition emitIfStatement_body (stmt : Statement) (st : EmitterState)
    : option EmitterState :=
  match stmt with
  | IfStatement condition consequent alternate _ =>
      emitIfStatement_fields condition consequent alternate st
  | _ => None
  end.

End Bodies.

Fixpoint emitStatement (stmt : Statement) {struct stmt}
    : EmitterState -> option EmitterState :=
  emitStatement_body emitStatement emitIfStatement stmt
with emitIfStatement (stmt : Statement) {struct stmt}
    : EmitterState -> option EmitterState :=
  emitIfStatement_body emitStatement emitIfStatement stmt.

(** [Emitter.emit] and the exported [emit]. *)
Definition emit (program : Program) : option string :=
  st <- forEachO emitStatement (statements program)
          {| output := ""; indentLevel := 0 |} ;;
  Some (output st).

End Statements.

(** ** The lowering of enumerations *)

Lemma append_assoc (a b c : string) : (a ++ b) ++ c = a ++ b ++ c.
Proof. induction a as [|x a IH]; simpl; [reflexivity|now rewrite IH]. Qed.

Lemma append_empty_r (a : string) : a ++ "" = a.
Proof. induction a as [|x a IH]; simpl; [reflexivity|now rewrite IH]. Qed.

(** Right-nested normal form of a concatenation of strings. *)
Ltac normalize_appends :=
  unfold newline, quote;
  repeat (progress (rewrite ?append_assoc, ?append_empty_r; cbn [append])).

Section EnumLowering.
Context {numbers : Numbers} {JS : JSRuntime}.

(** The two assignments of the lowering. *)
Definition twoWayAssignment (N m : string) (v : number) : string :=
  N ++ "[" ++ N ++ "[" ++ quote ++ m ++ quote ++ "] = " ++ num_toString v
  ++ "] = " ++ quote ++ m ++ quote ++ ";".

Definition oneWayAssignment (N m value : string) : string :=
  N ++ "[" ++ quote ++ m ++ quote ++ "] = " ++ value ++ ";".

(** The lowering as the specification words it.  [before] lists the
    members declared before the one at hand, nearest first.

    The previous numeric value: that of the nearest earlier member which
    is numeric, a member being numeric when its initializer is a numeric
    literal or when it has none. *)
Fixpoint previousNumericValue (before : list (EnumMember Expression))
    : option number :=
  match before with
  | [] => None
  | m :: earlier =>
      match em_initializer m with
      | Some (NumericLiteral v _) => Some v
      | None =>
          Some match previousNumericValue earlier with
               | Some p => num_add1 p
               | None => num_zero
               end
      | Some _ => previousNumericValue earlier
      end
  end.

(** "The previous numeric value plus one, starting from 0". *)
Definition autoIncrementedValue (before : list (EnumMember Expression))
    : number :=
  match previousNumericValue before with
  | Some p => num_add1 p
  | None => num_zero
  end.

(** The statement a member is lowered to; an initializer that is neither
    a numeric nor a string literal is printed by [emitExpression]. *)
Definition enumMemberStatement (N : string)
    (before : list (EnumMember Expression)) (m : EnumMember Expression)
    : option string :=
  match em_initializer m with
  | Some (NumericLiteral v _) => Some (twoWayAssignment N (em_name m) v)
  | None =>
      Some (twoWayAssignment N (em_name m) (autoIncrementedValue before))
  | Some (StringLiteral s _) =>
      Some (oneWayAssignment N (em_name m) (quote ++ s ++ quote))
  | Some e =>
      value <- emitExpression e ;;
      Some (oneWayAssignment N (em_name m) value)
  end.

(** The statements of the function body, in declaration order. *)
Fixpoint enumBodyStatements (N : string)
    (before members : list (EnumMember Expression)) : option (list string) :=
  match members with
  | [] => Some []
  | m :: rest =>
      s <- enumMemberStatement N before m ;;
      ss <- enumBodyStatements N (m :: before) rest ;;
      Some (s :: ss)
  end.

(** The text of [lines], each on a line of its own behind [indentation]. *)
Fixpoint linesText (indentation : string) (lines : list string) : string :=
  match lines with
  | [] => ""
  | l :: rest => indentation ++ l ++ newline ++ linesText indentation rest
  end.

Lemma emitEnumMembers_spec N members : forall before st,
  emitEnumMembers N members (autoIncrementedValue before) st
  = (lines <- enumBodyStatements N before members ;;
     Some {| output := output st ++ linesText (indent st) lines;
             indentLevel := indentLevel st |}).
Proof.
  induction members as [|m rest IH]; intros before st.
  - simpl. rewrite append_empty_r. now destruct st.
  - cbn [emitEnumMembers enumBodyStatements].
    unfold emitEnumMember, enumMemberStatement.
    assert (Hnum : forall v line, em_initializer m = Some (NumericLiteral v line) ->
              num_add1 v = autoIncrementedValue (m :: before)).
    { intros v line H. unfold autoIncrementedValue. simpl. now rewrite H. }
    assert (Hnone : em_initializer m = None ->
              num_add1 (autoIncrementedValue before)
              = autoIncrementedValue (m :: before)).
    { intros H. unfold autoIncrementedValue at 2. simpl. now rewrite H. }
    assert (Hother : forall e, em_initializer m = Some e ->
              (forall v line, e <> NumericLiteral v line) ->
              autoIncrementedValue before = autoIncrementedValue (m :: before)).
    { intros e H Hne. unfold autoIncrementedValue. simpl. rewrite H.
      destruct e; try reflexivity. now elim (Hne _ _ eq_refl). }
    assert (Hstep : forall text cur,
              cur = autoIncrementedValue (m :: before) ->
              emitEnumMembers N rest cur (emitLine text st)
              = (ss <- enumBodyStatements N (m :: before) rest ;;
                 Some {| output := output st ++ linesText (indent st) (text :: ss);
                         indentLevel := indentLevel st |})).
    { intros text cur ->. rewrite IH.
      destruct (enumBodyStatements N (m :: before) rest) as [ss|]; simpl;
        [|reflexivity].
      cbn [linesText]. unfold emitLine. cbn [output indentLevel].
      unfold indent. cbn [indentLevel].
      now rewrite !append_assoc. }
    destruct (em_initializer m) as [e|] eqn:Hinit.
    + destruct e; cbv beta iota zeta;
        try (destruct (emitExpression _) as [printed|]; cbn [bindO];
             [|reflexivity];
             rewrite Hstep by (eapply Hother; [reflexivity|discriminate]);
             now destruct (enumBodyStatements N (m :: before) rest));
        cbn [bindO].
      * rewrite Hstep by (eapply Hnum; reflexivity).
        now destruct (enumBodyStatements N (m :: before) rest).
      * rewrite Hstep by (eapply Hother; [reflexivity|discriminate]).
        now destruct (enumBodyStatements N (m :: before) rest).
    + cbn [bindO]. rewrite Hstep by (now apply Hnone).
      now destruct (enumBodyStatements N (m :: before) rest).
Qed.

(** C6. A non-const enum declaration named [N] is emitted as [var N;]
    followed by the call [(function (N) { ... })(N || (N = {}));] whose
    body holds one statement per member, in declaration order: the
    two-way assignment [N[N["m"] = v] = "m";] for a numeric member, [v]
    being its numeric-literal initializer or else the previous numeric
    value plus one, from 0; the one-way assignment [N["m"] = "s";] for a
    string-literal member.  (The emitter raises only where printing an
    initializer that is neither kind of literal raises.) *)
Theorem enum_declaration_lowering (N : string)
    (members : list (EnumMember Expression)) (line : nat) (st : EmitterState) :
  emitStatement (EnumDeclaration N members false line) st
  = (body <- enumBodyStatements N [] members ;;
     Some {| output :=
               output st
               ++ linesText (indent st)
                    ["var " ++ N ++ ";"; "(function (" ++ N ++ ") {"]
               ++ linesText (indentString ++ indent st) body
               ++ linesText (indent st)
                    ["})(" ++ N ++ " || (" ++ N ++ " = {}));"];
             indentLevel := indentLevel st |}).
Proof.
  change (emitStatement (EnumDeclaration N members false line) st)
    with (emitEnumDeclaration N members false st).
  unfold emitEnumDeclaration.
  change num_zero with (autoIncrementedValue []).
  rewrite emitEnumMembers_spec.
  destruct (enumBodyStatements N [] members) as [body|]; simpl; [|reflexivity].
  unfold emitLine, indentLess, indentMore, setIndentLevel, indent.
  cbn [output indentLevel pred repeat_string linesText].
  normalize_appends. reflexivity.
Qed.

End EnumLowering.

End Emitter.

(** * checker.ts: assignability *)

Module Assignability.
Import Types.

Section Assignable.
Context {numbers : Numbers} {JS : JSRuntime}.

(** The three helpers take the relation they call back as [isA]; the
    knot is tied in [isAssignable] below. *)
Section Body.
Variable isA : TypeValue -> TypeValue -> bool.

(** [isInterfaceAssignable]: the loop over [target.members]. *)
Fixpoint isInterfaceAssignable_loop
    (sourceMembers : JsMap (MemberInfo TypeValue))
    (targetMembers : JsMap (MemberInfo TypeValue)) : bool :=
  match targetMembers with
  | [] => true
  | (key, targetMember) :: rest =>
      match map_get sourceMembers key with
      | None =>
          if negb (member_optional targetMember) then false
          else isInterfaceAssignable_loop sourceMembers rest
      | Some sourceMember =>
          if negb (isA (member_type sourceMember) (member_type targetMember))
          then false
          else isInterfaceAssignable_loop sourceMembers rest
      end
  end.

Definition isInterfaceAssignable
    (sourceMembers targetMembers : JsMap (MemberInfo TypeValue)) : bool :=
  isInterfaceAssignable_loop sourceMembers (map_entries targetMembers).

(** The parameter loop of [isFunctionAssignable]: for [i] below
    [target.params.length], [source.params[i]] exists by the length test
    made before the loop. *)
Fixpoint isFunctionAssignable_loop
    (targetParams sourceParams : list (ParamInfo TypeValue)) : bool :=
  match targetParams with
  | [] => true
  | tp :: trest =>
      match sourceParams with
      | sp :: srest =>
          if negb (isA (param_type tp) (param_type sp)) then false
          else isFunctionAssignable_loop trest srest
      | [] => false
      end
  end.

Definition isFunctionAssignable
    (sourceParams : list (ParamInfo TypeValue)) (sourceReturn : TypeValue)
    (targetParams : list (ParamInfo TypeValue)) (targetReturn : TypeValue)
    : bool :=
  if negb (isA sourceReturn targetReturn) then false
  else if (length sourceParams <? length targetParams)%nat then false
  else isFunctionAssignable_loop targetParams sourceParams.

(** [srcTuple.elementTypes.every((t, i) => isAssignable(t, tgt[i]))],
    reached only when both tuples have the same length. *)
Fixpoint tuple_every (src tgt : list TypeValue) : bool :=
  match src with
  | [] => true
  | t :: srest =>
      match tgt with
      | u :: trest => isA t u && tuple_every srest trest
      | [] => false
      end
  end.

Definition isStringLiteralType (t : TypeValue) : bool :=
  match t with
  | LiteralTypeValue (LitString _) => true
  | _ => false
  end.

Definition isAssignable_body (source target : TypeValue) : bool :=
  (* Any is assignable to anything and anything is assignable to any *)
  if (kind source =? "any") || (kind target =? "any") then true
  (* Unknown accepts any but can only be assigned to unknown or any *)
  else if kind target =? "unknown" then true
  else if kind source =? "unknown" then
    (kind target =? "unknown") || (kind target =? "any")
  (* Never is assignable to anything *)
  else if kind source =? "never" then true
  (* Null and undefined *)
  else if (kind source =? "null") || (kind source =? "undefined") then
    (kind target =? kind source) || (kind target =? "any")
    || (kind target =? "unknown")
  (* Same primitive types *)
  else if kind source =? kind target then
    match source, target with
    | InterfaceType _ sm, InterfaceType _ tm => isInterfaceAssignable sm tm
    | ArrayTypeValue se, ArrayTypeValue te => isA se te
    | TupleTypeValue ss, TupleTypeValue ts =>
        if negb (length ss =? length ts)%nat then false
        else tuple_every ss ts
    | FunctionType sp sr, FunctionType tp tr => isFunctionAssignable sp sr tp tr
    | _, _ => true
    end
  else
    (* Union type target *)
    match target with
    | UnionTypeValue ttypes => existsb (fun t => isA source t) ttypes
    | _ =>
    (* Union type source *)
    match source with
    | UnionTypeValue stypes => forallb (fun t => isA t target) stypes
    | _ =>
    (* String is assignable to union of string literals *)
    if (kind source =? "string") && (kind target =? "union")
       && match target with
          | UnionTypeValue unionTypes => forallb isStringLiteralType unionTypes
          | _ => false
          end
    then true
    else
    (* Literal type assignable to primitive *)
    match source with
    | LiteralTypeValue (LitNumber _) => kind target =? "number"
    | LiteralTypeValue (LitString _) => kind target =? "string"
    | LiteralTypeValue (LitBoolean _) => kind target =? "boolean"
    | _ => false
    end
    end
    end.

End Body.

(** Number of nodes [isAssignable] can descend through. *)
Fixpoint tsize (t : TypeValue) : nat :=
  match t with
  | ArrayTypeValue e => S (tsize e)
  | TupleTypeValue l => S (list_sum (map tsize l))
  | UnionTypeValue l => S (list_sum (map tsize l))
  | FunctionType ps r =>
      S (list_sum (map (fun p => tsize (param_type p)) ps) + tsize r)
  | InterfaceType _ ms =>
      S (list_sum (map (fun km => tsize (member_type (snd km))) ms))
  | _ => 1
  end.

(** The recursion of [isAssignable] swaps its arguments on function
    parameters, so it is not structural; it is unrolled [fuel] times.
    [isAssignable_unfold] shows that the fuel given by [isAssignable]
    is never exhausted. *)
Fixpoint isAssignable_fuel (fuel : nat) (source target : TypeValue) : bool :=
  match fuel with
  | O => false
  | S fuel => isAssignable_body (isAssignable_fuel fuel) source target
  end.

Definition isAssignable (source target : TypeValue) : bool :=
  isAssignable_fuel (tsize source + tsize target) source target.

(** *** The fuel of [isAssignable] is sufficient *)

Lemma entries_from_In {V} (m : JsMap V) : forall seen k v,
  In (k, v) (entries_from seen m) ->
  In (k, v) m /\ existsb (String.eqb k) seen = false /\ map_get m k = Some v.
Proof.
  induction m as [|[k' v'] r IH]; simpl; intros seen k v H; [tauto|].
  destruct (existsb (String.eqb k') seen) eqn:Hseen.
  - destruct (IH _ _ _ H) as (Hin & Hk & Hget). repeat split; auto.
    destruct (k' =? k) eqn:E; [|assumption].
    apply String.eqb_eq in E. subst. congruence.
  - destruct H as [[= -> ->]|H].
    + repeat split; auto. now rewrite String.eqb_refl.
    + destruct (IH _ _ _ H) as (Hin & Hk & Hget). simpl in Hk.
      apply orb_false_elim in Hk as [Hk1 Hk2]. repeat split; auto.
      rewrite String.eqb_sym in Hk1. now rewrite Hk1.
Qed.

Lemma map_entries_In {V} (m : JsMap V) k v :
  In (k, v) (map_entries m) -> In (k, v) m /\ map_get m k = Some v.
Proof. intros H. apply entries_from_In in H. tauto. Qed.

Lemma map_get_In {V} (m : JsMap V) k v :
  map_get m k = Some v -> exists k', In (k', v) m.
Proof.
  induction m as [|[k' v'] r IH]; simpl; [discriminate|].
  destruct (k' =? k).
  - intros [= ->]. exists k'. now left.
  - intros H. destruct (IH H) as [k'' Hin]. exists k''. now right.
Qed.

Lemma list_sum_In {A} (f : A -> nat) (l : list A) x :
  In x l -> f x <= list_sum (map f l).
Proof.
  induction l as [|y r IH]; simpl; [tauto|].
  intros [->|Hin]; [lia|]. specialize (IH Hin). lia.
Qed.

Lemma existsb_ext_In {A} (f g : A -> bool) l :
  (forall x, In x l -> f x = g x) -> existsb f l = existsb g l.
Proof.
  induction l as [|x r IH]; simpl; intros H; [reflexivity|].
  rewrite (H x) by now left. rewrite IH; [reflexivity|].
  intros y Hy. apply H. now right.
Qed.

Lemma forallb_ext_In {A} (f g : A -> bool) l :
  (forall x, In x l -> f x = g x) -> forallb f l = forallb g l.
Proof.
  induction l as [|x r IH]; simpl; intros H; [reflexivity|].
  rewrite (H x) by now left. rewrite IH; [reflexivity|].
  intros y Hy. apply H. now right.
Qed.

Section BodyExt.
Variables f g : TypeValue -> TypeValue -> bool.

Lemma isInterfaceAssignable_loop_ext sm tm :
  (forall k k' a b, In (k, a) sm -> In (k', b) tm ->
     f (member_type a) (member_type b) = g (member_type a) (member_type b)) ->
  isInterfaceAssignable_loop f sm tm = isInterfaceAssignable_loop g sm tm.
Proof.
  induction tm as [|[key b] r IH]; simpl; intros H; [reflexivity|].
  assert (IH' : isInterfaceAssignable_loop f sm r
                = isInterfaceAssignable_loop g sm r).
  { apply IH. intros k k' a b' Ha Hb. apply (H k k'); [assumption|now right]. }
  destruct (map_get sm key) as [a|] eqn:Hget.
  - destruct (map_get_In _ _ Hget) as [k' Hin].
    rewrite (H k' key a b Hin) by now left. now rewrite IH'.
  - now rewrite IH'.
Qed.

Lemma isFunctionAssignable_loop_ext tp sp :
  (forall a b, In a tp -> In b sp ->
     f (param_type a) (param_type b) = g (param_type a) (param_type b)) ->
  isFunctionAssignable_loop f tp sp = isFunctionAssignable_loop g tp sp.
Proof.
  revert sp. induction tp as [|a tr IH]; simpl; intros sp H; [reflexivity|].
  destruct sp as [|b sr]; [reflexivity|].
  rewrite (H a b) by now left.
  rewrite IH; [reflexivity|].
  intros a' b' Ha Hb. apply H; now right.
Qed.

Lemma tuple_every_ext ss ts :
  (forall a b, In a ss -> In b ts -> f a b = g a b) ->
  tuple_every f ss ts = tuple_every g ss ts.
Proof.
  revert ts. induction ss as [|a sr IH]; simpl; intros ts H; [reflexivity|].
  destruct ts as [|b tr]; [reflexivity|].
  rewrite (H a b) by now left.
  rewrite IH; [reflexivity|].
  intros a' b' Ha Hb. apply H; now right.
Qed.

Lemma if_congr {A} (c : bool) (a a' b b' : A) :
  a = a' -> b = b' -> (if c then a else b) = (if c then a' else b').
Proof. now intros -> ->. Qed.

Lemma isAssignable_body_ext s t :
  (forall s' t', tsize s' + tsize t' < tsize s + tsize t -> f s' t' = g s' t') ->
  isAssignable_body f s t = isAssignable_body g s t.
Proof.
  intros H. unfold isAssignable_body.
  do 5 (apply if_congr; [reflexivity|]).
  apply if_congr.
  - destruct s; try reflexivity; destruct t; try reflexivity; simpl in H.
    + apply H. lia.
    + destruct (negb _); [reflexivity|].
      apply tuple_every_ext. intros a b Ha Hb. apply H.
      pose proof (list_sum_In tsize _ _ Ha).
      pose proof (list_sum_In tsize _ _ Hb). lia.
    + unfold isFunctionAssignable.
      rewrite (H s t) by lia.
      destruct (negb _); [reflexivity|].
      destruct (_ <? _)%nat; [reflexivity|].
      apply isFunctionAssignable_loop_ext. intros a b Ha Hb. apply H.
      pose proof (list_sum_In (fun p => tsize (param_type p)) _ _ Ha).
      pose proof (list_sum_In (fun p => tsize (param_type p)) _ _ Hb).
      simpl in *. lia.
    + unfold isInterfaceAssignable.
      apply isInterfaceAssignable_loop_ext. intros k k' a b Ha Hb. apply H.
      apply map_entries_In in Hb as [Hb _].
      pose proof (list_sum_In (fun km => tsize (member_type (snd km))) _ _ Ha).
      pose proof (list_sum_In (fun km => tsize (member_type (snd km))) _ _ Hb).
      simpl in *. lia.
  - assert (Hu : forall l, t = UnionTypeValue l ->
              existsb (fun t0 => f s t0) l = existsb (fun t0 => g s t0) l).
    { intros l ->. apply existsb_ext_In. intros x Hx. apply H. simpl.
      pose proof (list_sum_In tsize _ _ Hx). lia. }
    assert (Hs : forall l, s = UnionTypeValue l ->
              forallb (fun t0 => f t0 t) l = forallb (fun t0 => g t0 t) l).
    { intros l ->. apply forallb_ext_In. intros x Hx. apply H. simpl.
      pose proof (list_sum_In tsize _ _ Hx). lia. }
    destruct t; try (apply Hu; reflexivity);
      destruct s; try (apply Hs; reflexivity); reflexivity.
Qed.

End BodyExt.

Lemma tsize_pos t : 1 <= tsize t.
Proof. destruct t; simpl; lia. Qed.

Lemma isAssignable_fuel_enough n : forall m s t,
  tsize s + tsize t <= n -> tsize s + tsize t <= m ->
  isAssignable_fuel n s t = isAssignable_fuel m s t.
Proof.
  induction n as [|n IH]; intros m s t Hn Hm.
  - pose proof (tsize_pos s). lia.
  - destruct m as [|m]; [pose proof (tsize_pos s); lia|]. simpl.
    apply isAssignable_body_ext. intros s' t' Hlt. apply IH; lia.
Qed.

(** [isAssignable] satisfies the equation that is its source text. *)
Lemma isAssignable_unfold s t :
  isAssignable s t = isAssignable_body isAssignable s t.
Proof.
  unfold isAssignable at 1.
  pose proof (tsize_pos s). pose proof (tsize_pos t).
  destruct (tsize s + tsize t) as [|k] eqn:Hk; [lia|]. simpl.
  apply isAssignable_body_ext. intros s' t' Hlt.
  unfold isAssignable. apply isAssignable_fuel_enough; lia.
Qed.

(** *** Reflexivity *)

Lemma isInterfaceAssignable_loop_refl isA sm : forall tm,
  (forall k b, In (k, b) tm ->
     map_get sm k = Some b /\ isA (member_type b) (member_type b) = true) ->
  isInterfaceAssignable_loop isA sm tm = true.
Proof.
  induction tm as [|[key b] r IH]; simpl; intros H; [reflexivity|].
  destruct (H key b) as [-> ->]; [now left|]. simpl.
  apply IH. intros k b' Hin. apply H. now right.
Qed.

Lemma isFunctionAssignable_loop_refl isA ps :
  (forall p, In p ps -> isA (param_type p) (param_type p) = true) ->
  isFunctionAssignable_loop isA ps ps = true.
Proof.
  induction ps as [|p r IH]; simpl; intros H; [reflexivity|].
  rewrite (H p) by now left. simpl. apply IH. intros q Hq. apply H. now right.
Qed.

Lemma tuple_every_refl isA l :
  (forall t, In t l -> isA t t = true) -> tuple_every isA l l = true.
Proof.
  induction l as [|t r IH]; simpl; intros H; [reflexivity|].
  rewrite (H t) by now left. simpl. apply IH. intros q Hq. apply H. now right.
Qed.

Lemma isAssignable_refl_bounded n : forall T,
  tsize T <= n -> isAssignable T T = true.
Proof.
  induction n as [|n IH]; intros T Hn.
  - pose proof (tsize_pos T). lia.
  - rewrite isAssignable_unfold. unfold isAssignable_body.
    repeat match goal with
    | |- (if ?c then _ else _) = true => destruct c eqn:?; [try reflexivity|]
    end.
    + rewrite String.eqb_refl. apply orb_true_l.
    + destruct T; try reflexivity; simpl in Hn.
      * apply IH. lia.
      * rewrite Nat.eqb_refl. simpl. apply tuple_every_refl.
        intros t Ht. apply IH.
        pose proof (list_sum_In tsize _ _ Ht). lia.
      * unfold isFunctionAssignable.
        rewrite IH by lia. simpl. rewrite Nat.ltb_irrefl.
        apply isFunctionAssignable_loop_refl. intros p Hp. apply IH.
        pose proof (list_sum_In (fun p => tsize (param_type p)) _ _ Hp).
        simpl in *. lia.
      * unfold isInterfaceAssignable.
        apply isInterfaceAssignable_loop_refl. intros k b Hin.
        apply map_entries_In in Hin as [Hin Hget]. split; [assumption|].
        apply IH.
        pose proof (list_sum_In (fun km => tsize (member_type (snd km))) _ _ Hin).
        simpl in *. lia.
    + now rewrite String.eqb_refl in *.
Qed.

(** C5. Assignability is reflexive: [isAssignable T T] holds for every
    type value [T] (those the checker produces, and the other variants
    of [Type] as well). *)
Theorem isAssignable_reflexive (T : TypeValue) : isAssignable T T = true.
Proof. apply (isAssignable_refl_bounded (n := tsize T)). lia. Qed.

(** *** Same-kind pairs *)

Lemma isAssignable_same_kind s t :
  kind s = kind t ->
  kind s <> "interface" -> kind s <> "array" ->
  kind s <> "tuple" -> kind s <> "function" ->
  isAssignable s t = true.
Proof.
  intros Hk Hi Ha Ht Hf. rewrite isAssignable_unfold. unfold isAssignable_body.
  destruct (_ || _); [reflexivity|].
  destruct (kind t =? "unknown") eqn:Hu; [reflexivity|].
  destruct (kind s =? "unknown") eqn:Hsu; [rewrite Hk in Hsu; congruence|].
  destruct (kind s =? "never"); [reflexivity|].
  destruct (_ || _); [now rewrite Hk, String.eqb_refl|].
  rewrite Hk, String.eqb_refl.
  destruct s; try reflexivity; simpl in *; congruence.
Qed.

(** C9. Two types of the same kind, other than interface, array, tuple
    and function, are assignable whatever they contain: in particular any
    two unions, any two literal types, any two intersections, enums or
    classes. *)
Theorem same_kind_assignable_unconditionally :
  (forall s t : TypeValue,
     kind s = kind t ->
     kind s <> "interface" -> kind s <> "array" ->
     kind s <> "tuple" -> kind s <> "function" ->
     isAssignable s t = true)
  /\ (forall ss ts, isAssignable (UnionTypeValue ss) (UnionTypeValue ts) = true)
  /\ (forall v w, isAssignable (LiteralTypeValue v) (LiteralTypeValue w) = true)
  /\ (forall ss ts,
        isAssignable (IntersectionTypeValue ss) (IntersectionTypeValue ts) = true)
  /\ (forall n m n' m', isAssignable (EnumType n m) (EnumType n' m') = true)
  /\ (forall n m sm n' m' sm',
        isAssignable (ClassType n m sm) (ClassType n' m' sm') = true).
Proof.
  split; [exact isAssignable_same_kind|].
  repeat split; intros; apply isAssignable_same_kind;
    simpl; congruence.
Qed.

(** *** [string] against a union of string literals *)

Lemma string_not_assignable_to_literal v :
  isAssignable (PrimitiveType Pstring) (LiteralTypeValue v) = false.
Proof. rewrite isAssignable_unfold. reflexivity. Qed.

(** C1 fails in the code: the union-target branch of [isAssignable]
    returns before the relaxation for [string] is reached, and no
    string-literal arm accepts [string]; so [string] is not assignable to
    a union whose arms are all string literals. *)
Theorem string_to_string_literal_union_rejected (arms : list TypeValue) :
  forallb isStringLiteralType arms = true ->
  isAssignable createStringType (UnionTypeValue arms) = false.
Proof.
  intros Harms. rewrite isAssignable_unfold.
  unfold isAssignable_body, createStringType. simpl.
  induction arms as [|a r IH]; simpl in *; [reflexivity|].
  apply andb_prop in Harms as [Ha Hr].
  destruct a as [| [s| | |] | | | | | | | | | | | | | | | |]; try discriminate.
  rewrite (string_not_assignable_to_literal (LitString s)). simpl.
  now apply IH.
Qed.

(** *** The first three rules *)

(** X1. [any] is assignable to every type and every type to [any];
    every type is assignable to [unknown]; [never] is assignable to
    every type. *)
Theorem any_unknown_never_assignable :
  (forall t : TypeValue, isAssignable AnyType t = true)
  /\ (forall s : TypeValue, isAssignable s AnyType = true)
  /\ (forall s : TypeValue, isAssignable s UnknownType = true)
  /\ (forall t : TypeValue, isAssignable NeverType t = true).
Proof.
  split; [|split; [|split]]; intros x; rewrite isAssignable_unfold;
    unfold isAssignable_body.
  - change (kind AnyType =? "any") with true.
    rewrite ?orb_true_r, ?orb_true_l. reflexivity.
  - change (kind AnyType =? "any") with true.
    rewrite ?orb_true_r, ?orb_true_l. reflexivity.
  - change (kind UnknownType =? "unknown") with true.
    destruct (_ || _); reflexivity.
  - change (kind NeverType =? "any") with false.
    change (kind NeverType =? "unknown") with false.
    change (kind NeverType =? "never") with true.
    destruct (_ || _); [reflexivity|].
    destruct (kind x =? "unknown"); reflexivity.
Qed.

(** *** Primitives and literal types *)

(** X4. Between two primitive types ([number], [string], [boolean],
    [void], [null], [undefined], [symbol], [bigint]) assignability is
    equality: no primitive is assignable to a different one. *)
Theorem primitives_assignable_iff_equal (p q : PrimitiveKind) :
  isAssignable (PrimitiveType p) (PrimitiveType q) = true <-> p = q.
Proof.
  rewrite isAssignable_unfold.
  destruct p, q; vm_compute; split; intros H; try reflexivity; discriminate.
Qed.

(** The primitive a literal value belongs to, by its [typeof]; [null]
    has [typeof] ["object"]. *)
Definition primitiveOf (v : LiteralValue) : option PrimitiveKind :=
  match v with
  | LitString _ => Some Pstring
  | LitNumber _ => Some Pnumber
  | LitBoolean _ => Some Pboolean
  | LitNull => None
  end.

(** X5. A literal type is assignable to a primitive type exactly when
    the primitive is the one of its value (a string literal to [string],
    a number literal to [number], a boolean literal to [boolean], the
    literal [null] to none), and no primitive type is assignable to a
    literal type. *)
Theorem literal_widens_to_its_primitive (v : LiteralValue) (p : PrimitiveKind) :
  (isAssignable (LiteralTypeValue v) (PrimitiveType p) = true
   <-> primitiveOf v = Some p)
  /\ isAssignable (PrimitiveType p) (LiteralTypeValue v) = false.
Proof.
  split.
  - rewrite isAssignable_unfold.
    destruct v as [s|n|[]|], p; vm_compute; split; intros H;
      try reflexivity; discriminate.
  - rewrite isAssignable_unfold. destruct p; reflexivity.
Qed.

Lemma nullish_targets (p : PrimitiveKind) (t : TypeValue) :
  p = Pnull \/ p = Pundefined ->
  isAssignable (PrimitiveType p) t = true
  <-> t = PrimitiveType p \/ t = AnyType \/ t = UnknownType.
Proof.
  intros Hp. rewrite isAssignable_unfold.
  destruct Hp as [-> | ->];
    (destruct t as [[]| | | | | | | | | | | | | | | | |];
     vm_compute;
     (split;
      [ intros H; try discriminate; auto
      | intros [H|[H|H]]; try discriminate; reflexivity ])).
Qed.

(** X6. [null] is assignable to [null], [any] and [unknown] and to
    nothing else, and likewise [undefined]: in particular neither is
    assignable to a union, whatever its arms. *)
Theorem null_and_undefined_targets (t : TypeValue) :
  (isAssignable createNullType t = true
   <-> t = createNullType \/ t = AnyType \/ t = UnknownType)
  /\ (isAssignable createUndefinedType t = true
      <-> t = createUndefinedType \/ t = AnyType \/ t = UnknownType).
Proof. split; apply nullish_targets; auto. Qed.

(** *** Functions, arrays, tuples and interfaces *)

Lemma isFunctionAssignable_loop_spec isA tp : forall sp,
  length tp <= length sp ->
  isFunctionAssignable_loop isA tp sp = true
  <-> forall i a b, nth_error tp i = Some a -> nth_error sp i = Some b ->
        isA (param_type a) (param_type b) = true.
Proof.
  induction tp as [|a tr IH]; intros sp Hlen; simpl.
  - split; [|reflexivity]. intros _ [|i] a b; discriminate.
  - destruct sp as [|b sr]; [simpl in Hlen; lia|]. simpl in Hlen.
    destruct (isA (param_type a) (param_type b)) eqn:Hab; simpl.
    + rewrite IH by lia. split.
      * intros H [|i] a' b'; simpl.
        -- now intros [= <-] [= <-].
        -- apply H.
      * intros H i a' b'. apply (H (S i)).
    + split; [discriminate|]. intros H.
      rewrite <- Hab. now apply (H 0).
Qed.

(** X7. A function type is assignable to another exactly when its
    return type is assignable to the other's, it has at least as many
    parameters, and at each position of the target the target's
    parameter type is assignable to the source's. *)
Theorem function_assignability (sp tp : list (ParamInfo TypeValue))
    (sr tr : TypeValue) :
  isAssignable (FunctionType sp sr) (FunctionType tp tr) = true
  <-> isAssignable sr tr = true
      /\ length tp <= length sp
      /\ forall i a b, nth_error tp i = Some a -> nth_error sp i = Some b ->
           isAssignable (param_type a) (param_type b) = true.
Proof.
  rewrite isAssignable_unfold.
  change (isAssignable_body isAssignable (FunctionType sp sr) (FunctionType tp tr))
    with (isFunctionAssignable isAssignable sp sr tp tr).
  unfold isFunctionAssignable.
  destruct (isAssignable sr tr); simpl;
    [|split; [discriminate|intros [H _]; discriminate]].
  destruct (length sp <? length tp)%nat eqn:Hlen.
  - apply Nat.ltb_lt in Hlen. split; [discriminate|]. intros (_ & H & _). lia.
  - apply Nat.ltb_ge in Hlen.
    rewrite isFunctionAssignable_loop_spec by assumption. tauto.
Qed.

Lemma tuple_every_spec isA ss : forall ts,
  length ss = length ts ->
  tuple_every isA ss ts = true
  <-> forall i s t, nth_error ss i = Some s -> nth_error ts i = Some t ->
        isA s t = true.
Proof.
  induction ss as [|a sr IH]; intros ts Hlen; simpl.
  - split; [|reflexivity]. intros _ [|i] a b; discriminate.
  - destruct ts as [|b tr]; [discriminate|]. simpl in Hlen.
    destruct (isA a b) eqn:Hab; simpl.
    + rewrite IH by lia. split.
      * intros H [|i] a' b'; simpl.
        -- now intros [= <-] [= <-].
        -- apply H.
      * intros H i a' b'. apply (H (S i)).
    + split; [discriminate|]. intros H.
      rewrite <- Hab. now apply (H 0).
Qed.

(** X8. Arrays are compared by their element types, and a tuple type
    is assignable to another exactly when both have the same length and
    the element types are assignable position by position. *)
Theorem array_and_tuple_assignability :
  (forall s t : TypeValue,
     isAssignable (ArrayTypeValue s) (ArrayTypeValue t) = isAssignable s t)
  /\ (forall ss ts : list TypeValue,
        isAssignable (TupleTypeValue ss) (TupleTypeValue ts) = true
        <-> length ss = length ts
            /\ forall i s t, nth_error ss i = Some s -> nth_error ts i = Some t ->
                 isAssignable s t = true).
Proof.
  split.
  - intros s t. now rewrite isAssignable_unfold at 1.
  - intros ss ts. rewrite isAssignable_unfold.
    change (isAssignable_body isAssignable (TupleTypeValue ss) (TupleTypeValue ts))
      with (if negb (length ss =? length ts)%nat then false
            else tuple_every isAssignable ss ts).
    destruct (length ss =? length ts)%nat eqn:Hlen; simpl.
    + apply Nat.eqb_eq in Hlen. rewrite tuple_every_spec by assumption. tauto.
    + apply Nat.eqb_neq in Hlen. split; [discriminate|]. tauto.
Qed.

Lemma map_get_entries_from {V} (m : JsMap V) : forall seen k v,
  map_get m k = Some v -> existsb (String.eqb k) seen = false ->
  In (k, v) (entries_from seen m).
Proof.
  induction m as [|[k' v'] r IH]; simpl; intros seen k v Hget Hseen;
    [discriminate|].
  destruct (k' =? k) eqn:E.
  - apply String.eqb_eq in E. subst k'. injection Hget as ->.
    rewrite Hseen. now left.
  - destruct (existsb (String.eqb k') seen) eqn:Hk'.
    + now apply IH.
    + right. apply IH; [assumption|]. simpl.
      rewrite String.eqb_sym, E. exact Hseen.
Qed.

(** Iterating over a map visits the entries [get] finds. *)
Lemma map_entries_iff {V} (m : JsMap V) k v :
  In (k, v) (map_entries m) <-> map_get m k = Some v.
Proof.
  split.
  - intros H. now apply map_entries_In in H.
  - intros H. now apply map_get_entries_from.
Qed.

Lemma isInterfaceAssignable_loop_spec isA sm : forall tm,
  isInterfaceAssignable_loop isA sm tm = true
  <-> forall key b, In (key, b) tm ->
        match map_get sm key with
        | Some a => isA (member_type a) (member_type b) = true
        | None => member_optional b = true
        end.
Proof.
  induction tm as [|[key b] r IH]; simpl.
  - split; [tauto|reflexivity].
  - destruct (map_get sm key) as [a|] eqn:Hget.
    + destruct (isA (member_type a) (member_type b)) eqn:Hab; simpl.
      * rewrite IH. split.
        -- intros H k b' [[= <- <-]|Hin]; [now rewrite Hget|now apply H].
        -- intros H k b' Hin. apply H. now right.
      * split; [discriminate|]. intros H.
        specialize (H key b (or_introl eq_refl)). rewrite Hget in H. congruence.
    + destruct (member_optional b) eqn:Hopt; simpl.
      * rewrite IH. split.
        -- intros H k b' [[= <- <-]|Hin]; [now rewrite Hget|now apply H].
        -- intros H k b' Hin. apply H. now right.
      * split; [discriminate|]. intros H.
        specialize (H key b (or_introl eq_refl)). rewrite Hget in H. congruence.
Qed.

(** X9. Interfaces are compared by their members, not by their names:
    an interface type is assignable to another exactly when every
    member of the target is either present in the source with an
    assignable type, or absent from the source and optional in the
    target.  Members that only the source has are ignored. *)
Theorem interface_assignability (sn tn : string)
    (sm tm : JsMap (MemberInfo TypeValue)) :
  isAssignable (InterfaceType sn sm) (InterfaceType tn tm) = true
  <-> forall key b, map_get tm key = Some b ->
        match map_get sm key with
        | Some a => isAssignable (member_type a) (member_type b) = true
        | None => member_optional b = true
        end.
Proof.
  rewrite isAssignable_unfold.
  change (isAssignable_body isAssignable (InterfaceType sn sm) (InterfaceType tn tm))
    with (isInterfaceAssignable isAssignable sm tm).
  unfold isInterfaceAssignable. rewrite isInterfaceAssignable_loop_spec.
  split; intros H key b Hk; apply H; now apply map_entries_iff.
Qed.

(** *** Unions *)

(** The kinds of source that [isAssignable] settles before it looks at
    a union target. *)
Definition settledBeforeUnion : list string :=
  ["any"; "unknown"; "never"; "null"; "undefined"; "union"].

Lemma isAssignable_to_any_or_unknown s t :
  kind t = "any" \/ kind t = "unknown" -> isAssignable s t = true.
Proof.
  intros H. rewrite isAssignable_unfold. unfold isAssignable_body.
  destruct H as [-> | ->].
  - now rewrite orb_true_r.
  - destruct (_ || _); reflexivity.
Qed.

(** X10. A source that is not [any], [unknown], [never], [null],
    [undefined] or a union is assignable to a union exactly when it is
    assignable to one of the arms; a union is assignable to a target
    that is not a union exactly when each of its arms is. *)
Theorem union_assignability :
  (forall (s : TypeValue) (arms : list TypeValue),
     ~ In (kind s) settledBeforeUnion ->
     isAssignable s (UnionTypeValue arms) = true
     <-> exists t, In t arms /\ isAssignable s t = true)
  /\ (forall (arms : list TypeValue) (t : TypeValue),
        kind t <> "union" ->
        isAssignable (UnionTypeValue arms) t = true
        <-> forall s, In s arms -> isAssignable s t = true).
Proof.
  split.
  - intros s arms Hs. rewrite isAssignable_unfold, <- existsb_exists.
    destruct s as [[]| | | | | | | | | | | | | | | | |];
      try reflexivity; exfalso; apply Hs; simpl; tauto.
  - intros arms t Ht.
    destruct (String.eqb (kind t) "any" || String.eqb (kind t) "unknown")
      eqn:Hau.
    + assert (H : kind t = "any" \/ kind t = "unknown").
      { apply orb_true_iff in Hau as [H|H]; apply String.eqb_eq in H; auto. }
      split; intros _; [intros s _|];
        now apply isAssignable_to_any_or_unknown.
    + rewrite isAssignable_unfold, <- forallb_forall.
      destruct t as [[]| | | | | | | | | | | | | | | | |];
        try reflexivity; try discriminate; now exfalso.
Qed.

End Assignable.
End Assignability.

(** * checker.ts: environments and the checker *)

Module Checker.
Import Types.
Import Assignability.

Section TypeChecker.
Context {numbers : Numbers} {JS : JSRuntime}.

(** ** Symbol table entries *)

Inductive SymbolKind :=
| Kvariable | Kinterface | Kclass | Kenum | KtypeAlias.

(** [SymbolEntry].  An entry of kind ["function"] is written in two
    places, [registerFunctionType] and [checkFunctionExpression], both
    with a function type; [FunctionEntry] holds the two fields of that
    type, which the cast [entry.type as FunctionType] of
    [checkFunctionDeclaration] reads. *)
Inductive SymbolEntry :=
| FunctionEntry (params : list (ParamInfo TypeValue)) (returnType : TypeValue)
| Entry (type : TypeValue) (kind : SymbolKind) (mutable : option bool).

Definition entry_type (entry : SymbolEntry) : TypeValue :=
  match entry with
  | FunctionEntry params returnType => FunctionType params returnType
  | Entry type _ _ => type
  end.

Definition entry_kind (entry : SymbolEntry) : string :=
  match entry with
  | FunctionEntry _ _ => "function"
  | Entry _ Kvariable _ => "variable"
  | Entry _ Kinterface _ => "interface"
  | Entry _ Kclass _ => "class"
  | Entry _ Kenum _ => "enum"
  | Entry _ KtypeAlias _ => "typeAlias"
  end.

Definition entry_mutable (entry : SymbolEntry) : option bool :=
  match entry with
  | FunctionEntry _ _ => None
  | Entry _ _ mutable => mutable
  end.

(** ** [TypeEnvironment]

    The environments are objects that point at their parents; the
    checker holds them in a store, and an environment is its index
    there.  [new TypeEnvironment(parent)] appends to the store. *)

Record TypeEnvironment : Type := {
  symbols : JsMap SymbolEntry;
  types : JsMap TypeValue;
  parent : option nat
}.

Definition Store : Type := list TypeEnvironment.

Fixpoint update (store : Store) (env : nat)
    (f : TypeEnvironment -> TypeEnvironment) : Store :=
  match store, env with
  | [], _ => []
  | e :: rest, O => f e :: rest
  | e :: rest, S env => e :: update rest env f
  end.

Definition store_define (store : Store) (env : nat) (name : string)
    (entry : SymbolEntry) : Store :=
  update store env
    (fun e => {| symbols := map_set (symbols e) name entry;
                 types := types e;
                 parent := parent e |}).

Definition store_defineType (store : Store) (env : nat) (name : string)
    (type : TypeValue) : Store :=
  update store env
    (fun e => {| symbols := symbols e;
                 types := map_set (types e) name type;
                 parent := parent e |}).

(** The walk up the parents from [env].  A parent is created before
    its children, so its index is smaller and [S env] steps reach the
    root. *)
Fixpoint lookup_steps {V} (table : TypeEnvironment -> JsMap V)
    (steps : nat) (store : Store) (env : nat) (name : string) : option V :=
  match steps with
  | O => None
  | S steps =>
      match nth_error store env with
      | None => None
      | Some e =>
          match map_get (table e) name with
          | Some v => Some v
          | None =>
              match parent e with
              | Some p => lookup_steps table steps store p name
              | None => None
              end
          end
      end
  end.

Definition store_lookup (store : Store) (env : nat) (name : string)
    : option SymbolEntry :=
  lookup_steps symbols (S env) store env name.

Definition store_lookupType (store : Store) (env : nat) (name : string)
    : option TypeValue :=
  lookup_steps types (S env) store env name.

Definition store_hasLocal (store : Store) (env : nat) (name : string) : bool :=
  match nth_error store env with
  | Some e => map_has (symbols e) name
  | None => false
  end.

(** ** The checker's fields *)

Record TypeChecker : Type := {
  errors : list CompilerError;
  envs : Store;
  currentEnv : nat;
  currentReturnType : option TypeValue;
  inLoop : bool
}.

(** [this.globalEnv], the first environment created. *)
Definition globalEnv (_ : TypeChecker) : nat := 0.

(** A method of the checker: a function of its fields. *)
Definition M (A : Type) : Type := TypeChecker -> A * TypeChecker.

Definition ret {A} (a : A) : M A := fun s => (a, s).

Definition bind {A B} (m : M A) (k : A -> M B) : M B :=
  fun s => let (a, s') := m s in k a s'.

Local Notation "x <- m ;; k" := (bind m (fun x => k))
  (at level 61, m at next level, right associativity).
Local Notation "m1 ;;; m2" := (bind m1 (fun _ => m2))
  (at level 61, right associativity).

Definition get {A} (field : TypeChecker -> A) : M A := fun s => (field s, s).

Definition setErrors (v : list CompilerError) : M unit :=
  fun s => (tt, {| errors := v; envs := envs s; currentEnv := currentEnv s;
                   currentReturnType := currentReturnType s;
                   inLoop := inLoop s |}).

Definition setEnvs (v : Store) : M unit :=
  fun s => (tt, {| errors := errors s; envs := v; currentEnv := currentEnv s;
                   currentReturnType := currentReturnType s;
                   inLoop := inLoop s |}).

Definition setCurrentEnv (v : nat) : M unit :=
  fun s => (tt, {| errors := errors s; envs := envs s; currentEnv := v;
                   currentReturnType := currentReturnType s;
                   inLoop := inLoop s |}).

Definition setCurrentReturnType (v : option TypeValue) : M unit :=
  fun s => (tt, {| errors := errors s; envs := envs s;
                   currentEnv := currentEnv s;
                   currentReturnType := v; inLoop := inLoop s |}).

Definition setInLoop (v : bool) : M unit :=
  fun s => (tt, {| errors := errors s; envs := envs s;
                   currentEnv := currentEnv s;
                   currentReturnType := currentReturnType s; inLoop := v |}).

Definition addError (message : string) (line : nat) : M unit :=
  fun s => setErrors (errors s ++ [{| message := message; line := line |}])%list s.

(** [new TypeEnvironment(parent)] *)
Definition newTypeEnvironment (parent : nat) : M nat :=
  fun s =>
    (length (envs s),
     snd (setEnvs (envs s ++ [{| symbols := []; types := [];
                                 parent := Some parent |}])%list s)).

(** [env.define(name, entry)] and the other methods of an environment *)
Definition define (env : nat) (name : string) (entry : SymbolEntry) : M unit :=
  fun s => setEnvs (store_define (envs s) env name entry) s.

Definition defineType (env : nat) (name : string) (type : TypeValue) : M unit :=
  fun s => setEnvs (store_defineType (envs s) env name type) s.

Definition lookup (env : nat) (name : string) : M (option SymbolEntry) :=
  fun s => (store_lookup (envs s) env name, s).

Definition lookupType (env : nat) (name : string) : M (option TypeValue) :=
  fun s => (store_lookupType (envs s) env name, s).

Definition hasLocal (env : nat) (name : string) : M bool :=
  fun s => (store_hasLocal (envs s) env name, s).

(** [this.currentEnv.define(name, entry)] and the like *)
Definition defineCurrent (name : string) (entry : SymbolEntry) : M unit :=
  env <- get currentEnv ;; define env name entry.

Definition lookupCurrent (name : string) : M (option SymbolEntry) :=
  env <- get currentEnv ;; lookup env name.

Definition lookupTypeCurrent (name : string) : M (option TypeValue) :=
  env <- get currentEnv ;; lookupType env name.

Definition hasLocalCurrent (name : string) : M bool :=
  env <- get currentEnv ;; hasLocal env name.

(** [for (const x of l) f(x)] *)
Fixpoint forEach {A} (f : A -> M unit) (l : list A) : M unit :=
  match l with
  | [] => ret tt
  | x :: l => f x ;;; forEach f l
  end.

(** [l.map(f)] *)
Fixpoint mapM {A B} (f : A -> M B) (l : list A) : M (list B) :=
  match l with
  | [] => ret []
  | x :: l => y <- f x ;; ys <- mapM f l ;; ret (y :: ys)
  end.

(** [if (o) f(o)] with the result, if any *)
Definition whenSome {A B} (o : option A) (f : A -> M B) : M (option B) :=
  match o with
  | Some a => b <- f a ;; ret (Some b)
  | None => ret None
  end.

Definition when (c : bool) (m : M unit) : M unit :=
  if c then m else ret tt.

(** Three idioms of the checker:
    [const previousEnv = this.currentEnv;
     this.currentEnv = new TypeEnvironment(parent);
     body;
     this.currentEnv = previousEnv] *)
Definition inNewEnvironment {A} (parent : TypeChecker -> nat) (body : M A)
    : M A :=
  previousEnv <- get currentEnv ;;
  p <- get parent ;;
  env <- newTypeEnvironment p ;;
  setCurrentEnv env ;;;
  r <- body ;;
  setCurrentEnv previousEnv ;;;
  ret r.

(** [const previousReturn = this.currentReturnType;
     this.currentReturnType = returnType;
     body;
     this.currentReturnType = previousReturn] *)
Definition withReturnType (returnType : TypeValue) (body : M unit) : M unit :=
  previousReturn <- get currentReturnType ;;
  setCurrentReturnType (Some returnType) ;;;
  body ;;;
  setCurrentReturnType previousReturn.

(** [const wasInLoop = this.inLoop;
     this.inLoop = true;
     body;
     this.inLoop = wasInLoop] *)
Definition asLoopBody (body : M unit) : M unit :=
  wasInLoop <- get inLoop ;;
  setInLoop true ;;;
  body ;;;
  setInLoop wasInLoop.

(** ** [typeToString] and [deduplicateTypes] *)

(** [String(literal.value)] for the values that are not strings *)
Definition literal_toString (v : LiteralValue) : string :=
  match v with
  | LitString s => quote ++ s ++ quote
  | LitNumber n => num_toString n
  | LitBoolean true => "true"
  | LitBoolean false => "false"
  | LitNull => "null"
  end.

Fixpoint typeToString (type : TypeValue) : string :=
  match type with
  | PrimitiveType _ => kind type
  | AnyType => kind type
  | UnknownType => kind type
  | NeverType => kind type
  | LiteralTypeValue value => literal_toString value
  | ArrayTypeValue elementType => typeToString elementType ++ "[]"
  | TupleTypeValue elementTypes =>
      "[" ++ join ", " (map typeToString elementTypes) ++ "]"
  | UnionTypeValue types => join " | " (map typeToString types)
  | IntersectionTypeValue types => join " & " (map typeToString types)
  | FunctionType params returnType =>
      "("
      ++ join ", "
           (map (fun p => param_name p ++ ": " ++ typeToString (param_type p))
              params)
      ++ ") => " ++ typeToString returnType
  | InterfaceType name _ => name
  | ClassType name _ _ => name
  | EnumType name _ => name
  | _ => "unknown"
  end.

Definition includes (l : list string) (x : string) : bool :=
  existsb (String.eqb x) l.

Fixpoint deduplicateTypes_loop (seen : list string) (types : list TypeValue)
    : list TypeValue :=
  match types with
  | [] => []
  | type :: rest =>
      let key := typeToString type in
      if negb (includes seen key)
      then type :: deduplicateTypes_loop (key :: seen) rest
      else deduplicateTypes_loop seen rest
  end.

Definition deduplicateTypes (types : list TypeValue) : list TypeValue :=
  deduplicateTypes_loop [] types.

(** A count in a message, [`${n}`]. *)
Definition count_toString (n : nat) : string :=
  NilEmpty.string_of_uint (Nat.to_uint n).

(** ** [resolveTypeNode] *)

Fixpoint resolveTypeNode (node : TypeNode) : M TypeValue :=
  match node with
  | TypeReference typeName line =>
      if typeName =? "number" then ret createNumberType
      else if typeName =? "string" then ret createStringType
      else if typeName =? "boolean" then ret createBooleanType
      else if typeName =? "void" then ret createVoidType
      else if typeName =? "null" then ret createNullType
      else if typeName =? "undefined" then ret createUndefinedType
      else if typeName =? "any" then ret createAnyType
      else if typeName =? "unknown" then ret createUnknownType
      else if typeName =? "never" then ret createNeverType
      else if typeName =? "object" then ret createAnyType
      else if typeName =? "symbol" then ret (PrimitiveType Psymbol)
      else if typeName =? "bigint" then ret (PrimitiveType Pbigint)
      else
        (* Look up type *)
        typeEntry <- lookupTypeCurrent typeName ;;
        match typeEntry with
        | Some typeEntry => ret typeEntry
        | None =>
            entry <- lookupCurrent typeName ;;
            match entry with
            | Some entry => ret (entry_type entry)
            | None =>
                addError ("Cannot find name '" ++ typeName ++ "'") line ;;;
                ret createAnyType
            end
        end
  | ArrayType elementType =>
      t <- resolveTypeNode elementType ;; ret (createArrayType t)
  | TupleType elementTypes =>
      ts <- mapM resolveTypeNode elementTypes ;; ret (TupleTypeValue ts)
  | UnionType types =>
      ts <- mapM resolveTypeNode types ;; ret (createUnionType ts)
  | IntersectionType types =>
      ts <- mapM resolveTypeNode types ;; ret (IntersectionTypeValue ts)
  | FunctionTypeNode parameters returnType =>
      params <-
        mapM (fun p =>
                t <- match tpn_typeAnnotation p with
                     | Some a => resolveTypeNode a
                     | None => ret createAnyType
                     end ;;
                ret {| param_name := tpn_name p;
                       param_type := t;
                       param_optional := tpn_optional p |})
          parameters ;;
      r <- resolveTypeNode returnType ;;
      ret (FunctionType params r)
  | ObjectTypeNode members =>
      members <-
        (fix loop (l : list (TypeMember TypeNode))
             (members : JsMap (MemberInfo TypeValue)) {struct l} :=
           match l with
           | [] => ret members
           | member :: l =>
               match tm_name member with
               | Some name =>
                   if truthy_string (Some name) then
                     t <- resolveTypeNode (tm_typeAnnotation member) ;;
                     loop l (map_set members name
                               {| member_type := t;
                                  member_optional := tm_optional member;
                                  member_readonly := false |})
                   else loop l members
               | None => loop l members
               end
           end) members [] ;;
      ret (InterfaceType "<anonymous>" members)
  | LiteralType value => ret (LiteralTypeValue value)
  | ParenthesizedType type => resolveTypeNode type
  | TypeQuery => ret createAnyType
  | ConditionalType | IndexedAccessType | MappedType | InferType
  | OptionalType | RestType => ret createAnyType
  end.

(** [p.typeAnnotation ? this.resolveTypeNode(p.typeAnnotation) : createAnyType()] *)
Definition resolveAnnotation (typeAnnotation : option TypeNode) : M TypeValue :=
  match typeAnnotation with
  | Some a => resolveTypeNode a
  | None => ret createAnyType
  end.

(** [parameters.map((p) => ({ name: p.name, type: ..., optional: p.optional }))];
    [registerClassType] leaves [optional] out. *)
Definition resolveParameters {E} (keepOptional : bool)
    (parameters : list (Parameter_ E)) : M (list (ParamInfo TypeValue)) :=
  mapM (fun p =>
          t <- resolveAnnotation (p_typeAnnotation p) ;;
          ret {| param_name := p_name p;
                 param_type := t;
                 param_optional := keepOptional && p_optional p |})
    parameters.

(** [for (const param of params)
       this.currentEnv.define(param.name, { type: param.type, kind: "variable" })] *)
Definition defineParams (params : list (ParamInfo TypeValue)) : M unit :=
  forEach (fun param =>
             defineCurrent (param_name param)
               (Entry (param_type param) Kvariable None))
    params.

(** ** Registration passes *)

Definition registerFunctionType {E} (name : string)
    (parameters : list (Parameter_ E)) (returnType : option TypeNode)
    : M unit :=
  params <- resolveParameters true parameters ;;
  returnType <- match returnType with
                | Some r => resolveTypeNode r
                | None => ret createVoidType
                end ;;
  g <- get globalEnv ;;
  define g name (FunctionEntry params returnType).

Definition registerInterfaceType (name : string)
    (members : list InterfaceMember) : M unit :=
  members <-
    (fix loop (l : list InterfaceMember)
         (members : JsMap (MemberInfo TypeValue)) {struct l} :=
       match l with
       | [] => ret members
       | member :: l =>
           memberType <- resolveTypeNode (im_typeAnnotation member) ;;
           loop l (map_set members (im_name member)
                     {| member_type := memberType;
                        member_optional := im_optional member;
                        member_readonly := im_readonly member |})
       end) members [] ;;
  let interfaceType := InterfaceType name members in
  g <- get globalEnv ;;
  define g name (Entry interfaceType Kinterface None) ;;;
  defineType g name interfaceType.

Definition registerTypeAlias (name : string) (type : TypeNode) : M unit :=
  type <- resolveTypeNode type ;;
  g <- get globalEnv ;;
  defineType g name type.

(** [for (const [name, member] of from) to.set(name, member)] *)
Definition copyEntries {V} (from to : JsMap V) : JsMap V :=
  fold_left (fun to entry => map_set to (fst entry) (snd entry))
    (map_entries from) to.

Fixpoint registerClassMembers {E S} (l : list (ClassMember E S))
    (members : JsMap (ClassMemberInfo TypeValue))
    (staticMembers : JsMap TypeValue)
    : M (JsMap (ClassMemberInfo TypeValue) * JsMap TypeValue) :=
  match l with
  | [] => ret (members, staticMembers)
  | member :: l =>
      match member with
      | PropertyDeclaration name typeAnnotation _ accessibility isStatic =>
          propType <- resolveAnnotation typeAnnotation ;;
          if isStatic then
            registerClassMembers l members (map_set staticMembers name propType)
          else
            registerClassMembers l
              (map_set members name
                 {| cmember_type := propType;
                    cmember_accessibility := accessibility;
                    cmember_static := isStatic |})
              staticMembers
      | MethodDeclaration name parameters returnType _ accessibility isStatic _ =>
          params <- resolveParameters false parameters ;;
          returnType <- match returnType with
                        | Some r => resolveTypeNode r
                        | None => ret createVoidType
                        end ;;
          let methodType := FunctionType params returnType in
          if isStatic then
            registerClassMembers l members
              (map_set staticMembers name methodType)
          else
            registerClassMembers l
              (map_set members name
                 {| cmember_type := methodType;
                    cmember_accessibility := accessibility;
                    cmember_static := isStatic |})
              staticMembers
      | _ => registerClassMembers l members staticMembers
      end
  end.

Definition registerClassType {S} (name : string)
    (superClass : option Expression)
    (members : list (ClassMember Expression S)) : M unit :=
  g <- get globalEnv ;;
  (* Inherit from superclass if exists *)
  inherited <-
    match superClass with
    | Some (Identifier superName _) =>
        superEntry <- lookup g superName ;;
        match option_map entry_type superEntry with
        | Some (ClassType _ superMembers superStaticMembers) =>
            (* Copy all members from superclass *)
            ret (copyEntries superMembers [], copyEntries superStaticMembers [])
        | _ => ret ([], [])
        end
    | _ => ret ([], [])
    end ;;
  r <- registerClassMembers members (fst inherited) (snd inherited) ;;
  let classType := ClassType name (fst r) (snd r) in
  define g name (Entry classType Kclass None) ;;;
  defineType g name classType.

Fixpoint registerEnumMembers (l : list (EnumMember Expression))
    (currentValue : number) (members : JsMap (number + string))
    : JsMap (number + string) :=
  match l with
  | [] => members
  | member :: l =>
      match em_initializer member with
      | Some (NumericLiteral value _) =>
          registerEnumMembers l (num_add1 value)
            (map_set members (em_name member) (inl value))
      | Some (StringLiteral value _) =>
          registerEnumMembers l currentValue
            (map_set members (em_name member) (inr value))
      | Some _ => registerEnumMembers l currentValue members
      | None =>
          registerEnumMembers l (num_add1 currentValue)
            (map_set members (em_name member) (inl currentValue))
      end
  end.

Definition registerEnumType (name : string)
    (members : list (EnumMember Expression)) : M unit :=
  let members := registerEnumMembers members num_zero [] in
  let enumType := EnumType name members in
  g <- get globalEnv ;;
  define g name (Entry enumType Kenum None) ;;;
  defineType g name enumType.

(** ** The checking pass

    [checkExpression] and [checkStatement] call each other; the methods
    they dispatch to are written over the two of them. *)

Section Bodies.
Variable checkExpression : Expression -> M TypeValue.
Variable checkStatement : Statement -> M unit.

Definition notAssignableMessage (source target : TypeValue) : string :=
  "Type '" ++ typeToString source ++ "' is not assignable to type '"
  ++ typeToString target ++ "'".

Definition checkVariableDeclaration (decl : VariableDecl Expression) : M unit :=
  declaredType <- whenSome (vd_typeAnnotation decl) resolveTypeNode ;;
  inferredType <- whenSome (vd_initializer decl) checkExpression ;;
  finalType <-
    match declaredType, inferredType with
    | Some declaredType, Some inferredType =>
        when (negb (isAssignable inferredType declaredType))
          (addError (notAssignableMessage inferredType declaredType)
             (vd_line decl)) ;;;
        ret declaredType
    | Some declaredType, None => ret declaredType
    | None, Some inferredType => ret inferredType
    | None, None => ret createAnyType
    end ;;
  isLocal <- hasLocalCurrent (vd_name decl) ;;
  if isLocal then
    addError ("Variable '" ++ vd_name decl
              ++ "' is already declared in this scope") (vd_line decl)
  else
    defineCurrent (vd_name decl)
      (Entry finalType Kvariable
         (Some match vd_varKind decl with VarConst => false | _ => true end)).

Definition checkBlockStatement (statements : list Statement) : M unit :=
  inNewEnvironment currentEnv (forEach checkStatement statements).

Definition checkFunctionDeclaration (name : string) (body : list Statement)
    : M unit :=
  entry <- lookupCurrent name ;;
  match entry with
  | Some (FunctionEntry params returnType) =>
      inNewEnvironment globalEnv
        (defineParams params ;;;
         withReturnType returnType (checkBlockStatement body))
  | _ => ret tt
  end.

(** The parameters of a method or constructor, defined in its
    environment before that becomes the current one. *)
Definition defineParameters (env : nat)
    (parameters : list (Parameter_ Expression)) : M unit :=
  forEach (fun param =>
             paramType <- resolveAnnotation (p_typeAnnotation param) ;;
             define env (p_name param) (Entry paramType Kvariable None))
    parameters.

Definition checkClassMember (member : ClassMember Expression Statement)
    : M unit :=
  match member with
  | MethodDeclaration _ parameters returnType (Some body) _ _ _ =>
      cur <- get currentEnv ;;
      methodEnv <- newTypeEnvironment cur ;;
      defineParameters methodEnv parameters ;;;
      previousReturn <- get currentReturnType ;;
      returnType <- match returnType with
                    | Some r => resolveTypeNode r
                    | None => ret createVoidType
                    end ;;
      setCurrentReturnType (Some returnType) ;;;
      savedEnv <- get currentEnv ;;
      setCurrentEnv methodEnv ;;;
      checkBlockStatement body ;;;
      setCurrentEnv savedEnv ;;;
      setCurrentReturnType previousReturn
  | ConstructorDeclaration parameters body =>
      cur <- get currentEnv ;;
      ctorEnv <- newTypeEnvironment cur ;;
      defineParameters ctorEnv parameters ;;;
      savedEnv <- get currentEnv ;;
      setCurrentEnv ctorEnv ;;;
      checkBlockStatement body ;;;
      setCurrentEnv savedEnv
  | PropertyDeclaration _ _ (Some initializer) _ _ =>
      checkExpression initializer ;;; ret tt
  | _ => ret tt
  end.

Definition checkClassDeclaration (name : string)
    (members : list (ClassMember Expression Statement)) : M unit :=
  inNewEnvironment globalEnv
    ((* Add 'this' to scope *)
     g <- get globalEnv ;;
     classType <- lookupType g name ;;
     match classType with
     | Some classType => defineCurrent "this" (Entry classType Kvariable None)
     | None => ret tt
     end ;;;
     forEach checkClassMember members).

Definition checkEnumDeclaration (members : list (EnumMember Expression))
    : M unit :=
  forEach (fun member =>
             match em_initializer member with
             | Some initializer => checkExpression initializer ;;; ret tt
             | None => ret tt
             end)
    members.

(** The source reads [this.currentReturnType] again after checking the
    argument; a call of [checkExpression] leaves the field as it finds
    it ([checkExpression_pure] below). *)
Definition checkReturnStatement (argument : option Expression) (line : nat)
    : M unit :=
  expected <- get currentReturnType ;;
  match expected with
  | None => addError "Return statement outside of function" line
  | Some expected =>
      match argument with
      | Some argument =>
          argType <- checkExpression argument ;;
          when (negb (isAssignable argType expected))
            (addError
               ("Type '" ++ typeToString argType
                ++ "' is not assignable to return type '"
                ++ typeToString expected ++ "'") line)
      | None =>
          when (negb (kind expected =? "void")
                && negb (kind expected =? "undefined"))
            (addError
               "A function whose return type is not 'void' must return a value"
               line)
      end
  end.

Definition checkIfStatement (condition : Expression) (consequent : Statement)
    (alternate : option Statement) : M unit :=
  checkExpression condition ;;;
  checkStatement consequent ;;;
  match alternate with
  | Some alternate => checkStatement alternate
  | None => ret tt
  end.

Definition checkWhileStatement (condition : Expression) (body : Statement)
    : M unit :=
  checkExpression condition ;;;
  asLoopBody (checkStatement body).

Definition checkForStatement
    (init : option (VariableDecl Expression + Expression))
    (condition update : option Expression) (body : Statement) : M unit :=
  inNewEnvironment currentEnv
    (match init with
     | Some (inl decl) => checkVariableDeclaration decl
     | Some (inr expr) => checkExpression expr ;;; ret tt
     | None => ret tt
     end ;;;
     whenSome condition checkExpression ;;;
     whenSome update checkExpression ;;;
     asLoopBody (checkStatement body)).

Definition checkForOfStatement (variable : VariableDecl Expression + string)
    (iterable : Expression) (body : Statement) : M unit :=
  inNewEnvironment currentEnv
    (iterableType <- checkExpression iterable ;;
     match variable with
     | inl decl =>
         (* Infer element type from iterable *)
         let elementType :=
           match iterableType with
           | ArrayTypeValue elementType => elementType
           | _ => createAnyType
           end in
         type <- match vd_typeAnnotation decl with
                 | Some a => resolveTypeNode a
                 | None => ret elementType
                 end ;;
         defineCurrent (vd_name decl) (Entry type Kvariable None)
     | inr _ => ret tt
     end ;;;
     asLoopBody (checkStatement body)).

Definition checkForInStatement (variable : VariableDecl Expression + string)
    (object : Expression) (body : Statement) : M unit :=
  inNewEnvironment currentEnv
    (checkExpression object ;;;
     match variable with
     | inl decl =>
         defineCurrent (vd_name decl) (Entry createStringType Kvariable None)
     | inr _ => ret tt
     end ;;;
     asLoopBody (checkStatement body)).

Definition checkSwitchStatement (discriminant : Expression)
    (cases : list (SwitchCase Expression Statement)) : M unit :=
  checkExpression discriminant ;;;
  forEach (fun caseClause =>
             match sc_test caseClause with
             | Some test => checkExpression test ;;; ret tt
             | None => ret tt
             end ;;;
             forEach checkStatement (sc_consequent caseClause))
    cases.

Definition checkTryStatement (block : list Statement)
    (handler : option (CatchClause Expression Statement))
    (finalizer : option (list Statement)) : M unit :=
  checkBlockStatement block ;;;
  match handler with
  | Some handler =>
      inNewEnvironment currentEnv
        (match cc_param handler with
         | Some param =>
             defineCurrent (p_name param) (Entry createAnyType Kvariable None)
         | None => ret tt
         end ;;;
         checkBlockStatement (cc_body handler))
  | None => ret tt
  end ;;;
  match finalizer with
  | Some finalizer => checkBlockStatement finalizer
  | None => ret tt
  end.

Definition checkStatement_body (stmt : Statement) : M unit :=
  match stmt with
  | VariableDeclaration decl => checkVariableDeclaration decl
  | FunctionDeclaration name _ _ body _ _ _ =>
      checkFunctionDeclaration name body
  | InterfaceDeclaration _ _ _ => ret tt
  | TypeAliasDeclaration _ _ _ =>
      (* Already processed *)
      ret tt
  | ClassDeclaration name _ members _ _ => checkClassDeclaration name members
  | EnumDeclaration _ members _ _ =>
      (* Already processed, but check initializers *)
      checkEnumDeclaration members
  | ReturnStatement argument line => checkReturnStatement argument line
  | IfStatement condition consequent alternate _ =>
      checkIfStatement condition consequent alternate
  | WhileStatement condition body _ => checkWhileStatement condition body
  | ForStatement init condition update body _ =>
      checkForStatement init condition update body
  | ForOfStatement variable iterable body _ _ =>
      checkForOfStatement variable iterable body
  | ForInStatement variable object body _ =>
      checkForInStatement variable object body
  | DoWhileStatement body condition _ =>
      checkStatement body ;;;
      checkExpression condition ;;;
      ret tt
  | SwitchStatement discriminant cases _ =>
      checkSwitchStatement discriminant cases
  | BreakStatement _ _ => ret tt
  | ContinueStatement _ _ =>
      (* Just validate we're in a loop/switch *)
      ret tt
  | ThrowStatement argument _ => checkExpression argument ;;; ret tt
  | TryStatement block handler finalizer _ =>
      checkTryStatement block handler finalizer
  | ExpressionStatement expression _ => checkExpression expression ;;; ret tt
  | BlockStatement statements _ => checkBlockStatement statements
  | ImportDeclaration _ _ _ => ret tt
  | ExportDeclaration _ _ _ _ _ =>
      (* Module declarations - skip for now *)
      ret tt
  | EmptyStatement _ => ret tt
  end.

(** *** Expressions *)

Definition isNumberOrAny (type : TypeValue) : bool :=
  (kind type =? "number") || (kind type =? "any").

Definition checkBinaryExpression (op : string) (left_ right_ : Expression)
    (line : nat) : M TypeValue :=
  leftType <- checkExpression left_ ;;
  rightType <- checkExpression right_ ;;
  (* Arithmetic operators *)
  if includes ["+"; "-"; "*"; "/"; "%"; "**"] op then
    if (op =? "+")
       && ((kind leftType =? "string") || (kind rightType =? "string"))
    then ret createStringType
    else if (kind leftType =? "number") && (kind rightType =? "number")
    then ret createNumberType
    else
      when (negb (isNumberOrAny leftType))
        (addError
           "The left-hand side of an arithmetic operation must be of type 'number'"
           line) ;;;
      when (negb (isNumberOrAny rightType))
        (addError
           "The right-hand side of an arithmetic operation must be of type 'number'"
           line) ;;;
      ret createNumberType
  (* Comparison operators *)
  else if includes ["=="; "==="; "!="; "!=="; "<"; ">"; "<="; ">="] op
  then ret createBooleanType
  (* Bitwise operators *)
  else if includes ["&"; "|"; "^"; "<<"; ">>"; ">>>"] op
  then ret createNumberType
  (* instanceof, in *)
  else if (op =? "instanceof") || (op =? "in") then ret createBooleanType
  else ret createAnyType.

Definition checkUnaryExpression (operator : string) (operand : Expression)
    (line : nat) : M TypeValue :=
  operandType <- checkExpression operand ;;
  if (operator =? "-") || (operator =? "+") || (operator =? "~") then
    when (negb (isNumberOrAny operandType))
      (addError ("Unary '" ++ operator ++ "' requires a number operand") line) ;;;
    ret createNumberType
  else if operator =? "!" then ret createBooleanType
  else if operator =? "typeof" then ret createStringType
  else if operator =? "delete" then ret createBooleanType
  else ret createAnyType.

(** The parameters that are neither optional nor rest. *)
Definition isRestParam (p : ParamInfo TypeValue) : bool :=
  startsWith (param_name p) "...".

Definition requiredParams (params : list (ParamInfo TypeValue)) : nat :=
  length (filter (fun p => negb (param_optional p) && negb (isRestParam p))
            params).

(** The loop [for (let i = 0; i < checkCount; i++)] over
    [expr.arguments[i]] and [funcType.params[i]]. *)
Fixpoint checkArgumentTypes (arguments : list Expression) (checkCount : nat)
    (params : list (ParamInfo TypeValue)) (line : nat) {struct arguments}
    : M unit :=
  match arguments, checkCount, params with
  | arg :: arguments, S checkCount, param :: params =>
      match arg with
      | SpreadElement argument _ => checkExpression argument ;;; ret tt
      | _ =>
          argType <- checkExpression arg ;;
          let paramType := param_type param in
          when (negb (isAssignable argType paramType))
            (addError
               ("Argument of type '" ++ typeToString argType
                ++ "' is not assignable to parameter of type '"
                ++ typeToString paramType ++ "'") line)
      end ;;;
      checkArgumentTypes arguments checkCount params line
  | _, _, _ => ret tt
  end.

Definition checkCallExpression (callee : Expression)
    (arguments : list Expression) (line : nat) : M TypeValue :=
  calleeType <- checkExpression callee ;;
  if kind calleeType =? "any" then
    (* Check arguments anyway *)
    forEach (fun arg => checkExpression arg ;;; ret tt) arguments ;;;
    ret createAnyType
  else
    match calleeType with
    | FunctionType params returnType =>
        (* Check if function has rest parameter *)
        let hasRestParam := existsb isRestParam params in
        (* Check argument count *)
        let requiredParams := requiredParams params in
        (if (length arguments <? requiredParams)%nat then
           addError
             ("Expected at least " ++ count_toString requiredParams
              ++ " arguments, but got " ++ count_toString (length arguments))
             line
         else if negb hasRestParam && (length params <? length arguments)%nat
         then
           addError
             ("Expected at most " ++ count_toString (length params)
              ++ " arguments, but got " ++ count_toString (length arguments))
             line
         else ret tt) ;;;
        (* Check argument types *)
        let checkCount :=
          if hasRestParam
          then Nat.min (length arguments) (length params - 1)
          else Nat.min (length arguments) (length params) in
        checkArgumentTypes arguments checkCount params line ;;;
        ret returnType
    | _ =>
        addError "This expression is not callable" line ;;;
        ret createAnyType
    end.

Definition arrayMethods : list string :=
  ["push"; "pop"; "shift"; "unshift"; "slice"; "splice"; "map"; "filter";
   "reduce"; "forEach"; "find"; "findIndex"; "includes"; "indexOf"; "join";
   "concat"; "reverse"; "sort"].

Definition stringMethods : list string :=
  ["length"; "charAt"; "charCodeAt"; "concat"; "includes"; "indexOf";
   "lastIndexOf"; "match"; "replace"; "slice"; "split"; "substring";
   "toLowerCase"; "toUpperCase"; "trim"; "startsWith"; "endsWith"].

Definition propertyDoesNotExist (property name : string) (line : nat)
    : M TypeValue :=
  addError
    ("Property '" ++ property ++ "' does not exist on type '" ++ name ++ "'")
    line ;;;
  ret createAnyType.

Definition checkMemberExpression (object : Expression) (property : string)
    (line : nat) : M TypeValue :=
  objectType <- checkExpression object ;;
  match objectType with
  | AnyType => ret createAnyType
  | InterfaceType name members =>
      match map_get members property with
      | Some member => ret (member_type member)
      | None => propertyDoesNotExist property name line
      end
  | ClassType name members _ =>
      match map_get members property with
      | Some member => ret (cmember_type member)
      | None => propertyDoesNotExist property name line
      end
  | ArrayTypeValue _ =>
      if property =? "length" then ret createNumberType
      (* Array methods *)
      else if includes arrayMethods property then ret createAnyType
      else ret createAnyType
  | PrimitiveType Pstring =>
      if includes stringMethods property then
        ret (if property =? "length" then createNumberType else createAnyType)
      else ret createAnyType
  | _ => ret createAnyType
  end.

Definition checkComputedMemberExpression (object property : Expression)
    (line : nat) : M TypeValue :=
  objectType <- checkExpression object ;;
  indexType <- checkExpression property ;;
  match objectType with
  | ArrayTypeValue elementType =>
      when (negb (isNumberOrAny indexType))
        (addError "Array index must be a number" line) ;;;
      ret elementType
  | TupleTypeValue elementTypes => ret (createUnionType elementTypes)
  | _ => ret createAnyType
  end.

Fixpoint checkObjectLiteral_loop (properties : list (ObjectProperty Expression))
    (members : JsMap (MemberInfo TypeValue))
    : M (JsMap (MemberInfo TypeValue)) :=
  match properties with
  | [] => ret members
  | prop :: properties =>
      match op_value prop with
      | SpreadElement argument _ =>
          (* Spread - just check the argument *)
          checkExpression argument ;;;
          checkObjectLiteral_loop properties members
      | _ =>
          valueType <- checkExpression (op_value prop) ;;
          let key := match op_key prop with
                     | inl key => key
                     | inr _ => "<computed>"
                     end in
          checkObjectLiteral_loop properties
            (map_set members key
               {| member_type := valueType;
                  member_optional := false;
                  member_readonly := false |})
      end
  end.

Definition checkObjectLiteral (properties : list (ObjectProperty Expression))
    : M TypeValue :=
  members <- checkObjectLiteral_loop properties [] ;;
  ret (InterfaceType "<anonymous>" members).

Fixpoint checkArrayLiteral_loop (elements : list (option Expression))
    (types : list TypeValue) : M (list TypeValue) :=
  match elements with
  | [] => ret types
  | element :: elements =>
      match element with
      | None => checkArrayLiteral_loop elements types
      | Some (SpreadElement argument _) =>
          spreadType <- checkExpression argument ;;
          (* Extract element type from array *)
          checkArrayLiteral_loop elements
            (types ++ [match spreadType with
                       | ArrayTypeValue elementType => elementType
                       | _ => spreadType
                       end])%list
      | Some element =>
          type <- checkExpression element ;;
          checkArrayLiteral_loop elements (types ++ [type])%list
      end
  end.

Definition checkArrayLiteral (elements : list (option Expression))
    : M TypeValue :=
  match elements with
  | [] => ret (createArrayType createAnyType)
  | _ =>
      types <- checkArrayLiteral_loop elements [] ;;
      (* Find common type or create union *)
      match types with
      | [type] => ret (createArrayType type)
      | _ =>
          (* For simplicity, just use first element type or union *)
          match deduplicateTypes types with
          | [type] => ret (createArrayType type)
          | uniqueTypes => ret (createArrayType (createUnionType uniqueTypes))
          end
      end
  end.

Definition checkArrowFunction (parameters : list (Parameter_ Expression))
    (returnType : option TypeNode) (body : Expression + list Statement)
    : M TypeValue :=
  params <- resolveParameters true parameters ;;
  returnType <-
    inNewEnvironment currentEnv
      (defineParams params ;;;
       returnType <-
         match returnType, body with
         | Some r, _ => resolveTypeNode r
         | None, inr _ => ret createVoidType
         | None, inl expression => checkExpression expression
         end ;;
       match body with
       | inr statements => withReturnType returnType (checkBlockStatement statements)
       | inl _ => ret tt
       end ;;;
       ret returnType) ;;
  ret (FunctionType params returnType).

Definition checkFunctionExpression (name : option string)
    (parameters : list (Parameter_ Expression)) (returnType : option TypeNode)
    (body : list Statement) : M TypeValue :=
  params <- resolveParameters true parameters ;;
  returnType <- match returnType with
                | Some r => resolveTypeNode r
                | None => ret createVoidType
                end ;;
  inNewEnvironment currentEnv
    (match name with
     | Some name' =>
         when (truthy_string name)
           (defineCurrent name' (FunctionEntry params returnType))
     | None => ret tt
     end ;;;
     defineParams params ;;;
     withReturnType returnType (checkBlockStatement body)) ;;;
  ret (FunctionType params returnType).

Definition checkNewExpression (callee : Expression)
    (arguments : list Expression) : M TypeValue :=
  calleeType <- checkExpression callee ;;
  forEach (fun arg => checkExpression arg ;;; ret tt) arguments ;;;
  match calleeType with
  | ClassType _ _ _ => ret calleeType
  | _ => ret createAnyType
  end.

Definition checkExpression_body (expr : Expression) : M TypeValue :=
  match expr with
  | NumericLiteral _ _ => ret createNumberType
  | StringLiteral _ _ => ret createStringType
  | BooleanLiteral _ _ => ret createBooleanType
  | NullLiteral _ => ret createNullType
  | UndefinedLiteral _ => ret createUndefinedType
  | Identifier name line =>
      entry <- lookupCurrent name ;;
      match entry with
      | None =>
          addError ("Cannot find name '" ++ name ++ "'") line ;;;
          ret createAnyType
      | Some entry => ret (entry_type entry)
      end
  | BinaryExpression operator left_ right_ line =>
      checkBinaryExpression operator left_ right_ line
  | UnaryExpression operator operand _ line =>
      checkUnaryExpression operator operand line
  | UpdateExpression _ argument _ line =>
      argType <- checkExpression argument ;;
      when (negb (isNumberOrAny argType))
        (addError "Update expression requires a number operand" line) ;;;
      ret createNumberType
  | CallExpression callee arguments _ line =>
      checkCallExpression callee arguments line
  | MemberExpression object property _ line =>
      checkMemberExpression object property line
  | ComputedMemberExpression object property _ line =>
      checkComputedMemberExpression object property line
  | ObjectLiteral properties _ => checkObjectLiteral properties
  | ArrayLiteral elements _ => checkArrayLiteral elements
  | ArrowFunction parameters returnType body _ _ =>
      checkArrowFunction parameters returnType body
  | FunctionExpression name parameters returnType body _ _ _ =>
      checkFunctionExpression name parameters returnType body
  | ConditionalExpression condition consequent alternate _ =>
      checkExpression condition ;;;
      consequent <- checkExpression consequent ;;
      alternate <- checkExpression alternate ;;
      ret (createUnionType [consequent; alternate])
  | AssignmentExpression _ left_ right_ line =>
      rightType <- checkExpression right_ ;;
      leftType <- checkExpression left_ ;;
      when (negb (isAssignable rightType leftType))
        (addError (notAssignableMessage rightType leftType) line) ;;;
      ret rightType
  | LogicalExpression _ left_ right_ _ =>
      left_ <- checkExpression left_ ;;
      right_ <- checkExpression right_ ;;
      ret (createUnionType [left_; right_])
  | NewExpression callee arguments _ => checkNewExpression callee arguments
  | ThisExpression _ =>
      thisEntry <- lookupCurrent "this" ;;
      match thisEntry with
      | Some thisEntry => ret (entry_type thisEntry)
      | None => ret createAnyType
      end
  | SuperExpression _ => ret createAnyType
  | SpreadElement argument _ => checkExpression argument
  | AwaitExpression argument _ =>
      checkExpression argument ;;;
      (* Simplified: just return any for Promise<T> *)
      ret createAnyType
  | YieldExpression argument _ _ =>
      match argument with
      | Some argument => checkExpression argument
      | None => ret createUndefinedType
      end
  | TemplateLiteralExpr _ expressions _ =>
      forEach (fun expression => checkExpression expression ;;; ret tt)
        expressions ;;;
      ret createStringType
  | TaggedTemplateExpression tag _ _ =>
      checkExpression tag ;;;
      ret createAnyType
  | TypeAssertion typeAnnotation expression _ =>
      checkExpression expression ;;;
      resolveTypeNode typeAnnotation
  | AsExpression expression typeAnnotation _ =>
      checkExpression expression ;;;
      resolveTypeNode typeAnnotation
  | NonNullExpression expression _ => checkExpression expression
  | ClassExpression _ _ _ => ret createAnyType
  | ParenthesizedExpression expression _ => checkExpression expression
  end.

End Bodies.

Fixpoint checkExpression (expr : Expression) {struct expr} : M TypeValue :=
  checkExpression_body checkExpression checkStatement expr
with checkStatement (stmt : Statement) {struct stmt} : M unit :=
  checkStatement_body checkExpression checkStatement stmt.

(** ** [check] *)

Definition registerBuiltins : M unit :=
  (* Register console with variadic functions *)
  let logFn :=
    FunctionType
      [{| param_name := "...args"; param_type := createAnyType;
          param_optional := true |}]
      createVoidType in
  let logMember :=
    {| member_type := logFn; member_optional := false;
       member_readonly := false |} in
  let consoleMembers :=
    map_set
      (map_set
         (map_set
            (map_set (map_set [] "log" logMember) "error" logMember)
            "warn" logMember)
         "info" logMember)
      "debug" logMember in
  g <- get globalEnv ;;
  define g "console"
    (Entry (InterfaceType "Console" consoleMembers) Kvariable None) ;;;
  (* Register Array constructor *)
  define g "Array" (Entry createAnyType Kvariable None) ;;;
  (* Register Object *)
  define g "Object" (Entry createAnyType Kvariable None) ;;;
  (* Register Math *)
  define g "Math" (Entry createAnyType Kvariable None) ;;;
  (* Register JSON *)
  define g "JSON" (Entry createAnyType Kvariable None) ;;;
  (* Register Promise *)
  defineType g "Promise" createAnyType ;;;
  (* Register Error *)
  define g "Error" (Entry createAnyType Kclass None).

(** [new TypeChecker()] *)
Definition newTypeChecker : TypeChecker :=
  snd (registerBuiltins
         {| errors := [];
            envs := [{| symbols := []; types := []; parent := None |}];
            currentEnv := 0;
            currentReturnType := None;
            inLoop := false |}).

(** The four registration passes of [check]. *)
Definition registrationPasses (statements : list Statement) : M unit :=
  (* First pass: collect type aliases and enums (they are simpler) *)
  forEach (fun stmt =>
             match stmt with
             | TypeAliasDeclaration name type _ => registerTypeAlias name type
             | EnumDeclaration name members _ _ => registerEnumType name members
             | _ => ret tt
             end) statements ;;;
  (* Second pass: collect interfaces (may reference type aliases) *)
  forEach (fun stmt =>
             match stmt with
             | InterfaceDeclaration name members _ =>
                 registerInterfaceType name members
             | _ => ret tt
             end) statements ;;;
  (* Third pass: collect classes (may extend other classes) *)
  forEach (fun stmt =>
             match stmt with
             | ClassDeclaration name superClass members _ _ =>
                 registerClassType name superClass members
             | _ => ret tt
             end) statements ;;;
  (* Fourth pass: collect function declarations *)
  forEach (fun stmt =>
             match stmt with
             | FunctionDeclaration name parameters returnType _ _ _ _ =>
                 registerFunctionType name parameters returnType
             | _ => ret tt
             end) statements.

Definition check (program : Program) : M (list CompilerError) :=
  setErrors [] ;;;
  registrationPasses (statements program) ;;;
  (* Fifth pass: check all statements *)
  forEach checkStatement (statements program) ;;;
  get errors.

Definition typeCheck (program : Program) : list CompilerError :=
  fst (check program newTypeChecker).

Unset Implicit Arguments.

(** ** What a method may change

    A method appends to [errors], appends to the store, and writes to
    an environment that is already in the store only through
    [checkVariableDeclaration], which adds a binding to the current
    environment where the name has none. *)

Definition scope_extends (e e' : TypeEnvironment) : Prop :=
  (forall name entry,
      map_get (symbols e) name = Some entry ->
      map_get (symbols e') name = Some entry)
  /\ types e' = types e
  /\ parent e' = parent e.

(** Between [s] and [s']: the environments below [n] other than [c] are
    the same, and [c] has the bindings it had. *)
Definition inv (n c : nat) (s s' : TypeChecker) : Prop :=
  (exists new, errors s' = errors s ++ new)%list
  /\ length (envs s) <= length (envs s')
  /\ forall env, env < n ->
       (env <> c -> nth_error (envs s') env = nth_error (envs s) env)
       /\ (forall e, nth_error (envs s) env = Some e ->
             exists e', nth_error (envs s') env = Some e' /\ scope_extends e e').

Definition same_fields (s s' : TypeChecker) : Prop :=
  currentEnv s' = currentEnv s
  /\ currentReturnType s' = currentReturnType s
  /\ inLoop s' = inLoop s.

(** Where a method may write: [pure], to no environment that exists
    when it starts; [stable], to the current one, adding bindings;
    [fresh], to the current one, which is above [n]; [above env], to
    [env], which is above [n]. *)
Inductive Mode := pure | stable | fresh | above (env : nat).

Definition pre (mode : Mode) (n c : nat) (s : TypeChecker) : Prop :=
  match mode with
  | pure => n <= c
  | stable => currentEnv s = c \/ n <= currentEnv s
  | fresh => n <= currentEnv s /\ n <= c
  | above env => n <= env
  end.

Definition Safe {A} (mode : Mode) (m : M A) : Prop :=
  forall n c s,
    n <= length (envs s) -> pre mode n c s ->
    inv n c s (snd (m s)) /\ same_fields s (snd (m s)).

Lemma scope_extends_refl e : scope_extends e e.
Proof. repeat split; auto. Qed.

Lemma scope_extends_trans e1 e2 e3 :
  scope_extends e1 e2 -> scope_extends e2 e3 -> scope_extends e1 e3.
Proof.
  intros (H1 & H2 & H3) (K1 & K2 & K3). repeat split.
  - intros name entry H. auto.
  - congruence.
  - congruence.
Qed.

Lemma inv_refl n c s : inv n c s s.
Proof.
  split; [|split].
  - exists []. now rewrite app_nil_r.
  - lia.
  - intros env Hlt. split; [reflexivity|].
    intros e He. exists e. split; [exact He | apply scope_extends_refl].
Qed.

Lemma inv_trans n c s1 s2 s3 : inv n c s1 s2 -> inv n c s2 s3 -> inv n c s1 s3.
Proof.
  intros ((new1 & E1) & L1 & H1) ((new2 & E2) & L2 & H2).
  split; [|split].
  - exists (new1 ++ new2)%list. rewrite E2, E1. now rewrite app_assoc.
  - lia.
  - intros env Hlt.
    destruct (H1 env Hlt) as [U1 X1], (H2 env Hlt) as [U2 X2]. split.
    + intros ne. rewrite U2, U1; auto.
    + intros e He.
      destruct (X1 e He) as (e' & He' & Hx).
      destruct (X2 e' He') as (e'' & He'' & Hx').
      exists e''. split; [exact He'' | eapply scope_extends_trans; eauto].
Qed.

Lemma same_fields_refl s : same_fields s s.
Proof. repeat split. Qed.

Lemma same_fields_trans s1 s2 s3 :
  same_fields s1 s2 -> same_fields s2 s3 -> same_fields s1 s3.
Proof. unfold same_fields. intuition congruence. Qed.

(** All environments below [n] unchanged. *)
Lemma inv_unchanged n c s s' :
  (exists new, errors s' = errors s ++ new)%list ->
  length (envs s) <= length (envs s') ->
  (forall env, env < n -> nth_error (envs s') env = nth_error (envs s) env) ->
  inv n c s s'.
Proof.
  intros E L H. split; [exact E | split; [exact L|]].
  intros env Hlt. split; [intros _; auto|].
  intros e He. exists e. rewrite H by assumption.
  split; [exact He | apply scope_extends_refl].
Qed.

Lemma pre_same_fields mode n c s s' :
  same_fields s s' -> pre mode n c s -> pre mode n c s'.
Proof.
  intros (E & _ & _). destruct mode; simpl; rewrite ?E; auto.
Qed.

Lemma inv_weaken n c s s' : inv n n s s' -> inv n c s s'.
Proof.
  intros (E & L & I). split; [exact E | split; [exact L|]].
  intros env Hlt. destruct (I env Hlt) as [U X]. split; [|exact X].
  intros _. apply U. lia.
Qed.

Lemma Safe_pure {A} mode (m : M A) : Safe pure m -> Safe mode m.
Proof.
  intros H n c s L _. destruct (H n n s L (Nat.le_refl n)) as [I F].
  split; [apply inv_weaken; exact I | exact F].
Qed.

Lemma Safe_stable_fresh {A} (m : M A) : Safe stable m -> Safe fresh m.
Proof.
  intros H n c s L [P1 P2]. apply H; [exact L | right; exact P1].
Qed.

Lemma Safe_ret {A} mode (a : A) : Safe mode (ret a).
Proof. intros n c s _ _. split; [apply inv_refl | apply same_fields_refl]. Qed.

Lemma Safe_bind {A B} mode (m : M A) (k : A -> M B) :
  Safe mode m -> (forall a, Safe mode (k a)) -> Safe mode (bind m k).
Proof.
  intros Hm Hk n c s L P. unfold bind.
  specialize (Hm n c s L P). destruct (m s) as [a s1]. simpl in Hm.
  destruct Hm as [I F].
  assert (L1 : n <= length (envs s1)) by (destruct I as (_ & L1 & _); lia).
  destruct (Hk a n c s1 L1 (@pre_same_fields mode n c s s1 F P)) as [I' F'].
  split; [eapply inv_trans; eauto | eapply same_fields_trans; eauto].
Qed.

Lemma Safe_get {A} mode (field : TypeChecker -> A) : Safe mode (get field).
Proof. intros n c s _ _. split; [apply inv_refl | apply same_fields_refl]. Qed.

Lemma Safe_addError mode message line : Safe mode (addError message line).
Proof.
  apply Safe_pure. intros n c s _ _. split; [|split; [|split]; reflexivity].
  apply inv_unchanged; simpl; eauto.
Qed.

Lemma Safe_lookup mode env name : Safe mode (lookup env name).
Proof. intros n c s _ _. split; [apply inv_refl | apply same_fields_refl]. Qed.

Lemma Safe_lookupType mode env name : Safe mode (lookupType env name).
Proof. intros n c s _ _. split; [apply inv_refl | apply same_fields_refl]. Qed.

Lemma Safe_hasLocal mode env name : Safe mode (hasLocal env name).
Proof. intros n c s _ _. split; [apply inv_refl | apply same_fields_refl]. Qed.

Lemma Safe_lookupCurrent mode name : Safe mode (lookupCurrent name).
Proof. apply Safe_bind; [apply Safe_get | intro; apply Safe_lookup]. Qed.

Lemma Safe_lookupTypeCurrent mode name : Safe mode (lookupTypeCurrent name).
Proof. apply Safe_bind; [apply Safe_get | intro; apply Safe_lookupType]. Qed.

Lemma Safe_hasLocalCurrent mode name : Safe mode (hasLocalCurrent name).
Proof. apply Safe_bind; [apply Safe_get | intro; apply Safe_hasLocal]. Qed.

Lemma Safe_when mode c (m : M unit) : Safe mode m -> Safe mode (when c m).
Proof. destruct c; simpl; auto using Safe_ret. Qed.

Lemma Safe_whenSome {A B} mode (o : option A) (f : A -> M B) :
  (forall a, o = Some a -> Safe mode (f a)) -> Safe mode (whenSome o f).
Proof.
  destruct o; simpl; intros H.
  - apply Safe_bind; [auto | intro; apply Safe_ret].
  - apply Safe_ret.
Qed.

Lemma Safe_forEach {A} mode (f : A -> M unit) l :
  (forall x, In x l -> Safe mode (f x)) -> Safe mode (forEach f l).
Proof.
  induction l as [|x l IH]; simpl; intros H.
  - apply Safe_ret.
  - apply Safe_bind; [apply H; auto | intro; apply IH; auto].
Qed.

Lemma Safe_mapM {A B} mode (f : A -> M B) l :
  (forall x, In x l -> Safe mode (f x)) -> Safe mode (mapM f l).
Proof.
  induction l as [|x l IH]; simpl; intros H.
  - apply Safe_ret.
  - apply Safe_bind; [apply H; auto | intro].
    apply Safe_bind; [apply IH; auto | intro; apply Safe_ret].
Qed.

(** *** Writes to the store *)

Lemma update_length store env f : length (update store env f) = length store.
Proof.
  revert env. induction store as [|e store IH]; intros [|env]; simpl; auto.
Qed.

Lemma update_other store env f env' :
  env' <> env -> nth_error (update store env f) env' = nth_error store env'.
Proof.
  revert env env'. induction store as [|e store IH]; intros [|env] [|env'] H;
    simpl; auto; try congruence.
Qed.

Lemma update_same store env f :
  nth_error (update store env f) env = option_map f (nth_error store env).
Proof.
  revert env. induction store as [|e store IH]; intros [|env]; simpl; auto.
Qed.

Lemma map_get_set_other {V} (m : JsMap V) k v k' :
  (k =? k') = false -> map_get (map_set m k v) k' = map_get m k'.
Proof.
  intros H. induction m as [|[k0 v0] m IH]; simpl.
  - now rewrite H.
  - destruct (k0 =? k) eqn:E0; simpl.
    + apply String.eqb_eq in E0. subst k0. now rewrite H.
    + now rewrite IH.
Qed.

(** A write above [n]. *)
Lemma define_above n c s env name entry :
  n <= env -> inv n c s (snd (define env name entry s)).
Proof.
  intros H. apply inv_unchanged; simpl.
  - exists []. now rewrite app_nil_r.
  - unfold store_define. rewrite update_length. lia.
  - intros env' H'. unfold store_define. apply update_other. lia.
Qed.

Lemma Safe_define_above env name entry : Safe (above env) (define env name entry).
Proof.
  intros n c s L P.
  split; [apply define_above; exact P | split; [|split]; reflexivity].
Qed.

Lemma Safe_defineCurrent_fresh name entry : Safe fresh (defineCurrent name entry).
Proof.
  intros n c s L [P1 P2]. unfold defineCurrent, bind, get.
  split; [apply define_above; exact P1 | split; [|split]; reflexivity].
Qed.

(** A new binding in the current environment. *)
Lemma Safe_defineCurrent_new name entry s :
  store_hasLocal (envs s) (currentEnv s) name = false ->
  forall n c, pre stable n c s ->
    inv n c s (snd (defineCurrent name entry s)).
Proof.
  intros Hloc n c P. unfold defineCurrent, bind, get. simpl.
  split; [|split]; simpl.
  - exists []. now rewrite app_nil_r.
  - unfold store_define. rewrite update_length. lia.
  - intros env Hlt. split.
    + intros ne. unfold store_define. apply update_other.
      destruct P as [P|P]; [congruence | lia].
    + intros e He. unfold store_define.
      destruct (Nat.eq_dec env (currentEnv s)) as [->|ne].
      * rewrite update_same, He. simpl. eexists. split; [reflexivity|].
        split; [|split; reflexivity]. simpl.
        intros name' entry' H'. rewrite map_get_set_other; [exact H'|].
        destruct (name =? name') eqn:E; [|reflexivity].
        apply String.eqb_eq in E. subst name'.
        unfold store_hasLocal in Hloc. rewrite He in Hloc.
        unfold map_has in Hloc. now rewrite H' in Hloc.
      * rewrite update_other by exact ne. exists e.
        split; [exact He | apply scope_extends_refl].
Qed.

(** *** The three idioms *)

Lemma Safe_inNewEnvironment {A} mode (parent : TypeChecker -> nat) (body : M A) :
  Safe fresh body -> Safe mode (inNewEnvironment parent body).
Proof.
  intros Hb. apply Safe_pure. intros n c s L P.
  unfold inNewEnvironment, bind, get, newTypeEnvironment, setCurrentEnv, ret.
  simpl.
  match goal with |- context [body ?s1] =>
    specialize (Hb n c s1); destruct (body s1) as [r s2] eqn:E end.
  simpl in *. rewrite length_app in Hb. simpl in Hb.
  destruct Hb as [((new & E1) & L1 & I) (F1 & F2 & F3)]; [lia | split; [lia | exact P] |].
  simpl in *. rewrite length_app in L1. simpl in L1.
  split.
  - apply inv_unchanged; simpl.
    + exists new. exact E1.
    + lia.
    + intros env Hlt. destruct (I env Hlt) as [U _]. rewrite U by lia.
      apply nth_error_app1. lia.
  - split; [|split]; simpl; auto.
Qed.

Lemma Safe_withReturnType mode returnType (body : M unit) :
  Safe mode body -> Safe mode (withReturnType returnType body).
Proof.
  intros Hb n c s L P.
  unfold withReturnType, bind, get, setCurrentReturnType. simpl.
  match goal with |- context [body ?s1] =>
    specialize (Hb n c s1); destruct (body s1) as [r s2] eqn:E end.
  simpl in *.
  destruct Hb as [I (F1 & F2 & F3)];
    [exact L | destruct mode; exact P |].
  split; [exact I | split; [|split]; simpl; auto].
Qed.

Lemma Safe_asLoopBody mode (body : M unit) :
  Safe mode body -> Safe mode (asLoopBody body).
Proof.
  intros Hb n c s L P.
  unfold asLoopBody, bind, get, setInLoop. simpl.
  match goal with |- context [body ?s1] =>
    specialize (Hb n c s1); destruct (body s1) as [r s2] eqn:E end.
  simpl in *.
  destruct Hb as [I (F1 & F2 & F3)];
    [exact L | destruct mode; exact P |].
  split; [exact I | split; [|split]; simpl; auto].
Qed.

(** *** The methods *)

Lemma list_all_In {A} (P : A -> Prop) l :
  list_all P l -> forall x, In x l -> P x.
Proof.
  induction 1 as [|a Pa l Hl IH]; intros x Hin; simpl in Hin;
    [contradiction | destruct Hin as [<-|Hin]; auto].
Qed.

Lemma list_all_In_map {A} (P : A -> Type) (Q : A -> Prop) l :
  (forall a, P a -> Q a) -> list_all P l -> forall x, In x l -> Q x.
Proof.
  intros PQ. induction 1 as [|a Pa l Hl IH]; intros x Hin; simpl in Hin;
    [contradiction | destruct Hin as [<-|Hin]; auto].
Qed.

Ltac safe_step :=
  lazymatch goal with
  | |- Safe _ (ret _) => apply Safe_ret
  | |- Safe _ (get _) => apply Safe_get
  | |- Safe _ (addError _ _) => apply Safe_addError
  | |- Safe _ (lookupCurrent _) => apply Safe_lookupCurrent
  | |- Safe _ (lookupTypeCurrent _) => apply Safe_lookupTypeCurrent
  | |- Safe _ (hasLocalCurrent _) => apply Safe_hasLocalCurrent
  | |- Safe _ (lookup _ _) => apply Safe_lookup
  | |- Safe _ (lookupType _ _) => apply Safe_lookupType
  | |- Safe _ (when _ _) => apply Safe_when
  | |- Safe _ (whenSome _ _) => apply Safe_whenSome; intros
  | |- Safe _ (forEach _ _) => apply Safe_forEach; intros
  | |- Safe _ (mapM _ _) => apply Safe_mapM; intros
  | |- Safe _ (inNewEnvironment _ _) => apply Safe_inNewEnvironment
  | |- Safe _ (withReturnType _ _) => apply Safe_withReturnType
  | |- Safe _ (asLoopBody _) => apply Safe_asLoopBody
  | |- Safe _ (bind _ _) => apply Safe_bind; [|intros]
  | |- Safe fresh (defineCurrent _ _) => apply Safe_defineCurrent_fresh
  | |- Safe _ (if ?c then _ else _) => destruct c
  | |- Safe _ (match ?x with _ => _ end) => destruct x eqn:?
  end.

Ltac by_list_all :=
  match goal with
  | X : list_all ?P ?l, H : In ?x ?l |- _ => exact (@list_all_In _ P l X x H)
  end.

Ltac safe := repeat (cbv zeta; first [assumption | by_list_all | safe_step]).

Lemma TypeParameterNode_all_annotation (P : TypeNode -> Prop) p :
  TypeParameterNode_all P p ->
  forall t, tpn_typeAnnotation p = Some t -> P t.
Proof. destruct 1 as [? ? o ?]. simpl. intros t ->. now inversion o. Qed.

Lemma Safe_resolveTypeNode mode node : Safe mode (resolveTypeNode node).
Proof.
  apply Safe_pure.
  induction node using TypeNode_nested_ind; cbn [resolveTypeNode]; safe.
  - refine (list_all_In_map _ (fun p => forall t, tpn_typeAnnotation p = Some t
                                     -> Safe pure (resolveTypeNode t))
              _ _ X x H t Heqo).
    apply TypeParameterNode_all_annotation.
  - generalize (@nil (string * MemberInfo TypeValue)).
    induction X as [|member Hm l Hl IH]; intros acc.
    + apply Safe_ret.
    + destruct Hm as [name t Ht optional]. cbn [tm_name tm_typeAnnotation].
      destruct name as [name|]; [|apply IH].
      destruct (truthy_string (Some name)); [|apply IH].
      apply Safe_bind; [exact Ht | intro; apply IH].
Qed.

Lemma Safe_resolveAnnotation mode typeAnnotation :
  Safe mode (resolveAnnotation typeAnnotation).
Proof.
  destruct typeAnnotation; simpl;
    [apply Safe_resolveTypeNode | apply Safe_ret].
Qed.

Lemma Safe_resolveParameters {E} mode keepOptional
    (parameters : list (Parameter_ E)) :
  Safe mode (resolveParameters keepOptional parameters).
Proof.
  apply Safe_mapM. intros p _.
  apply Safe_bind; [apply Safe_resolveAnnotation | intro; apply Safe_ret].
Qed.

Lemma Safe_defineParams params : Safe fresh (defineParams params).
Proof. apply Safe_forEach. intros p _. apply Safe_defineCurrent_fresh. Qed.

Ltac safe_more :=
  lazymatch goal with
  | |- Safe _ (resolveTypeNode _) => apply Safe_resolveTypeNode
  | |- Safe _ (resolveAnnotation _) => apply Safe_resolveAnnotation
  | |- Safe _ (resolveParameters _ _) => apply Safe_resolveParameters
  | |- Safe fresh (defineParams _) => apply Safe_defineParams
  end.

(** A goal that an induction hypothesis closes, in the mode at hand. *)
Ltac by_ih :=
  cbv beta in *;
  first
    [ assumption
    | apply Safe_pure; assumption
    | apply Safe_stable_fresh; assumption
    | solve [eauto]
    | apply Safe_pure; solve [eauto]
    | apply Safe_stable_fresh; solve [eauto]
    | match goal with
      | X : list_all ?P ?l, H : In ?x ?l |- _ =>
          first
            [ exact (@list_all_In _ P l X x H)
            | apply Safe_pure; exact (@list_all_In _ P l X x H)
            | apply Safe_stable_fresh; exact (@list_all_In _ P l X x H) ]
      end ].

Ltac safe ::=
  repeat (cbv zeta; first [by_ih | safe_more | safe_step]).

(** The two induction hypotheses. *)
Abbreviation PE :=
  (fun e : Expression => Safe pure (checkExpression e)) (only parsing).
Abbreviation PS :=
  (fun s : Statement => Safe stable (checkStatement s)) (only parsing).

Lemma Safe_checkArgumentTypes mode arguments :
  (forall x, In x arguments -> Safe pure (checkExpression x)) ->
  forall checkCount params line,
    Safe mode (checkArgumentTypes checkExpression arguments checkCount params line).
Proof.
  induction arguments as [|arg arguments IH]; intros H checkCount params line;
    destruct checkCount, params; simpl; try apply Safe_ret.
  apply Safe_bind; [|intro; apply IH; intros; apply H; right; assumption].
  pose proof (H arg (or_introl eq_refl)) as Harg.
  destruct arg; safe.
Qed.

Lemma Safe_checkCallExpression mode callee arguments line :
  Safe pure (checkExpression callee) ->
  list_all PE arguments ->
  Safe mode (checkCallExpression checkExpression callee arguments line).
Proof.
  intros Hc X. pose proof (list_all_In _ _ X) as Hargs. clear X.
  unfold checkCallExpression. safe.
  apply Safe_checkArgumentTypes. assumption.
Qed.

Lemma Safe_checkObjectLiteral mode properties :
  list_all (ObjectProperty_all PE) properties ->
  Safe mode (checkObjectLiteral checkExpression properties).
Proof.
  intros X. unfold checkObjectLiteral.
  apply Safe_bind; [|intro; apply Safe_ret].
  generalize (@nil (string * MemberInfo TypeValue)).
  induction X as [|prop Hp l Hl IH]; intros acc; simpl.
  - apply Safe_ret.
  - destruct Hp as [key Hkey value Hvalue computed shorthand method].
    cbn [op_value op_key]. destruct value; safe.
Qed.

Lemma Safe_checkArrayLiteral mode elements :
  list_all (option_all PE) elements ->
  Safe mode (checkArrayLiteral checkExpression elements).
Proof.
  intros X. unfold checkArrayLiteral.
  assert (Hloop : forall types,
             Safe mode (checkArrayLiteral_loop checkExpression elements types)).
  { induction X as [|element He l Hl IH]; intros acc; simpl.
    - apply Safe_ret.
    - destruct He as [element He|]; [|apply IH].
      destruct element; safe. }
  destruct elements; safe.
Qed.

Lemma Safe_checkBlockStatement mode statements :
  list_all PS statements ->
  Safe mode (checkBlockStatement checkStatement statements).
Proof.
  intros X. unfold checkBlockStatement. safe.
Qed.

Lemma Safe_checkArrowFunction mode parameters returnType body :
  sum_all PE (list_all PS) body ->
  Safe mode (checkArrowFunction checkExpression checkStatement parameters
               returnType body).
Proof.
  intros X. unfold checkArrowFunction.
  destruct X as [expression He|statements Hs].
  - safe.
  - pose proof (Safe_checkBlockStatement fresh _ Hs). safe.
Qed.

Lemma Safe_checkFunctionExpression mode name parameters returnType body :
  list_all PS body ->
  Safe mode (checkFunctionExpression checkStatement name parameters
               returnType body).
Proof.
  intros X. pose proof (Safe_checkBlockStatement fresh _ X).
  unfold checkFunctionExpression. safe.
Qed.

(** The end of [checkVariableDeclaration]: the binding is written where
    the name has none. *)
Lemma Safe_declare name message line entry :
  Safe stable
    (bind (hasLocalCurrent name)
       (fun isLocal =>
          if isLocal then addError message line else defineCurrent name entry)).
Proof.
  intros n c s L P.
  unfold hasLocalCurrent, hasLocal, get, bind. cbv beta iota.
  destruct (store_hasLocal (envs s) (currentEnv s) name) eqn:E.
  - apply (Safe_addError stable); assumption.
  - split; [apply Safe_defineCurrent_new; assumption|].
    split; [|split]; reflexivity.
Qed.

Lemma Safe_checkVariableDeclaration decl :
  VariableDecl_all PE decl ->
  Safe stable (checkVariableDeclaration checkExpression decl).
Proof.
  intros X. destruct X as [name varKind typeAnnotation initializer Hi line].
  unfold checkVariableDeclaration.
  cbn [vd_name vd_varKind vd_typeAnnotation vd_initializer vd_line].
  apply Safe_bind; [safe|intro declaredType].
  apply Safe_bind; [destruct Hi; simpl; safe|intro inferredType].
  apply Safe_bind; [safe|intro finalType].
  apply Safe_declare.
Qed.

Lemma Safe_checkFunctionDeclaration mode name body :
  list_all PS body ->
  Safe mode (checkFunctionDeclaration checkStatement name body).
Proof.
  intros X. pose proof (Safe_checkBlockStatement fresh _ X).
  unfold checkFunctionDeclaration. safe.
Qed.

Lemma Safe_checkEnumDeclaration mode members :
  list_all (EnumMember_all PE) members ->
  Safe mode (checkEnumDeclaration checkExpression members).
Proof.
  intros X. unfold checkEnumDeclaration.
  induction X as [|member Hm l Hl IH]; simpl.
  - apply Safe_ret.
  - apply Safe_bind; [|intro; exact IH].
    destruct Hm as [name initializer Hi]. cbn [em_initializer].
    destruct Hi; safe.
Qed.

Lemma Safe_checkReturnStatement mode argument line :
  option_all PE argument ->
  Safe mode (checkReturnStatement checkExpression argument line).
Proof.
  intros X. unfold checkReturnStatement. destruct X; safe.
Qed.

Lemma Safe_checkIfStatement condition consequent alternate :
  Safe pure (checkExpression condition) ->
  Safe stable (checkStatement consequent) ->
  option_all PS alternate ->
  Safe stable (checkIfStatement checkExpression checkStatement condition
                 consequent alternate).
Proof.
  intros Hc Hs X. unfold checkIfStatement. destruct X; safe.
Qed.

Lemma Safe_checkForStatement mode init condition update body :
  option_all (sum_all (VariableDecl_all PE) PE) init ->
  option_all PE condition ->
  option_all PE update ->
  Safe stable (checkStatement body) ->
  Safe mode (checkForStatement checkExpression checkStatement init condition
               update body).
Proof.
  intros Xi Xc Xu Hb. unfold checkForStatement.
  apply Safe_inNewEnvironment.
  apply Safe_bind; [|intro].
  { destruct Xi as [init Hi|]; [destruct Hi as [decl Hd|expr He]|]; safe.
    apply Safe_stable_fresh, Safe_checkVariableDeclaration, Hd. }
  apply Safe_bind; [destruct Xc; simpl; safe|intro].
  apply Safe_bind; [destruct Xu; simpl; safe|intro].
  safe.
Qed.

Lemma Safe_checkForOfStatement mode variable iterable body :
  Safe pure (checkExpression iterable) ->
  Safe stable (checkStatement body) ->
  Safe mode (checkForOfStatement checkExpression checkStatement variable
               iterable body).
Proof.
  intros Hi Hb. unfold checkForOfStatement. safe.
Qed.

Lemma Safe_checkForInStatement mode variable object body :
  Safe pure (checkExpression object) ->
  Safe stable (checkStatement body) ->
  Safe mode (checkForInStatement checkExpression checkStatement variable
               object body).
Proof.
  intros Hi Hb. unfold checkForInStatement. safe.
Qed.

Lemma Safe_checkSwitchStatement discriminant cases :
  Safe pure (checkExpression discriminant) ->
  list_all (SwitchCase_all PE PS) cases ->
  Safe stable (checkSwitchStatement checkExpression checkStatement
                 discriminant cases).
Proof.
  intros Hd X. unfold checkSwitchStatement.
  apply Safe_bind; [safe|intro].
  induction X as [|caseClause Hc l Hl IH]; simpl.
  - apply Safe_ret.
  - apply Safe_bind; [|intro; exact IH].
    destruct Hc as [test Ht consequent Hs]. cbn [sc_test sc_consequent].
    apply Safe_bind; [destruct Ht; safe|intro]. safe.
Qed.

Lemma Safe_checkTryStatement mode block handler finalizer :
  list_all PS block ->
  option_all (CatchClause_all PE PS) handler ->
  option_all (list_all PS) finalizer ->
  Safe mode (checkTryStatement checkStatement block handler finalizer).
Proof.
  intros Xb Xh Xf. unfold checkTryStatement.
  apply Safe_bind; [apply Safe_checkBlockStatement, Xb|intro].
  apply Safe_bind; [|intro].
  - destruct Xh as [handler Hh|]; [|apply Safe_ret].
    destruct Hh as [param Hp body Hb]. cbn [cc_param cc_body].
    pose proof (Safe_checkBlockStatement fresh _ Hb). safe.
  - destruct Xf as [finalizer Hf|]; [|apply Safe_ret].
    apply Safe_checkBlockStatement, Hf.
Qed.


(** The parameters of a method are written to its environment, which
    is new. *)
Lemma Safe_defineParameters env parameters :
  Safe (above env) (defineParameters env parameters).
Proof.
  unfold defineParameters. safe. apply Safe_define_above.
Qed.

Lemma Safe_run {A} mode (m : M A) n c s :
  Safe mode m -> n <= length (envs s) -> pre mode n c s ->
  inv n c s (snd (m s)) /\ same_fields s (snd (m s)).
Proof. intros H. apply H. Qed.

(** [inv] reads [errors] and [envs] only. *)
Lemma inv_fields n c s1 s1' s2 s2' :
  errors s1' = errors s1 -> envs s1' = envs s1 ->
  errors s2' = errors s2 -> envs s2' = envs s2 ->
  inv n c s1 s2 -> inv n c s1' s2'.
Proof. unfold inv. intros -> -> -> ->. auto. Qed.

Lemma newTypeEnvironment_inv n c s parent :
  n <= length (envs s) ->
  inv n c s (snd (newTypeEnvironment parent s)).
Proof.
  intros L. apply inv_unchanged; simpl.
  - exists []. now rewrite app_nil_r.
  - rewrite length_app. lia.
  - intros env Hlt. apply nth_error_app1. lia.
Qed.

Ltac run_defineParameters n c :=
  match goal with
  | |- context [defineParameters ?e ?ps ?st] =>
      let I := fresh "I" in
      let F := fresh "F" in
      destruct (@Safe_run _ _ _ n c st (Safe_defineParameters e ps)) as [I F];
      [ cbn; rewrite length_app; simpl; lia | cbn; lia | ];
      destruct (defineParameters e ps st) as [? ?];
      cbn [fst snd] in I, F
  end.

Ltac run_resolveTypeNode n c :=
  match goal with
  | |- context [resolveTypeNode ?r ?st] =>
      let I := fresh "I" in
      let F := fresh "F" in
      destruct (@Safe_run _ _ _ n c st (Safe_resolveTypeNode pure r)) as [I F];
      [ | assumption | ];
      [ | destruct (resolveTypeNode r st) as [? ?]; cbn [fst snd] in I, F ]
  end.

Ltac run_checkBlockStatement n c HB :=
  match goal with
  | |- context [checkBlockStatement ?cS ?b ?st] =>
      let I := fresh "I" in
      let F := fresh "F" in
      destruct (@Safe_run _ _ _ n c st HB) as [I F];
      [ | assumption | ];
      [ | destruct (checkBlockStatement cS b st) as [? ?]; cbn [fst snd] in I, F ]
  end.

Ltac chain_fields :=
  repeat match goal with
         | F : same_fields _ _ |- _ =>
             let F1 := fresh in
             let F2 := fresh in
             let F3 := fresh in
             destruct F as (F1 & F2 & F3);
             cbn [errors envs currentEnv currentReturnType inLoop] in F1, F2, F3
         end;
  split; [|split]; cbn [errors envs currentEnv currentReturnType inLoop];
  congruence.

Lemma Safe_checkClassMember mode member :
  ClassMember_all PE PS member ->
  Safe mode (checkClassMember checkExpression checkStatement member).
Proof.
  intros X. apply Safe_pure.
  destruct X as [name typeAnnotation initializer Hi accessibility isStatic
                |name parameters Hp returnType body Hb accessibility isStatic isAsync
                |parameters Hp body Hb
                |name body Hb isStatic
                |name parameter Hp body Hb isStatic];
    cbn [checkClassMember]; try apply Safe_ret.
  - destruct Hi; safe.
  - destruct Hb as [body Hb|]; [|apply Safe_ret].
    pose proof (Safe_checkBlockStatement pure _ Hb) as HB.
    intros n c s L P.
    pose proof (newTypeEnvironment_inv n c s (currentEnv s) L) as I0.
    unfold bind, get, newTypeEnvironment, setCurrentReturnType, setCurrentEnv,
      setEnvs, ret in *.
    cbv beta iota. cbn [fst snd] in *.
    run_defineParameters n c.
    destruct returnType as [r|].
    + run_resolveTypeNode n c.
      { destruct I as (_ & L1 & _). cbn in L1. rewrite length_app in L1. lia. }
      run_checkBlockStatement n c HB.
      { destruct I as (_ & L1 & _), I1 as (_ & L2 & _). cbn in *.
        rewrite length_app in L1. lia. }
      cbn [fst snd]. split; [|chain_fields].
      eapply inv_trans; [exact I0|]. eapply inv_trans; [exact I|].
      eapply inv_trans; [exact I1|].
      eapply inv_fields; [.. | exact I2]; reflexivity.
    + run_checkBlockStatement n c HB.
      { destruct I as (_ & L1 & _). cbn in *.
        rewrite length_app in L1. lia. }
      cbn [fst snd]. split; [|chain_fields].
      eapply inv_trans; [exact I0|]. eapply inv_trans; [exact I|].
      eapply inv_fields; [.. | exact I1]; reflexivity.
  - pose proof (Safe_checkBlockStatement pure _ Hb) as HB.
    intros n c s L P.
    pose proof (newTypeEnvironment_inv n c s (currentEnv s) L) as I0.
    unfold bind, get, newTypeEnvironment, setCurrentReturnType, setCurrentEnv,
      setEnvs, ret in *.
    cbv beta iota. cbn [fst snd] in *.
    run_defineParameters n c.
    run_checkBlockStatement n c HB.
    { destruct I as (_ & L1 & _). cbn in *.
      rewrite length_app in L1. lia. }
    cbn [fst snd]. split; [|chain_fields].
    eapply inv_trans; [exact I0|]. eapply inv_trans; [exact I|].
    eapply inv_fields; [.. | exact I1]; reflexivity.
Qed.

Lemma Safe_checkClassDeclaration mode name members :
  list_all (ClassMember_all PE PS) members ->
  Safe mode (checkClassDeclaration checkExpression checkStatement name members).
Proof.
  intros X. unfold checkClassDeclaration. safe.
  refine (list_all_In_map _ (fun member =>
            Safe fresh (checkClassMember checkExpression checkStatement member))
            _ _ X _ H).
  intros member. apply Safe_checkClassMember.
Qed.

(** [checkExpression] leaves every environment that exists as it is;
    [checkStatement] may add bindings to the current one. *)
Lemma check_safe :
  (forall e, Safe pure (checkExpression e))
  /\ (forall s, Safe stable (checkStatement s)).
Proof.
  apply syntax_ind; intros;
    cbn [checkExpression checkStatement checkExpression_body
         checkStatement_body];
    try solve [safe].
  all: try solve [
    unfold checkBinaryExpression, checkUnaryExpression, checkMemberExpression,
      checkComputedMemberExpression, propertyDoesNotExist, checkNewExpression,
      checkWhileStatement; safe ].
  - apply Safe_checkCallExpression; assumption.
  - apply Safe_checkObjectLiteral; assumption.
  - apply Safe_checkArrayLiteral; assumption.
  - apply Safe_checkArrowFunction; assumption.
  - apply Safe_checkFunctionExpression; assumption.
  - destruct X; safe.
  - apply Safe_checkVariableDeclaration; assumption.
  - apply Safe_checkFunctionDeclaration; assumption.
  - apply Safe_checkClassDeclaration; assumption.
  - apply Safe_checkEnumDeclaration; assumption.
  - apply Safe_checkReturnStatement; assumption.
  - apply Safe_checkIfStatement; assumption.
  - apply Safe_checkForStatement; assumption.
  - apply Safe_checkForOfStatement; assumption.
  - apply Safe_checkForInStatement; assumption.
  - apply Safe_checkSwitchStatement; assumption.
  - apply Safe_checkTryStatement; assumption.
  - apply Safe_checkBlockStatement; assumption.
Qed.

Lemma checkExpression_pure mode e : Safe mode (checkExpression e).
Proof. apply Safe_pure, check_safe. Qed.

Lemma checkStatement_stable s : Safe stable (checkStatement s).
Proof. apply check_safe. Qed.

(** ** Redeclaration *)

Definition alreadyDeclared (decl : VariableDecl Expression) : CompilerError :=
  {| message := "Variable '" ++ vd_name decl
                ++ "' is already declared in this scope";
     line := vd_line decl |}.

Lemma store_lookup_local store env scope name entry :
  nth_error store env = Some scope ->
  map_get (symbols scope) name = Some entry ->
  store_lookup store env name = Some entry.
Proof.
  intros Hs Hm. unfold store_lookup. simpl. now rewrite Hs, Hm.
Qed.

(** A pure method leaves the current environment in place. *)
Lemma pure_current {A} (m : M A) s scope :
  Safe pure m ->
  nth_error (envs s) (currentEnv s) = Some scope ->
  (exists new, errors (snd (m s)) = errors s ++ new)%list
  /\ currentEnv (snd (m s)) = currentEnv s
  /\ nth_error (envs (snd (m s))) (currentEnv s) = Some scope.
Proof.
  intros Hm Hs.
  assert (Hlt : currentEnv s < length (envs s)).
  { apply nth_error_Some. congruence. }
  destruct (Hm (length (envs s)) (length (envs s)) s (Nat.le_refl _)
              (Nat.le_refl _)) as [(E & _ & U) (F & _)].
  split; [exact E | split; [exact F|]].
  destruct (U _ Hlt) as [U' _]. rewrite U' by lia. exact Hs.
Qed.

Lemma Safe_statements statements :
  Safe stable (forEach checkStatement statements).
Proof. apply Safe_forEach. intros stmt _. apply checkStatement_stable. Qed.

(** C10.  A variable declaration whose name is bound in the current
    environment adds the diagnostic "Variable 'x' is already declared
    in this scope" after the diagnostics of its annotation and
    initializer, and leaves the current environment as it is; a lookup
    of the name there yields the entry of the first declaration, right
    after the redeclaration and after any statements checked later. *)
Theorem redeclaration_keeps_first_binding
    (decl : VariableDecl Expression) (rest : list Statement)
    (s : TypeChecker) (scope : TypeEnvironment) (entry : SymbolEntry) :
  nth_error (envs s) (currentEnv s) = Some scope ->
  map_get (symbols scope) (vd_name decl) = Some entry ->
  let s1 := snd (checkStatement (VariableDeclaration decl) s) in
  let s2 := snd (forEach checkStatement rest s1) in
  (exists earlier,
      errors s1 = errors s ++ earlier ++ [alreadyDeclared decl])%list
  /\ currentEnv s1 = currentEnv s
  /\ nth_error (envs s1) (currentEnv s1) = Some scope
  /\ store_lookup (envs s1) (currentEnv s1) (vd_name decl) = Some entry
  /\ currentEnv s2 = currentEnv s
  /\ store_lookup (envs s2) (currentEnv s2) (vd_name decl) = Some entry.
Proof.
  intros Hs Hm s1 s2.
  assert (H1 : (exists earlier,
                   errors s1 = errors s ++ earlier ++ [alreadyDeclared decl])%list
               /\ currentEnv s1 = currentEnv s
               /\ nth_error (envs s1) (currentEnv s1) = Some scope).
  { subst s1 s2. cbn [checkStatement checkStatement_body].
    unfold checkVariableDeclaration.
    set (prefix :=
           bind (whenSome (vd_typeAnnotation decl) resolveTypeNode)
             (fun declaredType =>
                bind (whenSome (vd_initializer decl) checkExpression)
                  (fun inferredType =>
                     bind
                       match declaredType, inferredType with
                       | Some declaredType, Some inferredType =>
                           bind
                             (when (negb (isAssignable inferredType declaredType))
                                (addError
                                   (notAssignableMessage inferredType declaredType)
                                   (vd_line decl)))
                             (fun _ => ret declaredType)
                       | Some declaredType, None => ret declaredType
                       | None, Some inferredType => ret inferredType
                       | None, None => ret createAnyType
                       end
                       (fun finalType => ret finalType)))).
    assert (Hp : Safe pure prefix).
    { unfold prefix. safe. apply checkExpression_pure. }
    destruct (pure_current prefix s scope Hp Hs) as ((earlier & E) & F & U).
    unfold prefix in E, F, U. clear Hp prefix.
    unfold bind in *. cbv beta in *.
    destruct (whenSome (vd_typeAnnotation decl) resolveTypeNode s)
      as [declaredType sa].
    destruct (whenSome (vd_initializer decl) checkExpression sa)
      as [inferredType sb].
    match goal with
    | H : context [let (_, _) := ?m sb in _] |- _ =>
        destruct (m sb) as [finalType sc]
    end.
    cbn [ret fst snd] in *.
    unfold hasLocalCurrent, hasLocal, get, bind. cbv beta iota.
    unfold store_hasLocal. rewrite F, U. unfold map_has. rewrite Hm.
    cbn [addError setErrors snd errors currentEnv envs].
    split; [|split].
    - exists earlier. rewrite E. now rewrite app_assoc.
    - exact F.
    - rewrite F. exact U. }
  destruct H1 as (E1 & F1 & U1).
  split; [exact E1 | split; [exact F1 | split; [exact U1|]]].
  split; [eapply store_lookup_local; eassumption|].
  assert (Hlt : currentEnv s1 < length (envs s1)).
  { apply nth_error_Some. congruence. }
  destruct (Safe_statements rest
              (length (envs s1)) (currentEnv s1) s1 (Nat.le_refl _)
              (or_introl eq_refl)) as [(_ & _ & I) (F2 & _)].
  fold s2 in I, F2.
  destruct (I _ Hlt) as [_ X]. destruct (X scope U1) as (scope' & U2 & Hx & _).
  split; [congruence|].
  eapply store_lookup_local; [rewrite F2; exact U2 | auto].
Qed.

(** ** Order of the diagnostics *)

(** What checking each statement in turn adds to [errors]. *)
Fixpoint diagnosticsByStatement (statements : list Statement)
    (s : TypeChecker) : list (list CompilerError) :=
  match statements with
  | [] => []
  | stmt :: rest =>
      let s' := snd (checkStatement stmt s) in
      skipn (length (errors s)) (errors s')
      :: diagnosticsByStatement rest s'
  end.

Lemma checkStatement_appends stmt s :
  errors (snd (checkStatement stmt s))
  = (errors s ++ skipn (length (errors s)) (errors (snd (checkStatement stmt s))))%list.
Proof.
  destruct (checkStatement_stable stmt 0 0 s (Nat.le_0_l _)
              (or_intror (Nat.le_0_l _))) as [((new & E) & _) _].
  rewrite E at 2. rewrite skipn_app, Nat.sub_diag, skipn_all. simpl. exact E.
Qed.

Lemma forEach_checkStatement_errors statements : forall s,
  errors (snd (forEach checkStatement statements s))
  = (errors s ++ concat (diagnosticsByStatement statements s))%list.
Proof.
  induction statements as [|stmt rest IH]; intros s; simpl.
  - now rewrite app_nil_r.
  - unfold bind. destruct (checkStatement stmt s) as [u s'] eqn:E.
    rewrite IH. pose proof (checkStatement_appends stmt s) as A.
    rewrite E in A. cbn [snd] in A. rewrite A at 1.
    now rewrite app_assoc.
Qed.

(** C2, as the code has it.  The diagnostics of [check] are in the
    order of discovery: those of the four registration passes, then,
    statement by statement in program order, those that checking the
    statement adds. *)
Theorem diagnostics_in_discovery_order (program : Program) (s : TypeChecker) :
  let registered :=
    snd (registrationPasses (statements program) (snd (setErrors [] s))) in
  fst (check program s)
  = (errors registered
     ++ concat (diagnosticsByStatement (statements program) registered))%list.
Proof.
  intros registered. unfold check, bind, get. cbv beta iota.
  destruct (setErrors [] s) as [u0 s0]. cbn [snd] in registered.
  destruct (registrationPasses (statements program) s0) as [u1 s1].
  cbn [snd] in registered. subst registered.
  pose proof (forEach_checkStatement_errors (statements program) s1) as E.
  destruct (forEach checkStatement (statements program) s1) as [u2 s2].
  exact E.
Qed.

(** ** Union and intersection values *)

Definition isUnion (type : TypeValue) : bool :=
  match type with UnionTypeValue _ => true | _ => false end.

Definition isIntersection (type : TypeValue) : bool :=
  match type with IntersectionTypeValue _ => true | _ => false end.

(** No arm of a union is a union, no arm of an intersection an
    intersection. *)
Definition flat (type : TypeValue) : bool :=
  match type with
  | UnionTypeValue types => forallb (fun arm => negb (isUnion arm)) types
  | IntersectionTypeValue types =>
      forallb (fun arm => negb (isIntersection arm)) types
  | _ => true
  end.

(** C3, as the code has it.  [createUnionType] keeps the arms it is
    given: the type of a conditional expression is the union of the
    types of its two branches as they are, and it is flat exactly when
    neither branch has a union type. *)
Theorem conditional_type_keeps_branch_types
    (condition consequent alternate : Expression) (line : nat)
    (s : TypeChecker) :
  let s1 := snd (checkExpression condition s) in
  let consequentType := fst (checkExpression consequent s1) in
  let s2 := snd (checkExpression consequent s1) in
  let alternateType := fst (checkExpression alternate s2) in
  let type :=
    fst (checkExpression
           (ConditionalExpression condition consequent alternate line) s) in
  type = UnionTypeValue [consequentType; alternateType]
  /\ (flat type = true
      <-> isUnion consequentType = false /\ isUnion alternateType = false).
Proof.
  intros s1 consequentType s2 alternateType type.
  assert (E : type = UnionTypeValue [consequentType; alternateType]).
  { subst type alternateType s2 consequentType s1.
    cbn [checkExpression checkExpression_body]. unfold bind.
    destruct (checkExpression condition s) as [t0 s1]. cbn [fst snd].
    destruct (checkExpression consequent s1) as [t1 s2]. cbn [fst snd].
    destruct (checkExpression alternate s2) as [t2 s3]. reflexivity. }
  split; [exact E|]. rewrite E. simpl.
  destruct (isUnion consequentType), (isUnion alternateType); simpl;
    intuition congruence.
Qed.

(** ** Call arity *)

Definition atLeastDiagnostic (required k line : nat) : CompilerError :=
  {| message := "Expected at least " ++ count_toString required
                ++ " arguments, but got " ++ count_toString k;
     line := line |}.

Definition atMostDiagnostic (n k line : nat) : CompilerError :=
  {| message := "Expected at most " ++ count_toString n
                ++ " arguments, but got " ++ count_toString k;
     line := line |}.

Lemma singleton_inj {A} (a b : A) : [a] = [b] -> a = b.
Proof. congruence. Qed.

Lemma atLeast_neq_atMost required n k k' line line' :
  atLeastDiagnostic required k line <> atMostDiagnostic n k' line'.
Proof. unfold atLeastDiagnostic, atMostDiagnostic. simpl. congruence. Qed.

(** The arity rule as the specification words it.

    A rest parameter: a parameter whose name begins with [...]. *)
Definition namedAsRest (p : ParamInfo TypeValue) : bool :=
  match param_name p with
  | String a (String b (String c _)) =>
      Ascii.eqb a "." && Ascii.eqb b "." && Ascii.eqb c "."
  | _ => false
  end.

(** [required]: the number of parameters that are neither optional nor
    rest. *)
Fixpoint countRequired (params : list (ParamInfo TypeValue)) : nat :=
  match params with
  | [] => 0
  | p :: params =>
      if param_optional p then countRequired params
      else if namedAsRest p then countRequired params
      else S (countRequired params)
  end.

(** "No rest parameter". *)
Definition noRestParameter (params : list (ParamInfo TypeValue)) : Prop :=
  forall p, In p params -> namedAsRest p = false.

Lemma isRestParam_namedAsRest p : isRestParam p = namedAsRest p.
Proof.
  unfold isRestParam, namedAsRest, startsWith.
  destruct (param_name p) as [|a [|b [|c r]]]; cbn [prefix];
    repeat match goal with
           | |- context [Ascii.ascii_dec ?x ?y] =>
               destruct (Ascii.ascii_dec x y) as [<-|N];
               [|apply not_eq_sym, Ascii.eqb_neq in N; try rewrite N]
           end; try reflexivity.
  now destruct r.
Qed.

Lemma requiredParams_countRequired params :
  requiredParams params = countRequired params.
Proof.
  unfold requiredParams.
  induction params as [|p params IH]; [reflexivity|].
  cbn [filter countRequired]. rewrite isRestParam_namedAsRest.
  destruct (param_optional p); [exact IH|].
  destruct (namedAsRest p); [exact IH|]. cbn [negb andb length]. now rewrite IH.
Qed.

Lemma hasRestParam_noRestParameter params :
  existsb isRestParam params = false <-> noRestParameter params.
Proof.
  unfold noRestParameter. split.
  - intros H p Hin. rewrite <- isRestParam_namedAsRest.
    destruct (isRestParam p) eqn:E; [|reflexivity].
    assert (existsb isRestParam params = true); [|congruence].
    apply existsb_exists. now exists p.
  - intros H. destruct (existsb isRestParam params) eqn:E; [|reflexivity].
    apply existsb_exists in E as (p & Hin & Hp).
    rewrite isRestParam_namedAsRest, (H p Hin) in Hp. discriminate.
Qed.

(** What the checker is after [added] is appended to its diagnostics. *)
Definition withDiagnostics (added : list CompilerError) (s : TypeChecker)
    : TypeChecker :=
  snd (setErrors (errors s ++ added)%list s).

Lemma withDiagnostics_nil s : withDiagnostics [] s = s.
Proof. destruct s. unfold withDiagnostics. simpl. now rewrite app_nil_r. Qed.

Lemma existsb_namedAsRest params :
  existsb isRestParam params = existsb namedAsRest params.
Proof.
  induction params as [|p params IH]; [reflexivity|].
  simpl. now rewrite IH, isRestParam_namedAsRest.
Qed.

(** C7.  At a call whose callee has a function type with parameters
    [params], let [required] be the number of parameters that are
    neither optional nor rest, a rest parameter being one whose name
    begins with [...], and [k] the number of arguments.  Checking the
    call appends the arity diagnostics [arity] to the diagnostics of the
    callee and then checks the arguments, and that is all it does.
    [arity] is "Expected at least <required> arguments" if and only if
    [k < required], and otherwise "Expected at most <n> arguments" if
    and only if no parameter is a rest parameter and [k > n]; it is
    empty otherwise. *)
Theorem call_arity_diagnostics
    (callee : Expression) (arguments : list Expression) (optional : bool)
    (line : nat) (s s1 : TypeChecker)
    (params : list (ParamInfo TypeValue)) (returnType : TypeValue) :
  checkExpression callee s = (FunctionType params returnType, s1) ->
  let k := length arguments in
  let n := length params in
  let required := countRequired params in
  let checked := Nat.min k (if existsb namedAsRest params then n - 1 else n) in
  let result := checkExpression (CallExpression callee arguments optional line) s in
  exists arity,
    snd result
    = snd (checkArgumentTypes checkExpression arguments checked params line
             (withDiagnostics arity s1))
    /\ fst result = returnType
    /\ (exists fromArguments,
          errors (snd result) = errors s1 ++ arity ++ fromArguments)%list
    /\ (arity = [atLeastDiagnostic required k line] <-> k < required)
    /\ (arity = [atMostDiagnostic n k line]
        <-> ~ k < required /\ noRestParameter params /\ n < k)
    /\ (arity = [] \/ arity = [atLeastDiagnostic required k line]
        \/ arity = [atMostDiagnostic n k line]).
Proof.
  intros Hc k n required checked result.
  subst result. cbn [checkExpression checkExpression_body].
  unfold checkCallExpression, bind. rewrite Hc.
  change (kind (FunctionType params returnType) =? "any") with false.
  cbv beta iota zeta.
  rewrite requiredParams_countRequired, existsb_namedAsRest.
  fold k n required.
  replace (if existsb namedAsRest params then Nat.min k (n - 1) else Nat.min k n)
    with checked by (subst checked; now destruct (existsb namedAsRest params)).
  assert (Hrest : existsb namedAsRest params = false <-> noRestParameter params).
  { rewrite <- existsb_namedAsRest. apply hasRestParam_noRestParameter. }
  assert (Hargs : forall arity,
            exists fromArguments,
              (errors (snd (checkArgumentTypes checkExpression arguments
                              checked params line (withDiagnostics arity s1)))
               = errors s1 ++ arity ++ fromArguments)%list).
  { intros arity.
    assert (Safe pure (checkArgumentTypes checkExpression arguments checked
                         params line)) as HS.
    { apply Safe_checkArgumentTypes. intros. apply checkExpression_pure. }
    destruct (HS 0 0 (withDiagnostics arity s1) (Nat.le_0_l _) (Nat.le_0_l _))
      as [((fromArguments & E) & _) _].
    exists fromArguments. rewrite E. unfold withDiagnostics. simpl.
    now rewrite app_assoc. }
  assert (Hrun : forall (m : M unit) arity,
            snd (m s1) = withDiagnostics arity s1 ->
            let result :=
              let (_, s2) := m s1 in
              let (_, s3) := checkArgumentTypes checkExpression arguments
                               checked params line s2 in
              ret returnType s3 in
            snd result
            = snd (checkArgumentTypes checkExpression arguments checked params
                     line (withDiagnostics arity s1))
            /\ fst result = returnType
            /\ (exists fromArguments,
                  errors (snd result) = errors s1 ++ arity ++ fromArguments)%list).
  { intros m arity E. destruct (Hargs arity) as (fromArguments & Ha).
    destruct (m s1) as [u s2]. simpl in E. subst s2. cbv zeta.
    destruct (checkArgumentTypes checkExpression arguments checked params line
                (withDiagnostics arity s1)) as [u' s3].
    simpl in *. split; [reflexivity|]. split; [reflexivity|]. eauto. }
  destruct (k <? required)%nat eqn:E1.
  - apply Nat.ltb_lt in E1.
    exists [atLeastDiagnostic required k line].
    destruct (Hrun (addError
                      ("Expected at least " ++ count_toString required
                       ++ " arguments, but got " ++ count_toString k) line)
                [atLeastDiagnostic required k line] eq_refl) as (R1 & R2 & R3).
    split; [exact R1|]. split; [exact R2|]. split; [exact R3|].
    split; [tauto|]. split; [|tauto].
    split; [intros H|intros (H & _); contradiction].
    exfalso. apply (atLeast_neq_atMost required n k k line line).
    exact (singleton_inj _ _ H).
  - apply Nat.ltb_ge in E1.
    destruct (negb (existsb namedAsRest params) && (n <? k)%nat) eqn:E2.
    + apply andb_true_iff in E2. destruct E2 as [E2 E3].
      apply negb_true_iff in E2. apply Nat.ltb_lt in E3.
      exists [atMostDiagnostic n k line].
      destruct (Hrun (addError
                        ("Expected at most " ++ count_toString n
                         ++ " arguments, but got " ++ count_toString k) line)
                  [atMostDiagnostic n k line] eq_refl) as (R1 & R2 & R3).
      split; [exact R1|]. split; [exact R2|]. split; [exact R3|].
      split; [|split; [|tauto]].
      * split; [intros H|intros H; lia].
        exfalso. apply (atLeast_neq_atMost required n k k line line).
        symmetry. exact (singleton_inj _ _ H).
      * split; [intros _|reflexivity].
        split; [lia|]. split; [now apply Hrest | exact E3].
    + exists [].
      destruct (Hrun (ret tt) [] (eq_sym (withDiagnostics_nil s1)))
        as (R1 & R2 & R3).
      split; [exact R1|]. split; [exact R2|]. split; [exact R3|].
      split; [split; [discriminate | lia]|].
      split; [|tauto].
      split; [discriminate|]. intros (_ & H2 & H3).
      apply Hrest in H2. apply Nat.ltb_lt in H3. rewrite H2, H3 in E2.
      discriminate.
Qed.

(** ** Diagnostics and environments are not disturbed *)

(** X2. The checker appends to its diagnostics and neither removes nor
    reorders them: after checking a statement or an expression the
    diagnostics it started with are still in front. *)
Theorem checker_only_appends_diagnostics :
  (forall stmt s, exists added,
      errors (snd (checkStatement stmt s)) = errors s ++ added)%list
  /\ (forall e s, exists added,
        errors (snd (checkExpression e s)) = errors s ++ added)%list.
Proof.
  split.
  - intros stmt s.
    destruct (checkStatement_stable stmt 0 0 s (Nat.le_0_l _)
                (or_intror (Nat.le_0_l _))) as [(E & _) _].
    exact E.
  - intros e s.
    destruct (checkExpression_pure pure e 0 0 s (Nat.le_0_l _) (Nat.le_0_l _))
      as [(E & _) _].
    exact E.
Qed.

(** X3. Checking an expression puts back what it changes: the current
    environment, the expected return type and the loop flag are as
    before, and so is every environment that existed (the environments
    of the functions inside the expression are new). *)
Theorem checkExpression_restores_environment (e : Expression)
    (s : TypeChecker) :
  let s' := snd (checkExpression e s) in
  currentEnv s' = currentEnv s
  /\ currentReturnType s' = currentReturnType s
  /\ inLoop s' = inLoop s
  /\ (forall env, env < length (envs s) ->
        nth_error (envs s') env = nth_error (envs s) env).
Proof.
  intros s'.
  destruct (checkExpression_pure pure e (length (envs s)) (length (envs s)) s
              (Nat.le_refl _) (Nat.le_refl _)) as [(_ & _ & U) (F1 & F2 & F3)].
  fold s' in U, F1, F2, F3.
  split; [exact F1 | split; [exact F2 | split; [exact F3|]]].
  intros env Hlt. destruct (U env Hlt) as [U' _]. apply U'. lia.
Qed.

(** ** [deduplicateTypes] *)

Lemma includes_In seen x : includes seen x = true <-> In x seen.
Proof.
  unfold includes. rewrite existsb_exists. split.
  - intros (y & Hy & E). apply String.eqb_eq in E. now subst.
  - intros H. exists x. split; [assumption|apply String.eqb_refl].
Qed.

Lemma deduplicateTypes_loop_spec l : forall seen,
  NoDup (map typeToString (deduplicateTypes_loop seen l))
  /\ (forall u, In u (deduplicateTypes_loop seen l) ->
        In u l /\ ~ In (typeToString u) seen)
  /\ (forall t, In t l ->
        In (typeToString t) seen
        \/ In (typeToString t) (map typeToString (deduplicateTypes_loop seen l))).
Proof.
  induction l as [|t r IH]; intros seen; simpl.
  - split; [constructor|]. split; intros ? [].
  - destruct (includes seen (typeToString t)) eqn:Hin; simpl.
    + destruct (IH seen) as (Hnd & Hsub & Hcov).
      split; [assumption|]. split.
      * intros u Hu. destruct (Hsub u Hu). auto.
      * intros t' [<-|Ht']; [left; now apply includes_In|now apply Hcov].
    + destruct (IH (typeToString t :: seen)) as (Hnd & Hsub & Hcov).
      assert (Hnot : ~ In (typeToString t) seen).
      { intros H. apply includes_In in H. congruence. }
      split; [|split].
      * constructor; [|assumption]. intros H.
        apply in_map_iff in H as (u & E & Hu).
        destruct (Hsub u Hu) as [_ Hn]. apply Hn. now left.
      * intros u [<-|Hu]; [auto|]. destruct (Hsub u Hu) as [H1 H2].
        split; [now right|]. intros H. apply H2. now right.
      * intros t' [<-|Ht']; [right; now left|].
        destruct (Hcov t' Ht') as [[E|H]|H]; [|now left|right; now right].
        right. left. assumption.
Qed.

Lemma deduplicateTypes_loop_fixed l : forall seen,
  NoDup (map typeToString l) ->
  (forall t, In t l -> ~ In (typeToString t) seen) ->
  deduplicateTypes_loop seen l = l.
Proof.
  induction l as [|t r IH]; intros seen Hnd Hseen; simpl; [reflexivity|].
  simpl in Hnd. inversion Hnd as [|? ? Hnot Hnd']; subst.
  destruct (includes seen (typeToString t)) eqn:Hin.
  - apply includes_In in Hin. exfalso. apply (Hseen t); [now left|assumption].
  - simpl. f_equal. apply IH; [assumption|].
    intros u Hu [E|H].
    + apply Hnot. rewrite E. now apply in_map.
    + apply (Hseen u); [now right|assumption].
Qed.

(** X11. [deduplicateTypes] keeps one type for each text that
    [typeToString] prints: the texts of the result are pairwise
    different, every text of the input is among them, every type of the
    result comes from the input, and a second pass changes nothing. *)
Theorem deduplicateTypes_keeps_one_type_per_text (l : list TypeValue) :
  NoDup (map typeToString (deduplicateTypes l))
  /\ (forall u, In u (deduplicateTypes l) -> In u l)
  /\ (forall t, In t l ->
        In (typeToString t) (map typeToString (deduplicateTypes l)))
  /\ deduplicateTypes (deduplicateTypes l) = deduplicateTypes l.
Proof.
  unfold deduplicateTypes.
  destruct (deduplicateTypes_loop_spec l []) as (Hnd & Hsub & Hcov).
  split; [assumption|]. split; [|split].
  - intros u Hu. now destruct (Hsub u Hu).
  - intros t Ht. destruct (Hcov t Ht) as [[]|H]. assumption.
  - apply deduplicateTypes_loop_fixed; [assumption|]. intros t _ [].
Qed.

(** ** Environments: [define], [lookup] and [hasLocal] *)

Lemma map_get_set_same {V} (m : JsMap V) k v :
  map_get (map_set m k v) k = Some v.
Proof.
  induction m as [|[k0 v0] m IH]; simpl.
  - now rewrite String.eqb_refl.
  - destruct (k0 =? k) eqn:E; simpl.
    + now rewrite String.eqb_refl.
    + now rewrite E.
Qed.

(** Two stores that agree, at every environment, on the parent and on
    what the table holds for [name] give the same [lookup]. *)
Lemma lookup_steps_agree {V} (table : TypeEnvironment -> JsMap V) store store'
    name :
  (forall env,
     option_map (fun e => (map_get (table e) name, parent e))
       (nth_error store' env)
     = option_map (fun e => (map_get (table e) name, parent e))
         (nth_error store env)) ->
  forall steps env,
    lookup_steps table steps store' env name
    = lookup_steps table steps store env name.
Proof.
  intros H. induction steps as [|steps IH]; intros env; simpl; [reflexivity|].
  specialize (H env).
  destruct (nth_error store' env) as [e'|], (nth_error store env) as [e|];
    simpl in H; try discriminate; [|reflexivity].
  injection H as -> ->.
  destruct (map_get (table e) name); [reflexivity|].
  destruct (parent e); [apply IH | reflexivity].
Qed.

(** X12. What [define] writes, [lookup] and [hasLocal] read back in
    the same environment, also when an enclosing environment binds the
    name; and [define] changes the [lookup] of no other name, from
    whatever environment. *)
Theorem define_then_lookup (store : Store) (env : nat) (name : string)
    (entry : SymbolEntry) :
  env < length store ->
  let store' := store_define store env name entry in
  store_lookup store' env name = Some entry
  /\ store_hasLocal store' env name = true
  /\ (forall env' name', name' <> name ->
        store_lookup store' env' name' = store_lookup store env' name').
Proof.
  intros Hlt store'.
  destruct (nth_error store env) as [e|] eqn:He;
    [|apply nth_error_None in He; lia].
  assert (He' : nth_error store' env
                = Some {| symbols := map_set (symbols e) name entry;
                          types := types e; parent := parent e |}).
  { unfold store', store_define. now rewrite update_same, He. }
  split; [|split].
  - unfold store_lookup. simpl. rewrite He'. simpl.
    now rewrite map_get_set_same.
  - unfold store_hasLocal, map_has. rewrite He'. simpl.
    now rewrite map_get_set_same.
  - intros env' name' Hne. unfold store_lookup.
    apply lookup_steps_agree. intros env0.
    destruct (Nat.eq_dec env0 env) as [->|Hne0].
    + rewrite He', He. simpl. rewrite map_get_set_other; [reflexivity|].
      apply String.eqb_neq. congruence.
    + unfold store', store_define. now rewrite update_other.
Qed.

(** An environment is created after its parent: the store is well
    formed when every parent has a smaller index than its children. *)
Definition wellFormed (store : Store) : Prop :=
  forall env e p,
    nth_error store env = Some e -> parent e = Some p -> p < env.

(** In a well-formed store the walk from [env] ends within [S env]
    steps. *)
Lemma lookup_steps_enough {V} (table : TypeEnvironment -> JsMap V) store name :
  wellFormed store ->
  forall bound env steps steps',
    env < bound -> env < steps -> env < steps' ->
    lookup_steps table steps store env name
    = lookup_steps table steps' store env name.
Proof.
  intros Hwf. induction bound as [|bound IH]; intros env steps steps' Hb H1 H2;
    [lia|].
  destruct steps as [|steps]; [lia|]. destruct steps' as [|steps']; [lia|].
  simpl. destruct (nth_error store env) as [e|] eqn:He; [|reflexivity].
  destruct (map_get (table e) name); [reflexivity|].
  destruct (parent e) as [p|] eqn:Hp; [|reflexivity].
  pose proof (Hwf env e p He Hp). apply IH; lia.
Qed.

(** The text of [lookup]: the local table, then the parent. *)
Lemma store_lookup_unfold store env name :
  wellFormed store ->
  store_lookup store env name
  = match nth_error store env with
    | None => None
    | Some e =>
        match map_get (symbols e) name with
        | Some entry => Some entry
        | None =>
            match parent e with
            | Some p => store_lookup store p name
            | None => None
            end
        end
    end.
Proof.
  intros Hwf. unfold store_lookup at 1. simpl.
  destruct (nth_error store env) as [e|] eqn:He; [|reflexivity].
  destruct (map_get (symbols e) name); [reflexivity|].
  destruct (parent e) as [p|] eqn:Hp; [|reflexivity].
  pose proof (Hwf env e p He Hp). unfold store_lookup.
  apply (lookup_steps_enough symbols store name Hwf (S env)); lia.
Qed.

Lemma wellFormed_new store p :
  wellFormed store -> p < length store ->
  wellFormed
    (store ++ [{| symbols := []; types := []; parent := Some p |}])%list.
Proof.
  intros Hwf Hp env e q He Hq.
  destruct (Nat.lt_ge_cases env (length store)) as [Hlt|Hge].
  - rewrite nth_error_app1 in He by assumption. eapply Hwf; eauto.
  - rewrite nth_error_app2 in He by assumption.
    destruct (env - length store) as [|k] eqn:Hk; simpl in He.
    + injection He as <-. simpl in Hq. injection Hq as <-. lia.
    + destruct k; discriminate.
Qed.

Lemma lookup_steps_app {V} (table : TypeEnvironment -> JsMap V) store more name :
  wellFormed store ->
  forall steps env, env < length store ->
    lookup_steps table steps (store ++ more)%list env name
    = lookup_steps table steps store env name.
Proof.
  intros Hwf. induction steps as [|steps IH]; intros env Hlt; simpl;
    [reflexivity|].
  rewrite nth_error_app1 by assumption.
  destruct (nth_error store env) as [e|] eqn:He; [|reflexivity].
  destruct (map_get (table e) name); [reflexivity|].
  destruct (parent e) as [p|] eqn:Hp; [|reflexivity].
  pose proof (Hwf env e p He Hp). apply IH. lia.
Qed.

(** X13. A new environment starts empty and sees what its parent
    sees: [new TypeEnvironment(parent)] has no local binding, [lookup]
    from it gives what [lookup] from the parent gives, the lookups from
    the environments that existed are unchanged, and the store stays
    well formed. *)
Theorem new_environment_inherits (s : TypeChecker) (p : nat) (name : string) :
  wellFormed (envs s) -> p < length (envs s) ->
  let env := fst (newTypeEnvironment p s) in
  let s' := snd (newTypeEnvironment p s) in
  store_hasLocal (envs s') env name = false
  /\ store_lookup (envs s') env name = store_lookup (envs s) p name
  /\ (forall env', env' < length (envs s) ->
        store_lookup (envs s') env' name = store_lookup (envs s) env' name)
  /\ wellFormed (envs s').
Proof.
  intros Hwf Hp env s'.
  assert (Hwf' : wellFormed (envs s')) by now apply wellFormed_new.
  assert (Hold : forall env', env' < length (envs s) ->
            store_lookup (envs s') env' name = store_lookup (envs s) env' name).
  { intros env' Hlt. unfold store_lookup. now apply lookup_steps_app. }
  assert (Hnew : nth_error (envs s') env
                 = Some {| symbols := []; types := []; parent := Some p |}).
  { subst env s'. simpl. rewrite nth_error_app2 by lia.
    now rewrite Nat.sub_diag. }
  split; [|split; [|split]]; try assumption.
  - unfold store_hasLocal. now rewrite Hnew.
  - rewrite store_lookup_unfold by assumption. rewrite Hnew. simpl.
    now apply Hold.
Qed.

Lemma wellFormed_define store env name entry :
  wellFormed store -> wellFormed (store_define store env name entry).
Proof.
  intros Hwf env' e p He Hp. unfold store_define in He.
  destruct (Nat.eq_dec env' env) as [->|Hne].
  - rewrite update_same in He.
    destruct (nth_error store env) as [e0|] eqn:He0; [|discriminate].
    simpl in He. injection He as <-. simpl in Hp. eapply Hwf; eauto.
  - rewrite update_other in He by assumption. eapply Hwf; eauto.
Qed.

Lemma lookup_steps_below {V} (table : TypeEnvironment -> JsMap V) store store'
    name bound :
  wellFormed store ->
  (forall env, env < bound -> nth_error store' env = nth_error store env) ->
  forall steps env, env < bound ->
    lookup_steps table steps store' env name
    = lookup_steps table steps store env name.
Proof.
  intros Hwf Hsame. induction steps as [|steps IH]; intros env Hlt; simpl;
    [reflexivity|].
  rewrite Hsame by assumption.
  destruct (nth_error store env) as [e|] eqn:He; [|reflexivity].
  destruct (map_get (table e) name); [reflexivity|].
  destruct (parent e) as [p|] eqn:Hp; [|reflexivity].
  pose proof (Hwf env e p He Hp). apply IH. lia.
Qed.

(** X14. A definition in an inner environment is not seen from the
    outside: in a well-formed store, [define] in [env] changes no
    [lookup] from an environment created before [env], whatever the
    name. *)
Theorem inner_definition_invisible_outside (store : Store) (env outer : nat)
    (name name' : string) (entry : SymbolEntry) :
  wellFormed store -> outer < env ->
  store_lookup (store_define store env name entry) outer name'
  = store_lookup store outer name'.
Proof.
  intros Hwf Hlt. unfold store_lookup.
  apply (lookup_steps_below symbols store _ name' env Hwf); [|assumption].
  intros env' Hlt'. unfold store_define. apply update_other. lia.
Qed.

(** ** Declarations *)

(** The entry that [checkVariableDeclaration] writes for [decl] when it
    is checked in [s]: the annotated type if there is an annotation,
    otherwise the type of the initializer, otherwise [any]. *)
Definition declaredEntry (decl : VariableDecl Expression) (s : TypeChecker)
    : SymbolEntry :=
  let declaredType := fst (whenSome (vd_typeAnnotation decl) resolveTypeNode s) in
  let s0 := snd (whenSome (vd_typeAnnotation decl) resolveTypeNode s) in
  let inferredType := fst (whenSome (vd_initializer decl) checkExpression s0) in
  Entry
    match declaredType, inferredType with
    | Some declaredType, _ => declaredType
    | None, Some inferredType => inferredType
    | None, None => createAnyType
    end
    Kvariable
    (Some match vd_varKind decl with VarConst => false | _ => true end).

(** X15. A variable declaration whose name is not bound in the current
    environment binds it there: afterwards a lookup of the name yields a
    variable entry with the annotated type (also when the initializer is
    not assignable to it), else the initializer's type, else [any],
    mutable unless declared with [const]; the bindings the environment
    had are kept. *)
Theorem declaration_binds_name
    (decl : VariableDecl Expression) (s : TypeChecker)
    (scope : TypeEnvironment) :
  nth_error (envs s) (currentEnv s) = Some scope ->
  map_get (symbols scope) (vd_name decl) = None ->
  let s1 := snd (checkStatement (VariableDeclaration decl) s) in
  currentEnv s1 = currentEnv s
  /\ store_lookup (envs s1) (currentEnv s1) (vd_name decl)
     = Some (declaredEntry decl s)
  /\ (forall name entry,
        map_get (symbols scope) name = Some entry ->
        store_lookup (envs s1) (currentEnv s1) name = Some entry).
Proof.
  intros Hs Hm s1. subst s1. unfold declaredEntry.
  cbn [checkStatement checkStatement_body].
  unfold checkVariableDeclaration.
  set (prefix :=
         bind (whenSome (vd_typeAnnotation decl) resolveTypeNode)
           (fun declaredType =>
              bind (whenSome (vd_initializer decl) checkExpression)
                (fun inferredType =>
                   bind
                     match declaredType, inferredType with
                     | Some declaredType, Some inferredType =>
                         bind
                           (when (negb (isAssignable inferredType declaredType))
                              (addError
                                 (notAssignableMessage inferredType declaredType)
                                 (vd_line decl)))
                           (fun _ => ret declaredType)
                     | Some declaredType, None => ret declaredType
                     | None, Some inferredType => ret inferredType
                     | None, None => ret createAnyType
                     end
                     (fun finalType => ret finalType)))).
  assert (Hp : Safe pure prefix).
  { unfold prefix. safe. apply checkExpression_pure. }
  destruct (pure_current prefix s scope Hp Hs) as (_ & F & U).
  assert (T : fst (prefix s)
              = match fst (whenSome (vd_typeAnnotation decl) resolveTypeNode s),
                      fst (whenSome (vd_initializer decl) checkExpression
                             (snd (whenSome (vd_typeAnnotation decl)
                                     resolveTypeNode s))) with
                | Some declaredType, _ => declaredType
                | None, Some inferredType => inferredType
                | None, None => createAnyType
                end).
  { unfold prefix, bind.
    destruct (whenSome (vd_typeAnnotation decl) resolveTypeNode s)
      as [declaredType sa].
    cbn [fst snd].
    destruct (whenSome (vd_initializer decl) checkExpression sa)
      as [inferredType sb].
    cbn [fst snd].
    destruct declaredType, inferredType; cbn [ret fst]; try reflexivity.
    destruct (when _ _ sb). reflexivity. }
  cbv zeta. rewrite <- T. clear T.
  unfold prefix in F, U |- *. clear Hp prefix.
  unfold bind in *. cbv beta in *.
  destruct (whenSome (vd_typeAnnotation decl) resolveTypeNode s)
    as [declaredType sa].
  destruct (whenSome (vd_initializer decl) checkExpression sa)
    as [inferredType sb].
  match goal with
  | H : context [let (_, _) := ?m sb in _] |- _ =>
      destruct (m sb) as [finalType sc]
  end.
  cbn [ret fst snd] in *.
  unfold hasLocalCurrent, hasLocal, get, bind. cbv beta iota.
  unfold store_hasLocal. rewrite F, U. unfold map_has. rewrite Hm.
  unfold defineCurrent, define, get, bind, setEnvs. cbv beta iota.
  cbn [snd errors currentEnv envs].
  split; [exact F|]. rewrite F.
  assert (N : nth_error
                (store_define (envs sc) (currentEnv s) (vd_name decl)
                   (Entry finalType Kvariable
                      (Some match vd_varKind decl with
                            | VarConst => false
                            | _ => true
                            end)))
                (currentEnv s)
              = Some {| symbols :=
                          map_set (symbols scope) (vd_name decl)
                            (Entry finalType Kvariable
                               (Some match vd_varKind decl with
                                     | VarConst => false
                                     | _ => true
                                     end));
                        types := types scope; parent := parent scope |}).
  { unfold store_define. now rewrite update_same, U. }
  split.
  - eapply store_lookup_local; [exact N|]. simpl. apply map_get_set_same.
  - intros name entry Hn. eapply store_lookup_local; [exact N|]. simpl.
    rewrite map_get_set_other; [exact Hn|].
    apply String.eqb_neq. intros E. rewrite <- E in Hn. congruence.
Qed.

(** ** Scopes of statements *)

Lemma list_all_total {A} (P : A -> Prop) l : (forall a, P a) -> list_all P l.
Proof. intros H. induction l; constructor; auto. Qed.

Lemma list_all_total_nested {A} (P : A -> Type) l :
  (forall a, P a) -> list_all P l.
Proof. intros H. induction l; constructor; auto. Qed.

Lemma option_all_total {A} (P : A -> Prop) o : (forall a, P a) -> option_all P o.
Proof. intros H. destruct o; constructor; auto. Qed.

Lemma option_all_total_nested {A} (P : A -> Type) o :
  (forall a, P a) -> option_all P o.
Proof. intros H. destruct o; constructor; auto. Qed.

Lemma statements_all l : list_all PS l.
Proof. apply list_all_total. exact checkStatement_stable. Qed.

Lemma expression_option_all o : option_all PE o.
Proof. apply option_all_total. exact (checkExpression_pure pure). Qed.

Lemma Parameter_all_total p : Parameter__all PE p.
Proof. destruct p. constructor. apply expression_option_all. Qed.

Lemma VariableDecl_all_total decl : VariableDecl_all PE decl.
Proof. destruct decl. constructor. apply expression_option_all. Qed.

Lemma ClassMember_all_total member : ClassMember_all PE PS member.
Proof.
  destruct member; constructor;
    try apply expression_option_all; try apply statements_all;
    try apply Parameter_all_total.
  - apply list_all_total_nested, Parameter_all_total.
  - apply option_all_total_nested, statements_all.
  - apply list_all_total_nested, Parameter_all_total.
Qed.

(** The statements that are checked in the environment of the
    statement before them: a variable declaration, and the statements
    whose parts [checkStatement] checks without opening an
    environment. *)
Definition checkedInPlace (stmt : Statement) : bool :=
  match stmt with
  | VariableDeclaration _ | IfStatement _ _ _ _ | WhileStatement _ _ _
  | DoWhileStatement _ _ _ | SwitchStatement _ _ _ => true
  | _ => false
  end.

Lemma scoped_statement_pure stmt :
  checkedInPlace stmt = false -> Safe pure (checkStatement stmt).
Proof.
  pose proof (checkExpression_pure pure) as HE.
  destruct stmt; try discriminate; intros _;
    cbn [checkStatement checkStatement_body]; try solve [safe].
  - apply Safe_checkFunctionDeclaration, statements_all.
  - apply Safe_checkClassDeclaration.
    apply list_all_total_nested, ClassMember_all_total.
  - apply Safe_checkEnumDeclaration. apply list_all_total_nested.
    intros []. constructor. apply expression_option_all.
  - apply Safe_checkReturnStatement, expression_option_all.
  - apply Safe_checkForStatement;
      try apply expression_option_all; try apply checkStatement_stable.
    apply option_all_total_nested. intros [decl|e]; constructor;
      [apply VariableDecl_all_total | apply HE].
  - apply Safe_checkForOfStatement; [apply HE | apply checkStatement_stable].
  - apply Safe_checkForInStatement; [apply HE | apply checkStatement_stable].
  - apply Safe_checkTryStatement; [apply statements_all | |].
    + apply option_all_total_nested. intros []. constructor;
        [|apply statements_all].
      apply option_all_total_nested, Parameter_all_total.
    + apply option_all_total_nested, statements_all.
  - apply Safe_checkBlockStatement, statements_all.
Qed.

(** X16. What a statement declares stays inside it, unless the
    statement is a variable declaration or an [if], [while], [do] or
    [switch] statement: after checking a block, a [for], [for-of] or
    [for-in] loop, a [try] statement, a function or class declaration, or
    any other statement, the current environment, the expected return
    type and the loop flag are as before, and so is every environment
    that existed. *)
Theorem statement_scopes_are_local (stmt : Statement) (s : TypeChecker) :
  checkedInPlace stmt = false ->
  let s' := snd (checkStatement stmt s) in
  currentEnv s' = currentEnv s
  /\ currentReturnType s' = currentReturnType s
  /\ inLoop s' = inLoop s
  /\ (forall env, env < length (envs s) ->
        nth_error (envs s') env = nth_error (envs s) env).
Proof.
  intros Hstmt s'.
  destruct (scoped_statement_pure stmt Hstmt (length (envs s)) (length (envs s))
              s (Nat.le_refl _) (Nat.le_refl _))
    as [(_ & _ & U) (F1 & F2 & F3)].
  fold s' in U, F1, F2, F3.
  split; [exact F1 | split; [exact F2 | split; [exact F3|]]].
  intros env Hlt. destruct (U env Hlt) as [U' _]. apply U'. lia.
Qed.

(** ** Module declarations *)

Definition isModuleDeclaration (stmt : Statement) : bool :=
  match stmt with
  | ImportDeclaration _ _ _ | ExportDeclaration _ _ _ _ _ => true
  | _ => false
  end.

Definition withoutModuleDeclarations (program : Program) : Program :=
  {| statements :=
       filter (fun stmt => negb (isModuleDeclaration stmt))
         (statements program) |}.

Lemma forEach_filter {A} (f : A -> M unit) (keep : A -> bool) l :
  (forall x, keep x = false -> f x = ret tt) ->
  forEach f (filter keep l) = forEach f l.
Proof.
  intros H. induction l as [|x l IH]; simpl; [reflexivity|].
  destruct (keep x) eqn:E; simpl.
  - now rewrite IH.
  - rewrite IH, (H x E). reflexivity.
Qed.

(** X17. Import and export declarations are invisible to the checker:
    no pass of [check] looks at them or at the declaration an [export]
    carries, so a program gets the diagnostics of the program without
    them. *)
Theorem module_declarations_are_not_checked (program : Program) :
  (forall s, check (withoutModuleDeclarations program) s = check program s)
  /\ typeCheck (withoutModuleDeclarations program) = typeCheck program.
Proof.
  assert (H : check (withoutModuleDeclarations program) = check program).
  { unfold check, registrationPasses, withoutModuleDeclarations.
    cbn [statements].
    rewrite !forEach_filter; [reflexivity|..];
      intros [] E; try discriminate; reflexivity. }
  split; [intros s|unfold typeCheck]; now rewrite H.
Qed.

(** ** Function declarations are registered before anything is checked *)

(** The store does not shrink. *)
Definition keepsStore {A} (m : M A) : Prop :=
  forall s, length (envs s) <= length (envs (snd (m s))).

Lemma keepsStore_Safe {A} (m : M A) : Safe pure m -> keepsStore m.
Proof.
  intros H s. destruct (H 0 0 s (Nat.le_0_l _) (Nat.le_0_l _)) as [(_ & L & _) _].
  exact L.
Qed.

Lemma keepsStore_ret {A} (a : A) : keepsStore (ret a).
Proof. intros s. simpl. lia. Qed.

Lemma keepsStore_bind {A B} (m : M A) (k : A -> M B) :
  keepsStore m -> (forall a, keepsStore (k a)) -> keepsStore (bind m k).
Proof.
  intros Hm Hk s. unfold bind. specialize (Hm s).
  destruct (m s) as [a s1]. simpl in Hm. specialize (Hk a s1). lia.
Qed.

Lemma keepsStore_forEach {A} (f : A -> M unit) l :
  (forall x, keepsStore (f x)) -> keepsStore (forEach f l).
Proof.
  intros H. induction l as [|x l IH]; simpl.
  - apply keepsStore_ret.
  - apply keepsStore_bind; [apply H | intro; exact IH].
Qed.

Lemma keepsStore_define env name entry : keepsStore (define env name entry).
Proof. intros s. simpl. unfold store_define. rewrite update_length. lia. Qed.

Lemma keepsStore_defineType env name type : keepsStore (defineType env name type).
Proof. intros s. simpl. unfold store_defineType. rewrite update_length. lia. Qed.

Lemma keepsStore_registerClassMembers {S}
    (l : list (ClassMember Expression S)) : forall members staticMembers,
  keepsStore (registerClassMembers l members staticMembers).
Proof.
  induction l as [|member l IH]; intros members staticMembers; simpl.
  - apply keepsStore_ret.
  - destruct member; try apply IH.
    + apply keepsStore_bind;
        [apply keepsStore_Safe, Safe_resolveAnnotation|intro].
      destruct isStatic; apply IH.
    + apply keepsStore_bind;
        [apply keepsStore_Safe, Safe_resolveParameters|intro].
      apply keepsStore_bind.
      * destruct returnType;
          [apply keepsStore_Safe, Safe_resolveTypeNode | apply keepsStore_ret].
      * intro. destruct isStatic; apply IH.
Qed.

Lemma keepsStore_registerInterfaceType name members :
  keepsStore (registerInterfaceType name members).
Proof.
  unfold registerInterfaceType. apply keepsStore_bind.
  - generalize (@nil (string * MemberInfo TypeValue)).
    induction members as [|member l IH]; intros acc.
    + apply keepsStore_ret.
    + apply keepsStore_bind;
        [apply keepsStore_Safe, Safe_resolveTypeNode | intro; apply IH].
  - intro. apply keepsStore_bind; [apply keepsStore_Safe, Safe_get|intro].
    apply keepsStore_bind; [apply keepsStore_define|intro].
    apply keepsStore_defineType.
Qed.

Lemma keepsStore_registerClassType {S} name superClass
    (members : list (ClassMember Expression S)) :
  keepsStore (registerClassType name superClass members).
Proof.
  unfold registerClassType.
  apply keepsStore_bind; [apply keepsStore_Safe, Safe_get|intro g].
  apply keepsStore_bind.
  - destruct superClass as [[]|]; try apply keepsStore_ret.
    apply keepsStore_bind; [apply keepsStore_Safe, Safe_lookup|intro].
    destruct (option_map entry_type a) as [[]|]; apply keepsStore_ret.
  - intro. apply keepsStore_bind;
      [apply keepsStore_registerClassMembers|intro].
    apply keepsStore_bind; [apply keepsStore_define|intro].
    apply keepsStore_defineType.
Qed.

Lemma keepsStore_registerFunctionType {E} name
    (parameters : list (Parameter_ E)) returnType :
  keepsStore (registerFunctionType name parameters returnType).
Proof.
  unfold registerFunctionType.
  apply keepsStore_bind; [apply keepsStore_Safe, Safe_resolveParameters|intro].
  apply keepsStore_bind.
  - destruct returnType;
      [apply keepsStore_Safe, Safe_resolveTypeNode | apply keepsStore_ret].
  - intro. apply keepsStore_bind; [apply keepsStore_Safe, Safe_get|intro].
    apply keepsStore_define.
Qed.

(** The fourth pass, on one statement. *)
Definition registerFunction (stmt : Statement) : M unit :=
  match stmt with
  | FunctionDeclaration name parameters returnType _ _ _ _ =>
      registerFunctionType name parameters returnType
  | _ => ret tt
  end.

Definition declaresFunction (name : string) (stmt : Statement) : bool :=
  match stmt with
  | FunctionDeclaration name' _ _ _ _ _ _ => name' =? name
  | _ => false
  end.

Lemma resolveParameters_names {E} keepOptional (parameters : list (Parameter_ E)) :
  forall s,
    map (@param_name TypeValue) (fst (resolveParameters keepOptional parameters s))
    = map (@p_name _ E) parameters.
Proof.
  unfold resolveParameters.
  induction parameters as [|p l IH]; intros s; simpl; [reflexivity|].
  unfold bind at 1 2.
  destruct (resolveAnnotation (p_typeAnnotation p) s) as [t s1].
  cbn [ret]. unfold bind.
  specialize (IH s1).
  destruct (mapM _ l s1) as [ys s2]. cbn [fst ret] in *.
  simpl. now rewrite IH.
Qed.

(** A local binding of the global environment. *)
Definition globalBinding (s : TypeChecker) (name : string)
    : option SymbolEntry :=
  match nth_error (envs s) 0 with
  | Some e => map_get (symbols e) name
  | None => None
  end.

Lemma store_lookup_global s name :
  store_lookup (envs s) 0 name = globalBinding s name.
Proof.
  unfold store_lookup, globalBinding. cbn [lookup_steps].
  destruct (nth_error (envs s) 0) as [e|]; [|reflexivity].
  destruct (map_get (symbols e) name); [reflexivity|].
  destruct (parent e); reflexivity.
Qed.

(** A pure method leaves the global environment as it is. *)
Lemma pure_global {A} (m : M A) s :
  Safe pure m -> 0 < length (envs s) ->
  nth_error (envs (snd (m s))) 0 = nth_error (envs s) 0.
Proof.
  intros Hm Hlt.
  destruct (Hm (length (envs s)) (length (envs s)) s (Nat.le_refl _)
              (Nat.le_refl _)) as [(_ & _ & U) _].
  destruct (U 0 Hlt) as [U' _]. apply U'. lia.
Qed.

Lemma registerFunctionType_global {E} name (parameters : list (Parameter_ E))
    returnType s :
  0 < length (envs s) ->
  let s' := snd (registerFunctionType name parameters returnType s) in
  (exists ps r,
      globalBinding s' name = Some (FunctionEntry ps r)
      /\ map (@param_name TypeValue) ps = map (@p_name _ E) parameters
      /\ (returnType = None -> r = createVoidType))
  /\ (forall name', name' <> name ->
        globalBinding s' name' = globalBinding s name').
Proof.
  intros Hlt s'. subst s'. unfold registerFunctionType.
  set (prefix :=
         bind (resolveParameters true parameters)
           (fun params =>
              bind match returnType with
                   | Some r => resolveTypeNode r
                   | None => ret createVoidType
                   end
                (fun r => ret (params, r)))).
  assert (Hp : Safe pure prefix).
  { unfold prefix. safe. }
  pose proof (pure_global prefix s Hp Hlt) as G.
  assert (N : map (@param_name TypeValue) (fst (fst (prefix s)))
              = map (@p_name _ E) parameters
              /\ (returnType = None -> snd (fst (prefix s)) = createVoidType)).
  { unfold prefix, bind.
    pose proof (resolveParameters_names true parameters s) as Hn.
    destruct (resolveParameters true parameters s) as [params s1].
    cbn [fst] in Hn.
    destruct returnType as [r|].
    - destruct (resolveTypeNode r s1) as [t s2]. cbn [ret fst snd].
      split; [exact Hn | discriminate].
    - cbn [ret fst snd]. split; [exact Hn | reflexivity]. }
  unfold prefix in G, N. clear Hp prefix. unfold bind in *. cbv beta in *.
  destruct (resolveParameters true parameters s) as [params s1].
  match goal with
  | H : context [let (_, _) := ?m s1 in _] |- _ =>
      destruct (m s1) as [r s2]
  end.
  cbn [ret fst snd] in *. destruct N as [N1 N2].
  unfold get, define, setEnvs, globalEnv, globalBinding. cbv beta iota.
  cbn [snd envs]. unfold store_define. rewrite update_same, G.
  destruct (nth_error (envs s) 0) as [e|] eqn:He;
    [|apply nth_error_None in He; lia].
  simpl. split.
  - exists params, r. rewrite map_get_set_same. auto.
  - intros name' Hne. apply map_get_set_other. apply String.eqb_neq. congruence.
Qed.

Lemma registerFunction_other name stmt s :
  0 < length (envs s) -> declaresFunction name stmt = false ->
  globalBinding (snd (registerFunction stmt s)) name = globalBinding s name.
Proof.
  intros Hlt Hd. destruct stmt; try reflexivity. simpl in Hd.
  apply String.eqb_neq in Hd.
  destruct (registerFunctionType_global name0 parameters returnType s Hlt)
    as [_ H].
  apply H. congruence.
Qed.

Lemma keepsStore_registerFunction stmt : keepsStore (registerFunction stmt).
Proof.
  destruct stmt; try apply keepsStore_ret.
  apply keepsStore_registerFunctionType.
Qed.

Lemma registerFunctions_other name l : forall s,
  0 < length (envs s) -> existsb (declaresFunction name) l = false ->
  globalBinding (snd (forEach registerFunction l s)) name = globalBinding s name.
Proof.
  induction l as [|stmt l IH]; intros s Hlt Hd; simpl; [reflexivity|].
  simpl in Hd. apply orb_false_elim in Hd as [Hd1 Hd2].
  unfold bind. pose proof (keepsStore_registerFunction stmt s) as L.
  pose proof (registerFunction_other name stmt s Hlt Hd1) as G.
  destruct (registerFunction stmt s) as [u s1]. cbn [snd] in *.
  rewrite IH by (assumption || lia). exact G.
Qed.

(** The signature that [registerFunctionType] gives a declaration:
    the names of its parameters and, without an annotation, the return
    type [void]. *)
Definition registeredAs (stmt : Statement) (name : string)
    (ps : list (ParamInfo TypeValue)) (r : TypeValue) : Prop :=
  match stmt with
  | FunctionDeclaration name' parameters returnType _ _ _ _ =>
      name' = name
      /\ map (@param_name TypeValue) ps = map (@p_name _ Expression) parameters
      /\ (returnType = None -> r = createVoidType)
  | _ => False
  end.

Lemma registerFunctions_binds name l : forall s,
  0 < length (envs s) -> existsb (declaresFunction name) l = true ->
  exists stmt ps r,
    In stmt l /\ registeredAs stmt name ps r
    /\ globalBinding (snd (forEach registerFunction l s)) name
       = Some (FunctionEntry ps r).
Proof.
  induction l as [|stmt l IH]; intros s Hlt Hd; simpl in *; [discriminate|].
  unfold bind. pose proof (keepsStore_registerFunction stmt s) as L.
  destruct (existsb (declaresFunction name) l) eqn:Hl.
  - destruct (registerFunction stmt s) as [u s1] eqn:E1. cbn [snd] in *.
    destruct (IH s1) as (stmt' & ps & r & Hin & Hr & Hg);
      [lia | reflexivity |].
    exists stmt', ps, r. auto.
  - rewrite orb_false_r in Hd.
    destruct stmt; try discriminate. simpl in Hd.
    apply String.eqb_eq in Hd. subst name0.
    destruct (registerFunctionType_global name parameters returnType s Hlt)
      as [(ps & r & Hg & Hn & Hv) _].
    eexists. exists ps, r.
    split; [left; reflexivity|]. split; [simpl; auto|].
    cbn [registerFunction] in *.
    destruct (registerFunctionType name parameters returnType s) as [u s1].
    cbn [snd] in *. rewrite registerFunctions_other by (assumption || lia).
    exact Hg.
Qed.

Lemma keepsStore_registrationPasses_before_functions (l : list Statement) :
  keepsStore
    (bind
       (forEach (fun stmt =>
                   match stmt with
                   | TypeAliasDeclaration name type _ => registerTypeAlias name type
                   | EnumDeclaration name members _ _ => registerEnumType name members
                   | _ => ret tt
                   end) l)
       (fun _ =>
          bind
            (forEach (fun stmt =>
                        match stmt with
                        | InterfaceDeclaration name members _ =>
                            registerInterfaceType name members
                        | _ => ret tt
                        end) l)
            (fun _ =>
               forEach (fun stmt =>
                          match stmt with
                          | ClassDeclaration name superClass members _ _ =>
                              registerClassType name superClass members
                          | _ => ret tt
                          end) l))).
Proof.
  apply keepsStore_bind; [|intro; apply keepsStore_bind; [|intro]];
    apply keepsStore_forEach; intros []; try apply keepsStore_ret.
  - unfold registerTypeAlias.
    apply keepsStore_bind; [apply keepsStore_Safe, Safe_resolveTypeNode|intro].
    apply keepsStore_bind; [apply keepsStore_Safe, Safe_get|intro].
    apply keepsStore_defineType.
  - unfold registerEnumType. cbv zeta.
    apply keepsStore_bind; [apply keepsStore_Safe, Safe_get|intro].
    apply keepsStore_bind; [apply keepsStore_define|intro].
    apply keepsStore_defineType.
  - apply keepsStore_registerInterfaceType.
  - apply keepsStore_registerClassType.
Qed.

(** X18. Function declarations are hoisted.  After the registration
    passes of [check], the name of every function declaration of the
    program is bound in the global environment to a function entry
    whose signature is that of a declaration of this name in the
    program (the last one): its parameter names, and the return type
    [void] where none is annotated.  The binding is still there after
    any statements are checked, so a call may precede the
    declaration. *)
Theorem function_declarations_are_hoisted
    (program : list Statement) (name : string) (s : TypeChecker) :
  0 < length (envs s) ->
  existsb (declaresFunction name) program = true ->
  let registered := snd (registrationPasses program s) in
  exists stmt ps r,
    In stmt program /\ registeredAs stmt name ps r
    /\ store_lookup (envs registered) 0 name = Some (FunctionEntry ps r)
    /\ forall checked,
         store_lookup (envs (snd (forEach checkStatement checked registered)))
           0 name
         = Some (FunctionEntry ps r).
Proof.
  intros Hlt Hd registered.
  assert (Hsplit : forall (p1 p2 p3 p4 : M unit) s0,
            snd (bind p1 (fun _ => bind p2 (fun _ => bind p3 (fun _ => p4))) s0)
            = snd (p4 (snd (bind p1 (fun _ => bind p2 (fun _ => p3)) s0)))).
  { intros p1 p2 p3 p4 s0. unfold bind.
    destruct (p1 s0) as [u1 s1], (p2 s1) as [u2 s2], (p3 s2) as [u3 s3].
    reflexivity. }
  pose proof (keepsStore_registrationPasses_before_functions program s) as L.
  unfold registrationPasses in registered. subst registered.
  rewrite Hsplit.
  match type of L with
  | _ <= length (envs ?before) => set (s3 := before) in *
  end.
  destruct (registerFunctions_binds name program s3)
    as (stmt & ps & r & Hin & Hr & Hg); [lia | exact Hd |].
  exists stmt, ps, r.
  split; [exact Hin | split; [exact Hr|]].
  change (forEach
            (fun stmt0 : Statement =>
               match stmt0 with
               | FunctionDeclaration name0 parameters returnType _ _ _ _ =>
                   registerFunctionType name0 parameters returnType
               | _ => ret tt
               end) program)
    with (forEach registerFunction program).
  set (s4 := snd (forEach registerFunction program s3)) in *.
  split; [now rewrite store_lookup_global|].
  intros checked. rewrite store_lookup_global.
  unfold globalBinding in Hg.
  destruct (nth_error (envs s4) 0) as [e|] eqn:He; [|discriminate].
  assert (Hlt4 : 1 <= length (envs s4)).
  { apply Nat.le_succ_l, nth_error_Some. congruence. }
  destruct (Safe_statements checked 1 (currentEnv s4) s4 Hlt4
              (or_introl eq_refl)) as [(_ & _ & I) _].
  destruct (I 0 (Nat.lt_0_1)) as [_ X].
  destruct (X e He) as (e' & He' & Hx & _).
  unfold globalBinding. rewrite He'. now apply Hx.
Qed.
(** ** Classes inherit the members of their superclass *)

Lemma entries_from_keys {V} (m : JsMap V) : forall seen,
  NoDup (map fst (entries_from seen m)).
Proof.
  induction m as [|[k v] r IH]; intros seen; simpl; [constructor|].
  destruct (existsb (String.eqb k) seen) eqn:Hseen; [apply IH|].
  simpl. constructor; [|apply IH].
  intros Hin. apply in_map_iff in Hin as ([k' v'] & E & Hin). simpl in E.
  subst k'. apply Assignability.entries_from_In in Hin as (_ & Hk & _).
  simpl in Hk. now rewrite String.eqb_refl in Hk.
Qed.

Lemma copy_entries_get {V} (entries : list (string * V)) k : forall to,
  NoDup (map fst entries) ->
  map_get
    (fold_left (fun to entry => map_set to (fst entry) (snd entry)) entries to) k
  = match find (fun entry => fst entry =? k) entries with
    | Some entry => Some (snd entry)
    | None => map_get to k
    end.
Proof.
  induction entries as [|[k' v'] r IH]; intros to Hnd; simpl; [reflexivity|].
  inversion Hnd as [|? ? Hnot Hnd']; subst. rewrite IH by assumption.
  destruct (k' =? k) eqn:E.
  - apply String.eqb_eq in E. subst k'.
    destruct (find (fun entry => fst entry =? k) r) as [[k2 v2]|] eqn:F.
    + apply find_some in F as [Hin E]. simpl in E. apply String.eqb_eq in E.
      subst k2. exfalso. apply Hnot. apply in_map_iff. now exists (k, v2).
    + apply map_get_set_same.
  - destruct (find (fun entry => fst entry =? k) r); [reflexivity|].
    now apply map_get_set_other.
Qed.

(** [copyEntries] into an empty map copies the map. *)
Lemma copyEntries_get {V} (from : JsMap V) k :
  map_get (copyEntries from []) k = map_get from k.
Proof.
  unfold copyEntries. rewrite copy_entries_get by apply entries_from_keys.
  destruct (find (fun entry => fst entry =? k) (map_entries from))
    as [[k' v]|] eqn:F.
  - apply find_some in F as [Hin E]. simpl in E. apply String.eqb_eq in E.
    subst k'. apply Assignability.map_entries_iff in Hin. now rewrite Hin.
  - simpl. destruct (map_get from k) as [v|] eqn:G; [|reflexivity].
    apply Assignability.map_entries_iff in G.
    apply (find_none _ _ F) in G. simpl in G.
    now rewrite String.eqb_refl in G.
Qed.

(** A property or method named [k] on the instance side
    ([static = false]) or on the static side. *)
Definition declaresMember {E S} (static : bool) (k : string)
    (member : ClassMember E S) : bool :=
  match member with
  | PropertyDeclaration name _ _ _ isStatic =>
      (name =? k) && Bool.eqb isStatic static
  | MethodDeclaration name _ _ _ _ isStatic _ =>
      (name =? k) && Bool.eqb isStatic static
  | _ => false
  end.

Lemma map_set_keeps {V} (m : JsMap V) name v k w :
  map_get m k = Some w ->
  exists w', map_get (map_set m name v) k = Some w'
             /\ ((name =? k) = false -> w' = w).
Proof.
  intros H. destruct (name =? k) eqn:E.
  - apply String.eqb_eq in E. subst name. exists v.
    split; [apply map_get_set_same | discriminate].
  - exists w. split; [now rewrite map_get_set_other | reflexivity].
Qed.

Lemma registerClassMembers_keeps {S} (l : list (ClassMember Expression S)) :
  forall members staticMembers s,
    let r := fst (registerClassMembers l members staticMembers s) in
    (forall k v, map_get members k = Some v ->
       exists v', map_get (fst r) k = Some v'
                  /\ (existsb (declaresMember false k) l = false -> v' = v))
    /\ (forall k v, map_get staticMembers k = Some v ->
          exists v', map_get (snd r) k = Some v'
                     /\ (existsb (declaresMember true k) l = false -> v' = v)).
Proof.
  induction l as [|member l IH]; intros members staticMembers s; cbv zeta.
  - simpl. split; intros k v H; exists v; auto.
  - assert (Hskip : forall s',
              (forall k v, map_get members k = Some v ->
                 exists v',
                   map_get (fst (fst (registerClassMembers l members
                                        staticMembers s'))) k = Some v'
                   /\ (existsb (declaresMember false k) l = false -> v' = v))
              /\ (forall k v, map_get staticMembers k = Some v ->
                    exists v',
                      map_get (snd (fst (registerClassMembers l members
                                           staticMembers s'))) k = Some v'
                      /\ (existsb (declaresMember true k) l = false -> v' = v))).
    { intros s'. apply IH. }
    assert (Hstatic : forall name t s',
              (forall k v, map_get members k = Some v ->
                 exists v',
                   map_get (fst (fst (registerClassMembers l members
                                        (map_set staticMembers name t) s'))) k
                   = Some v'
                   /\ (existsb (declaresMember false k) l = false -> v' = v))
              /\ (forall k v, map_get staticMembers k = Some v ->
                    exists v',
                      map_get (snd (fst (registerClassMembers l members
                                           (map_set staticMembers name t) s'))) k
                      = Some v'
                      /\ ((name =? k) && true
                          || existsb (declaresMember true k) l = false
                          -> v' = v))).
    { intros name t s'.
      destruct (IH members (map_set staticMembers name t) s') as [H1 H2].
      split; [exact H1|]. intros k v Hk.
      destruct (map_set_keeps staticMembers name t k v Hk) as (w & Hw & Ew).
      destruct (H2 k w Hw) as (v' & Hv' & Ev').
      exists v'. split; [exact Hv'|]. intros Hd.
      apply orb_false_elim in Hd as [Hd1 Hd2]. rewrite andb_true_r in Hd1.
      rewrite Ev', Ew; auto. }
    assert (Hinstance : forall name t s',
              (forall k v, map_get members k = Some v ->
                 exists v',
                   map_get (fst (fst (registerClassMembers l
                                        (map_set members name t)
                                        staticMembers s'))) k
                   = Some v'
                   /\ ((name =? k) && true
                       || existsb (declaresMember false k) l = false
                       -> v' = v))
              /\ (forall k v, map_get staticMembers k = Some v ->
                    exists v',
                      map_get (snd (fst (registerClassMembers l
                                           (map_set members name t)
                                           staticMembers s'))) k
                      = Some v'
                      /\ (existsb (declaresMember true k) l = false -> v' = v))).
    { intros name t s'.
      destruct (IH (map_set members name t) staticMembers s') as [H1 H2].
      split; [|exact H2]. intros k v Hk.
      destruct (map_set_keeps members name t k v Hk) as (w & Hw & Ew).
      destruct (H1 k w Hw) as (v' & Hv' & Ev').
      exists v'. split; [exact Hv'|]. intros Hd.
      apply orb_false_elim in Hd as [Hd1 Hd2]. rewrite andb_true_r in Hd1.
      rewrite Ev', Ew; auto. }
    destruct member; cbn [registerClassMembers existsb declaresMember orb];
      try apply Hskip.
    + unfold bind. destruct (resolveAnnotation typeAnnotation s) as [t s1].
      destruct isStatic; cbn [Bool.eqb].
      * destruct (Hstatic name t s1) as [H1 H2]. split; [|exact H2].
        intros k v Hk. destruct (H1 k v Hk) as (v' & Hv' & Ev').
        exists v'. split; [exact Hv'|]. intros Hd. apply Ev'.
        now rewrite andb_false_r in Hd.
      * destruct (Hinstance name
                    {| cmember_type := t;
                       cmember_accessibility := accessibility;
                       cmember_static := false |} s1) as [H1 H2].
        split; [exact H1|].
        intros k v Hk. destruct (H2 k v Hk) as (v' & Hv' & Ev').
        exists v'. split; [exact Hv'|]. intros Hd. apply Ev'.
        now rewrite andb_false_r in Hd.
    + unfold bind. destruct (resolveParameters false parameters s) as [ps s1].
      match goal with
      | |- context [let (_, _) := ?m s1 in _] => destruct (m s1) as [r s2]
      end.
      destruct isStatic; cbn [Bool.eqb].
      * destruct (Hstatic name (FunctionType ps r) s2) as [H1 H2].
        split; [|exact H2].
        intros k v Hk. destruct (H1 k v Hk) as (v' & Hv' & Ev').
        exists v'. split; [exact Hv'|]. intros Hd. apply Ev'.
        now rewrite andb_false_r in Hd.
      * destruct (Hinstance name
                    {| cmember_type := FunctionType ps r;
                       cmember_accessibility := accessibility;
                       cmember_static := false |} s2) as [H1 H2].
        split; [exact H1|].
        intros k v Hk. destruct (H2 k v Hk) as (v' & Hv' & Ev').
        exists v'. split; [exact Hv'|]. intros Hd. apply Ev'.
        now rewrite andb_false_r in Hd.
Qed.

(** X19. A class declared after its superclass inherits the
    superclass's members.  When the global environment binds the name
    after [extends] to a class type, [registerClassType] binds the class
    to a class type that has every instance member and every static
    member of the superclass, with the superclass's entry unless the
    class declares a property or method of that name on the same
    side. *)
Theorem subclass_inherits_members {S}
    (name superName : string) (line : nat)
    (members : list (ClassMember Expression S)) (s : TypeChecker)
    (superEntry : SymbolEntry) (superClassName : string)
    (superMembers : JsMap (ClassMemberInfo TypeValue))
    (superStatic : JsMap TypeValue) :
  store_lookup (envs s) 0 superName = Some superEntry ->
  entry_type superEntry = ClassType superClassName superMembers superStatic ->
  let s' :=
    snd (registerClassType name (Some (Identifier superName line)) members s) in
  exists classMembers classStatic,
    store_lookup (envs s') 0 name
    = Some (Entry (ClassType name classMembers classStatic) Kclass None)
    /\ store_lookupType (envs s') 0 name
       = Some (ClassType name classMembers classStatic)
    /\ (forall k v, map_get superMembers k = Some v ->
          exists v', map_get classMembers k = Some v'
                     /\ (existsb (declaresMember false k) members = false ->
                         v' = v))
    /\ (forall k v, map_get superStatic k = Some v ->
          exists v', map_get classStatic k = Some v'
                     /\ (existsb (declaresMember true k) members = false ->
                         v' = v)).
Proof.
  intros Hsuper Htype s'. subst s'.
  assert (Hlt : 0 < length (envs s)).
  { unfold store_lookup in Hsuper. cbn [lookup_steps] in Hsuper.
    destruct (nth_error (envs s) 0) eqn:E; [|discriminate].
    apply nth_error_Some. congruence. }
  unfold registerClassType, bind, get, lookup, globalEnv. cbv beta iota.
  rewrite Hsuper. cbn [option_map]. rewrite Htype. cbn [ret fst snd].
  pose proof (registerClassMembers_keeps members (copyEntries superMembers [])
                (copyEntries superStatic []) s) as K.
  pose proof (keepsStore_registerClassMembers members
                (copyEntries superMembers []) (copyEntries superStatic []) s)
    as L.
  destruct (registerClassMembers members (copyEntries superMembers [])
              (copyEntries superStatic []) s) as [[cm csm] s1].
  cbn [fst snd] in *. destruct K as [K1 K2].
  exists cm, csm.
  unfold define, defineType, setEnvs. cbn [snd envs].
  destruct (nth_error (envs s1) 0) as [e|] eqn:He;
    [|apply nth_error_None in He; lia].
  assert (N : nth_error
                (store_defineType
                   (store_define (envs s1) 0 name
                      (Entry (ClassType name cm csm) Kclass None))
                   0 name (ClassType name cm csm)) 0
              = Some {| symbols :=
                          map_set (symbols e) name
                            (Entry (ClassType name cm csm) Kclass None);
                        types := map_set (types e) name (ClassType name cm csm);
                        parent := parent e |}).
  { unfold store_defineType, store_define.
    now rewrite !update_same, He. }
  split; [|split; [|split]].
  - eapply store_lookup_local; [exact N|]. apply map_get_set_same.
  - unfold store_lookupType. cbn [lookup_steps]. rewrite N. simpl.
    now rewrite map_get_set_same.
  - intros k v Hk. apply K1. now rewrite copyEntries_get.
  - intros k v Hk. apply K2. now rewrite copyEntries_get.
Qed.

End TypeChecker.
End Checker.

(** * lexer.ts: termination, the token stream, errors

    The lexer is embedded with a bound on the depth of its calls; this
    part shows that the bound is never reached, and reads off what
    [tokenize] returns and raises. *)

Module LexerProperties.
Import Types.
Import Lexer.

(** The characters left to read. *)
Definition left (st : LexerState) : nat := length (lx_rest st).

Definition noEOF (tokens : list Token) : Prop :=
  Forall (fun t => tok_type t <> TokenType.EOF) tokens.

(** [st'] comes from [st] by reading input: nothing is put back, and
    the tokens are the same. *)
Definition reads (st st' : LexerState) : Prop :=
  left st' <= left st /\ lx_tokens st' = lx_tokens st.

(** [st'] comes from [st] by scanning: nothing is put back, and no
    token of type [EOF] is added. *)
Definition scans (strict : bool) (st st' : LexerState) : Prop :=
  (if strict then left st' < left st else left st' <= left st)
  /\ (noEOF (lx_tokens st) -> noEOF (lx_tokens st')).

(** The run ends, in a result that satisfies [P] or in an exception. *)
Definition returns {A} (P : A -> Prop) (r : Outcome LexError A) : Prop :=
  match r with
  | Ok a => P a
  | Throw _ => True
  | Undetermined => False
  end.

Lemma returns_bind {A B} (P : A -> Prop) (Q : B -> Prop) m k :
  returns P m -> (forall a, P a -> returns Q (k a)) -> returns Q (bind m k).
Proof. destruct m; simpl; auto. Qed.

Lemma reads_refl st : reads st st.
Proof. split; auto. Qed.

Lemma reads_trans st1 st2 st3 : reads st1 st2 -> reads st2 st3 -> reads st1 st3.
Proof. unfold reads. intros [] []. split; [lia|congruence]. Qed.

Lemma advance_reads st :
  left (snd (advance st)) = pred (left st)
  /\ lx_tokens (snd (advance st)) = lx_tokens st.
Proof. unfold advance, left. destruct (lx_rest st); simpl; auto. Qed.

Lemma advanceWhile_rest_length p l :
  length (snd (advanceWhile_rest p l)) <= length l
  /\ (forall c r, l = c :: r -> p c = true ->
        length (snd (advanceWhile_rest p l)) < length l).
Proof.
  induction l as [|c r [IH _]]; simpl.
  - split; [lia|]. discriminate.
  - destruct (p c) eqn:E.
    + destruct (advanceWhile_rest p r) as [taken rest]. simpl in *.
      split; [lia|]. intros; lia.
    + simpl. split; [lia|]. intros c' r' [= <- <-] H. congruence.
Qed.

Lemma advanceWhile_reads p value st :
  reads st (snd (advanceWhile p value st))
  /\ (isAtEnd st = false -> p (peek st) = true ->
        left (snd (advanceWhile p value st)) < left st).
Proof.
  unfold advanceWhile, reads, left, isAtEnd, peek.
  pose proof (advanceWhile_rest_length p (lx_rest st)) as [H1 H2].
  destruct (advanceWhile_rest p (lx_rest st)) as [taken rest]. simpl in *.
  split; [auto|]. intros He Hp.
  destruct (lx_rest st) as [|c r]; [discriminate|eapply H2; eauto].
Qed.

Lemma match_reads expected st : reads st (snd (match_ expected st)).
Proof.
  unfold match_. destruct (isAtEnd st || negb (Ascii.eqb (peek st) expected));
    simpl; [apply reads_refl|].
  destruct (advance_reads st). split; [lia|assumption].
Qed.

Lemma noEOF_push type value column st :
  type <> TokenType.EOF ->
  noEOF (lx_tokens st) -> noEOF (lx_tokens (pushToken type value column st)).
Proof.
  intros Ht H. unfold pushToken, noEOF. simpl. apply Forall_app. split; [exact H|].
  constructor; [exact Ht | constructor].
Qed.

Lemma noEOF_pop st : noEOF (lx_tokens st) -> noEOF (lx_tokens (popToken st)).
Proof.
  unfold popToken, noEOF. simpl. generalize (lx_tokens st).
  induction l as [|t l IH]; intros H; [exact H|].
  inversion H; subst. destruct l; [constructor|].
  change (removelast (t :: t0 :: l)) with (t :: removelast (t0 :: l)).
  constructor; auto.
Qed.

Lemma keywordOrIdentifier_not_EOF value :
  keywordOrIdentifier value <> TokenType.EOF.
Proof.
  unfold keywordOrIdentifier.
  destruct (map_get KEYWORDS value) as [type|] eqn:E.
  - apply Assignability.map_get_In in E as [k Hin]. intros ->.
    revert Hin. unfold KEYWORDS. simpl. intuition discriminate.
  - destruct (existsb _ _); discriminate.
Qed.

Lemma scanIdentifier_scans st :
  isAtEnd st = false -> isAlpha (peek st) = true ->
  scans true st (scanIdentifier st).
Proof.
  intros He Ha. unfold scanIdentifier.
  pose proof (advanceWhile_reads isAlphaNumeric "" st) as [[_ Ht] Hs].
  destruct (advanceWhile isAlphaNumeric "" st) as [value st1]. simpl in *.
  split.
  - apply Hs; [assumption|]. unfold isAlphaNumeric. now rewrite Ha.
  - intros H. apply noEOF_push; [apply keywordOrIdentifier_not_EOF|].
    now rewrite Ht.
Qed.


Lemma left_push type value column st :
  left (pushToken type value column st) = left st.
Proof. reflexivity. Qed.

Lemma left_pop st : left (popToken st) = left st.
Proof. reflexivity. Qed.

Lemma left_setLineColumn line column st :
  left (setLineColumn line column st) = left st.
Proof. reflexivity. Qed.

Ltac len :=
  rewrite ?left_push, ?left_pop, ?left_setLineColumn in *; lia.

(** Reading steps, collected while a scanner is unfolded. *)
Ltac step_advance :=
  match goal with
  | |- context [advance ?s] =>
      let H := fresh "A" in
      pose proof (advance_reads s) as [H ?];
      destruct (advance s) as [? ?]; cbn [fst snd] in *
  | |- context [advanceWhile ?p ?v ?s] =>
      let H := fresh "W" in
      pose proof (advanceWhile_reads p v s) as [[H ?] ?];
      destruct (advanceWhile p v s) as [? ?]; cbn [fst snd] in *
  | |- context [match_ ?c ?s] =>
      let H := fresh "T" in
      pose proof (match_reads c s) as [H ?];
      destruct (match_ c s) as [? ?]; cbn [fst snd] in *
  end.

Lemma left_not_at_end st : isAtEnd st = false -> 0 < left st.
Proof. unfold isAtEnd, left. destruct (lx_rest st); [discriminate|simpl; lia]. Qed.

Lemma left_at_end st : isAtEnd st = true -> left st = 0.
Proof. unfold isAtEnd, left. destruct (lx_rest st); [reflexivity|discriminate]. Qed.

Lemma scanNumber_scans st :
  isAtEnd st = false -> isDigit (peek st) = true ->
  scans true st (scanNumber st).
Proof.
  intros He Hd. pose proof (left_not_at_end st He) as Hpos.
  unfold scanNumber, addNumberToken.
  repeat match goal with
         | |- context [if ?c then _ else _] =>
             lazymatch c with
             | context [advance _] => fail
             | context [advanceWhile _ _ _] => fail
             | _ => destruct c
             end
         | _ => step_advance
         end;
    (split;
     [ simpl; unfold left in *; simpl in *;
       repeat match goal with
              | H : isAtEnd st = false -> isDigit (peek st) = true -> _ |- _ =>
                  specialize (H He Hd)
              end;
       lia
     | intros N; apply noEOF_push; [discriminate|]; simpl in *; congruence ]).
Qed.


Section Scanners.
Context {numbers : Numbers} {JS : JSRuntime}.

Lemma fromCodePoint_returns unicode :
  returns (fun _ => True) (fromCodePoint unicode).
Proof.
  unfold fromCodePoint. destruct (parseInt16 unicode); [|exact I].
  destruct (_ || _); [exact I|]. destruct (_ <? _)%Z; exact I.
Qed.

Lemma scanStringEscape_reads escaped value st :
  returns (fun r => reads st (snd r)) (scanStringEscape escaped value st).
Proof.
  unfold scanStringEscape.
  repeat match goal with
         | |- returns _ (if ?c then _ else _) =>
             lazymatch c with
             | context [peek _] => fail
             | _ => destruct c; [simpl; apply reads_refl|]
             end
         end;
    try (simpl; apply reads_refl).
  match goal with
  | |- returns _ (if ?c then _ else _) =>
      destruct c; [|simpl; apply reads_refl]
  end.
  destruct (Ascii.eqb (peek st) "{").
  - repeat step_advance.
    apply returns_bind with (P := fun _ => True);
      [apply fromCodePoint_returns|].
    intros a _. simpl. split; [unfold left in *; lia | congruence].
  - repeat step_advance.
    apply returns_bind with (P := fun _ => True);
      [apply fromCodePoint_returns|].
    intros a _. simpl. split; [unfold left in *; lia | congruence].
Qed.

Lemma scanString_loop_reads fuel : forall quote value st,
  left st < fuel ->
  returns (fun r => reads st (snd r)) (scanString_loop fuel quote value st).
Proof.
  induction fuel as [|fuel IH]; intros quote value st Hf; [lia|].
  cbn [scanString_loop].
  destruct (negb (isAtEnd st)) eqn:He; cbn [andb]; [|simpl; apply reads_refl].
  apply negb_true_iff in He. pose proof (left_not_at_end st He) as Hpos.
  destruct (negb (Ascii.eqb (peek st) quote)); [|simpl; apply reads_refl].
  destruct (Ascii.eqb (peek st) c_backslash).
  - repeat step_advance.
    eapply returns_bind; [apply scanStringEscape_reads|].
    intros [value' st'] [R1 R2]. cbn [snd] in *.
    specialize (IH quote value' st').
    destruct (scanString_loop fuel quote value' st'); simpl in *; auto.
    + destruct IH as [I1 I2]; [unfold left in *; lia|].
      split; [unfold left in *; lia | congruence].
    + apply IH. unfold left in *. lia.
  - destruct (Ascii.eqb (peek st) c_newline); [exact I|].
    repeat step_advance.
    match goal with
    | |- returns _ (scanString_loop fuel quote ?v ?s) =>
        specialize (IH quote v s);
        destruct (scanString_loop fuel quote v s); simpl in *; auto
    end.
    + destruct IH as [I1 I2]; [unfold left in *; lia|].
      split; [unfold left in *; lia | congruence].
    + apply IH. unfold left in *. lia.
Qed.

Lemma scanString_scans quote st :
  isAtEnd st = false ->
  returns (scans true st) (scanString quote st).
Proof.
  intros He. pose proof (left_not_at_end st He) as Hpos.
  unfold scanString. step_advance.
  eapply returns_bind.
  { apply scanString_loop_reads. unfold left. lia. }
  intros [value st1] [R1 R2]. cbn [snd] in *.
  destruct (isAtEnd st1); [exact I|].
  step_advance. simpl. split.
  - len.
  - intros N. apply noEOF_push; [discriminate|]. congruence.
Qed.


Lemma scanOperatorOrPunctuation_scans st :
  isAtEnd st = false ->
  returns (scans true st) (scanOperatorOrPunctuation st).
Proof.
  intros He. pose proof (left_not_at_end st He) as Hpos.
  unfold scanOperatorOrPunctuation. step_advance.
  repeat match goal with
         | |- returns _ (if ?c then _ else _) =>
             lazymatch c with
             | context [match_ _ _] => fail
             | _ => destruct c
             end
         | |- returns _ (let (_, _) := match_ _ _ in _) => step_advance
         end;
    try exact I;
    (split;
     [ len
     | intros N; apply noEOF_push; [discriminate | congruence] ]).
Qed.

Lemma skipBlockComment_length rest : forall line column,
  length (fst (fst (skipBlockComment rest line column))) <= length rest.
Proof.
  induction rest as [|c r IH]; intros line column; simpl; [lia|].
  destruct (_ && _); [simpl; lia|].
  destruct (Ascii.eqb c c_newline); rewrite IH; lia.
Qed.

Lemma skipWhitespaceAndComments_loop_reads fuel : forall st,
  left st < fuel ->
  returns (reads st) (skipWhitespaceAndComments_loop fuel st).
Proof.
  induction fuel as [|fuel IH]; intros st Hf; [lia|].
  cbn [skipWhitespaceAndComments_loop].
  destruct (isAtEnd st) eqn:He; [apply reads_refl|].
  pose proof (left_not_at_end st He) as Hpos.
  assert (Hnext : forall st', reads st st' -> left st' < left st ->
            returns (reads st) (skipWhitespaceAndComments_loop fuel st')).
  { intros st' R Hlt. specialize (IH st').
    destruct (skipWhitespaceAndComments_loop fuel st'); simpl in *; auto.
    - eapply reads_trans; [exact R | apply IH; lia].
    - apply IH. lia. }
  destruct (_ || _).
  { destruct (advance_reads st). apply Hnext; [split; [lia|assumption] | lia]. }
  destruct (Ascii.eqb (peek st) c_newline).
  { cbv zeta. destruct (advance_reads st).
    apply Hnext; [split; [len | assumption] | len]. }
  destruct (Ascii.eqb (peek st) "/" && Ascii.eqb (peekNext st) "/") eqn:E1.
  { pose proof (advanceWhile_reads (fun c => negb (Ascii.eqb c c_newline)) "" st)
      as [R S].
    destruct (advanceWhile _ "" st) as [v st1]. cbn [snd] in *.
    apply Hnext; [exact R|]. apply S; [exact He|].
    apply andb_prop in E1 as [E1 _]. apply Ascii.eqb_eq in E1. now rewrite E1. }
  destruct (Ascii.eqb (peek st) "/" && Ascii.eqb (peekNext st) "*"); 
    [|apply reads_refl].
  cbv zeta.
  destruct (advance_reads st) as [A1 T1].
  destruct (advance_reads (snd (advance st))) as [A2 T2].
  set (st2 := snd (advance (snd (advance st)))) in *.
  pose proof (skipBlockComment_length (lx_rest st2) (lx_line st2) (lx_column st2))
    as B.
  destruct (skipBlockComment (lx_rest st2) (lx_line st2) (lx_column st2))
    as [[rest line] column]. cbn [fst] in B.
  match goal with
  | |- context [if ?c then ?a else ?b] =>
      assert (R : reads st (if c then a else b) /\ left (if c then a else b) < left st)
  end.
  { destruct (negb _).
    - match goal with
      | |- context [advance (snd (advance ?s))] =>
          destruct (advance_reads s) as [A3 T3];
          destruct (advance_reads (snd (advance s))) as [A4 T4]
      end.
      unfold reads. rewrite T4, T3. simpl. rewrite A4, A3.
      unfold left in *. simpl. split; [split; [lia|congruence]|lia].
    - unfold reads, left in *. simpl. split; [split; [lia|congruence]|lia]. }
  destruct R as [R1 R2]. now apply Hnext.
Qed.

Lemma skipWhitespaceAndComments_reads st :
  returns (reads st) (skipWhitespaceAndComments st).
Proof.
  apply skipWhitespaceAndComments_loop_reads. unfold left. lia.
Qed.


Lemma scans_reads strict st st1 st2 :
  reads st st1 -> scans strict st1 st2 -> scans strict st st2.
Proof.
  intros [R1 R2] [S1 S2]. split; [destruct strict; lia|]. now rewrite <- R2.
Qed.

Lemma scans_trans strict st st1 st2 :
  scans strict st st1 -> scans false st1 st2 -> scans false st st2.
Proof.
  intros [S1 S2] [T1 T2]. split; [destruct strict; simpl in *; lia | auto].
Qed.

Lemma returns_scans_trans strict st st1 r :
  scans strict st st1 -> returns (scans false st1) r -> returns (scans false st) r.
Proof.
  intros S. destruct r; simpl; auto. apply scans_trans with (strict := strict).
  exact S.
Qed.

Lemma returns_weaken {A} (P Q : A -> Prop) r :
  (forall a, P a -> Q a) -> returns P r -> returns Q r.
Proof. intros H. destruct r; simpl; auto. Qed.

Lemma peekNext_left st c :
  Ascii.eqb (peekNext st) c = true -> c <> c_nul -> 2 <= left st.
Proof.
  unfold peekNext, left. destruct (lx_rest st) as [|a [|b r]];
    intros H N; try (cbn [length]; lia); apply Ascii.eqb_eq in H; congruence.
Qed.

(** The depth of calls [fuel] allows is enough for the input left:
    between two characters read, the scanners enter one another at most
    twice. *)
Definition scanners_return (fuel : nat) : Prop :=
  (forall st, 2 * left st + 2 <= fuel ->
     returns (scans (negb (isAtEnd st)) st) (scanToken fuel st))
  /\ (forall startColumn value st, 2 * left st + 1 <= fuel ->
        returns (scans false st)
          (scanTemplateLiteral_loop fuel startColumn value st))
  /\ (forall braceCount st, 2 * left st + 3 <= fuel ->
        returns (scans false st)
          (scanTemplateExpression_loop fuel braceCount st))
  /\ (forall startColumn value st, 2 * left st + 1 <= fuel ->
        returns (scans false st)
          (scanTemplateMiddleOrTail_loop fuel startColumn value st)).

Lemma scanners_return_all fuel : scanners_return fuel.
Proof.
  induction fuel as [|fuel (IHtoken & IHliteral & IHexpression & IHmiddle)].
  { repeat split; intros; lia. }
  assert (Hhead : forall type value column st,
            type <> TokenType.EOF ->
            Ascii.eqb (peekNext st) "{" = true ->
            2 * left st <= fuel ->
            returns (scans false st)
              (scanTemplateExpression_loop fuel 1
                 (snd (advance (snd (advance (pushToken type value column st))))))).
  { intros type value column st Ht Hn Hf.
    pose proof (@peekNext_left st "{"%char Hn ltac:(discriminate)) as H2.
    destruct (advance_reads (pushToken type value column st)) as [A1 T1].
    destruct (advance_reads (snd (advance (pushToken type value column st))))
      as [A2 T2].
    rewrite left_push in A1.
    eapply returns_scans_trans with (strict := false).
    2: apply IHexpression; lia.
    split; [lia|]. intros N. rewrite T2, T1. now apply noEOF_push. }
  assert (Hstep : forall (loop : string -> LexerState -> Outcome LexError LexerState)
                    st st' value,
            (forall v s, 2 * left s + 1 <= fuel ->
               returns (scans false s) (loop v s)) ->
            reads st st' -> left st' < left st -> 2 * left st <= fuel ->
            returns (scans false st) (loop value st')).
  { intros loop st st' value Hloop R Hlt Hf.
    eapply returns_weaken; [|apply Hloop; lia].
    intros a. apply scans_reads. exact R. }
  split; [|split; [|split]].
  - (* scanToken *)
    intros st Hf. cbn [scanToken].
    eapply returns_bind; [apply skipWhitespaceAndComments_reads|].
    intros st0 R. cbv beta.
    destruct (isAtEnd st0) eqn:He0.
    { simpl. apply left_at_end in He0. destruct R as [R1 R2]. split.
      - destruct (isAtEnd st) eqn:He; simpl; [lia|].
        apply left_not_at_end in He. lia.
      - now rewrite R2. }
    pose proof (left_not_at_end st0 He0) as Hpos.
    assert (Hstrict : forall r,
              returns (scans true st0) r ->
              returns (scans (negb (isAtEnd st)) st) r).
    { intros r. apply returns_weaken. intros a [S1 S2]. destruct R as [R1 R2].
      split; [destruct (negb _); lia | now rewrite <- R2]. }
    cbv zeta.
    destruct (isAlpha (peek st0)) eqn:Ha.
    { apply Hstrict. now apply scanIdentifier_scans. }
    destruct (isDigit (peek st0)) eqn:Hd.
    { apply Hstrict. now apply scanNumber_scans. }
    destruct (_ || _).
    { apply Hstrict. now apply scanString_scans. }
    destruct (Ascii.eqb (peek st0) c_backtick).
    { apply Hstrict. destruct (advance_reads st0) as [A T].
      eapply returns_weaken; [|apply IHliteral; destruct R; lia].
      intros a [S1 S2]. split; [lia | now rewrite <- T]. }
    apply Hstrict. now apply scanOperatorOrPunctuation_scans.
  - (* scanTemplateLiteral *)
    intros startColumn value st Hf. cbn [scanTemplateLiteral_loop].
    destruct (negb (isAtEnd st)) eqn:He; [|exact I].
    apply negb_true_iff in He. pose proof (left_not_at_end st He) as Hpos.
    destruct (Ascii.eqb (peek st) c_backtick).
    { cbv zeta. destruct (advance_reads st) as [A T]. split; [len|].
      intros N. apply noEOF_push; [discriminate | congruence]. }
    destruct (Ascii.eqb (peek st) "$" && Ascii.eqb (peekNext st) "{") eqn:E.
    { cbv zeta. apply andb_prop in E as [_ E].
      apply Hhead; [discriminate | exact E | lia]. }
    destruct (Ascii.eqb (peek st) c_backslash).
    { cbv zeta. destruct (advance_reads st) as [A1 T1].
      destruct (advance_reads (snd (advance st))) as [A2 T2].
      destruct (advance (snd (advance st))) as [escaped st2]. cbn [snd] in *.
      apply (Hstep (scanTemplateLiteral_loop fuel startColumn));
        [apply IHliteral | split; [lia|congruence] | lia | lia]. }
    destruct (Ascii.eqb (peek st) c_newline).
    { destruct (advance_reads st) as [A1 T1].
      destruct (advance st) as [c st1]. cbn [snd] in *.
      apply (Hstep (scanTemplateLiteral_loop fuel startColumn));
        [apply IHliteral | split; [len|assumption] | len | lia]. }
    destruct (advance_reads st) as [A1 T1].
    destruct (advance st) as [c st1]. cbn [snd] in *.
    apply (Hstep (scanTemplateLiteral_loop fuel startColumn));
      [apply IHliteral | split; [lia|assumption] | lia | lia].
  - (* scanTemplateExpression *)
    intros braceCount st Hf. cbn [scanTemplateExpression_loop].
    destruct (negb (isAtEnd st)) eqn:He; cbn [andb];
      [|split; [lia|auto]].
    destruct (0 <? braceCount)%nat; [|split; [lia|auto]].
    pose proof (IHtoken st ltac:(lia)) as Htoken. rewrite He in Htoken.
    eapply returns_bind; [exact Htoken|].
    intros st1 [S1 S2]. cbv beta.
    assert (Hagain : forall bc,
              returns (scans false st)
                (scanTemplateExpression_loop fuel bc st1)).
    { intros bc. eapply returns_scans_trans with (strict := true);
        [split; eassumption|].
      apply IHexpression. lia. }
    destruct (lastToken st1) as [lastTok|]; [|exact I].
    destruct (TokenType.eqb (tok_type lastTok) TokenType.LeftBrace);
      [apply Hagain|].
    destruct (TokenType.eqb (tok_type lastTok) TokenType.RightBrace);
      [|apply Hagain].
    cbv zeta. destruct (_ =? 0)%nat; [|apply Hagain].
    eapply returns_scans_trans with (strict := true);
      [split; eassumption|].
    eapply returns_weaken; [|apply IHmiddle; len].
    intros a [T1 T2]. split; [len|].
    intros N. apply T2. now apply noEOF_pop.
  - (* scanTemplateMiddleOrTail *)
    intros startColumn value st Hf. cbn [scanTemplateMiddleOrTail_loop].
    destruct (negb (isAtEnd st)) eqn:He; [|exact I].
    apply negb_true_iff in He. pose proof (left_not_at_end st He) as Hpos.
    destruct (Ascii.eqb (peek st) c_backtick).
    { cbv zeta. destruct (advance_reads st) as [A T]. split; [len|].
      intros N. apply noEOF_push; [discriminate | congruence]. }
    destruct (Ascii.eqb (peek st) "$" && Ascii.eqb (peekNext st) "{") eqn:E.
    { cbv zeta. apply andb_prop in E as [_ E].
      apply Hhead; [discriminate | exact E | lia]. }
    destruct (Ascii.eqb (peek st) c_backslash).
    { cbv zeta. destruct (advance_reads st) as [A1 T1].
      destruct (advance_reads (snd (advance st))) as [A2 T2].
      destruct (advance (snd (advance st))) as [escaped st2]. cbn [snd] in *.
      apply (Hstep (scanTemplateMiddleOrTail_loop fuel startColumn));
        [apply IHmiddle | split; [lia|congruence] | lia | lia]. }
    destruct (Ascii.eqb (peek st) c_newline).
    { destruct (advance_reads st) as [A1 T1].
      destruct (advance st) as [c st1]. cbn [snd] in *.
      apply (Hstep (scanTemplateMiddleOrTail_loop fuel startColumn));
        [apply IHmiddle | split; [len|assumption] | len | lia]. }
    destruct (advance_reads st) as [A1 T1].
    destruct (advance st) as [c st1]. cbn [snd] in *.
    apply (Hstep (scanTemplateMiddleOrTail_loop fuel startColumn));
      [apply IHmiddle | split; [lia|assumption] | lia | lia].
Qed.


Lemma tokenize_loop_returns n : forall fuel st,
  left st < n -> 2 * left st + 2 <= fuel ->
  returns (fun st' => noEOF (lx_tokens st) -> noEOF (lx_tokens st'))
    (tokenize_loop n fuel st).
Proof.
  induction n as [|n IH]; intros fuel st Hn Hf; [lia|].
  cbn [tokenize_loop].
  destruct (negb (isAtEnd st)) eqn:He; [|simpl; auto].
  destruct (scanners_return_all fuel) as [Htoken _].
  specialize (Htoken st Hf). rewrite He in Htoken.
  eapply returns_bind; [exact Htoken|].
  intros st1 [S1 S2]. cbv beta.
  eapply returns_weaken; [|apply IH; lia]. auto.
Qed.

Definition endOfFile (line column : nat) : Token :=
  {| tok_type := TokenType.EOF; tok_value := "";
     tok_line := line; tok_column := column |}.

Lemma tokenize_returns source :
  returns (fun tokens =>
             exists body line column,
               tokens = (body ++ [endOfFile line column])%list /\ noEOF body)
    (tokenize source).
Proof.
  unfold tokenize, tokenize_from.
  eapply returns_bind.
  { apply tokenize_loop_returns; unfold scanFuel, left; lia. }
  intros st N. simpl. exists (lx_tokens st), (lx_line st), (lx_column st).
  split; [reflexivity|]. apply N. constructor.
Qed.

(** X20. The lexer terminates on every source text: [tokenize] returns
    a list of tokens or raises one of its errors. *)
Theorem tokenize_terminates (source : string) :
  (exists tokens, tokenize source = Ok tokens)
  \/ (exists error, tokenize source = Throw error).
Proof.
  pose proof (tokenize_returns source) as H.
  destruct (tokenize source) as [tokens|error|]; [left|right|]; eauto.
  contradiction.
Qed.

(** X21. The tokens [tokenize] returns end with the end-of-file token,
    and no token before it has the type [EOF]. *)
Theorem tokens_end_with_the_only_EOF (source : string) (tokens : list Token) :
  tokenize source = Ok tokens ->
  exists body line column,
    tokens = (body ++ [endOfFile line column])%list
    /\ Forall (fun t => tok_type t <> TokenType.EOF) body.
Proof.
  intros H. pose proof (tokenize_returns source) as R. now rewrite H in R.
Qed.


(** ** Words *)

(** An identifier or keyword: a letter, [_] or [$], then letters,
    digits, [_] and [$]. *)
Definition isWord (word : string) : bool :=
  match word with
  | String c rest =>
      isAlpha c && forallb isAlphaNumeric (list_ascii_of_string rest)
  | EmptyString => false
  end.

Lemma length_list_ascii (s : string) :
  length (list_ascii_of_string s) = String.length s.
Proof. induction s; simpl; auto. Qed.

Lemma advanceWhile_rest_all p l :
  forallb p l = true -> advanceWhile_rest p l = (l, []).
Proof.
  induction l as [|c r IH]; simpl; [reflexivity|].
  intros H. apply andb_prop in H as [-> Hr]. now rewrite IH.
Qed.

Lemma isAlpha_starts_token c :
  isAlpha c = true ->
  (Ascii.eqb c " " || Ascii.eqb c c_tab || Ascii.eqb c c_return) = false
  /\ Ascii.eqb c c_newline = false
  /\ Ascii.eqb c "/" = false.
Proof.
  destruct c as [[] [] [] [] [] [] [] []]; intros H; vm_compute in H;
    try discriminate; repeat split.
Qed.

(** Nothing is skipped in front of a character that is neither white
    space nor a slash. *)
Lemma skipWhitespaceAndComments_at_token st c rest :
  lx_rest st = c :: rest ->
  (Ascii.eqb c " " || Ascii.eqb c c_tab || Ascii.eqb c c_return) = false ->
  Ascii.eqb c c_newline = false ->
  Ascii.eqb c "/" = false ->
  skipWhitespaceAndComments st = Ok st.
Proof.
  intros Hr H1 H2 H3. unfold skipWhitespaceAndComments. rewrite Hr.
  cbn [length skipWhitespaceAndComments_loop].
  unfold isAtEnd, peek. rewrite Hr, H1, H2, H3. reflexivity.
Qed.

Lemma skipWhitespaceAndComments_at_word st c rest :
  lx_rest st = c :: rest -> isAlpha c = true ->
  skipWhitespaceAndComments st = Ok st.
Proof.
  intros Hr Ha. destruct (isAlpha_starts_token c Ha) as (H1 & H2 & H3).
  now apply (@skipWhitespaceAndComments_at_token st c rest).
Qed.

Lemma tokenize_loop_at_end n fuel st :
  isAtEnd st = true -> tokenize_loop (S n) fuel st = Ok st.
Proof. intros H. cbn [tokenize_loop]. now rewrite H. Qed.

Lemma tokenize_loop_step n fuel st st' :
  isAtEnd st = false -> scanToken fuel st = Ok st' ->
  tokenize_loop (S n) fuel st = tokenize_loop n fuel st'.
Proof. intros H E. cbn [tokenize_loop]. now rewrite H, E. Qed.

Lemma scanFuel_positive st : scanFuel st = S (4 * length (lx_rest st) + 3).
Proof. unfold scanFuel. lia. Qed.

Lemma scanToken_word fuel st c rest :
  lx_rest st = c :: rest -> isAlpha c = true ->
  scanToken (S fuel) st = Ok (scanIdentifier st).
Proof.
  intros Hr Ha. cbn [scanToken].
  rewrite (@skipWhitespaceAndComments_at_word st c rest Hr Ha). cbn [bind].
  unfold isAtEnd, peek. now rewrite Hr, Ha.
Qed.

Lemma scanIdentifier_word st word :
  lx_rest st = list_ascii_of_string word ->
  forallb isAlphaNumeric (list_ascii_of_string word) = true ->
  scanIdentifier st
  = pushToken (keywordOrIdentifier word) word (lx_column st)
      {| lx_rest := []; lx_line := lx_line st;
         lx_column := lx_column st + String.length word;
         lx_tokens := lx_tokens st |}.
Proof.
  intros Hr Hw. unfold scanIdentifier, advanceWhile.
  rewrite Hr, (advanceWhile_rest_all _ _ Hw).
  rewrite string_of_list_ascii_of_string, length_list_ascii. reflexivity.
Qed.

(** X22. A source text that is one word gives one token and the
    end-of-file token.  The token has the word as its value and the type
    [KEYWORDS[word] ?? Identifier]: it is an identifier exactly when the
    word is neither a keyword nor the name of a property that the object
    [KEYWORDS] inherits ([toString], [valueOf], [hasOwnProperty], ...). *)
Theorem word_lexes_to_one_token (word : string) :
  isWord word = true ->
  tokenize word
  = Ok [ {| tok_type := keywordOrIdentifier word; tok_value := word;
            tok_line := 1; tok_column := 1 |};
         endOfFile 1 (1 + String.length word) ]
  /\ (keywordOrIdentifier word = TokenType.Identifier
      <-> map_get KEYWORDS word = None
          /\ ~ In word objectPrototypeProperties).
Proof.
  intros Hw. split.
  - destruct word as [|c rest]; [discriminate|]. cbn [isWord] in Hw.
    apply andb_prop in Hw as [Ha Hrest].
    unfold tokenize, tokenize_from. rewrite scanFuel_positive.
    set (st := initialState (String c rest)).
    assert (Hr : lx_rest st = c :: list_ascii_of_string rest) by reflexivity.
    rewrite Hr. cbn [length].
    rewrite (@tokenize_loop_step _ _ st (scanIdentifier st));
      [|unfold isAtEnd; now rewrite Hr
       |now apply (@scanToken_word _ st c (list_ascii_of_string rest))].
    rewrite (@scanIdentifier_word st (String c rest)); [|exact Hr|].
    2:{ cbn [list_ascii_of_string forallb]. unfold isAlphaNumeric at 1.
        now rewrite Ha, Hrest. }
    rewrite tokenize_loop_at_end by reflexivity.
    reflexivity.
  - unfold keywordOrIdentifier.
    destruct (map_get KEYWORDS word) as [type|] eqn:E.
    + split; [|intros [? _]; discriminate]. intros ->.
      apply Assignability.map_get_In in E as [k Hin]. exfalso.
      revert Hin. unfold KEYWORDS. simpl. intuition discriminate.
    + destruct (existsb (String.eqb word) objectPrototypeProperties) eqn:X.
      * split; [discriminate|]. intros [_ N]. exfalso. apply N.
        apply existsb_exists in X as (x & Hin & Hx).
        apply String.eqb_eq in Hx. now subst.
      * split; [|reflexivity]. intros _. split; [reflexivity|].
        intros Hin. assert (existsb (String.eqb word) objectPrototypeProperties
                            = true); [|congruence].
        apply existsb_exists. exists word. split; [assumption|].
        apply String.eqb_refl.
Qed.


(** ** String literals written by the emitter *)

(** What [scanString] makes of the escape that [JSON.stringify] writes
    for a character: the character itself, except that it reads [\b] and
    [\f] as the letters. *)
Definition readBackChar (c : ascii) : ascii :=
  let n := nat_of_ascii c in
  if (n =? 8)%nat then "b"%char
  else if (n =? 12)%nat then "f"%char
  else c.

Fixpoint readBack (s : string) : string :=
  match s with
  | EmptyString => ""
  | String c r => String (readBackChar c) (readBack r)
  end.

Lemma scanString_loop_escaped c fuel value line column tokens rest :
  scanString_loop (S fuel) c_dquote value
    {| lx_rest := (list_ascii_of_string (Emitter.jsonEscapeChar c) ++ rest)%list;
       lx_line := line; lx_column := column; lx_tokens := tokens |}
  = scanString_loop fuel c_dquote (value ++ String (readBackChar c) "")
      {| lx_rest := rest; lx_line := line;
         lx_column := String.length (Emitter.jsonEscapeChar c) + column;
         lx_tokens := tokens |}.
Proof. destruct c as [[] [] [] [] [] [] [] []]; reflexivity. Qed.


Lemma list_ascii_app (a b : string) :
  list_ascii_of_string (a ++ b)
  = (list_ascii_of_string a ++ list_ascii_of_string b)%list.
Proof. induction a; simpl; congruence. Qed.

Lemma string_length_app (a b : string) :
  String.length (a ++ b) = String.length a + String.length b.
Proof. induction a; simpl; congruence. Qed.

Lemma jsonEscapeChar_length c : 1 <= String.length (Emitter.jsonEscapeChar c).
Proof. destruct c as [[] [] [] [] [] [] [] []]; vm_compute; lia. Qed.

Lemma scanString_loop_stringified s :
  forall fuel value line column tokens rest,
    String.length (Emitter.jsonEscape s) < fuel ->
    scanString_loop fuel c_dquote value
      {| lx_rest :=
           (list_ascii_of_string (Emitter.jsonEscape s) ++ c_dquote :: rest)%list;
         lx_line := line; lx_column := column; lx_tokens := tokens |}
    = Ok (value ++ readBack s,
          {| lx_rest := c_dquote :: rest; lx_line := line;
             lx_column := String.length (Emitter.jsonEscape s) + column;
             lx_tokens := tokens |}).
Proof.
  induction s as [|c r IH]; intros fuel value line column tokens rest Hf;
    (destruct fuel as [|fuel]; [lia|]).
  - cbn [Emitter.jsonEscape list_ascii_of_string app readBack String.length
         Nat.add]. rewrite Emitter.append_empty_r. reflexivity.
  - cbn [Emitter.jsonEscape readBack] in *.
    rewrite string_length_app in *. rewrite list_ascii_app, <- app_assoc.
    rewrite scanString_loop_escaped.
    pose proof (jsonEscapeChar_length c).
    rewrite IH by lia. rewrite Emitter.append_assoc. cbn [append].
    replace (String.length (Emitter.jsonEscape r)
             + (String.length (Emitter.jsonEscapeChar c) + column))
      with (String.length (Emitter.jsonEscapeChar c)
            + String.length (Emitter.jsonEscape r) + column) by lia.
    reflexivity.
Qed.

(** X23. The lexer reads the string literals that the emitter writes:
    the text [JSON.stringify(s)] is one string token, whose value is [s]
    except that a backspace comes back as the letter [b] and a form feed
    as the letter [f] (the lexer knows no escape [\b] or [\f]).  So a
    string without these two characters is read back as it was. *)
Theorem emitted_string_literal_lexes_back (s : string) :
  tokenize (Emitter.JSON_stringify s)
  = Ok [ {| tok_type := TokenType.StringLiteral; tok_value := readBack s;
            tok_line := 1; tok_column := 1 |};
         endOfFile 1 (3 + String.length (Emitter.jsonEscape s)) ]
  /\ ((forall c, In c (list_ascii_of_string s) ->
         nat_of_ascii c <> 8 /\ nat_of_ascii c <> 12) ->
      readBack s = s).
Proof.
  split.
  - unfold tokenize, tokenize_from. rewrite scanFuel_positive.
    set (st := initialState (Emitter.JSON_stringify s)).
    assert (Hr : lx_rest st
                 = c_dquote
                   :: (list_ascii_of_string (Emitter.jsonEscape s)
                       ++ [c_dquote])%list).
    { unfold st, initialState, Emitter.JSON_stringify, quote.
      cbn [lx_rest append list_ascii_of_string].
      now rewrite list_ascii_app. }
    rewrite Hr. cbn [length].
    erewrite tokenize_loop_step; [|unfold isAtEnd; now rewrite Hr|].
    2:{ cbn [scanToken].
        rewrite (@skipWhitespaceAndComments_at_token st c_dquote _ Hr)
          by reflexivity.
        cbn [bind]. unfold isAtEnd at 1, peek. rewrite Hr.
        change (isAlpha c_dquote) with false.
        change (isDigit c_dquote) with false.
        cbv iota. rewrite Ascii.eqb_refl. cbn [orb].
        unfold scanString, advance. rewrite Hr.
        cbn [lx_rest lx_line lx_column lx_tokens].
        rewrite scanString_loop_stringified
          by (rewrite length_app, length_list_ascii; simpl; lia).
        cbn [bind isAtEnd lx_rest lx_line lx_column lx_tokens].
        reflexivity. }
    rewrite tokenize_loop_at_end by reflexivity.
    cbn [bind]. unfold pushToken, endOfFile. cbn.
    repeat f_equal. lia.
  - induction s as [|c r IH]; intros H; [reflexivity|]. cbn [readBack].
    rewrite IH by (intros c' Hc'; apply H; now right).
    destruct (H c (or_introl eq_refl)) as [H8 H12].
    unfold readBackChar. apply Nat.eqb_neq in H8, H12. now rewrite H8, H12.
Qed.


(** ** Lexical errors *)

(** A character of a string literal that [scanString] copies: not the
    closing quote, not a backslash, not a line feed. *)
Definition plainIn (quote : ascii) (c : ascii) : bool :=
  negb (Ascii.eqb c quote) && negb (Ascii.eqb c c_backslash)
  && negb (Ascii.eqb c c_newline).

(** The input ends, or the line does. *)
Definition endsLine (tail : list ascii) : bool :=
  match tail with
  | [] => true
  | c :: _ => Ascii.eqb c c_newline
  end.

Lemma scanString_loop_unterminated quote body tail :
  Ascii.eqb c_newline quote = false ->
  endsLine tail = true ->
  forall fuel value line column tokens,
    forallb (plainIn quote) body = true ->
    length body < fuel ->
    bind
      (scanString_loop fuel quote value
         {| lx_rest := (body ++ tail)%list; lx_line := line;
            lx_column := column; lx_tokens := tokens |})
      (fun r =>
         if isAtEnd (snd r) then Throw (UnterminatedString (lx_line (snd r)))
         else Ok tt)
    = Throw (UnterminatedString line).
Proof.
  intros Hq Ht. induction body as [|c r IH];
    intros fuel value line column tokens Hb Hf;
    (destruct fuel as [|fuel]; [simpl in Hf; lia|]).
  - cbn [app scanString_loop]. unfold isAtEnd at 1, peek.
    cbn [lx_rest]. destruct tail as [|c t]; [reflexivity|].
    cbn [endsLine] in Ht. apply Ascii.eqb_eq in Ht. subst c.
    cbn [negb andb]. rewrite Hq. cbn [negb].
    change (Ascii.eqb c_newline c_backslash) with false. cbv iota.
    rewrite Ascii.eqb_refl. reflexivity.
  - cbn [forallb] in Hb. apply andb_prop in Hb as [Hc Hr].
    unfold plainIn in Hc. apply andb_prop in Hc as [Hc H3].
    apply andb_prop in Hc as [H1 H2].
    cbn [app scanString_loop]. unfold isAtEnd at 1, peek, advance.
    cbn [lx_rest lx_line lx_column lx_tokens negb andb].
    rewrite H1. apply negb_true_iff in H2, H3. rewrite H2, H3.
    apply IH; [exact Hr | simpl in Hf; lia].
Qed.

(** X24. A string literal that is not closed on its line is an error.
    When the lexer stands at a quote and the characters after it, up to
    the end of the line or of the input, hold neither the same quote nor
    a backslash, [tokenize] raises "Unterminated string" with the line of
    the opening quote. *)
Theorem unterminated_string_is_an_error
    (st : LexerState) (quote : ascii) (body tail : list ascii) :
  quote = c_dquote \/ quote = c_squote ->
  lx_rest st = (quote :: body ++ tail)%list ->
  forallb (plainIn quote) body = true ->
  endsLine tail = true ->
  tokenize_from st = Throw (UnterminatedString (lx_line st)).
Proof.
  intros Hq Hr Hb Ht. unfold tokenize_from. rewrite scanFuel_positive.
  rewrite Hr at 1. cbn [length tokenize_loop].
  unfold isAtEnd at 1. rewrite Hr. cbn [negb]. cbn [scanToken].
  rewrite (@skipWhitespaceAndComments_at_token st quote _ Hr)
    by (destruct Hq as [-> | ->]; reflexivity).
  cbn [bind]. unfold isAtEnd at 1, peek. rewrite Hr.
  replace (isAlpha quote) with false by (destruct Hq as [-> | ->]; reflexivity).
  replace (isDigit quote) with false by (destruct Hq as [-> | ->]; reflexivity).
  replace (Ascii.eqb quote c_dquote || Ascii.eqb quote c_squote) with true
    by (destruct Hq as [-> | ->]; reflexivity).
  unfold scanString, advance. rewrite Hr.
  cbn [lx_rest lx_line lx_column lx_tokens].
  pose proof (@scanString_loop_unterminated quote body tail
                ltac:(destruct Hq as [-> | ->]; reflexivity) Ht
                (S (length (body ++ tail))) "" (lx_line st) (S (lx_column st))
                (lx_tokens st) Hb
                ltac:(rewrite length_app; lia)) as E.
  destruct (scanString_loop _ quote "" _) as [[value st1]| |];
    cbn [bind snd] in *; try discriminate.
  - destruct (isAtEnd st1); [|discriminate]. now injection E as ->.
  - now injection E as ->.
Qed.

(** The characters that start a token, and white space. *)
Definition startsToken (c : ascii) : bool :=
  isAlpha c || isDigit c
  || existsb (Ascii.eqb c)
       (c_tab :: c_newline :: c_return :: c_dquote :: c_squote :: c_backtick
        :: list_ascii_of_string " +-*/%(){}[]:;,@.=!<>&|^~?").

End Scanners.

(** * lexer.ts: the main loop *)

Section MainLoop.
Context {numbers : Numbers} {JS : JSRuntime}.


(** ** The result of a scanner does not depend on the depth granted *)

(** [r] is no answer, or the answer [r']. *)
Definition agrees {A} (r r' : Outcome LexError A) : Prop :=
  r = Undetermined \/ r = r'.

Lemma agrees_refl {A} (r : Outcome LexError A) : agrees r r.
Proof. now right. Qed.

Lemma agrees_trans {A} (r1 r2 r3 : Outcome LexError A) :
  agrees r1 r2 -> agrees r2 r3 -> agrees r1 r3.
Proof. intros [->| ->] H; [now left | exact H]. Qed.

Lemma agrees_bind {A B} (m m' : Outcome LexError A)
    (k k' : A -> Outcome LexError B) :
  agrees m m' -> (forall a, agrees (k a) (k' a)) ->
  agrees (bind m k) (bind m' k').
Proof.
  intros [->| ->] H; [now left|]. destruct m'; simpl; [apply H|now right|now left].
Qed.

Lemma agrees_returns {A} (P : A -> Prop) (r r' : Outcome LexError A) :
  agrees r r' -> returns P r -> r' = r.
Proof. intros [->| ->] H; [contradiction | reflexivity]. Qed.

Definition scanners_agree (fuel fuel' : nat) : Prop :=
  (forall st, agrees (scanToken fuel st) (scanToken fuel' st))
  /\ (forall startColumn value st,
        agrees (scanTemplateLiteral_loop fuel startColumn value st)
          (scanTemplateLiteral_loop fuel' startColumn value st))
  /\ (forall braceCount st,
        agrees (scanTemplateExpression_loop fuel braceCount st)
          (scanTemplateExpression_loop fuel' braceCount st))
  /\ (forall startColumn value st,
        agrees (scanTemplateMiddleOrTail_loop fuel startColumn value st)
          (scanTemplateMiddleOrTail_loop fuel' startColumn value st)).

Ltac agree :=
  repeat first
    [ apply agrees_refl
    | match goal with
      | |- agrees (bind _ _) (bind _ _) => apply agrees_bind; [|intros ?]
      | |- agrees (if ?c then _ else _) (if ?c then _ else _) => destruct c
      | |- agrees (match ?x with _ => _ end) (match ?x with _ => _ end) =>
          destruct x
      end
    | progress cbv beta zeta
    | match goal with
      | H : forall st, agrees _ _ |- _ => apply H
      | H : forall a st, agrees _ _ |- _ => apply H
      | H : forall a b st, agrees _ _ |- _ => apply H
      end ].

Lemma scanners_agree_all fuel : forall fuel',
  fuel <= fuel' -> scanners_agree fuel fuel'.
Proof.
  induction fuel as [|fuel IH]; intros fuel' Hle.
  { repeat split; intros; now left. }
  destruct fuel' as [|fuel']; [lia|].
  destruct (IH fuel' ltac:(lia)) as (IHtoken & IHliteral & IHexpression & IHmiddle).
  split; [|split; [|split]].
  - intros st. cbn [scanToken]. agree.
  - intros startColumn value st. cbn [scanTemplateLiteral_loop]. agree.
  - intros braceCount st. cbn [scanTemplateExpression_loop]. agree.
  - intros startColumn value st. cbn [scanTemplateMiddleOrTail_loop]. agree.
Qed.

Lemma scanToken_agrees fuel fuel' st :
  fuel <= fuel' -> agrees (scanToken fuel st) (scanToken fuel' st).
Proof. intros H. now apply scanners_agree_all. Qed.

Lemma tokenize_loop_agrees n : forall n' fuel fuel' st,
  n <= n' -> fuel <= fuel' ->
  agrees (tokenize_loop n fuel st) (tokenize_loop n' fuel' st).
Proof.
  induction n as [|n IH]; intros n' fuel fuel' st Hn Hf; [now left|].
  destruct n' as [|n']; [lia|]. cbn [tokenize_loop].
  destruct (negb (isAtEnd st)); [|apply agrees_refl].
  apply agrees_bind; [now apply scanToken_agrees|].
  intros st'. apply IH; lia.
Qed.

(** ** The states of the main loop *)

(** [tokenizing source st]: the loop [while (!this.isAtEnd())
    this.scanToken()] of [tokenize], run on [source], is at [st] before
    one of its iterations or when it ends. *)
Inductive tokenizing (source : string) : LexerState -> Prop :=
| tokenizing_start : tokenizing source (initialState source)
| tokenizing_next st st' :
    tokenizing source st ->
    isAtEnd st = false ->
    scanToken (scanFuel st) st = Ok st' ->
    tokenizing source st'.

Lemma tokenize_from_next st st' :
  isAtEnd st = false -> scanToken (scanFuel st) st = Ok st' ->
  tokenize_from st = tokenize_from st'.
Proof.
  intros He Hs. unfold tokenize_from.
  rewrite (tokenize_loop_step (length (lx_rest st)) (scanFuel st) st He Hs).
  destruct (scanners_return_all (scanFuel st)) as [Htoken _].
  specialize (Htoken st ltac:(unfold scanFuel, left; lia)).
  rewrite Hs, He in Htoken. destruct Htoken as [Hlt _]. cbn [negb] in Hlt.
  unfold left in Hlt.
  assert (A : agrees
                (tokenize_loop (S (length (lx_rest st'))) (scanFuel st') st')
                (tokenize_loop (length (lx_rest st)) (scanFuel st) st'))
    by (apply tokenize_loop_agrees; unfold scanFuel; lia).
  destruct A as [A|A]; [|now rewrite A].
  pose proof (tokenize_loop_returns (n := S (length (lx_rest st')))
                (fuel := scanFuel st') st'
                ltac:(unfold left; lia) ltac:(unfold scanFuel, left; lia)) as R.
  rewrite A in R. contradiction.
Qed.

(** What [tokenize] returns is what the rest of the loop gives from
    any of its states. *)
Lemma tokenizing_tokenize source st :
  tokenizing source st -> tokenize source = tokenize_from st.
Proof.
  induction 1 as [|st st' _ IH He Hs]; [reflexivity|].
  rewrite IH. now apply tokenize_from_next.
Qed.


(** ** White space and comments in front of a token *)

(** The line and column after [text], read from [line] and [column]: a
    line break starts a line at column 1, any other character is one
    column. *)
Fixpoint positionAfter (text : list ascii) (line column : nat) : nat * nat :=
  match text with
  | [] => (line, column)
  | c :: text =>
      if Ascii.eqb c c_newline then positionAfter text (S line) 1
      else positionAfter text line (S column)
  end.

(** The lexer after it has read [text], with [rest] left to read. *)
Definition afterText (text rest : list ascii) (st : LexerState) : LexerState :=
  {| lx_rest := rest;
     lx_line := fst (positionAfter text (lx_line st) (lx_column st));
     lx_column := snd (positionAfter text (lx_line st) (lx_column st));
     lx_tokens := lx_tokens st |}.

Definition isBlank (c : ascii) : bool :=
  Ascii.eqb c " " || Ascii.eqb c c_tab || Ascii.eqb c c_return
  || Ascii.eqb c c_newline.

Definition inLine (c : ascii) : bool := negb (Ascii.eqb c c_newline).

(** Text made of white space, line breaks, line comments with their
    line break, and closed block comments. *)
Inductive skippable : list ascii -> Prop :=
| skippable_nil : skippable []
| skippable_blank c rest :
    isBlank c = true -> skippable rest -> skippable (c :: rest)
| skippable_line text rest :
    forallb inLine text = true -> skippable rest ->
    skippable ("/" :: "/" :: text ++ c_newline :: rest)%char%list
| skippable_block body rest :
    closes body = false -> skippable rest ->
    skippable ("/" :: "*" :: body ++ "*" :: "/" :: rest)%char%list.

Lemma positionAfter_app text text' : forall line column,
  positionAfter (text ++ text') line column
  = positionAfter text' (fst (positionAfter text line column))
      (snd (positionAfter text line column)).
Proof.
  induction text as [|c text IH]; intros line column; [reflexivity|].
  cbn [app positionAfter]. destruct (Ascii.eqb c c_newline); apply IH.
Qed.

Lemma positionAfter_inLine text : forall line column,
  forallb inLine text = true ->
  positionAfter text line column = (line, column + length text).
Proof.
  induction text as [|c text IH]; intros line column H.
  - simpl. f_equal. lia.
  - cbn [forallb] in H. apply andb_prop in H as [Hc H].
    unfold inLine in Hc. apply negb_true_iff in Hc.
    cbn [positionAfter length]. rewrite Hc, IH by exact H. f_equal. lia.
Qed.

Lemma advanceWhile_rest_until p text c rest :
  forallb p text = true -> p c = false ->
  advanceWhile_rest p (text ++ c :: rest) = (text, c :: rest).
Proof.
  intros Ht Hc. induction text as [|a text IH].
  - simpl. now rewrite Hc.
  - cbn [forallb] in Ht. apply andb_prop in Ht as [Ha Ht].
    cbn [app advanceWhile_rest]. now rewrite Ha, IH.
Qed.

Lemma skipBlockComment_closed body rest : forall line column,
  closes body = false ->
  skipBlockComment (body ++ "*" :: "/" :: rest)%char%list line column
  = (("*" :: "/" :: rest)%char%list,
     fst (positionAfter body line column),
     snd (positionAfter body line column)).
Proof.
  induction body as [|c body IH]; intros line column H; [reflexivity|].
  cbn [closes] in H. apply orb_false_elim in H as [H1 H2].
  cbn [app skipBlockComment positionAfter].
  assert (E : Ascii.eqb c "*"
              && Ascii.eqb
                   match (body ++ "*" :: "/" :: rest)%char%list with
                   | c' :: _ => c'
                   | [] => c_nul
                   end "/" = false).
  { destruct body as [|c' body]; [|exact H1].
    cbn [app]. apply andb_false_r. }
  rewrite E. destruct (Ascii.eqb c c_newline); now apply IH.
Qed.

Lemma skipBlockComment_open body : forall line column,
  closes body = false ->
  skipBlockComment body line column
  = ([], fst (positionAfter body line column),
     snd (positionAfter body line column)).
Proof.
  induction body as [|c body IH]; intros line column H; [reflexivity|].
  cbn [closes] in H. apply orb_false_elim in H as [H1 H2].
  cbn [skipBlockComment positionAfter]. rewrite H1.
  destruct (Ascii.eqb c c_newline); now apply IH.
Qed.

Lemma isBlank_cases c :
  isBlank c = true ->
  (Ascii.eqb c " " || Ascii.eqb c c_tab || Ascii.eqb c c_return = true
   /\ Ascii.eqb c c_newline = false)
  \/ (Ascii.eqb c " " || Ascii.eqb c c_tab || Ascii.eqb c c_return = false
      /\ Ascii.eqb c c_newline = true).
Proof.
  destruct c as [[] [] [] [] [] [] [] []]; intros H; vm_compute in H;
    try discriminate; vm_compute; auto.
Qed.

(** The loop of [skipWhitespaceAndComments] reads skippable text and
    goes on behind it. *)
Lemma skipWhitespaceAndComments_loop_skippable skipped :
  skippable skipped ->
  forall fuel tail line column tokens,
    length (skipped ++ tail) < fuel ->
    exists fuel',
      length tail < fuel'
      /\ skipWhitespaceAndComments_loop fuel
           {| lx_rest := (skipped ++ tail)%list; lx_line := line;
              lx_column := column; lx_tokens := tokens |}
         = skipWhitespaceAndComments_loop fuel'
             {| lx_rest := tail;
                lx_line := fst (positionAfter skipped line column);
                lx_column := snd (positionAfter skipped line column);
                lx_tokens := tokens |}.
Proof.
  induction 1 as [|c rest Hc _ IH|text rest Ht _ IH|body rest Hb _ IH];
    intros fuel tail line column tokens Hf.
  - exists fuel. split; [exact Hf | reflexivity].
  - destruct fuel as [|fuel]; [lia|]. cbn [length app] in Hf.
    destruct (IH fuel tail
                (fst (positionAfter [c] line column))
                (snd (positionAfter [c] line column)) tokens ltac:(lia))
      as (fuel' & Hf' & E).
    exists fuel'. split; [exact Hf'|].
    replace (positionAfter (c :: rest) line column)
      with (positionAfter rest (fst (positionAfter [c] line column))
              (snd (positionAfter [c] line column)))
      by (cbn [positionAfter]; now destruct (Ascii.eqb c c_newline)).
    rewrite <- E.
    cbn [app skipWhitespaceAndComments_loop isAtEnd peek lx_rest positionAfter].
    destruct (isBlank_cases c Hc) as [[H1 H2]|[H1 H2]]; rewrite H1, H2;
      reflexivity.
  - destruct fuel as [|[|fuel]]; cbn [length app] in Hf; try lia.
    assert (Hlen : length (rest ++ tail) < fuel).
    { rewrite !length_app in *. cbn [length] in Hf. lia. }
    destruct (IH fuel tail (S line) 1 tokens Hlen) as (fuel' & Hf' & E).
    exists fuel'. split; [exact Hf'|].
    replace (positionAfter ("/" :: "/" :: text ++ c_newline :: rest)%char%list
               line column)
      with (positionAfter rest (S line) 1).
    2:{ change ("/" :: "/" :: text ++ c_newline :: rest)%char%list
          with (("/" :: "/" :: text) ++ c_newline :: rest)%char%list.
        assert (P : positionAfter ("/" :: "/" :: text)%char line column
                    = (line, column + length ("/" :: "/" :: text)%char))
          by (apply positionAfter_inLine; exact Ht).
        rewrite positionAfter_app, P. cbn [fst snd positionAfter].
        now rewrite Ascii.eqb_refl. }
    rewrite <- E.
    cbn [app skipWhitespaceAndComments_loop isAtEnd peek peekNext lx_rest].
    change (Ascii.eqb "/" " " || Ascii.eqb "/" c_tab || Ascii.eqb "/" c_return)
      with false.
    change (Ascii.eqb "/" c_newline) with false.
    change (Ascii.eqb "/" "/" && Ascii.eqb "/" "/") with true.
    cbv iota. unfold advanceWhile. cbn [lx_rest lx_line lx_column lx_tokens].
    assert (W : advanceWhile_rest (fun c => negb (Ascii.eqb c c_newline))
                  ("/" :: "/" :: (text ++ c_newline :: rest) ++ tail)%char%list
                = (("/" :: "/" :: text)%char%list,
                   (c_newline :: rest ++ tail)%list)).
    { rewrite <- app_assoc.
      apply (advanceWhile_rest_until
               (fun c => negb (Ascii.eqb c c_newline))
               ("/" :: "/" :: text)%char%list c_newline (rest ++ tail)%list);
        [exact Ht | now rewrite Ascii.eqb_refl]. }
    rewrite W.
    cbn [skipWhitespaceAndComments_loop isAtEnd peek lx_rest].
    change (Ascii.eqb c_newline " " || Ascii.eqb c_newline c_tab
            || Ascii.eqb c_newline c_return) with false.
    rewrite Ascii.eqb_refl. reflexivity.
  - destruct fuel as [|fuel]; cbn [length app] in Hf; try lia.
    assert (Hlen : length (rest ++ tail) < fuel).
    { rewrite !length_app in *. cbn [length] in Hf. lia. }
    destruct (IH fuel tail
                (fst (positionAfter body line (S (S column))))
                (S (S (snd (positionAfter body line (S (S column))))))
                tokens Hlen) as (fuel' & Hf' & E).
    exists fuel'. split; [exact Hf'|].
    replace (positionAfter ("/" :: "*" :: body ++ "*" :: "/" :: rest)%char%list
               line column)
      with (positionAfter rest
              (fst (positionAfter body line (S (S column))))
              (S (S (snd (positionAfter body line (S (S column))))))).
    2:{ cbn [positionAfter].
        change (Ascii.eqb "/" c_newline) with false.
        change (Ascii.eqb "*" c_newline) with false. cbv iota.
        rewrite positionAfter_app. reflexivity. }
    rewrite <- E.
    cbn [app skipWhitespaceAndComments_loop isAtEnd peek peekNext lx_rest].
    change (Ascii.eqb "/" " " || Ascii.eqb "/" c_tab || Ascii.eqb "/" c_return)
      with false.
    change (Ascii.eqb "/" c_newline) with false.
    change (Ascii.eqb "/" "/" && Ascii.eqb "*" "/") with false.
    change (Ascii.eqb "/" "/" && Ascii.eqb "*" "*") with true.
    cbv iota. unfold advance at 2. cbn [lx_rest snd lx_line lx_column lx_tokens].
    unfold advance at 1. cbn [lx_rest snd lx_line lx_column lx_tokens].
    rewrite <- app_assoc. cbn [app].
    rewrite skipBlockComment_closed by exact Hb.
    reflexivity.
Qed.

Lemma skipWhitespaceAndComments_skippable st skipped c rest :
  skippable skipped ->
  lx_rest st = (skipped ++ c :: rest)%list ->
  isBlank c = false -> Ascii.eqb c "/" = false ->
  skipWhitespaceAndComments st = Ok (afterText skipped (c :: rest) st).
Proof.
  intros Hs Hr Hb Hc. unfold skipWhitespaceAndComments, afterText.
  destruct st as [rest0 line column tokens]. cbn [lx_rest] in Hr. subst rest0.
  cbn [lx_rest lx_line lx_column lx_tokens].
  destruct (@skipWhitespaceAndComments_loop_skippable skipped Hs
              (S (length (skipped ++ c :: rest))) (c :: rest) line column tokens
              ltac:(lia)) as (fuel' & Hf' & E).
  rewrite E. destruct fuel' as [|fuel']; [simpl in Hf'; lia|].
  cbn [skipWhitespaceAndComments_loop isAtEnd peek lx_rest].
  unfold isBlank in Hb. apply orb_false_elim in Hb as [Hb ->]. rewrite Hb.
  rewrite Hc. reflexivity.
Qed.

Lemma skipWhitespaceAndComments_unclosed st skipped body :
  skippable skipped ->
  lx_rest st = (skipped ++ "/" :: "*" :: body)%char%list ->
  closes body = false ->
  skipWhitespaceAndComments st = Ok (afterText (lx_rest st) [] st).
Proof.
  intros Hs Hr Hb. unfold skipWhitespaceAndComments, afterText.
  destruct st as [rest0 line column tokens]. cbn [lx_rest] in Hr. subst rest0.
  cbn [lx_rest lx_line lx_column lx_tokens].
  destruct (@skipWhitespaceAndComments_loop_skippable skipped Hs
              (S (length (skipped ++ "/" :: "*" :: body)%char%list))
              ("/" :: "*" :: body)%char%list line column tokens
              ltac:(lia)) as (fuel' & Hf' & E).
  rewrite E. destruct fuel' as [|[|fuel']]; try (simpl in Hf'; lia).
  rewrite positionAfter_app.
  cbn [skipWhitespaceAndComments_loop isAtEnd peek peekNext lx_rest].
  change (Ascii.eqb "/" " " || Ascii.eqb "/" c_tab || Ascii.eqb "/" c_return)
    with false.
  change (Ascii.eqb "/" c_newline) with false.
  change (Ascii.eqb "/" "/" && Ascii.eqb "*" "/") with false.
  change (Ascii.eqb "/" "/" && Ascii.eqb "*" "*") with true.
  cbv iota. unfold advance at 2. cbn [lx_rest snd lx_line lx_column lx_tokens].
  unfold advance at 1. cbn [lx_rest snd lx_line lx_column lx_tokens].
  rewrite skipBlockComment_open by exact Hb.
  cbn [isAtEnd lx_rest negb positionAfter].
  change (Ascii.eqb "/" c_newline) with false.
  change (Ascii.eqb "*" c_newline) with false. reflexivity.
Qed.

Lemma not_at_end_app st (skipped : list ascii) c rest :
  lx_rest st = (skipped ++ c :: rest)%list -> isAtEnd st = false.
Proof. unfold isAtEnd. intros ->. now destruct skipped. Qed.

(** C4, as the code has it.  When the main loop of the lexer is at a
    place where, after white space and closed comments, a block comment
    opens that is never closed, [tokenize] raises nothing: the rest of
    the input is read as comment, and the result is the tokens scanned so
    far followed by the end-of-file token, which carries the position of
    the end of the input. *)
Theorem unterminated_block_comment_is_skipped
    (source : string) (st : LexerState) (skipped body : list ascii) :
  tokenizing source st ->
  skippable skipped ->
  lx_rest st = (skipped ++ "/" :: "*" :: body)%char%list ->
  closes body = false ->
  tokenize source
  = Ok (lx_tokens st
        ++ [endOfFile
              (fst (positionAfter (lx_rest st) (lx_line st) (lx_column st)))
              (snd (positionAfter (lx_rest st) (lx_line st) (lx_column st)))])%list.
Proof.
  intros Ht Hs Hr Hb. rewrite (@tokenizing_tokenize source st Ht).
  pose proof (@skipWhitespaceAndComments_unclosed st skipped body Hs Hr Hb) as Hskip.
  pose proof (@not_at_end_app st _ _ _ Hr) as He.
  unfold tokenize_from. rewrite scanFuel_positive.
  assert (Hl : exists n, length (lx_rest st) = S n).
  { rewrite Hr, length_app. cbn [length]. exists (length skipped + S (length body)). lia. }
  destruct Hl as (n & Hl). rewrite Hl.
  rewrite (tokenize_loop_step (S n) _ st (st' := afterText (lx_rest st) [] st) He).
  - rewrite tokenize_loop_at_end by reflexivity. reflexivity.
  - cbn [scanToken]. rewrite Hskip. reflexivity.
Qed.

Lemma startsToken_false c :
  startsToken c = false ->
  isBlank c = false /\ Ascii.eqb c "/" = false
  /\ forall fuel line column tokens rest,
       scanToken (S fuel)
         {| lx_rest := c :: rest; lx_line := line; lx_column := column;
            lx_tokens := tokens |}
       = Throw (UnexpectedCharacter c line column).
Proof.
  intros Hc.
  destruct c as [[] [] [] [] [] [] [] []]; try discriminate Hc;
    (split; [reflexivity|split; [reflexivity|intros; reflexivity]]).
Qed.

(** X25. A character that starts no token is an error wherever the
    main loop of the lexer meets it, also behind white space and
    comments: any character other than a letter, a digit, [_], [$],
    white space, a quote, a backtick and the characters of the operators
    and punctuation (so also [#], a backslash and every character beyond
    ASCII) makes [tokenize] raise "Unexpected character" with the
    character and its line and column. *)
Theorem unexpected_character_is_an_error
    (source : string) (st : LexerState) (skipped : list ascii) (c : ascii)
    (rest : list ascii) :
  tokenizing source st ->
  skippable skipped ->
  lx_rest st = (skipped ++ c :: rest)%list ->
  startsToken c = false ->
  tokenize source
  = Throw (UnexpectedCharacter c
             (fst (positionAfter skipped (lx_line st) (lx_column st)))
             (snd (positionAfter skipped (lx_line st) (lx_column st)))).
Proof.
  intros Ht Hs Hr Hc. rewrite (@tokenizing_tokenize source st Ht).
  destruct (@startsToken_false c Hc) as (Hb & Hslash & Hthrow).
  pose proof (@skipWhitespaceAndComments_skippable st skipped c rest Hs Hr Hb
                Hslash) as Hskip.
  pose proof (@not_at_end_app st _ _ _ Hr) as He.
  unfold tokenize_from. rewrite scanFuel_positive.
  assert (Hl : exists n, length (lx_rest st) = S n).
  { rewrite Hr, length_app. cbn [length]. exists (length skipped + length rest). lia. }
  destruct Hl as (n & Hl). rewrite Hl. cbn [tokenize_loop]. rewrite He.
  cbn [negb].
  assert (E : forall fuel,
            scanToken (S fuel) st
            = scanToken (S fuel) (afterText skipped (c :: rest) st)).
  { intros fuel. cbn [scanToken]. rewrite Hskip.
    rewrite (skipWhitespaceAndComments_at_token
               (afterText skipped (c :: rest) st) (c := c) (rest := rest)
               eq_refl);
      [reflexivity| | |exact Hslash];
      unfold isBlank in Hb; apply orb_false_elim in Hb as [Hb1 Hb2];
      assumption. }
  rewrite E. unfold afterText. rewrite Hthrow. reflexivity.
Qed.

End MainLoop.
End LexerProperties.


(** * emitter.ts: what the emitter adds to its output *)

Module EmitterProperties.
Import Types.
Import Emitter.

Section Appending.
Context {numbers : Numbers} {JS : JSRuntime}.

(** [st'] has the indentation of [st], and its output is that of [st]
    with text added at the end. *)
Definition appends (st st' : EmitterState) : Prop :=
  indentLevel st' = indentLevel st
  /\ exists text, output st' = output st ++ text.

Definition Appends (m : EmitterState -> option EmitterState) : Prop :=
  forall st st', m st = Some st' -> appends st st'.

Lemma appends_refl st : appends st st.
Proof. split; [reflexivity|]. exists "". now rewrite append_empty_r. Qed.

Lemma appends_trans st1 st2 st3 :
  appends st1 st2 -> appends st2 st3 -> appends st1 st3.
Proof.
  intros [L1 [t1 O1]] [L2 [t2 O2]]. split; [congruence|].
  exists (t1 ++ t2). now rewrite O2, O1, append_assoc.
Qed.

Lemma Appends_forEachO {A} (f : A -> EmitterState -> option EmitterState) l :
  (forall x, In x l -> Appends (f x)) -> Appends (forEachO f l).
Proof.
  induction l as [|x l IH]; intros H st st' E; simpl in E.
  - injection E as <-. apply appends_refl.
  - destruct (f x st) as [st1|] eqn:E1; simpl in E; [|discriminate].
    eapply appends_trans; [eapply H; [now left | exact E1]|].
    eapply IH; [|exact E]. intros y Hy. apply H. now right.
Qed.

(** Open the equations of a run of the emitter. *)
Ltac run :=
  repeat match goal with
         | H : Some _ = Some _ |- _ => injection H as <-
         | H : None = Some _ |- _ => discriminate H
         | H : bindO ?m _ = Some _ |- _ =>
             let E := fresh "E" in
             destruct m eqn:E; cbn [bindO] in H; [|discriminate H]
         | H : (if ?c then _ else _) = Some _ |- _ => destruct c eqn:?
         | H : match ?x with _ => _ end = Some _ |- _ => destruct x eqn:?
         end.

(** Close a goal [appends st st'] from the facts on the states between. *)
Ltac close :=
  repeat match goal with
         | H : appends _ _ |- _ =>
             let L := fresh "L" in
             let t := fresh "t" in
             let O := fresh "O" in
             destruct H as [L [t O]]
         end;
  unfold appends, emitLine, appendOutput, indentMore, indentLess,
    setIndentLevel in *;
  cbn [output indentLevel] in *;
  split;
  [ lia
  | repeat match goal with
           | O : output ?s = _ |- _ => rewrite O; clear O
           end;
    rewrite ?append_assoc;
    first [ eexists; reflexivity | exists ""; now rewrite append_empty_r ] ].

Lemma Appends_emitEnumDeclaration name members isConst :
  Appends (emitEnumDeclaration name members isConst).
Proof.
  intros st st' E. unfold emitEnumDeclaration in E.
  destruct isConst; [run; close|].
  cbv zeta in E. change num_zero with (autoIncrementedValue []) in E.
  rewrite emitEnumMembers_spec in E. run. close.
Qed.


(** *** White space at the end of the output *)

Lemma dropWhile_app p (a b : list ascii) :
  existsb (fun c => negb (p c)) a = true ->
  dropWhile p (a ++ b)%list = (dropWhile p a ++ b)%list.
Proof.
  induction a as [|c a IH]; simpl; [discriminate|].
  destruct (p c); simpl; auto.
Qed.

Lemma string_of_list_app (a b : list ascii) :
  string_of_list_ascii (a ++ b)%list
  = string_of_list_ascii a ++ string_of_list_ascii b.
Proof. induction a; simpl; congruence. Qed.

(** [trimEnd] leaves what stands before a character that is not white
    space. *)
Lemma trimEnd_keeps (a b : string) :
  existsb (fun c => negb (js_isWhiteSpace c)) (list_ascii_of_string b) = true ->
  exists t, trimEnd (a ++ b) = a ++ t.
Proof.
  intros H. unfold trimEnd. rewrite LexerProperties.list_ascii_app, rev_app_distr.
  rewrite dropWhile_app.
  - rewrite rev_app_distr, rev_involutive, string_of_list_app,
      string_of_list_ascii_of_string. eexists. reflexivity.
  - apply existsb_exists in H as (c & Hin & Hc).
    apply existsb_exists. exists c. split; [now apply in_rev in Hin|exact Hc].
Qed.


Lemma has_nonblank (a : string) (c : ascii) (b : string) :
  js_isWhiteSpace c = false ->
  existsb (fun c => negb (js_isWhiteSpace c))
    (list_ascii_of_string (a ++ String c b)) = true.
Proof.
  intros H. rewrite LexerProperties.list_ascii_app, existsb_app. simpl. rewrite H.
  apply orb_true_r.
Qed.

(** *** The emitters of statements *)

Section Bodies.
Variable eS eI : Statement -> EmitterState -> option EmitterState.

Lemma Appends_emitStatements stmts :
  (forall x, In x stmts -> Appends (eS x)) -> Appends (emitStatements eS stmts).
Proof. apply Appends_forEachO. Qed.

Lemma Appends_emitBraced opening stmts :
  (forall x, In x stmts -> Appends (eS x)) ->
  Appends (emitBraced eS opening stmts).
Proof.
  intros H st st' E. unfold emitBraced in E. cbv zeta in E. run.
  apply (Appends_emitStatements _ H) in E0. close.
Qed.

Lemma Appends_emitFunctionDeclaration name parameters body isAsync isGenerator :
  (forall x, In x body -> Appends (eS x)) ->
  Appends (emitFunctionDeclaration eS name parameters body isAsync isGenerator).
Proof.
  intros H st st' E. unfold emitFunctionDeclaration in E. cbv zeta in E. run.
  apply (Appends_emitBraced _ _ H) in E1. close.
Qed.

Lemma Appends_emitLoop header body closing :
  Appends (emitBody eS body) -> Appends (emitLoop eS header body closing).
Proof.
  intros H st st' E. unfold emitLoop in E. cbv zeta in E. run.
  apply H in E0. close.
Qed.


(** The statements inside a class member. *)
Definition memberStatements (member : ClassMember Expression Statement)
    : list Statement :=
  match member with
  | MethodDeclaration _ _ _ (Some body) _ _ _ => body
  | ConstructorDeclaration _ body => body
  | GetterDeclaration _ body _ => body
  | SetterDeclaration _ _ body _ => body
  | _ => []
  end.

Lemma Appends_emitClassMember member :
  (forall x, In x (memberStatements member) -> Appends (eS x)) ->
  Appends (emitClassMember eS member).
Proof.
  intros H st st' E. destruct member; cbn [emitClassMember memberStatements] in *;
    cbv zeta in E; run;
    try match goal with
        | E : emitBraced _ _ _ _ = Some _ |- _ =>
            apply (Appends_emitBraced _ _ H) in E
        end;
    close.
Qed.

Lemma Appends_emitClassDeclaration name superClass members isAbstract :
  (forall member, In member members -> Appends (emitClassMember eS member)) ->
  Appends (emitClassDeclaration eS name superClass members isAbstract).
Proof.
  intros H st st' E. unfold emitClassDeclaration in E. cbv zeta in E. run;
    match goal with
    | E : forEachO _ _ _ = Some _ |- _ => apply (Appends_forEachO _ _ H) in E
    end;
    close.
Qed.

Lemma Appends_emitIfStatement_fields condition consequent alternate :
  Appends (emitBody eS consequent) ->
  (forall a, alternate = Some a -> Appends (eI a) /\ Appends (emitBody eS a)) ->
  Appends (emitIfStatement_fields eS eI condition consequent alternate).
Proof.
  intros Hc Ha st st' E. unfold emitIfStatement_fields in E. cbv zeta in E.
  destruct (emitExpression condition) as [c|]; cbn [bindO] in E; [|discriminate].
  destruct (emitBody eS consequent _) as [st1|] eqn:E1; cbn [bindO] in E;
    [|discriminate].
  apply Hc in E1.
  destruct alternate as [a|]; [|run; close].
  destruct (Ha a eq_refl) as [HI HB].
  assert (Helse : forall st2, emitBody eS a
                    (indentMore (emitLine "} else {" (indentLess st1))) = Some st2 ->
                  appends st (emitLine "}" (indentLess st2))).
  { intros st2 E2. apply HB in E2. close. }
  destruct a; try (run; now apply Helse).
  (* else if *)
  apply HI in E. destruct E1 as [L1 [t1 O1]], E as [L [t O]].
  unfold emitLine, indentMore, indentLess, setIndentLevel in *.
  cbn [output indentLevel] in *.
  split; [lia|]. rewrite O, O1. rewrite !append_assoc. cbn [append].
  match goal with
  | |- context [trimEnd (output st ++ ?b)] =>
      destruct (trimEnd_keeps (output st) b) as [kept K]
  end.
  { apply has_nonblank. reflexivity. }
  rewrite K, !append_assoc. eexists. reflexivity.
Qed.

Lemma Appends_emitSwitchCase caseClause :
  (forall x, In x (sc_consequent caseClause) -> Appends (eS x)) ->
  Appends (emitSwitchCase eS caseClause).
Proof.
  intros H st st' E. unfold emitSwitchCase in E. cbv zeta in E. run;
    match goal with
    | E : emitStatements _ _ _ = Some _ |- _ =>
        apply (Appends_emitStatements _ H) in E
    end;
    close.
Qed.

Lemma Appends_emitTryStatement block handler finalizer :
  (forall x, In x block -> Appends (eS x)) ->
  (forall h x, handler = Some h -> In x (cc_body h) -> Appends (eS x)) ->
  (forall f x, finalizer = Some f -> In x f -> Appends (eS x)) ->
  Appends (emitTryStatement eS block handler finalizer).
Proof.
  intros Hb Hh Hf st st' E. unfold emitTryStatement in E. run;
    repeat match goal with
           | E : emitBraced _ _ block _ = Some _ |- _ =>
               apply (Appends_emitBraced _ _ Hb) in E
           | E : emitBraced _ _ (cc_body ?h) _ = Some _ |- _ =>
               apply (Appends_emitBraced _ _ (fun x => Hh h x eq_refl)) in E
           | E : emitBraced _ _ ?f _ = Some _ |- _ =>
               apply (Appends_emitBraced _ _ (fun x => Hf f x eq_refl)) in E
           end;
    close.
Qed.


Lemma Appends_emitForStatement init condition update body :
  Appends (emitBody eS body) ->
  Appends (emitForStatement eS init condition update body).
Proof.
  intros H st st' E. unfold emitForStatement in E. run;
    eapply Appends_emitLoop; eauto.
Qed.

(** The declaration that an [export] carries is printed by the emitter
    of its kind. *)
Definition emitsDeclaration (declaration : Statement) : Prop :=
  match declaration with
  | FunctionDeclaration name parameters _ body isAsync isGenerator _ =>
      Appends (emitFunctionDeclaration eS name parameters body isAsync
                 isGenerator)
  | ClassDeclaration name superClass members isAbstract _ =>
      Appends (emitClassDeclaration eS name superClass members isAbstract)
  | _ => True
  end.

Lemma Appends_emitExportDeclaration declaration specifiers source isDefault :
  (forall d, declaration = Some d -> emitsDeclaration d) ->
  Appends (emitExportDeclaration eS declaration specifiers source isDefault).
Proof.
  intros H st st' E. unfold emitExportDeclaration in E. cbv zeta in E.
  assert (Hd : forall d, declaration = Some d -> emitsDeclaration d) by exact H.
  destruct declaration as [d|].
  - specialize (H d eq_refl).
    destruct d; cbn [emitsDeclaration] in H; run;
      try match goal with
          | E : emitFunctionDeclaration _ _ _ _ _ _ _ = Some _ |- _ =>
              apply H in E
          | E : emitClassDeclaration _ _ _ _ _ _ = Some _ |- _ => apply H in E
          | E : emitEnumDeclaration _ _ _ _ = Some _ |- _ =>
              apply Appends_emitEnumDeclaration in E
          end;
      close.
  - run; close.
Qed.

End Bodies.

(** The statements of a block are emitted by [emitBody] one by one. *)
Definition blockStatements (stmt : Statement) : list Statement :=
  match stmt with
  | BlockStatement stmts _ => stmts
  | _ => []
  end.

Lemma Appends_emitBody stmt :
  Appends (emitStatement stmt) ->
  (forall x, In x (blockStatements stmt) -> Appends (emitStatement x)) ->
  Appends (emitBody emitStatement stmt).
Proof.
  intros H Hb. destruct stmt; try exact H.
  cbn [emitBody]. now apply Appends_emitStatements.
Qed.

(** What the induction carries for a statement. *)
Definition emitted (stmt : Statement) : Prop :=
  Appends (emitStatement stmt)
  /\ Appends (emitIfStatement stmt)
  /\ Appends (emitBody emitStatement stmt).

Lemma emitted_list stmts :
  list_all emitted stmts -> forall x, In x stmts -> Appends (emitStatement x).
Proof.
  intros X x Hin.
  exact (proj1 (Checker.list_all_In emitted stmts X x Hin)).
Qed.

Lemma class_members_emitted members :
  list_all (ClassMember_all (fun _ : Expression => True) emitted) members ->
  forall member, In member members ->
    Appends (emitClassMember emitStatement member).
Proof.
  intros X member Hin. apply Appends_emitClassMember.
  revert member Hin.
  refine (Checker.list_all_In_map _
            (fun member => forall x, In x (memberStatements member) ->
                             Appends (emitStatement x)) members _ X).
  intros member M. destruct M; cbn [memberStatements]; try (intros ? []);
    try (now apply emitted_list).
  match goal with
  | H : option_all _ ?body |- _ => destruct H; [|intros ? []]
  end.
  now apply emitted_list.
Qed.

Lemma switch_cases_emitted cases :
  list_all (SwitchCase_all (fun _ : Expression => True) emitted) cases ->
  forall caseClause, In caseClause cases ->
    Appends (emitSwitchCase emitStatement caseClause).
Proof.
  intros X caseClause Hin. apply Appends_emitSwitchCase.
  revert caseClause Hin.
  refine (Checker.list_all_In_map _
            (fun caseClause => forall x, In x (sc_consequent caseClause) ->
                                 Appends (emitStatement x)) cases _ X).
  intros caseClause M. destruct M. cbn [sc_consequent].
  now apply emitted_list.
Qed.

Lemma emitStatement_emitted : forall stmt, emitted stmt.
Proof.
  assert (Hfinish : forall stmt,
            Appends (emitStatement stmt) ->
            Appends (emitIfStatement stmt) ->
            (forall x, In x (blockStatements stmt) -> Appends (emitStatement x)) ->
            emitted stmt).
  { intros stmt H1 H2 H3. split; [exact H1 | split; [exact H2|]].
    now apply Appends_emitBody. }
  assert (Hnone : forall m : EmitterState -> option EmitterState,
            (forall st, m st = None) -> Appends m).
  { intros m H st st' E. rewrite H in E. discriminate. }
  assert (Hif : forall condition consequent alternate,
            emitted consequent -> option_all emitted alternate ->
            Appends (emitIfStatement_fields emitStatement emitIfStatement
                       condition consequent alternate)).
  { intros condition consequent alternate Hc Ha.
    apply Appends_emitIfStatement_fields; [apply Hc|].
    intros a ->. inversion Ha as [a' Ha'|]; subst.
    split; apply Ha'. }
  apply (@syntax_ind _ (fun _ => True) emitted); intros; try exact I;
    (apply Hfinish;
     [ | first [ apply Hnone; intro; reflexivity | now apply Hif ]
       | cbn [blockStatements]; try (intros ? []);
         try (apply emitted_list; assumption) ]).
  all: try (intros st st' E; cbn [emitStatement emitStatement_body] in E).
  all: try solve [unfold emitVariableDeclaration, emitReturnStatement in E;
                  run; close].
  - (* function declaration *)
    eapply Appends_emitFunctionDeclaration; [|exact E].
    now apply emitted_list.
  - (* class declaration *)
    eapply Appends_emitClassDeclaration; [|exact E].
    now apply class_members_emitted.
  - (* enum declaration *)
    eapply Appends_emitEnumDeclaration; exact E.
  - (* if *)
    eapply Hif; eassumption.
  - (* while *)
    run. eapply Appends_emitLoop; [|eassumption].
    match goal with H : emitted body |- _ => apply H end.
  - (* for *)
    eapply Appends_emitForStatement; [|exact E].
    match goal with H : emitted body |- _ => apply H end.
  - (* for-of *)
    run; (eapply Appends_emitLoop; [|eassumption]);
      match goal with H : emitted body |- _ => apply H end.
  - (* for-in *)
    run. eapply Appends_emitLoop; [|eassumption].
    match goal with H : emitted body |- _ => apply H end.
  - (* do-while *)
    cbv zeta in E. run.
    match goal with
    | H : emitted body, E : emitBody _ body _ = Some _ |- _ =>
        apply (proj2 (proj2 H)) in E
    end.
    close.
  - (* switch *)
    cbv zeta in E. run.
    match goal with
    | X : list_all _ cases, E : forEachO _ cases _ = Some _ |- _ =>
        apply (Appends_forEachO _ _ (@switch_cases_emitted cases X)) in E
    end.
    close.
  - (* try *)
    eapply Appends_emitTryStatement; [| | |exact E].
    + now apply emitted_list.
    + intros h x ->.
      match goal with H : option_all _ (Some h) |- _ => inversion H as [? M|] end.
      subst. destruct M. cbn [cc_body]. now apply emitted_list.
    + intros f x ->.
      match goal with H : option_all _ (Some f) |- _ => inversion H as [? M|] end.
      subst. now apply emitted_list.
  - (* block *)
    run.
    match goal with
    | X : list_all emitted ?l, E : emitBraced _ _ ?l _ = Some _ |- _ =>
        apply (Appends_emitBraced _ _ _ (@emitted_list l X)) in E
    end.
    close.
  - (* import *)
    injection E as <-. unfold emitImportDeclaration.
    destruct specifiers; [close|]. cbv zeta.
    match goal with |- appends _ (emitLine ?l _) => generalize l end.
    intros l. close.
  - (* export *)
    eapply Appends_emitExportDeclaration; [|exact E].
    intros d ->.
    match goal with H : option_all _ (Some d) |- _ => inversion H as [? M|] end.
    subst. destruct d; try exact I; apply M.
Qed.

(** X26. Emitting a statement adds text at the end of the output and
    leaves the indentation as it found it: what was emitted before the
    statement is still in front, and every block the statement opens is
    closed. *)
Theorem emitStatement_appends (stmt : Statement) (st st' : EmitterState) :
  emitStatement stmt st = Some st' ->
  indentLevel st' = indentLevel st
  /\ exists text, output st' = output st ++ text.
Proof. apply emitStatement_emitted. Qed.

(** X27. The output for a program starts with the output for any
    prefix of its statements: [emit] prints the statements in order and
    rewrites nothing. *)
Theorem emit_is_incremental (first more : list Statement) (out : string) :
  emit {| statements := (first ++ more)%list |} = Some out ->
  exists outFirst text,
    emit {| statements := first |} = Some outFirst
    /\ out = outFirst ++ text.
Proof.
  unfold emit. cbn [statements].
  assert (Happ : forall a l st,
            forEachO emitStatement (a ++ l)%list st
            = bindO (forEachO emitStatement a st)
                (forEachO emitStatement l)).
  { intros a l. induction a as [|x r IH]; intros st; simpl; [reflexivity|].
    destruct (emitStatement x st); simpl; [apply IH | reflexivity]. }
  rewrite Happ. intros E.
  destruct (forEachO emitStatement first _) as [st1|] eqn:E1; cbn [bindO] in *;
    [|discriminate].
  destruct (forEachO emitStatement more st1) as [st2|] eqn:E2; cbn [bindO] in E;
    [|discriminate].
  injection E as <-.
  assert (A : appends st1 st2).
  { eapply Appends_forEachO; [|exact E2].
    intros x _. apply emitStatement_emitted. }
  destruct A as [_ [text O]]. exists (output st1), text. auto.
Qed.

End Appending.

(** ** Function bodies printed on one line *)

Section Inline.
Context {numbers : Numbers} {JS : JSRuntime}.

(** The statements that [emitStatementInline] has a case for. *)
Definition printedInline (stmt : Statement) : bool :=
  match stmt with
  | ReturnStatement _ _ | ExpressionStatement _ _ | VariableDeclaration _
  | BreakStatement _ _ | ContinueStatement _ _ | ThrowStatement _ _
  | IfStatement _ _ _ _ | BlockStatement _ _
  | ForOfStatement _ _ _ _ _ | ForInStatement _ _ _ _ => true
  | _ => false
  end.

Definition isForIn (stmt : Statement) : bool :=
  match stmt with
  | ForInStatement _ _ _ _ => true
  | _ => false
  end.

Lemma mapM_raises {A B} (f : A -> option B) l :
  (exists x, In x l /\ f x = None) -> mapM f l = None.
Proof.
  intros (x & Hin & Hx). induction l as [|y l IH]; [contradiction|].
  cbn [mapM]. destruct Hin as [->|Hin].
  - now rewrite Hx.
  - destruct (f y); cbn [bindO]; [|reflexivity].
    change ((fix go (l0 : list A) : option (list B) :=
               match l0 with
               | [] => Some []
               | x0 :: r => bindO (f x0) (fun y0 => bindO (go r) (fun ys => Some (y0 :: ys)))
               end) l) with (mapM f l).
    now rewrite IH.
Qed.

(** X28. The body of a function expression or of an arrow function is
    printed on one line by a printer of its own, which knows fewer
    statements than [emitStatement].  A statement it has no case for (a
    [while], [for], [do], [switch] or [try] statement, a declaration of a
    function, class or enum) is printed as the empty text, whatever it
    contains; and a [for-in] statement makes the emitter raise, so that
    no function expression or arrow function whose body has a [for-in]
    statement is emitted. *)
Theorem function_bodies_are_printed_in_part :
  (forall stmt, printedInline stmt = false -> emitStatementInline stmt = Some "")
  /\ (forall stmts, existsb isForIn stmts = true ->
        (forall name parameters returnType isAsync isGenerator line,
           emitExpression
             (FunctionExpression name parameters returnType stmts isAsync
                isGenerator line) = None)
        /\ (forall parameters returnType isAsync line,
              emitExpression
                (ArrowFunction parameters returnType (inr stmts) isAsync line)
              = None)).
Proof.
  split.
  - intros stmt H. destruct stmt; try discriminate; reflexivity.
  - intros stmts H.
    assert (Hraise : emitInlineStatements emitStatementInline stmts = None).
    { unfold emitInlineStatements. rewrite mapM_raises; [reflexivity|].
      apply existsb_exists in H as (x & Hin & Hx). exists x. split; [exact Hin|].
      destruct x; try discriminate.
      match goal with
      | |- emitStatementInline ?s = None =>
          change (emitStatementInline_body emitExpression emitStatementInline
                    emitIfStatementInline s = None)
      end.
      cbn [emitStatementInline_body]. now destruct (emitStatementInline x). }
    split; intros;
      match goal with
      | |- emitExpression ?e = None =>
          change (emitExpression_body emitExpression emitStatementInline e = None)
      end;
      cbn [emitExpression_body]; cbv zeta;
      destruct (emitParameters emitExpression parameters); cbn [bindO];
      try reflexivity; now rewrite Hraise.
Qed.

End Inline.
End EmitterProperties.

(** * compiler.ts *)

Module Compiler.
Import Types.

Section Compile.
Context {numbers : Numbers} {JS : JSRuntime}.

(** [CompileOptions]; an option left out is [false]. *)
Record CompileOptions : Type := {
  skipTypeCheck : bool;
  includeAST : bool;
  includeTokens : bool
}.

(** [CompileResult]; [None] is a field that is not set. *)
Record CompileResult : Type := {
  success : bool;
  output : option string;
  errors : list CompilerError;
  ast : option Program;
  tokens : option (list Token)
}.

(** What the [try] block of [compile] can catch: an exception of the
    lexer, of the parser, or of the emitter.  All of them are instances
    of [Error]. *)
Inductive Thrown :=
| LexerThrew (e : Lexer.LexError)
| ParserThrew (e : Parser.ParseError)
| EmitterThrew.

(** What a call of [parse] does: it returns a program, or it raises an
    [Error] with a message. *)
Inductive Parsed :=
| Returned (ast_ : Program)
| Raised (message : string).

(** The message of an exception that the engine raises itself (the
    [RangeError] of [String.fromCodePoint], the [TypeError] of reading a
    property of [undefined]) is the engine's; it is a function of the
    source text and of where the exception was raised. *)
Variable engineMessage : string -> Thrown -> string.

(** What [parse] does with the token lists that take it into a
    production which [Parser.parse] does not embed. *)
Variable parseElsewhere : list Token -> Parsed.

(** [error.message] *)
Definition thrownMessage (source : string) (thrown : Thrown) : string :=
  let at_line (line : nat) := " at line " ++ Checker.count_toString line in
  let at_column (column : nat) := ", column " ++ Checker.count_toString column in
  match thrown with
  | LexerThrew (Lexer.UnterminatedString line) =>
      "Unterminated string" ++ at_line line
  | LexerThrew (Lexer.UnterminatedTemplateLiteral line) =>
      "Unterminated template literal" ++ at_line line
  | LexerThrew (Lexer.UnexpectedDotDot line column) =>
      "Unexpected token '..'" ++ at_line line ++ at_column column
  | LexerThrew (Lexer.UnexpectedCharacter char line column) =>
      "Unexpected character '" ++ String char "'" ++ at_line line
      ++ at_column column
  | ParserThrew (Parser.Expected message line got) =>
      message ++ at_line line ++ ", got '" ++ got ++ "'"
  | ParserThrew (Parser.UnexpectedToken value line) =>
      "Unexpected token '" ++ value ++ "'" ++ at_line line
  | ParserThrew (Parser.ExpectedTemplateContinuation line) =>
      "Expected template continuation" ++ at_line line
  | LexerThrew Lexer.InvalidCodePoint
  | LexerThrew Lexer.LastTokenUndefined
  | ParserThrew Parser.UndefinedToken
  | EmitterThrew => engineMessage source thrown
  end.

(** [parse(tokens)]: the embedded productions where they give the
    answer, and [parseElsewhere] on the other token lists. *)
Definition parse (source : string) (tokens_ : list Token) : Parsed :=
  match Parser.parse tokens_ with
  | Ok ast_ => Returned ast_
  | Throw e => Raised (thrownMessage source (ParserThrew e))
  | Undetermined => parseElsewhere tokens_
  end.

(** The [catch] block: [result.errors.push({ message, line: 1 })]. *)
Definition caught (message : string) (result : CompileResult)
    : CompileResult :=
  {| success := success result;
     output := output result;
     errors := (errors result ++ [{| message := message; line := 1 |}])%list;
     ast := ast result;
     tokens := tokens result |}.

(** [compile]; [None] only where the lexer were to give no answer,
    which [compile_result] shows it never does. *)
Definition compile (source : string) (options : CompileOptions)
    : option CompileResult :=
  let result :=
    {| success := false; output := None; errors := []; ast := None;
       tokens := None |} in
  (* Phase 1: Lexical Analysis *)
  match Lexer.tokenize source with
  | Undetermined => None
  | Throw e => Some (caught (thrownMessage source (LexerThrew e)) result)
  | Ok tokens_ =>
      let result :=
        if includeTokens options
        then {| success := success result; output := output result;
                errors := errors result; ast := ast result;
                tokens := Some tokens_ |}
        else result in
      (* Phase 2: Syntax Analysis *)
      match parse source tokens_ with
      | Raised message => Some (caught message result)
      | Returned ast_ =>
          let result :=
            if includeAST options
            then {| success := success result; output := output result;
                    errors := errors result; ast := Some ast_;
                    tokens := tokens result |}
            else result in
          (* Phase 3: Type Checking *)
          let typeErrors :=
            if negb (skipTypeCheck options) then Checker.typeCheck ast_
            else [] in
          if negb (skipTypeCheck options) && (0 <? length typeErrors)%nat then
            Some {| success := success result; output := output result;
                    errors := typeErrors; ast := ast result;
                    tokens := tokens result |}
          else
            (* Phase 4: Code Generation *)
            match Emitter.emit ast_ with
            | None =>
                Some (caught (thrownMessage source EmitterThrew) result)
            | Some output_ =>
                Some {| success := true; output := Some output_;
                        errors := errors result; ast := ast result;
                        tokens := tokens result |}
            end
      end
  end.


End Compile.
End Compiler.

(** * Examples

    The examples below run the embedding on a runtime whose numbers are
    the natural numbers written in decimal: enough for the sources they
    use, which hold no fraction, sign or exponent and no code point
    above 255. *)

Module Examples.
Import Types.

Fixpoint parseDigits (s : string) (acc : N) : N :=
  match s with
  | String c rest =>
      if Lexer.isDigit c
      then parseDigits rest (10 * acc + (N_of_ascii c - 48))%N
      else acc
  | EmptyString => acc
  end.

Definition naturalNumbers : Numbers := {| number := N |}.

#[local] Existing Instance naturalNumbers.

Definition naturals : JSRuntime :=
  {| num_zero := 0%N;
     num_add1 := N.succ;
     num_toString := fun n => NilEmpty.string_of_uint (N.to_uint n);
     parseFloat := fun s => parseDigits s 0%N;
     String_fromCodePoint := fun n => String (ascii_of_N n) "" |}.

#[local] Existing Instance naturals.

Definition token (type : TokenType.t) (value : string) (line column : nat)
    : Token :=
  {| tok_type := type; tok_value := value; tok_line := line;
     tok_column := column |}.

(** ** Assignability *)

Definition literalA : TypeValue := LiteralTypeValue (LitString "a").
Definition literalB : TypeValue := LiteralTypeValue (LitString "b").

(** C1, at [string] and the union of the literal types "a" and "b". *)
Lemma string_to_string_literal_union_rejected_witness :
  forallb Assignability.isStringLiteralType [literalA; literalB] = true
  /\ Assignability.isAssignable createStringType
       (UnionTypeValue [literalA; literalB]) = false.
Proof.
  split; [vm_compute; reflexivity|].
  apply (Assignability.string_to_string_literal_union_rejected
           [literalA; literalB]).
  vm_compute; reflexivity.
Defined.

(** ** The lexer on an unterminated block comment *)

Definition unterminatedComment : string := "/* abc".

(** C4: [tokenize] returns the end-of-file token for a source that is
    an unterminated block comment. *)
Lemma unterminated_block_comment_tokenizes :
  Lexer.tokenize unterminatedComment = Ok [token TokenType.EOF "" 1 7].
Proof. vm_compute. reflexivity. Qed.

(** [x; // c], then on the next line [/* a */ /* b]: the second block
    comment is never closed. *)
Definition openCommentSource : string :=
  "x; // c" ++ newline ++ "/* a */ /* b".

(** What is read before the comment that stays open, and the body of
    that comment. *)
Definition beforeOpenComment : list ascii :=
  (" " :: "/" :: "/" :: [" "; "c"] ++ Lexer.c_newline
   :: "/" :: "*" :: [" "; "a"; " "] ++ "*" :: "/" :: [" "])%char%list.

Definition openCommentBody : list ascii := [" "; "b"]%char.

(** The main loop after the tokens [x] and [;]. *)
Definition afterX (rest : string) : Lexer.LexerState :=
  {| Lexer.lx_rest := list_ascii_of_string rest;
     Lexer.lx_line := 1; Lexer.lx_column := 2;
     Lexer.lx_tokens := [token TokenType.Identifier "x" 1 1] |}.

Definition afterSemicolon (rest : string) : Lexer.LexerState :=
  {| Lexer.lx_rest := list_ascii_of_string rest;
     Lexer.lx_line := 1; Lexer.lx_column := 3;
     Lexer.lx_tokens := [token TokenType.Identifier "x" 1 1;
                         token TokenType.Semicolon ";" 1 2] |}.

Lemma skippable_beforeOpenComment :
  LexerProperties.skippable beforeOpenComment.
Proof.
  apply LexerProperties.skippable_blank; [reflexivity|].
  apply LexerProperties.skippable_line; [reflexivity|].
  apply LexerProperties.skippable_block; [reflexivity|].
  apply LexerProperties.skippable_blank; [reflexivity|].
  apply LexerProperties.skippable_nil.
Defined.

Lemma tokenizing_openCommentSource :
  LexerProperties.tokenizing openCommentSource
    (afterSemicolon (" // c" ++ newline ++ "/* a */ /* b")).
Proof.
  apply LexerProperties.tokenizing_next
    with (st := afterX ("; // c" ++ newline ++ "/* a */ /* b"));
    [|reflexivity|vm_compute; reflexivity].
  apply LexerProperties.tokenizing_next
    with (st := Lexer.initialState openCommentSource);
    [|reflexivity|vm_compute; reflexivity].
  apply LexerProperties.tokenizing_start.
Defined.

(** C4, at [x; // c], then [/* a */ /* b] on the second line: the
    end-of-file token is at line 2, column 13. *)
Lemma unterminated_block_comment_is_skipped_witness :
  LexerProperties.tokenizing openCommentSource
    (afterSemicolon (" // c" ++ newline ++ "/* a */ /* b"))
  /\ LexerProperties.skippable beforeOpenComment
  /\ Lexer.lx_rest (afterSemicolon (" // c" ++ newline ++ "/* a */ /* b"))
     = (beforeOpenComment ++ "/" :: "*" :: openCommentBody)%char%list
  /\ Lexer.closes openCommentBody = false
  /\ Lexer.tokenize openCommentSource
     = Ok [token TokenType.Identifier "x" 1 1;
           token TokenType.Semicolon ";" 1 2;
           token TokenType.EOF "" 2 13].
Proof.
  split; [exact tokenizing_openCommentSource|].
  split; [exact skippable_beforeOpenComment|].
  split; [reflexivity|]. split; [reflexivity|].
  exact (@LexerProperties.unterminated_block_comment_is_skipped _ _
           openCommentSource
           (afterSemicolon (" // c" ++ newline ++ "/* a */ /* b"))
           beforeOpenComment openCommentBody
           tokenizing_openCommentSource skippable_beforeOpenComment
           eq_refl eq_refl).
Defined.

(** Inside the expression of a template literal the comment is skipped
    in the same way, but the loop of [scanTemplateExpression] then reads
    the last token again: here it counts the [}] a second time, removes
    it and finds the template unterminated. *)
Lemma open_comment_in_template_expression :
  Lexer.tokenize ("`${ {} /* b")
  = Throw (Lexer.UnterminatedTemplateLiteral 1).
Proof. vm_compute. reflexivity. Qed.

(** ** Emission of a string enum member *)

(** [enum E { A = "\n" }], the two characters [\n] being the escape. *)
Definition enumWithNewline : string :=
  "enum E { A = " ++ quote ++ "\n" ++ quote ++ " }".

(** [tokenize] followed by [parse], as [compile] chains them. *)
Inductive FrontEndError :=
| LexicalError (e : Lexer.LexError)
| SyntaxError (e : Parser.ParseError).

Definition parseSource (source : string) : Outcome FrontEndError Program :=
  match Lexer.tokenize source with
  | Ok tokens =>
      match Parser.parse tokens with
      | Ok program => Ok program
      | Throw e => Throw (SyntaxError e)
      | Undetermined => Undetermined
      end
  | Throw e => Throw (LexicalError e)
  | Undetermined => Undetermined
  end.

Definition enumWithNewlineProgram : Program :=
  {| statements :=
       [EnumDeclaration "E"
          [{| em_name := "A";
              em_initializer := Some (StringLiteral newline 1) |}]
          false 1] |}.

Definition enumWithNewlineOutput : string :=
  "var E;" ++ newline
  ++ "(function (E) {" ++ newline
  ++ "  E[" ++ quote ++ "A" ++ quote ++ "] = " ++ quote ++ newline
  ++ quote ++ ";" ++ newline
  ++ "})(E || (E = {}));" ++ newline.

(** C8 fails here: the source tokenizes and parses, the program is
    emitted, and the emitted text does not tokenize: the string member
    is printed between quotes as it is, line break and all. *)
Theorem emitted_string_enum_member_does_not_reparse :
  parseSource enumWithNewline = Ok enumWithNewlineProgram
  /\ Emitter.emit enumWithNewlineProgram = Some enumWithNewlineOutput
  /\ parseSource enumWithNewlineOutput
     = Throw (LexicalError (Lexer.UnterminatedString 3)).
Proof. repeat split; vm_compute; reflexivity. Qed.

(** ** The checker *)

Import Checker.

(** C2 fails here: in [a = b;] with [a] on line 1 and [= b;] on line 2
    the right-hand side is checked first. *)
Definition assignmentOverTwoLines : string := "a" ++ newline ++ "= b;".

Definition assignmentOverTwoLinesProgram : Program :=
  {| statements :=
       [ExpressionStatement
          (AssignmentExpression "=" (Identifier "a" 1) (Identifier "b" 2) 1)
          1] |}.

Lemma diagnostics_out_of_line_order :
  parseSource assignmentOverTwoLines = Ok assignmentOverTwoLinesProgram
  /\ typeCheck assignmentOverTwoLinesProgram
     = [{| message := "Cannot find name 'b'"; line := 2 |};
        {| message := "Cannot find name 'a'"; line := 1 |}].
Proof. split; vm_compute; reflexivity. Qed.

(** C3 fails here: the type of [true ? 1 : true ? "a" : null] is a
    union with a union among its arms. *)
Definition nestedConditional : Expression :=
  ConditionalExpression (BooleanLiteral true 1) (NumericLiteral 1%N 1)
    (ConditionalExpression (BooleanLiteral true 1) (StringLiteral "a" 1)
       (NullLiteral 1) 1) 1.

Lemma conditional_type_is_nested_union :
  parseSource ("true ? 1 : true ? " ++ quote ++ "a" ++ quote ++ " : null;")
  = Ok {| statements := [ExpressionStatement nestedConditional 1] |}
  /\ fst (checkExpression nestedConditional newTypeChecker)
     = UnionTypeValue
         [createNumberType; UnionTypeValue [createStringType; createNullType]]
  /\ flat (fst (checkExpression nestedConditional newTypeChecker)) = false.
Proof. repeat split; vm_compute; reflexivity. Qed.

(** C7, at the call [(function (a) {})()]: one required parameter, no
    argument. *)
Definition oneParameterFunction : Expression :=
  FunctionExpression None
    [{| p_name := "a"; p_typeAnnotation := None; p_optional := false;
        p_defaultValue := None; p_rest := false |}]
    None [] false false 1.

Definition oneParameter : list (ParamInfo TypeValue) :=
  [{| param_name := "a"; param_type := createAnyType;
      param_optional := false |}].

Lemma call_arity_diagnostics_witness :
  checkExpression oneParameterFunction newTypeChecker
  = (FunctionType oneParameter createVoidType,
     snd (checkExpression oneParameterFunction newTypeChecker))
  /\ let s1 := snd (checkExpression oneParameterFunction newTypeChecker) in
     let k := length (@nil Expression) in
     let n := length oneParameter in
     let required := countRequired oneParameter in
     let checked :=
       Nat.min k (if existsb namedAsRest oneParameter then n - 1 else n) in
     let result :=
       checkExpression (CallExpression oneParameterFunction [] false 1)
         newTypeChecker in
     exists arity,
       snd result
       = snd (checkArgumentTypes checkExpression [] checked oneParameter 1
                (withDiagnostics arity s1))
       /\ fst result = createVoidType
       /\ (exists fromArguments,
             errors (snd result) = errors s1 ++ arity ++ fromArguments)%list
       /\ (arity = [atLeastDiagnostic required k 1] <-> k < required)
       /\ (arity = [atMostDiagnostic n k 1]
           <-> ~ k < required /\ noRestParameter oneParameter /\ n < k)
       /\ (arity = [] \/ arity = [atLeastDiagnostic required k 1]
           \/ arity = [atMostDiagnostic n k 1]).
Proof.
  split; [vm_compute; reflexivity|].
  refine (call_arity_diagnostics oneParameterFunction [] false 1
            newTypeChecker
            (snd (checkExpression oneParameterFunction newTypeChecker))
            oneParameter createVoidType _).
  vm_compute; reflexivity.
Defined.

(** C10, at [let x = 1; let x = "s";] followed by [x;]. *)
Definition declareX (initializer : Expression) : VariableDecl Expression :=
  {| vd_name := "x"; vd_varKind := VarLet; vd_typeAnnotation := None;
     vd_initializer := Some initializer; vd_line := 1 |}.

Definition afterFirstDeclaration : TypeChecker :=
  snd (checkStatement (VariableDeclaration (declareX (NumericLiteral 1%N 1)))
         newTypeChecker).

Definition globalScope : TypeEnvironment :=
  nth 0 (envs afterFirstDeclaration)
    {| symbols := []; types := []; parent := None |}.

Definition redeclareX : VariableDecl Expression :=
  declareX (StringLiteral "s" 1).

Definition useX : list Statement := [ExpressionStatement (Identifier "x" 2) 2].

Definition firstEntry : SymbolEntry :=
  Entry createNumberType Kvariable (Some true).

Lemma redeclaration_keeps_first_binding_witness :
  nth_error (envs afterFirstDeclaration) (currentEnv afterFirstDeclaration)
  = Some globalScope
  /\ map_get (symbols globalScope) (vd_name redeclareX) = Some firstEntry
  /\ let s1 :=
       snd (checkStatement (VariableDeclaration redeclareX)
              afterFirstDeclaration) in
     let s2 := snd (forEach checkStatement useX s1) in
     (exists earlier,
         errors s1
         = errors afterFirstDeclaration ++ earlier
           ++ [alreadyDeclared redeclareX])%list
     /\ currentEnv s1 = currentEnv afterFirstDeclaration
     /\ nth_error (envs s1) (currentEnv s1) = Some globalScope
     /\ store_lookup (envs s1) (currentEnv s1) (vd_name redeclareX)
        = Some firstEntry
     /\ currentEnv s2 = currentEnv afterFirstDeclaration
     /\ store_lookup (envs s2) (currentEnv s2) (vd_name redeclareX)
        = Some firstEntry.
Proof.
  assert (H1 : nth_error (envs afterFirstDeclaration)
                 (currentEnv afterFirstDeclaration) = Some globalScope)
    by (vm_compute; reflexivity).
  assert (H2 : map_get (symbols globalScope) (vd_name redeclareX)
               = Some firstEntry)
    by (vm_compute; reflexivity).
  split; [exact H1|]. split; [exact H2|].
  exact (redeclaration_keeps_first_binding redeclareX useX
           afterFirstDeclaration globalScope firstEntry H1 H2).
Defined.

(** ** Unions *)

(** X10, at the literal type "a" against [string | number] and at the
    union of "a" and "b" against [string]. *)
Lemma union_assignability_witness :
  ~ In (kind literalA) Assignability.settledBeforeUnion
  /\ (Assignability.isAssignable literalA
        (UnionTypeValue [createStringType; createNumberType]) = true
      <-> exists t, In t [createStringType; createNumberType]
                    /\ Assignability.isAssignable literalA t = true)
  /\ kind createStringType <> "union"
  /\ (Assignability.isAssignable (UnionTypeValue [literalA; literalB])
        createStringType = true
      <-> forall s, In s [literalA; literalB] ->
                    Assignability.isAssignable s createStringType = true).
Proof.
  assert (H1 : ~ In (kind literalA) Assignability.settledBeforeUnion)
    by (simpl; intuition discriminate).
  assert (H2 : kind createStringType <> "union") by discriminate.
  split; [exact H1|]. split.
  - exact (proj1 Assignability.union_assignability literalA
             [createStringType; createNumberType] H1).
  - split; [exact H2|].
    exact (proj2 Assignability.union_assignability [literalA; literalB]
             createStringType H2).
Defined.

(** ** Environments *)

Lemma newTypeChecker_wellFormed : wellFormed (envs newTypeChecker).
Proof.
  intros [|env] e p He Hp.
  - vm_compute in He. injection He as <-. discriminate Hp.
  - destruct env; discriminate He.
Qed.

(** X12, at a definition of [x] in the global environment. *)
Lemma define_then_lookup_witness :
  0 < length (envs newTypeChecker)
  /\ let store' := store_define (envs newTypeChecker) 0 "x" firstEntry in
     store_lookup store' 0 "x" = Some firstEntry
     /\ store_hasLocal store' 0 "x" = true
     /\ (forall env' name', name' <> "x" ->
           store_lookup store' env' name'
           = store_lookup (envs newTypeChecker) env' name').
Proof.
  assert (H : 0 < length (envs newTypeChecker)) by (vm_compute; lia).
  split; [exact H|].
  exact (define_then_lookup (envs newTypeChecker) 0 "x" firstEntry H).
Defined.

(** X13, at a new environment under the global one, and [console]. *)
Lemma new_environment_inherits_witness :
  wellFormed (envs newTypeChecker)
  /\ 0 < length (envs newTypeChecker)
  /\ let env := fst (newTypeEnvironment 0 newTypeChecker) in
     let s' := snd (newTypeEnvironment 0 newTypeChecker) in
     store_hasLocal (envs s') env "console" = false
     /\ store_lookup (envs s') env "console"
        = store_lookup (envs newTypeChecker) 0 "console"
     /\ (forall env', env' < length (envs newTypeChecker) ->
           store_lookup (envs s') env' "console"
           = store_lookup (envs newTypeChecker) env' "console")
     /\ wellFormed (envs s').
Proof.
  assert (H : 0 < length (envs newTypeChecker)) by (vm_compute; lia).
  split; [exact newTypeChecker_wellFormed|]. split; [exact H|].
  exact (new_environment_inherits newTypeChecker 0 "console"
           newTypeChecker_wellFormed H).
Defined.

Definition blockScope : Store :=
  envs (snd (newTypeEnvironment 0 newTypeChecker)).

(** X14, at a definition of [x] in an environment under the global
    one. *)
Lemma inner_definition_invisible_outside_witness :
  wellFormed blockScope
  /\ 0 < 1
  /\ store_lookup (store_define blockScope 1 "x" firstEntry) 0 "x"
     = store_lookup blockScope 0 "x".
Proof.
  assert (H : wellFormed blockScope).
  { apply wellFormed_new; [exact newTypeChecker_wellFormed|].
    vm_compute; lia. }
  split; [exact H|]. split; [lia|].
  exact (inner_definition_invisible_outside blockScope 1 0 "x" "x" firstEntry
           H (Nat.lt_0_1)).
Defined.

(** ** Declarations and scopes *)

Definition builtinScope : TypeEnvironment :=
  nth 0 (envs newTypeChecker) {| symbols := []; types := []; parent := None |}.

(** X15, at [let x = 1;] in the global environment. *)
Lemma declaration_binds_name_witness :
  nth_error (envs newTypeChecker) (currentEnv newTypeChecker)
  = Some builtinScope
  /\ map_get (symbols builtinScope) (vd_name (declareX (NumericLiteral 1%N 1)))
     = None
  /\ let s1 :=
       snd (checkStatement
              (VariableDeclaration (declareX (NumericLiteral 1%N 1)))
              newTypeChecker) in
     currentEnv s1 = currentEnv newTypeChecker
     /\ store_lookup (envs s1) (currentEnv s1)
          (vd_name (declareX (NumericLiteral 1%N 1)))
        = Some (declaredEntry (declareX (NumericLiteral 1%N 1)) newTypeChecker)
     /\ (forall name entry,
           map_get (symbols builtinScope) name = Some entry ->
           store_lookup (envs s1) (currentEnv s1) name = Some entry).
Proof.
  assert (H1 : nth_error (envs newTypeChecker) (currentEnv newTypeChecker)
               = Some builtinScope) by (vm_compute; reflexivity).
  assert (H2 : map_get (symbols builtinScope)
                 (vd_name (declareX (NumericLiteral 1%N 1))) = None)
    by (vm_compute; reflexivity).
  split; [exact H1|]. split; [exact H2|].
  exact (declaration_binds_name (declareX (NumericLiteral 1%N 1))
           newTypeChecker builtinScope H1 H2).
Defined.

(** The block [{ let x = 1; }]. *)
Definition blockWithDeclaration : Statement :=
  BlockStatement [VariableDeclaration (declareX (NumericLiteral 1%N 1))] 1.

(** X16, at the block [{ let x = 1; }]. *)
Lemma statement_scopes_are_local_witness :
  checkedInPlace blockWithDeclaration = false
  /\ let s' := snd (checkStatement blockWithDeclaration newTypeChecker) in
     currentEnv s' = currentEnv newTypeChecker
     /\ currentReturnType s' = currentReturnType newTypeChecker
     /\ inLoop s' = inLoop newTypeChecker
     /\ (forall env, env < length (envs newTypeChecker) ->
           nth_error (envs s') env = nth_error (envs newTypeChecker) env).
Proof.
  split; [reflexivity|].
  exact (statement_scopes_are_local blockWithDeclaration newTypeChecker
           eq_refl).
Defined.

(** The program [f(); function f() {}]. *)
Definition callBeforeDeclaration : list Statement :=
  [ExpressionStatement (CallExpression (Identifier "f" 1) [] false 1) 1;
   FunctionDeclaration "f" [] None [] false false 2].

(** X18, at [f(); function f() {}]. *)
Lemma function_declarations_are_hoisted_witness :
  0 < length (envs newTypeChecker)
  /\ existsb (declaresFunction "f") callBeforeDeclaration = true
  /\ let registered :=
       snd (registrationPasses callBeforeDeclaration newTypeChecker) in
     exists stmt ps r,
       In stmt callBeforeDeclaration /\ registeredAs stmt "f" ps r
       /\ store_lookup (envs registered) 0 "f" = Some (FunctionEntry ps r)
       /\ forall checked,
            store_lookup
              (envs (snd (forEach checkStatement checked registered))) 0 "f"
            = Some (FunctionEntry ps r).
Proof.
  assert (H1 : 0 < length (envs newTypeChecker)) by (vm_compute; lia).
  assert (H2 : existsb (declaresFunction "f") callBeforeDeclaration = true)
    by reflexivity.
  split; [exact H1|]. split; [exact H2|].
  exact (function_declarations_are_hoisted callBeforeDeclaration "f"
           newTypeChecker H1 H2).
Defined.

(** The class [class A { x; }], registered. *)
Definition classA : TypeValue :=
  ClassType "A"
    [("x", {| cmember_type := createAnyType; cmember_accessibility := None;
              cmember_static := false |})]
    [].

Definition afterClassA : TypeChecker :=
  snd (registerClassType (S := Statement) "A" None
         [PropertyDeclaration "x" None None None false] newTypeChecker).

(** X19, at [class B extends A {}]. *)
Lemma subclass_inherits_members_witness :
  store_lookup (envs afterClassA) 0 "A" = Some (Entry classA Kclass None)
  /\ entry_type (Entry classA Kclass None)
     = ClassType "A"
         [("x", {| cmember_type := createAnyType;
                   cmember_accessibility := None;
                   cmember_static := false |})]
         []
  /\ let s' :=
       snd (registerClassType (S := Statement) "B"
              (Some (Identifier "A" 1)) [] afterClassA) in
     exists classMembers classStatic,
       store_lookup (envs s') 0 "B"
       = Some (Entry (ClassType "B" classMembers classStatic) Kclass None)
       /\ store_lookupType (envs s') 0 "B"
          = Some (ClassType "B" classMembers classStatic)
       /\ (forall k v,
             map_get
               [("x", {| cmember_type := createAnyType;
                         cmember_accessibility := None;
                         cmember_static := false |})] k = Some v ->
             exists v', map_get classMembers k = Some v'
                        /\ (existsb (declaresMember false k)
                              (@nil (ClassMember Expression Statement)) = false ->
                            v' = v))
       /\ (forall k v, map_get (@nil (string * TypeValue)) k = Some v ->
             exists v', map_get classStatic k = Some v'
                        /\ (existsb (declaresMember true k)
                              (@nil (ClassMember Expression Statement)) = false ->
                            v' = v)).
Proof.
  assert (H1 : store_lookup (envs afterClassA) 0 "A"
               = Some (Entry classA Kclass None)) by (vm_compute; reflexivity).
  split; [exact H1|]. split; [reflexivity|].
  exact (subclass_inherits_members (S := Statement) "B" "A" 1 [] afterClassA
           (Entry classA Kclass None) "A" _ _ H1 eq_refl).
Defined.

(** ** The lexer *)

(** X21, at the source [x]. *)
Lemma tokens_end_with_the_only_EOF_witness :
  Lexer.tokenize "x"
  = Ok [token TokenType.Identifier "x" 1 1; token TokenType.EOF "" 1 2]
  /\ exists body line column,
       [token TokenType.Identifier "x" 1 1; token TokenType.EOF "" 1 2]
       = (body ++ [LexerProperties.endOfFile line column])%list
       /\ Forall (fun t => tok_type t <> TokenType.EOF) body.
Proof.
  assert (H : Lexer.tokenize "x"
              = Ok [token TokenType.Identifier "x" 1 1;
                    token TokenType.EOF "" 1 2]) by (vm_compute; reflexivity).
  split; [exact H|].
  exact (LexerProperties.tokens_end_with_the_only_EOF "x" H).
Defined.

(** X22, at the word [toString], which is no identifier for the
    lexer. *)
Lemma word_lexes_to_one_token_witness :
  LexerProperties.isWord "toString" = true
  /\ Lexer.tokenize "toString"
     = Ok [ {| tok_type := Lexer.keywordOrIdentifier "toString";
               tok_value := "toString"; tok_line := 1; tok_column := 1 |};
            LexerProperties.endOfFile 1 (1 + String.length "toString") ]
  /\ (Lexer.keywordOrIdentifier "toString" = TokenType.Identifier
      <-> map_get Lexer.KEYWORDS "toString" = None
          /\ ~ In "toString" Lexer.objectPrototypeProperties).
Proof.
  split; [reflexivity|].
  exact (LexerProperties.word_lexes_to_one_token "toString" eq_refl).
Defined.

(** The text of two lines [a] and [b]. *)
Definition twoLines : string := "a" ++ newline ++ "b".

(** X23, at the text of two lines [a] and [b]. *)
Lemma emitted_string_literal_lexes_back_witness :
  (forall c, In c (list_ascii_of_string twoLines) ->
     nat_of_ascii c <> 8 /\ nat_of_ascii c <> 12)
  /\ Lexer.tokenize (Emitter.JSON_stringify twoLines)
     = Ok [token TokenType.StringLiteral twoLines 1 1;
           LexerProperties.endOfFile 1 7]
  /\ LexerProperties.readBack twoLines = twoLines.
Proof.
  assert (H : forall c, In c (list_ascii_of_string twoLines) ->
                nat_of_ascii c <> 8 /\ nat_of_ascii c <> 12).
  { intros c [<-|[<-|[<-|[]]]]; split; intros E; vm_compute in E;
      discriminate E. }
  split; [exact H|]. split.
  - exact (proj1 (LexerProperties.emitted_string_literal_lexes_back twoLines)).
  - exact (proj2 (LexerProperties.emitted_string_literal_lexes_back twoLines) H).
Defined.

(** A string literal that is not closed: a double quote, then [abc]. *)
Definition unterminatedString : string := quote ++ "abc".

(** X24, at the source made of a double quote and [abc]. *)
Lemma unterminated_string_is_an_error_witness :
  (Lexer.c_dquote = Lexer.c_dquote \/ Lexer.c_dquote = Lexer.c_squote)
  /\ Lexer.lx_rest (Lexer.initialState unterminatedString)
     = (Lexer.c_dquote :: ["a"; "b"; "c"]%char ++ [])%list
  /\ forallb (LexerProperties.plainIn Lexer.c_dquote) ["a"; "b"; "c"]%char = true
  /\ LexerProperties.endsLine [] = true
  /\ Lexer.tokenize_from (Lexer.initialState unterminatedString)
     = Throw (Lexer.UnterminatedString
                (Lexer.lx_line (Lexer.initialState unterminatedString))).
Proof.
  split; [left; reflexivity|]. split; [reflexivity|].
  split; [reflexivity|]. split; [reflexivity|].
  exact (LexerProperties.unterminated_string_is_an_error
           (Lexer.initialState unterminatedString) (quote := Lexer.c_dquote)
           ["a"; "b"; "c"]%char [] (or_introl eq_refl) eq_refl eq_refl eq_refl).
Defined.

(** [x; // c], then [  #y] on the second line. *)
Definition strayCharacterSource : string := "x; // c" ++ newline ++ "  #y".

Definition beforeStrayCharacter : list ascii :=
  (" " :: "/" :: "/" :: [" "; "c"] ++ Lexer.c_newline :: [" "; " "])%char%list.

Lemma skippable_beforeStrayCharacter :
  LexerProperties.skippable beforeStrayCharacter.
Proof.
  apply LexerProperties.skippable_blank; [reflexivity|].
  apply LexerProperties.skippable_line; [reflexivity|].
  apply LexerProperties.skippable_blank; [reflexivity|].
  apply LexerProperties.skippable_blank; [reflexivity|].
  apply LexerProperties.skippable_nil.
Defined.

Lemma tokenizing_strayCharacterSource :
  LexerProperties.tokenizing strayCharacterSource
    (afterSemicolon (" // c" ++ newline ++ "  #y")).
Proof.
  apply LexerProperties.tokenizing_next
    with (st := afterX ("; // c" ++ newline ++ "  #y"));
    [|reflexivity|vm_compute; reflexivity].
  apply LexerProperties.tokenizing_next
    with (st := Lexer.initialState strayCharacterSource);
    [|reflexivity|vm_compute; reflexivity].
  apply LexerProperties.tokenizing_start.
Defined.

(** X25, at [x; // c], then [  #y] on the second line: the error is at
    line 2, column 3. *)
Lemma unexpected_character_is_an_error_witness :
  LexerProperties.tokenizing strayCharacterSource
    (afterSemicolon (" // c" ++ newline ++ "  #y"))
  /\ LexerProperties.skippable beforeStrayCharacter
  /\ Lexer.lx_rest (afterSemicolon (" // c" ++ newline ++ "  #y"))
     = (beforeStrayCharacter ++ "#" :: ["y"])%char%list
  /\ LexerProperties.startsToken "#" = false
  /\ Lexer.tokenize strayCharacterSource
     = Throw (Lexer.UnexpectedCharacter "#" 2 3).
Proof.
  split; [exact tokenizing_strayCharacterSource|].
  split; [exact skippable_beforeStrayCharacter|].
  split; [reflexivity|]. split; [reflexivity|].
  exact (@LexerProperties.unexpected_character_is_an_error _ _
           strayCharacterSource
           (afterSemicolon (" // c" ++ newline ++ "  #y"))
           beforeStrayCharacter "#"%char ["y"]%char
           tokenizing_strayCharacterSource skippable_beforeStrayCharacter
           eq_refl eq_refl).
Defined.

(** ** The emitter *)

Definition useOf (name : string) : Statement :=
  ExpressionStatement (Identifier name 1) 1.

Definition indentedOnce : Emitter.EmitterState :=
  {| Emitter.output := "{" ++ newline; Emitter.indentLevel := 1 |}.

Definition afterUseOfX : Emitter.EmitterState :=
  {| Emitter.output := "{" ++ newline ++ "  x;" ++ newline;
     Emitter.indentLevel := 1 |}.

(** X26, at the statement [x;] one level deep. *)
Lemma emitStatement_appends_witness :
  Emitter.emitStatement (useOf "x") indentedOnce = Some afterUseOfX
  /\ Emitter.indentLevel afterUseOfX = Emitter.indentLevel indentedOnce
  /\ exists text,
       Emitter.output afterUseOfX = Emitter.output indentedOnce ++ text.
Proof.
  split; [reflexivity|].
  exact (EmitterProperties.emitStatement_appends (useOf "x") indentedOnce
           (st' := afterUseOfX) eq_refl).
Defined.

(** X27, at the program [x; y;]. *)
Lemma emit_is_incremental_witness :
  Emitter.emit {| statements := ([useOf "x"] ++ [useOf "y"])%list |}
  = Some ("x;" ++ newline ++ "y;" ++ newline)
  /\ exists outFirst text,
       Emitter.emit {| statements := [useOf "x"] |} = Some outFirst
       /\ "x;" ++ newline ++ "y;" ++ newline = outFirst ++ text.
Proof.
  split; [reflexivity|].
  exact (EmitterProperties.emit_is_incremental [useOf "x"] [useOf "y"]
           (out := "x;" ++ newline ++ "y;" ++ newline) eq_refl).
Defined.

(** The statements [while (x) x;] and [for (k in x) x;]. *)
Definition whileX : Statement := WhileStatement (Identifier "x" 1) (useOf "x") 1.

Definition forKInX : Statement :=
  ForInStatement (inr "k") (Identifier "x" 1) (useOf "x") 1.

(** X28, at the body [while (x) x;] and at the arrow function
    [() => { for (k in x) x; }]. *)
Lemma function_bodies_are_printed_in_part_witness :
  EmitterProperties.printedInline whileX = false
  /\ Emitter.emitStatementInline whileX = Some ""
  /\ existsb EmitterProperties.isForIn [forKInX] = true
  /\ Emitter.emitExpression (ArrowFunction [] None (inr [forKInX]) false 1)
     = None.
Proof.
  split; [reflexivity|]. split.
  - exact (proj1 EmitterProperties.function_bodies_are_printed_in_part whileX
             eq_refl).
  - split; [reflexivity|].
    exact (proj2 (proj2 EmitterProperties.function_bodies_are_printed_in_part
                    [forKInX] eq_refl) [] None false 1).
Defined.

(** ** [compile] *)

(** The engine's messages play no part in the examples, and the
    sources stay in the embedded productions of the parser. *)
Definition noEngineMessage (source : string) (thrown : Compiler.Thrown)
    : string := "".

Definition parseNothingElse (tokens : list Token) : Compiler.Parsed :=
  Compiler.Raised "".

Definition defaultOptions : Compiler.CompileOptions :=
  {| Compiler.skipTypeCheck := false; Compiler.includeAST := false;
     Compiler.includeTokens := false |}.

(** The result for a source whose third line has a string that is not
    closed: the message names line 3, the error is at line 1. *)
Definition unterminatedStringResult : Compiler.CompileResult :=
  {| Compiler.success := false;
     Compiler.output := None;
     Compiler.errors :=
       [{| message := "Unterminated string at line 3"; line := 1 |}];
     Compiler.ast := None;
     Compiler.tokens := None |}.

(** [compile] on the text emitted for [enum E { A = "\n" }]. *)
Lemma compile_reports_lexer_error_at_line_1 :
  Compiler.compile noEngineMessage parseNothingElse enumWithNewlineOutput
    defaultOptions
  = Some unterminatedStringResult.
Proof. vm_compute. reflexivity. Qed.

(** ** The lowering of [enum Color { Red, Green, Blue }] *)

Definition colorMember (name : string) : EnumMember Expression :=
  {| em_name := name; em_initializer := None |}.

Definition colorProgram : Program :=
  {| statements :=
       [EnumDeclaration "Color"
          [colorMember "Red"; colorMember "Green"; colorMember "Blue"]
          false 1] |}.

Definition colorLine (name value : string) : string :=
  "  Color[Color[" ++ quote ++ name ++ quote ++ "] = " ++ value ++ "] = "
  ++ quote ++ name ++ quote ++ ";" ++ newline.

(** The source [enum Color { Red, Green, Blue }] parses, and is
    emitted as [var Color;] and the function whose body assigns 0, 1
    and 2 both ways. *)
Theorem color_enum_is_lowered :
  parseSource "enum Color { Red, Green, Blue }" = Ok colorProgram
  /\ Emitter.emit colorProgram
     = Some ("var Color;" ++ newline
             ++ "(function (Color) {" ++ newline
             ++ colorLine "Red" "0"
             ++ colorLine "Green" "1"
             ++ colorLine "Blue" "2"
             ++ "})(Color || (Color = {}));" ++ newline).
Proof. split; vm_compute; reflexivity. Qed.

End Examples.
